(** * Safe flight paths on a sphere: the two solutions of this repository

    [src/main.c] and [src/main.cpp] solve the same problem: airports on a
    sphere, a safety radius around each, and queries for the shortest
    multi-leg route whose legs stay inside the union of the safety disks.

    Number model.  The sources compute in [double] (main.c) and
    [long double] (main.cpp).  Here every such value is a real number of
    the Standard Library, arithmetic is exact, the macros [PI] / [M_PI]
    are the real number [PI], and [cos], [sin], [sqrt], [acos], [atan]
    are the Standard Library's functions.  Rounding is therefore outside
    this model; where rounding decides a claim, the Floyd-Warshall pass
    of main.c is given once more on binary64 numbers ([MainC64]).
    main.c's [INF] is the finite number [1e100], as in the source;
    main.cpp's [INF] is a true infinity and gets a constructor of its
    own ([ereal]).  Division by zero and the not-a-number outcome of
    [acos] outside [-1,1] have no counterpart in the reals: the
    definitions that can meet them say so. *)

From Stdlib Require Import Reals Lra Lia List Arith Bool ZArith.
From Stdlib Require Import Permutation Sorted FunctionalExtensionality.
From Corelib Require PrimFloat.
Import ListNotations.

Open Scope R_scope.

(** ** Shared helpers *)

(** A counted loop [for (i = 0; i < n; i++) s = body i s]. *)
Fixpoint for_up {S : Type} (n : nat) (body : nat -> S -> S) (s : S) : S :=
  match n with
  | O => s
  | Datatypes.S m => body m (for_up m body s)
  end.

(** An array of reals indexed by two integers, and the store [D[i][j] = v]. *)
Definition upd {T : Type} (D : nat -> nat -> T) (i j : nat) (v : T)
  : nat -> nat -> T :=
  fun a b => if (a =? i)%nat && (b =? j)%nat then v else D a b.

(** A one-dimensional array and its store. *)
Definition upd1 {T : Type} (d : nat -> T) (i : nat) (v : T) : nat -> T :=
  fun a => if (a =? i)%nat then v else d a.

(** [atan2] of the C library, from the arc tangent: the angle of the
    point [(x0, y0)] in [(-PI, PI]]. *)
Definition atan2 (y0 x0 : R) : R :=
  if Rlt_dec 0 x0 then atan (y0 / x0)
  else if Rlt_dec x0 0 then
         (if Rle_dec 0 y0 then atan (y0 / x0) + PI else atan (y0 / x0) - PI)
  else if Rlt_dec 0 y0 then PI / 2
  else if Rlt_dec y0 0 then - (PI / 2)
  else 0.

(** The domain of [acos]: outside it the C library returns not-a-number. *)
Definition acos_domain (a : R) : Prop := -1 <= a <= 1.

(** [acos] as the C library computes it: not-a-number ([None]) outside
    its domain. *)
Definition acos_nan (a : R) : option R :=
  if Rle_dec (-1) a then (if Rle_dec a 1 then Some (acos a) else None)
  else None.

(** What a query prints: a distance or the token "impossible". *)
Inductive answer : Type :=
| Impossible : answer
| Distance : R -> answer.

(** Insertion sort by a boolean "not after" test; the sources sort with
    [qsort] and [std::sort]. *)
Fixpoint insert_by {T : Type} (leb : T -> T -> bool) (a : T) (l : list T)
  : list T :=
  match l with
  | [] => [a]
  | b :: l' => if leb a b then a :: l else b :: insert_by leb a l'
  end.

Fixpoint sort_by {T : Type} (leb : T -> T -> bool) (l : list T) : list T :=
  match l with
  | [] => []
  | a :: l' => insert_by leb a (sort_by leb l')
  end.

Definition Rleb (a b : R) : bool := if Rle_dec a b then true else false.
Definition Rltb (a b : R) : bool := if Rlt_dec a b then true else false.

(** ** src/main.c *)
Module MainC.

Definition INF : R := 1e100.
Definition EARTH_R : R := 6370.

Record Vec : Type := mkVec { x : R; y : R; z : R }.

Definition dot (a b : Vec) : R := x a * x b + y a * y b + z a * z b.

Definition cross (a b : Vec) : Vec :=
  mkVec (y a * z b - z a * y b)
        (z a * x b - x a * z b)
        (x a * y b - y a * x b).

Definition norm (a : Vec) : R := sqrt (dot a a).

Definition scale (v : Vec) (s : R) : Vec := mkVec (x v * s) (y v * s) (z v * s).

Definition addv (a b : Vec) : Vec := mkVec (x a + x b) (y a + y b) (z a + z b).

Definition subv (a b : Vec) : Vec := mkVec (x a - x b) (y a - y b) (z a - z b).

Definition normalize (v : Vec) : Vec :=
  let n := norm v in
  if Rlt_dec 0 n then scale v (1 / n) else v.

Definition sph2vec (lon_deg lat_deg : R) : Vec :=
  let lon := lon_deg * PI / 180 in
  let lat := lat_deg * PI / 180 in
  let cl := cos lat in
  let sl := sin lat in
  mkVec (cl * cos lon) (cl * sin lon) sl.

(** [compare_intervals a b <= 0]: the order [qsort] sorts by. *)
Definition compare_intervals (a b : R * R) : bool := Rleb (fst a) (fst b).

(** The body of the loop over airport pairs (lines 93-124): the boundary
    points of the two safety circles around [u] and [v] that the loop
    appends to [V]. *)
Definition boundary_points (cosA alpha : R) (u v : Vec) : list Vec :=
  let cuv := dot u v in
  if Rlt_dec cuv (cos (2 * alpha) - 1e-12) then []
  else
    let Delta := 1 - cuv * cuv in
    if Rlt_dec Delta 1e-15 then []
    else
      let k := cosA * (1 - cuv) / Delta in
      let p := mkVec (k * (x u + x v)) (k * (y u + y v)) (k * (z u + z v)) in
      let p2 := dot p p in
      let h2 := 1 - p2 in
      let h2 := if Rlt_dec h2 0 then 0 else h2 in
      let h := sqrt h2 in
      let n := cross u v in
      let nl := norm n in
      if Rlt_dec nl 1e-15 then []
      else
        let n := scale n (1 / nl) in
        let n := scale n h in
        let i1 := addv p n in
        let i2 := subv p n in
        [normalize i1; normalize i2].

(** The double loop [for i, for j = i+1] over the airports. *)
Fixpoint intersections (cosA alpha : R) (airports : list Vec) : list Vec :=
  match airports with
  | [] => []
  | u :: rest =>
      flat_map (boundary_points cosA alpha u) rest
      ++ intersections cosA alpha rest
  end.

(** The node list [V]: the airports, then the boundary points. *)
Definition nodes (cosA alpha : R) (airports : list Vec) : list Vec :=
  airports ++ intersections cosA alpha airports.

(** [while (t < 0) t += 2*PI;], run for at most [fuel] rounds. *)
Fixpoint wrap_up (fuel : nat) (t : R) : R :=
  match fuel with
  | O => t
  | S f => if Rlt_dec t 0 then wrap_up f (t + 2 * PI) else t
  end.

(** [while (t > 2*PI) t -= 2*PI;], run for at most [fuel] rounds. *)
Fixpoint wrap_down (fuel : nat) (t : R) : R :=
  match fuel with
  | O => t
  | S f => if Rgt_dec t (2 * PI) then wrap_down f (t - 2 * PI) else t
  end.

(** [phi - delta] and [phi + delta] lie in [[-2*PI, 2*PI]], so each loop
    of the normalisation runs at most once; two rounds are given. *)
Definition wrap_fuel : nat := 2.

Definition normalize_angle (t : R) : R :=
  wrap_down wrap_fuel (wrap_up wrap_fuel t).

(** The body of the loop over airports (lines 149-192) for one airport
    [Ai]: the intervals of the arc parameter it appends to [ivs].  When
    [acos] returns not-a-number, so are [t1] and [t2]; every comparison
    on them is false and nothing is appended. *)
Definition coverage (abU abW Ai : Vec) (cosA theta_ab : R) : list (R * R) :=
  let du := dot abU Ai in
  let dw := dot abW Ai in
  let Rv := sqrt (du * du + dw * dw) in
  if Rlt_dec Rv 1e-15 then []
  else if Rlt_dec Rv cosA then []
  else
    let phi := atan2 dw du in
    match acos_nan (cosA / Rv) with
    | None => []
    | Some delta =>
        let t1 := normalize_angle (phi - delta) in
        let t2 := normalize_angle (phi + delta) in
        if Rle_dec t1 t2 then
          if Rlt_dec t2 0 then []
          else if Rgt_dec t1 theta_ab then []
          else [(Rmax 0 t1, Rmin theta_ab t2)]
        else
          (if Rle_dec t1 theta_ab then [(t1, theta_ab)] else [])
          ++ (if Rge_dec t2 0 then
                let uu := Rmax 0 0 in
                let vv := Rmin theta_ab t2 in
                if Rgt_dec vv uu then [(uu, vv)] else []
              else [])
    end.

(** The argument that [coverage] hands to [acos] (line 160), when the
    airport passes the two guards before it. *)
Definition coverage_acos_arg (abU abW Ai : Vec) (cosA : R) : option R :=
  let du := dot abU Ai in
  let dw := dot abW Ai in
  let Rv := sqrt (du * du + dw * dw) in
  if Rlt_dec Rv 1e-15 then None
  else if Rlt_dec Rv cosA then None
  else Some (cosA / Rv).

(** The clamped cosine and the angle between two nodes (lines 136-138). *)
Definition clamp_cab (cab : R) : R :=
  if Rgt_dec cab 1 then 1 else if Rlt_dec cab (-1) then -1 else cab.

Definition theta_of (a b : Vec) : R := acos (clamp_cab (dot a b)).

(** The basis of the arc's plane as the code computes it (lines 141-144).
    The quotient is the reals' ([a / 0 = 0]); the source divides by
    [sin (PI)] only for antipodal nodes.  There the program divides by
    the sine of the double nearest to [PI], about [1.2e-16], and gets a
    [W] that is not the model's: what is proved of the intervals of an
    antipodal pair is proved of the model only. *)
Definition basis_W (a b : Vec) (theta_ab : R) : Vec :=
  scale (subv b a) (1 / sin theta_ab).

(** All intervals gathered for the arc from [a] to [b]. *)
Definition gather (airports : list Vec) (cosA : R) (a b : Vec) (theta_ab : R)
  : list (R * R) :=
  flat_map (fun Ai => coverage a (basis_W a b theta_ab) Ai cosA theta_ab)
           airports.

(** The inner [while] of the sweep (lines 200-203): consumes the intervals
    that start at or before [reach + 1e-12]. *)
Fixpoint sweep_inner (reach best : R) (l : list (R * R)) : R * list (R * R) :=
  match l with
  | [] => (best, [])
  | iv :: l' =>
      if Rle_dec (fst iv) (reach + 1e-12)
      then sweep_inner reach (if Rgt_dec (snd iv) best then snd iv else best) l'
      else (best, l)
  end.

(** The outer [while] (lines 198-206).  Every round consumes an interval,
    so [fuel = ivn] rounds are enough. *)
Fixpoint sweep (fuel : nat) (theta_ab reach : R) (l : list (R * R)) : R :=
  match fuel with
  | O => reach
  | S f =>
      match l with
      | [] => reach
      | iv :: _ =>
          if Rle_dec (fst iv) (reach + 1e-12) then
            let '(best, l') := sweep_inner reach reach l in
            if Rge_dec best (theta_ab - 1e-12) then best
            else sweep f theta_ab best l'
          else reach
      end
  end.

(** Lines 194-207: is the arc covered by the gathered intervals? *)
Definition covered (theta_ab : R) (ivs : list (R * R)) : bool :=
  match ivs with
  | [] => false
  | _ =>
      let s := sort_by compare_intervals ivs in
      let reach := sweep (length s) theta_ab 0 s in
      if Rge_dec reach (theta_ab - 1e-12) then true else false
  end.

(** The entry the loop over node pairs leaves in [D[a][b]] for [a < b],
    from the arc's angle and its gathered intervals (lines 139, 194-211). *)
Definition arc_edge (theta_ab : R) (ivs : list (R * R)) : R :=
  if Rlt_dec theta_ab 1e-12 then INF
  else if covered theta_ab ivs then theta_ab * EARTH_R
  else INF.

Definition direct (airports : list Vec) (cosA : R) (a b : Vec) : R :=
  let theta_ab := theta_of a b in
  arc_edge theta_ab (gather airports cosA a b theta_ab).

Definition zero_vec : Vec := mkVec 0 0 0.

(** The matrix [D] before the shortest-path pass (lines 126-212).  Entries
    outside [Vn x Vn] are never read by the code; they are [INF] here. *)
Definition D_init (airports V : list Vec) (cosA : R) : nat -> nat -> R :=
  fun i j =>
    if (i =? j)%nat then 0
    else if (i <? length V)%nat && (j <? length V)%nat then
           direct airports cosA (nth (Nat.min i j) V zero_vec)
                                (nth (Nat.max i j) V zero_vec)
         else INF.

(** One relaxation (lines 219-220). *)
Definition relax (D : nat -> nat -> R) (k i j : nat) : nat -> nat -> R :=
  let via := D i k + D k j in
  if Rlt_dec via (D i j) then upd D i j via else D.

(** Floyd-Warshall on the node graph (lines 215-222). *)
Definition floyd_row (Vn k i : nat) (D : nat -> nat -> R) : nat -> nat -> R :=
  if Rge_dec (D i k) INF then D
  else for_up Vn (fun j D' => relax D' k i j) D.

Definition floyd_round (Vn k : nat) (D : nat -> nat -> R) : nat -> nat -> R :=
  for_up Vn (floyd_row Vn k) D.

Definition floyd (Vn : nat) (D : nat -> nat -> R) : nat -> nat -> R :=
  for_up Vn (floyd_round Vn) D.

(** The sums [via = D[i][k] + D[k][j]] the pass computes, in order: the
    same loops, recording for each sum its two operands and the entry
    [D[i][j]] it is compared with. *)
Definition floyd_row_adds (Vn k i : nat)
           (st : (nat -> nat -> R) * list (R * R * R))
  : (nat -> nat -> R) * list (R * R * R) :=
  if Rge_dec (fst st i k) INF then st
  else for_up Vn (fun j st' =>
                    (relax (fst st') k i j,
                     snd st' ++ [(fst st' i k, fst st' k j, fst st' i j)])) st.

Definition floyd_adds (Vn : nat) (D : nat -> nat -> R)
  : (nat -> nat -> R) * list (R * R * R) :=
  for_up Vn (fun k st => for_up Vn (floyd_row_adds Vn k) st) (D, []).

(** Dijkstra's state: [distN] and [used]. *)
Definition dstate : Type := (nat -> R) * (nat -> bool).

(** The selection loop (lines 245-248): [u] and [best]; [None] is [u = -1]. *)
Definition select (N : nat) (st : dstate) : option nat * R :=
  for_up N (fun i ub =>
              if negb (snd st i) && Rltb (fst st i) (snd ub)
              then (Some i, fst st i) else ub)
         (None, INF).

(** The relaxation loop over [v] (lines 251-256). *)
Definition relax_from (N : nat) (AtoA : nat -> nat -> R) (c : R) (u : nat)
           (distN : nat -> R) : nat -> R :=
  for_up N (fun v d =>
              let w := AtoA u v in
              if Rleb w (c + 1e-9) && Rltb (d u + w) (d v)
              then upd1 d v (d u + w) else d)
         distN.

(** The loop over [it] (lines 244-257), with its [break]. *)
Fixpoint dijkstra_loop (it N : nat) (AtoA : nat -> nat -> R) (c : R)
         (st : dstate) : dstate :=
  match it with
  | O => st
  | S it' =>
      match fst (select N st) with
      | None => st
      | Some u =>
          dijkstra_loop it' N AtoA c
                        (relax_from N AtoA c u (fst st), upd1 (snd st) u true)
      end
  end.

(** The sums [distN[u] + w] the search computes, in order: the same
    loops, recording for each sum its two operands and the [distN[v]] it
    is compared with.  The sum is computed only when [w <= c + 1e-9]. *)
Definition relax_from_adds (N : nat) (AtoA : nat -> nat -> R) (c : R) (u : nat)
           (st : (nat -> R) * list (R * R * R))
  : (nat -> R) * list (R * R * R) :=
  for_up N (fun v st' =>
              let d := fst st' in
              let w := AtoA u v in
              if Rleb w (c + 1e-9) then
                ((if Rltb (d u + w) (d v) then upd1 d v (d u + w) else d),
                 snd st' ++ [(d u, w, d v)])
              else st')
         st.

Fixpoint dijkstra_loop_adds (it N : nat) (AtoA : nat -> nat -> R) (c : R)
         (st : dstate) (log : list (R * R * R)) : dstate * list (R * R * R) :=
  match it with
  | O => (st, log)
  | S it' =>
      match fst (select N st) with
      | None => (st, log)
      | Some u =>
          let dl := relax_from_adds N AtoA c u (fst st, log) in
          dijkstra_loop_adds it' N AtoA c (fst dl, upd1 (snd st) u true) (snd dl)
      end
  end.

Definition dijkstra_adds (N : nat) (AtoA : nat -> nat -> R) (c : R) (s : Z)
  : dstate * list (R * R * R) :=
  dijkstra_loop_adds N N AtoA c
    ((fun i => if (Z.of_nat i =? s)%Z then 0 else INF), fun _ => false) [].

(** [distN] after the query's search from the 0-based source [s]. *)
Definition dijkstra (N : nat) (AtoA : nat -> nat -> R) (c : R) (s : Z)
  : nat -> R :=
  fst (dijkstra_loop N N AtoA c
         ((fun i => if (Z.of_nat i =? s)%Z then 0 else INF), fun _ => false)).

(** A query (lines 234-262): [s] and [t] are the 1-based airports read. *)
Definition query (N : nat) (AtoA : nat -> nat -> R) (s t : Z) (c : R) : answer :=
  let distN := dijkstra N AtoA c (s - 1) in
  let dt := distN (Z.to_nat (t - 1)) in
  if Rge_dec dt (INF / 2) then Impossible else Distance dt.

(** One scenario: the radius [R] read as an integer, the airports'
    longitudes and latitudes. *)
Definition airports_of (lonlat : list (R * R)) : list Vec :=
  map (fun p => sph2vec (fst p) (snd p)) lonlat.

Definition alpha_of (R0 : Z) : R := IZR R0 / EARTH_R.

Definition node_list (R0 : Z) (lonlat : list (R * R)) : list Vec :=
  nodes (cos (alpha_of R0)) (alpha_of R0) (airports_of lonlat).

(** [D] after Floyd-Warshall; [AtoA] is its top-left [N x N] block. *)
Definition D_final (R0 : Z) (lonlat : list (R * R)) : nat -> nat -> R :=
  let airports := airports_of lonlat in
  let V := node_list R0 lonlat in
  floyd (length V) (D_init airports V (cos (alpha_of R0))).

(** The sums the scenario's Floyd-Warshall pass computes. *)
Definition floyd_log (R0 : Z) (lonlat : list (R * R)) : list (R * R * R) :=
  let airports := airports_of lonlat in
  let V := node_list R0 lonlat in
  snd (floyd_adds (length V) (D_init airports V (cos (alpha_of R0)))).

(** Lines 225-228: the airports' block of [D]. *)
Definition AtoA (R0 : Z) (lonlat : list (R * R)) : nat -> nat -> R :=
  fun i j => D_final R0 lonlat i j.

Definition run_query (R0 : Z) (lonlat : list (R * R)) (s t : Z) (c : R)
  : answer :=
  query (length lonlat) (AtoA R0 lonlat) s t c.

(** The sums a query's search computes. *)
Definition query_log (R0 : Z) (lonlat : list (R * R)) (s : Z) (c : R)
  : list (R * R * R) :=
  snd (dijkstra_adds (length lonlat) (AtoA R0 lonlat) c (s - 1)).

End MainC.

(** ** src/main.cpp *)
Module MainCpp.

Definition R_earth : R := 6370.
Definition EPS : R := 1e-9.

(** A [long double] that may be [INF]. *)
Inductive ereal : Type :=
| Fin : R -> ereal
| PInf : ereal.

Definition eadd (a b : ereal) : ereal :=
  match a, b with
  | Fin p, Fin q => Fin (p + q)
  | _, _ => PInf
  end.

Definition eltb (a b : ereal) : bool :=
  match a, b with
  | Fin p, Fin q => Rltb p q
  | Fin _, PInf => true
  | PInf, _ => false
  end.

(** [std::min (a, b)]. *)
Definition emin (a b : ereal) : ereal := if eltb b a then b else a.

Definition is_inf (a : ereal) : bool :=
  match a with PInf => true | Fin _ => false end.

Record Point : Type := mkPoint { x : R; y : R; z : R }.

(** [Point::Compare]. *)
Definition Compare (a b : Point) : bool :=
  if Rgt_dec (Rabs (x a - x b)) EPS then Rltb (x a) (x b)
  else if Rgt_dec (Rabs (y a - y b)) EPS then Rltb (y a) (y b)
  else Rltb (z a) (z b - EPS).

Definition padd (a b : Point) : Point := mkPoint (x a + x b) (y a + y b) (z a + z b).
Definition psub (a b : Point) : Point := mkPoint (x a - x b) (y a - y b) (z a - z b).
Definition pmul (a : Point) (s : R) : Point := mkPoint (x a * s) (y a * s) (z a * s).
Definition pdiv (a : Point) (s : R) : Point := mkPoint (x a / s) (y a / s) (z a / s).

Definition lat_lon_to_xyz (lat_deg lon_deg : R) : Point :=
  let lat_rad := lat_deg * PI / 180 in
  let lon_rad := lon_deg * PI / 180 in
  mkPoint (R_earth * cos lat_rad * cos lon_rad)
          (R_earth * cos lat_rad * sin lon_rad)
          (R_earth * sin lat_rad).

Definition dot (p1 p2 : Point) : R := x p1 * x p2 + y p1 * y p2 + z p1 * z p2.

Definition cross (p1 p2 : Point) : Point :=
  mkPoint (y p1 * z p2 - z p1 * y p2)
          (z p1 * x p2 - x p1 * z p2)
          (x p1 * y p2 - y p1 * x p2).

Definition magnitude (p : Point) : R := sqrt (dot p p).

Definition normalize (p : Point) : Point :=
  let mag := magnitude p in
  if Rlt_dec mag EPS then mkPoint 0 0 0 else pdiv p mag.

(** [max (-1, min (1, d))]. *)
Definition clamp (d : R) : R := Rmax (-1) (Rmin 1 d).

Definition dist_xyz (p1 p2 : Point) : R :=
  let u1 := normalize p1 in
  let u2 := normalize p2 in
  let d := clamp (dot u1 u2) in
  acos d * R_earth.

Definition point_at_angle_on_great_circle (u v : Point) (angle_from_u : R)
  : Point :=
  let u_norm := normalize u in
  let v_norm := normalize v in
  let angle_uv := acos (clamp (dot u_norm v_norm)) in
  if Rlt_dec angle_uv EPS then u
  else
    let v_ortho_norm := normalize (psub v_norm (pmul u_norm (dot u_norm v_norm))) in
    padd (pmul u_norm (cos angle_from_u)) (pmul v_ortho_norm (sin angle_from_u)).

Definition is_on_arc (u v p : Point) : bool :=
  let dist_uv := dist_xyz u v in
  let dist_up := dist_xyz u p in
  let dist_pv := dist_xyz p v in
  Rltb (Rabs (dist_up + dist_pv - dist_uv)) EPS.

Definition get_arc_parameter (u v p : Point) : R :=
  let dist_uv := dist_xyz u v in
  if Rlt_dec dist_uv EPS then 0
  else dist_xyz u p / dist_uv.

(** The value [cos_beta_arg] has when [acos] is called on it (line 141),
    if the two early returns are passed.  The quotient is the reals'
    ([a / 0 = 0]); the source divides by [cos (PI / 2)] only for antipodal
    centres, where its quotient (by the cosine of a rounded [PI / 2]) is
    not the model's. *)
Definition cos_beta_arg_at_acos (center1 center2 : Point) (R_sphere : R)
  : option R :=
  let c1_norm := normalize center1 in
  let c2_norm := normalize center2 in
  let r_ang := R_sphere / R_earth in
  let d_ang := acos (clamp (dot c1_norm c2_norm)) in
  if Rgt_dec d_ang (2 * r_ang + EPS) then None
  else if Rlt_dec d_ang EPS then None
  else
    let cos_beta_arg := cos r_ang / cos (d_ang / 2) in
    Some (if Rgt_dec cos_beta_arg (1 + EPS) then clamp cos_beta_arg
          else if Rlt_dec cos_beta_arg (-1 - EPS) then clamp cos_beta_arg
          else cos_beta_arg).

(** [beta] of line 141: [None] when the function returned before, else
    the result of [acos], itself [None] for not-a-number. *)
Definition beta_of (center1 center2 : Point) (R_sphere : R)
  : option (option R) :=
  option_map acos_nan (cos_beta_arg_at_acos center1 center2 R_sphere).

(** The points pushed (lines 143-157).  A point is [None] when its
    coordinates are not-a-number: [beta] was, and every coordinate is a
    product with [cos beta] or [sin beta].  The test [beta > EPS] is false
    for not-a-number, so only the first point is pushed then. *)
Definition get_small_circle_intersections (center1 center2 : Point)
           (R_sphere : R) : list (option Point) :=
  match beta_of center1 center2 R_sphere with
  | None => []
  | Some None => [None]
  | Some (Some beta) =>
      let c1_norm := normalize center1 in
      let c2_norm := normalize center2 in
      let d_ang := acos (clamp (dot c1_norm c2_norm)) in
      let m_norm := point_at_angle_on_great_circle c1_norm c2_norm (d_ang / 2) in
      let ortho_m_norm := normalize (cross m_norm (psub c1_norm c2_norm)) in
      let p1_norm := padd (pmul m_norm (cos beta)) (pmul ortho_m_norm (sin beta)) in
      let p2_norm := psub (pmul m_norm (cos beta)) (pmul ortho_m_norm (sin beta)) in
      Some (mkPoint (x p1_norm * R_earth) (y p1_norm * R_earth) (z p1_norm * R_earth))
      :: (if Rgt_dec beta EPS
          then [Some (mkPoint (x p2_norm * R_earth) (y p2_norm * R_earth)
                              (z p2_norm * R_earth))]
          else [])
  end.

(** [std::unique] with the predicate [abs (a - b) < EPS]: an element is
    dropped when it is that close to the last one kept. *)
Fixpoint unique_from (kept : R) (l : list R) : list R :=
  match l with
  | [] => []
  | a :: l' =>
      if Rlt_dec (Rabs (kept - a)) EPS then unique_from kept l'
      else a :: unique_from a l'
  end.

Definition unique (l : list R) : list R :=
  match l with
  | [] => []
  | a :: l' => a :: unique_from a l'
  end.

(** The final loop of [get_covered_intervals] (lines 251-264) over the
    consecutive critical parameters. *)
Fixpoint midpoint_intervals (u v k_center : Point) (R_sphere angle_uv : R)
         (params : list R) : list (R * R) :=
  match params with
  | t_start :: ((t_end :: _) as rest) =>
      let tail := midpoint_intervals u v k_center R_sphere angle_uv rest in
      if Rlt_dec (t_end - t_start) EPS then tail
      else
        let t_mid := (t_start + t_end) / 2 in
        let p_mid := point_at_angle_on_great_circle u v (t_mid * angle_uv) in
        if Rle_dec (dist_xyz p_mid k_center) (R_sphere + EPS)
        then (t_start, t_end) :: tail
        else tail
  | _ => []
  end.

(** The quotients are the reals' ([a / 0 = 0]). *)
Definition get_covered_intervals (u v k_center : Point) (R_sphere : R)
  : list (R * R) :=
  let r_ang := R_sphere / R_earth in
  let u_norm := normalize u in
  let v_norm := normalize v in
  let k_norm := normalize k_center in
  let angle_uv := acos (clamp (dot u_norm v_norm)) in
  if Rlt_dec angle_uv EPS then
    (if Rle_dec (dist_xyz u k_center) (R_sphere + EPS) then [(0, 1)] else [])
  else
    let gc_normal := normalize (cross u_norm v_norm) in
    let k_proj_norm :=
      normalize (psub k_norm (pmul gc_normal (dot k_norm gc_normal))) in
    let d_k_to_plane_ang := acos (clamp (Rabs (dot k_norm gc_normal))) in
    let by_midpoint :=
      let p_mid := point_at_angle_on_great_circle u v (angle_uv / 2) in
      if Rle_dec (dist_xyz p_mid k_center) (R_sphere + EPS)
      then [(0, 1)] else [] in
    let finish (critical_params : list R) :=
      midpoint_intervals u v k_center R_sphere angle_uv
                         (unique (sort_by Rleb critical_params)) in
    if Rle_dec d_k_to_plane_ang (r_ang + EPS) then
      if Rlt_dec (Rabs (d_k_to_plane_ang - r_ang)) EPS then finish [0; 1]
      else
        let cos_alpha_arg := cos r_ang / cos d_k_to_plane_ang in
        if Rge_dec cos_alpha_arg (-1 - EPS) then
          if Rle_dec cos_alpha_arg (1 + EPS) then
            let alpha := acos (clamp cos_alpha_arg) in
            let ortho_k_proj_norm := normalize (cross gc_normal k_proj_norm) in
            let p1_norm_gc := padd (pmul k_proj_norm (cos alpha))
                                   (pmul ortho_k_proj_norm (sin alpha)) in
            let p2_norm_gc := psub (pmul k_proj_norm (cos alpha))
                                   (pmul ortho_k_proj_norm (sin alpha)) in
            let p1_gc := mkPoint (x p1_norm_gc * R_earth) (y p1_norm_gc * R_earth)
                                 (z p1_norm_gc * R_earth) in
            let p2_gc := mkPoint (x p2_norm_gc * R_earth) (y p2_norm_gc * R_earth)
                                 (z p2_norm_gc * R_earth) in
            finish
              ([0; 1]
               ++ (if is_on_arc u v p1_gc then [get_arc_parameter u v p1_gc] else [])
               ++ (if Rgt_dec alpha EPS then
                     (if is_on_arc u v p2_gc then [get_arc_parameter u v p2_gc]
                      else [])
                   else []))
          else by_midpoint
        else by_midpoint
    else by_midpoint.

(** The order of [std::pair]. *)
Definition pair_leb (a b : R * R) : bool :=
  if Rlt_dec (fst a) (fst b) then true
  else if Rlt_dec (fst b) (fst a) then false
  else Rleb (snd a) (snd b).

(** The loop of [merge_intervals]; [cur] is [merged.back ()]. *)
Fixpoint merge_from (cur : R * R) (l : list (R * R)) : list (R * R) :=
  match l with
  | [] => [cur]
  | iv :: l' =>
      if Rle_dec (fst iv) (snd cur + EPS)
      then merge_from (fst cur, Rmax (snd cur) (snd iv)) l'
      else cur :: merge_from iv l'
  end.

Definition merge_intervals (intervals : list (R * R)) : list (R * R) :=
  match sort_by pair_leb intervals with
  | [] => []
  | a :: l => merge_from a l
  end.

(** The last loop of [is_arc_safe] (lines 304-311). *)
Fixpoint scan (current_t : R) (merged : list (R * R)) : bool :=
  match merged with
  | [] => if Rlt_dec current_t (1 - EPS) then false else true
  | interval :: rest =>
      if Rgt_dec (fst interval) (current_t + EPS) then false
      else scan (Rmax current_t (snd interval)) rest
  end.

Definition all_intervals (u v : Point) (airports : list Point) (R_sphere : R)
  : list (R * R) :=
  flat_map (fun airport_loc => get_covered_intervals u v airport_loc R_sphere)
           airports.

(** Lines 299-311, on the gathered intervals. *)
Definition covers (intervals : list (R * R)) : bool :=
  match merge_intervals intervals with
  | [] => false
  | merged => scan 0 merged
  end.

Definition is_arc_safe (u v : Point) (airports : list Point) (R_sphere : R)
  : bool :=
  if Rlt_dec (dist_xyz u v) EPS then true
  else covers (all_intervals u v airports R_sphere).

(** [std::set<Point, Point::Compare>] as its in-order sequence.  The
    library gives [insert] a meaning only when [Compare] is a strict weak
    ordering on the points met; the search below goes through the sequence
    from its start, drops the point at the first element it is equivalent
    to, and places it before the first element it precedes. *)
Fixpoint set_insert (p : Point) (s : list Point) : list Point :=
  match s with
  | [] => [p]
  | q :: s' =>
      if Compare p q then p :: s
      else if Compare q p then q :: set_insert p s'
      else s
  end.

(** Inserting a pushed intersection point.  One with not-a-number
    coordinates compares equivalent to every element, so a set that is
    not empty never takes it; the set holds the airports by then. *)
Definition set_insert_opt (p : option Point) (s : list Point) : list Point :=
  match p with
  | Some q => set_insert q s
  | None => s
  end.

(** The double loop of lines 335-342, in its order. *)
Fixpoint pair_intersections (airports_xyz : list Point) (R_sphere : R)
  : list (option Point) :=
  match airports_xyz with
  | [] => []
  | a :: rest =>
      flat_map (fun b => get_small_circle_intersections a b R_sphere) rest
      ++ pair_intersections rest R_sphere
  end.

(** [vertices] (lines 331-344). *)
Definition vertices (airports_xyz : list Point) (R_sphere : R) : list Point :=
  fold_left (fun s p => set_insert_opt p s)
            (pair_intersections airports_xyz R_sphere)
            (fold_left (fun s p => set_insert p s) airports_xyz []).

(** [vertex_map[p]]: the index of the vertex equivalent to [p]; the
    default-constructed [0] when there is none.  The library searches a
    tree: its answer is the one below when [Compare] is a strict weak
    ordering on the points met, and depends on the shape of the tree
    otherwise. *)
Fixpoint find_vertex (p : Point) (vs : list Point) : option nat :=
  match vs with
  | [] => None
  | q :: vs' =>
      if negb (Compare p q) && negb (Compare q p) then Some O
      else option_map S (find_vertex p vs')
  end.

Definition airport_to_vertex_idx (airports_xyz vs : list Point) (i : nat) : nat :=
  match find_vertex (nth i airports_xyz (mkPoint 0 0 0)) vs with
  | Some n => n
  | None => O
  end.

(** [adj_aux] before the shortest-path pass (lines 357-387); outside
    [V x V] the matrix does not exist, the model has [INF] there. *)
Definition adj_init (vs airports_xyz : list Point) (R_sphere : R)
  : nat -> nat -> ereal :=
  fun i j =>
    if (i =? j)%nat then Fin 0
    else if (i <? length vs)%nat && (j <? length vs)%nat then
           let vi := nth (Nat.min i j) vs (mkPoint 0 0 0) in
           let vj := nth (Nat.max i j) vs (mkPoint 0 0 0) in
           let d_ij := dist_xyz vi vj in
           let safe :=
             if Rlt_dec d_ij EPS then true
             else is_arc_safe vi vj airports_xyz R_sphere in
           if safe then Fin d_ij else PInf
         else PInf.

(** One relaxation of either Floyd-Warshall pass (lines 393-395, 429-431). *)
Definition relax (D : nat -> nat -> ereal) (k i j : nat) : nat -> nat -> ereal :=
  if negb (is_inf (D i k)) && negb (is_inf (D k j))
  then upd D i j (emin (D i j) (eadd (D i k) (D k j)))
  else D.

Definition floyd_warshall (n : nat) (D : nat -> nat -> ereal)
  : nat -> nat -> ereal :=
  for_up n (fun k D1 =>
    for_up n (fun i D2 =>
      for_up n (fun j D3 => relax D3 k i j) D2) D1) D.

(** The operand pairs the pass adds, in order. *)
Definition relax_adds (k i j : nat)
           (st : (nat -> nat -> ereal) * list (ereal * ereal))
  : (nat -> nat -> ereal) * list (ereal * ereal) :=
  (relax (fst st) k i j,
   if negb (is_inf (fst st i k)) && negb (is_inf (fst st k j))
   then snd st ++ [(fst st i k, fst st k j)] else snd st).

Definition floyd_warshall_adds (n : nat) (D : nat -> nat -> ereal)
  : (nat -> nat -> ereal) * list (ereal * ereal) :=
  for_up n (fun k st1 =>
    for_up n (fun i st2 =>
      for_up n (fun j st3 => relax_adds k i j st3) st2) st1) (D, []).

(** [adj_aux <= c + EPS] for a matrix entry. *)
Definition within (a : ereal) (bound : R) : bool :=
  match a with
  | Fin p => Rleb p bound
  | PInf => false
  end.

(** [current_adj_refuel] before its pass (lines 410-423). *)
Definition refuel_init (N : nat) (adj_aux : nat -> nat -> ereal)
           (idx : nat -> nat) (c : R) : nat -> nat -> ereal :=
  fun i j =>
    if (i =? j)%nat then Fin 0
    else if (i <? N)%nat && (j <? N)%nat then
           (if within (adj_aux (idx i) (idx j)) (c + EPS)
            then adj_aux (idx i) (idx j) else PInf)
         else PInf.

(** A query (lines 404-440): [s] and [t] are the 1-based airports read. *)
Definition query (N : nat) (adj_aux : nat -> nat -> ereal) (idx : nat -> nat)
           (s t : Z) (c : R) : answer :=
  let current_adj_refuel := floyd_warshall N (refuel_init N adj_aux idx c) in
  match current_adj_refuel (Z.to_nat (s - 1)) (Z.to_nat (t - 1)) with
  | PInf => Impossible
  | Fin d => Distance d
  end.

Definition airports_of (lonlat : list (R * R)) : list Point :=
  map (fun p => lat_lon_to_xyz (snd p) (fst p)) lonlat.

(** [adj_aux] after Floyd-Warshall. *)
Definition adj_aux (R_sphere : R) (lonlat : list (R * R)) : nat -> nat -> ereal :=
  let airports_xyz := airports_of lonlat in
  let vs := vertices airports_xyz R_sphere in
  floyd_warshall (length vs) (adj_init vs airports_xyz R_sphere).

Definition run_query (R_sphere : R) (lonlat : list (R * R)) (s t : Z) (c : R)
  : answer :=
  let airports_xyz := airports_of lonlat in
  let vs := vertices airports_xyz R_sphere in
  query (length lonlat) (adj_aux R_sphere lonlat)
        (airport_to_vertex_idx airports_xyz vs) s t c.

(** The sums of the scenario's pass and of a query's pass. *)
Definition aux_log (R_sphere : R) (lonlat : list (R * R))
  : list (ereal * ereal) :=
  let airports_xyz := airports_of lonlat in
  let vs := vertices airports_xyz R_sphere in
  snd (floyd_warshall_adds (length vs) (adj_init vs airports_xyz R_sphere)).

Definition query_log (R_sphere : R) (lonlat : list (R * R)) (c : R)
  : list (ereal * ereal) :=
  let airports_xyz := airports_of lonlat in
  let vs := vertices airports_xyz R_sphere in
  snd (floyd_warshall_adds (length lonlat)
         (refuel_init (length lonlat) (adj_aux R_sphere lonlat)
                      (airport_to_vertex_idx airports_xyz vs) c)).

End MainCpp.

(** ** src/main.c, the shortest-path pass in binary64 *)

(** The Floyd-Warshall pass of main.c (lines 215-222) once more, on the
    kernel's binary64 numbers: [double] addition and comparison as the
    machine performs them, [INF] the double nearest to [1e100].  It is
    used where rounding decides a claim. *)
Module MainC64.
Import PrimFloat.

Definition INF : float := 0x1.249ad2594c37dp+332%float.

(** One relaxation (lines 219-220). *)
Definition relax (D : nat -> nat -> float) (k i j : nat)
  : nat -> nat -> float :=
  let via := add (D i k) (D k j) in
  if ltb via (D i j) then upd D i j via else D.

(** Lines 215-222; [D[i][k] >= INF] is [INF <= D[i][k]]. *)
Definition floyd_row (Vn k i : nat) (D : nat -> nat -> float)
  : nat -> nat -> float :=
  if leb INF (D i k) then D
  else for_up Vn (fun j D' => relax D' k i j) D.

Definition floyd_round (Vn k : nat) (D : nat -> nat -> float)
  : nat -> nat -> float :=
  for_up Vn (floyd_row Vn k) D.

Definition floyd (Vn : nat) (D : nat -> nat -> float) : nat -> nat -> float :=
  for_up Vn (floyd_round Vn) D.

(** The direct edges main.c stores (line 210) for the input with radius
    1707 and airports at (lon, lat) = (4, 6), (4, -3), (20, -4): nodes 0
    to 2 are the airports, nodes 3 to 8 the boundary points; each weight
    is [theta_ab * EARTH_R] as the program computed it (1000.597...,
    1050.490..., 717.395..., 623.006..., 1113.665..., 657.730...). *)
Definition edges_1707 : list (nat * nat * float) :=
  [(0, 1, 0x1.f44c73056d25ap+9%float);
   (0, 7, 0x1.069f641faf282p+10%float);
   (1, 6, 0x1.66b2aafd7714bp+9%float);
   (2, 3, 0x1.3780c99eaeee4p+9%float);
   (3, 7, 0x1.166a90c437654p+10%float);
   (5, 7, 0x1.48dd8c3a1ff1ep+9%float)]%nat.

Fixpoint edge_weight (es : list (nat * nat * float)) (a b : nat) : float :=
  match es with
  | [] => INF
  | (a', b', w) :: es' =>
      if (a =? a')%nat && (b =? b')%nat then w else edge_weight es' a b
  end.

(** The matrix [D] of that input before the pass (lines 127-128, 210). *)
Definition D_1707 : nat -> nat -> float :=
  fun i j =>
    if (i =? j)%nat then zero
    else edge_weight edges_1707 (Nat.min i j) (Nat.max i j).

End MainC64.

(** ** Reference definitions for the shortest-path passes *)

(** An in-place pass whose relaxation stores [f D[i][k] D[k][j] D[i][j]]. *)
Section InPlace.
Context {T : Type} (f : T -> T -> T -> T).

Definition relax_g (D : nat -> nat -> T) (k i j : nat) : nat -> nat -> T :=
  upd D i j (f (D i k) (D k j) (D i j)).

Definition row_g (n k i : nat) (D : nat -> nat -> T) : nat -> nat -> T :=
  for_up n (fun j D2 => relax_g D2 k i j) D.

Definition round_g (n k : nat) (D : nat -> nat -> T) : nat -> nat -> T :=
  for_up n (row_g n k) D.

Definition fw_g (n : nat) (D : nat -> nat -> T) : nat -> nat -> T :=
  for_up n (round_g n) D.
End InPlace.

(** The weight of the walk [i, p1, ..., pm, j] under the edge weights [W]. *)
Fixpoint wsum {T : Type} (tadd : T -> T -> T) (W : nat -> nat -> T)
         (i : nat) (p : list nat) (j : nat) : T :=
  match p with
  | [] => W i j
  | m :: p' => tadd (W i m) (wsum tadd W m p' j)
  end.

(** The relaxations of the two sources as functions of the three entries. *)
Definition min_c (a b c : R) : R := if Rlt_dec (a + b) c then a + b else c.

Definition min_cpp (a b c : MainCpp.ereal) : MainCpp.ereal :=
  if negb (MainCpp.is_inf a) && negb (MainCpp.is_inf b)
  then MainCpp.emin c (MainCpp.eadd a b) else c.

(** The weight of a single flight leg under capacity [c], as main.c's
    search uses the matrix: staying put costs nothing, an entry within
    [c + 1e-9] is a leg of that length, any other pair costs [INF]. *)
Definition leg_weight (A : nat -> nat -> R) (c : R) (u v : nat) : R :=
  if (u =? v)%nat then 0
  else if Rle_dec (A u v) (c + 1e-9) then A u v else MainC.INF.

(** Every step of the walk [i, p1, ..., pm, j] satisfies [P]. *)
Fixpoint all_edges (P : nat -> nat -> Prop) (i : nat) (p : list nat) (j : nat)
  : Prop :=
  match p with
  | [] => P i j
  | m :: p' => P i m /\ all_edges P m p' j
  end.

(** A hop of a route under capacity [c] in main.c: staying at an airport,
    or a leg between two airports whose safe distance is not [INF] and
    is within [c + 1e-9]. *)
Definition hop_c (A : nat -> nat -> R) (c : R) (u v : nat) : Prop :=
  u = v \/ (A u v < MainC.INF /\ A u v <= c + 1e-9).

(** A chain of capacity-respecting safe legs joins airport [s] to airport
    [t] (0-based) among [N] airports. *)
Definition connected_c (N : nat) (A : nat -> nat -> R) (c : R) (s t : nat)
  : Prop :=
  exists p, Forall (fun m => (m < N)%nat) p /\ all_edges (hop_c A c) s p t.

(** The same for main.cpp: a leg joins two airports whose vertices have
    a finite safe distance within [c + EPS]. *)
Definition hop_cpp (adj : nat -> nat -> MainCpp.ereal) (idx : nat -> nat)
           (c : R) (u v : nat) : Prop :=
  u = v \/ MainCpp.within (adj (idx u) (idx v)) (c + MainCpp.EPS) = true.

Definition connected_cpp (N : nat) (adj : nat -> nat -> MainCpp.ereal)
           (idx : nat -> nat) (c : R) (s t : nat) : Prop :=
  exists p, Forall (fun m => (m < N)%nat) p /\
            all_edges (hop_cpp adj idx c) s p t.

(** The order of [ereal]. *)
Definition ele (a b : MainCpp.ereal) : Prop :=
  match a, b with
  | MainCpp.Fin p, MainCpp.Fin q => p <= q
  | _, MainCpp.PInf => True
  | MainCpp.PInf, MainCpp.Fin _ => False
  end.

(** The interval merger in the specification's words (section 4.4): the
    intervals sorted by start are swept from reach 0; an interval whose
    start is within the tolerance of the reach is merged into it
    ([reach = max (reach, end)]); a gap is a definitive "not safe"; the
    arc is safe when the sweep ends at or beyond [theta - tol]. *)
Fixpoint sweep_spec (tol theta reach : R) (sorted : list (R * R)) : bool :=
  match sorted with
  | [] => Rleb (theta - tol) reach
  | iv :: rest =>
      if Rle_dec (fst iv) (reach + tol)
      then sweep_spec tol theta (Rmax reach (snd iv)) rest
      else false
  end.

(** No interval at all covers nothing. *)
Definition covers_spec (tol theta : R) (sorted : list (R * R)) : bool :=
  match sorted with
  | [] => false
  | _ => sweep_spec tol theta 0 sorted
  end.

(** The points main.cpp offers to its vertex set: the airports, then the
    intersection points that are numbers. *)
Fixpoint somes {T : Type} (l : list (option T)) : list T :=
  match l with
  | [] => []
  | Some a :: l' => a :: somes l'
  | None :: l' => somes l'
  end.

Definition candidates (airports_xyz : list MainCpp.Point) (R_sphere : R)
  : list MainCpp.Point :=
  airports_xyz ++ somes (MainCpp.pair_intersections airports_xyz R_sphere).

(** [Point::Compare] is transitive on the points of [l]: the part of a
    strict weak ordering that [std::set] needs here. *)
Definition Compare_transitive_on (l : list MainCpp.Point) : Prop :=
  forall p q r, In p l -> In q l -> In r l ->
                MainCpp.Compare p q = true -> MainCpp.Compare q r = true ->
                MainCpp.Compare p r = true.

(** Two points differ by more than [EPS] in some coordinate. *)
Definition apart (p q : MainCpp.Point) : Prop :=
  Rabs (MainCpp.x p - MainCpp.x q) > MainCpp.EPS \/
  Rabs (MainCpp.y p - MainCpp.y q) > MainCpp.EPS \/
  Rabs (MainCpp.z p - MainCpp.z q) > MainCpp.EPS.

(** The angle between two directions, the cosine clamped as in main.c
    (line 137). *)
Definition angle_between (p q : MainC.Vec) : R :=
  acos (MainC.clamp_cab (MainC.dot (MainC.normalize p) (MainC.normalize q))).

(** The point at angle [t] from [u] along the great circle towards [v],
    in the orthonormal basis that main.c's comment at line 140 describes:
    [U = u] and [W] the normalised [v - U * (U . v)]. *)
Definition arc_point (u v : MainC.Vec) (t : R) : MainC.Vec :=
  let w := MainC.normalize (MainC.subv v (MainC.scale u (MainC.dot u v))) in
  MainC.addv (MainC.scale u (cos t)) (MainC.scale w (sin t)).

(** A point lies in the disk of centre [k] and angular radius [alpha]. *)
Definition in_disk (k : MainC.Vec) (alpha : R) (p : MainC.Vec) : Prop :=
  angle_between p k <= alpha.

(** The curve main.c sweeps for the arc from [a] to [b]: the point
    [cos t * U + sin t * W] of its comments at lines 150-151, with [U]
    and [W] as lines 141-144 compute them. *)
Definition c_curve (a b : MainC.Vec) (t : R) : MainC.Vec :=
  MainC.addv (MainC.scale a (cos t))
             (MainC.scale (MainC.basis_W a b (MainC.theta_of a b)) (sin t)).

(** The disk of some airport holds the curve's point at [t]:
    [dot (P t) Ai >= cosA]. *)
Definition c_curve_safe (airports : list MainC.Vec) (cosA : R)
           (a b : MainC.Vec) (t : R) : Prop :=
  exists Ai, In Ai airports /\ cosA <= MainC.dot (c_curve a b t) Ai.

(** Two points are equivalent for [std::set] and [std::map]: neither
    precedes the other. *)
Definition cpp_equiv (p q : MainCpp.Point) : Prop :=
  MainCpp.Compare p q = false /\ MainCpp.Compare q p = false.

(** Consecutive merged intervals are more than [EPS] apart. *)
Definition cpp_gap (a b : R * R) : Prop := snd a + MainCpp.EPS < fst b.

(** The array sizes of main.c ([#define MAXN 25], [#define MAXV 700]). *)
Definition c_MAXN : nat := 25.
Definition c_MAXV : nat := 700.

(** The scenario of main.cpp used to exercise the edges: airports at
    (0, 0) and (0, 90), radius 6671.  [cpp_far_beta] is the angle [beta]
    of line 141 there, [cpp_far_point s] the intersection point on the
    side [s] of the airports' great circle. *)
Definition cpp_far_beta : R :=
  acos (cos (6671 / MainCpp.R_earth) / cos (PI / 4)).

Definition cpp_far_point (s : R) : MainCpp.Point :=
  MainCpp.mkPoint (cos (6671 / MainCpp.R_earth) * MainCpp.R_earth)
                  (s * sin cpp_far_beta * MainCpp.R_earth)
                  (cos (6671 / MainCpp.R_earth) * MainCpp.R_earth).

(** Three airports (lon, lat) of one scenario, a few micrometres
    apart: the third is within [EPS] of the second in every coordinate,
    and the first differs from each by more than [EPS] in one. *)
Definition cpp_chain : list (R * R) :=
  [(0, 0); (1.35e-11, -1.8e-11); (5.4e-12, -1.8e-11)].

(** The equivalence of [Point::Compare] is transitive on the points of
    [l]: with [Compare_transitive_on], what makes it a strict weak
    ordering there. *)
Definition cpp_equiv_transitive_on (l : list MainCpp.Point) : Prop :=
  forall p q r, In p l -> In q l -> In r l ->
                cpp_equiv p q -> cpp_equiv q r -> cpp_equiv p r.

(** ** Loops *)

Lemma for_up_ext {S : Type} (n : nat) (b1 b2 : nat -> S -> S) (s : S) :
  (forall i t, (i < n)%nat -> b1 i t = b2 i t) ->
  for_up n b1 s = for_up n b2 s.
Proof.
  induction n as [|m IH]; intros Hb; simpl.
  - reflexivity.
  - rewrite IH by (intros; apply Hb; lia). apply Hb. lia.
Qed.

Lemma for_up_inv {S : Type} (P : nat -> S -> Prop) (n : nat)
      (body : nat -> S -> S) (s : S) :
  P O s ->
  (forall i t, (i < n)%nat -> P i t -> P (Datatypes.S i) (body i t)) ->
  P n (for_up n body s).
Proof.
  intros H0 Hstep. induction n as [|m IH]; simpl.
  - exact H0.
  - apply Hstep; [lia|]. apply IH. intros; apply Hstep; [lia|assumption].
Qed.

Lemma upd_same {T : Type} (D : nat -> nat -> T) i j v : upd D i j v i j = v.
Proof. unfold upd. now rewrite !Nat.eqb_refl. Qed.

Lemma upd_other {T : Type} (D : nat -> nat -> T) i j v a b :
  (a <> i \/ b <> j) -> upd D i j v a b = D a b.
Proof.
  intros H. unfold upd.
  destruct (Nat.eqb_spec a i), (Nat.eqb_spec b j); simpl; try reflexivity.
  lia.
Qed.

Section InPlaceFacts.
Context {T : Type} (f : T -> T -> T -> T).

Lemma row_g_spec (n k i : nat) (D : nat -> nat -> T) :
  f (D i k) (D k k) (D i k) = D i k ->
  forall a b,
    row_g f n k i D a b =
    if (a =? i)%nat && (b <? n)%nat then f (D i k) (D k b) (D i b) else D a b.
Proof.
  intros Hst. unfold row_g. induction n as [|m IH]; intros a b.
  - simpl. rewrite andb_false_r. reflexivity.
  - simpl. unfold relax_g at 1.
    set (Dm := for_up m (fun j D2 => relax_g f D2 k i j) D) in *.
    assert (Hik : Dm i k = D i k).
    { rewrite IH, Nat.eqb_refl. simpl.
      destruct (k <? m)%nat; [exact Hst|reflexivity]. }
    assert (Hkm : Dm k m = D k m).
    { rewrite IH, Nat.ltb_irrefl, andb_false_r. reflexivity. }
    assert (Him : Dm i m = D i m).
    { rewrite IH, Nat.ltb_irrefl, andb_false_r. reflexivity. }
    rewrite Hik, Hkm, Him.
    destruct (Nat.eqb_spec a i) as [->|Hai]; simpl.
    + destruct (Nat.eq_dec b m) as [->|Hbm].
      * rewrite upd_same.
        replace (m <? Datatypes.S m)%nat with true
          by (symmetry; apply Nat.ltb_lt; lia).
        reflexivity.
      * rewrite upd_other by (right; exact Hbm).
        rewrite IH, Nat.eqb_refl. simpl.
        destruct (Nat.ltb_spec b m), (Nat.ltb_spec b (Datatypes.S m));
          try reflexivity; lia.
    + rewrite upd_other by (left; exact Hai).
      rewrite IH.
      destruct (Nat.eqb_spec a i); [contradiction|reflexivity].
Qed.

Lemma round_g_spec (n k : nat) (D : nat -> nat -> T) :
  (forall i, f (D i k) (D k k) (D i k) = D i k) ->
  (forall b, f (D k k) (D k b) (D k b) = D k b) ->
  forall a b,
    round_g f n k D a b =
    if (a <? n)%nat && (b <? n)%nat then f (D a k) (D k b) (D a b) else D a b.
Proof.
  intros Hcol Hrow. unfold round_g.
  assert (G : forall m a b,
             for_up m (row_g f n k) D a b =
             if (a <? m)%nat && (b <? n)%nat
             then f (D a k) (D k b) (D a b) else D a b).
  { induction m as [|m IH]; intros a b.
    - reflexivity.
    - simpl. set (Dm := for_up m (row_g f n k) D) in *.
      assert (Hmk : Dm m k = D m k).
      { rewrite IH, Nat.ltb_irrefl. reflexivity. }
      assert (Hkk : Dm k k = D k k).
      { rewrite IH. destruct ((k <? m)%nat && (k <? n)%nat);
          [apply Hcol|reflexivity]. }
      assert (Hkb : forall c, Dm k c = D k c).
      { intros c. rewrite IH. destruct ((k <? m)%nat && (c <? n)%nat);
          [apply Hrow|reflexivity]. }
      assert (Hmb : forall c, Dm m c = D m c).
      { intros c. rewrite IH, Nat.ltb_irrefl. reflexivity. }
      rewrite row_g_spec by (rewrite Hmk, Hkk; apply Hcol).
      rewrite Hmk, Hkb, Hmb.
      destruct (Nat.eqb_spec a m) as [->|Ham]; simpl.
      + replace (m <? Datatypes.S m)%nat with true
          by (symmetry; apply Nat.ltb_lt; lia).
        simpl. destruct (b <? n)%nat; [reflexivity|].
        rewrite IH, Nat.ltb_irrefl. reflexivity.
      + rewrite IH.
        destruct (Nat.ltb_spec a m), (Nat.ltb_spec a (Datatypes.S m));
          try reflexivity; lia. }
  apply G.
Qed.
End InPlaceFacts.

(** ** Walks and the in-place pass, over any ordered weights *)

Section Walks.
Context {T : Type} (tle : T -> T -> Prop) (tadd : T -> T -> T) (tzero : T)
        (f : T -> T -> T -> T).
Hypothesis tle_refl : forall a, tle a a.
Hypothesis tle_trans : forall a b c, tle a b -> tle b c -> tle a c.
Hypothesis tle_antisym : forall a b, tle a b -> tle b a -> a = b.
Hypothesis tadd_mono :
  forall a b c d, tle a b -> tle c d -> tle (tadd a c) (tadd b d).
Hypothesis tadd_comm : forall a b, tadd a b = tadd b a.
Hypothesis tadd_assoc : forall a b c, tadd a (tadd b c) = tadd (tadd a b) c.
Hypothesis tadd_0_l : forall a, tadd tzero a = a.
Hypothesis f_le_c : forall a b c, tle (f a b c) c.
Hypothesis f_le_sum : forall a b c, tle (f a b c) (tadd a b).
Hypothesis f_cases : forall a b c, f a b c = c \/ f a b c = tadd a b.
Hypothesis f_comm : forall a b c, f a b c = f b a c.

Variable n : nat.
Variable W : nat -> nat -> T.
Hypothesis W_nonneg : forall i j, tle tzero (W i j).
Hypothesis W_diag : forall i, W i i = tzero.

Let Ds (k : nat) : nat -> nat -> T := for_up k (round_g f n) W.

Lemma tadd_0_r a : tadd a tzero = a.
Proof. rewrite tadd_comm. apply tadd_0_l. Qed.

Lemma f_stable_r a : f a tzero a = a.
Proof.
  destruct (f_cases a tzero a) as [E|E]; rewrite E;
    [reflexivity|apply tadd_0_r].
Qed.

Lemma f_stable_l b : f tzero b b = b.
Proof.
  destruct (f_cases tzero b b) as [E|E]; rewrite E;
    [reflexivity|apply tadd_0_l].
Qed.

Lemma tadd_nonneg a b : tle tzero a -> tle tzero b -> tle tzero (tadd a b).
Proof.
  intros Ha Hb. rewrite <- (tadd_0_l tzero). now apply tadd_mono.
Qed.

Lemma wsum_app i p m q j :
  wsum tadd W i (p ++ m :: q) j =
  tadd (wsum tadd W i p m) (wsum tadd W m q j).
Proof.
  revert i. induction p as [|a p IH]; intros i; simpl.
  - reflexivity.
  - rewrite IH. apply tadd_assoc.
Qed.

Lemma wsum_nonneg i p j : tle tzero (wsum tadd W i p j).
Proof.
  revert i. induction p as [|a p IH]; intros i; simpl.
  - apply W_nonneg.
  - apply tadd_nonneg; [apply W_nonneg|apply IH].
Qed.

(** Entries stay non-negative, the diagonal stays zero, and a round
    stores [f] of the entries it found. *)
Lemma Ds_invariant k :
  (forall i j, tle tzero (Ds k i j)) /\
  (forall i, Ds k i i = tzero) /\
  (forall a b,
      Ds (S k) a b =
      if (a <? n)%nat && (b <? n)%nat
      then f (Ds k a k) (Ds k k b) (Ds k a b) else Ds k a b).
Proof.
  induction k as [|k [IHn [IHd IHs]]].
  - assert (Hs : forall a b,
               Ds 1 a b =
               if (a <? n)%nat && (b <? n)%nat
               then f (Ds 0 a 0) (Ds 0 0 b) (Ds 0 a b) else Ds 0 a b).
    { intros a b. change (Ds 1) with (round_g f n 0 (Ds 0)).
      apply round_g_spec; intros; unfold Ds; simpl; rewrite W_diag;
        [apply f_stable_r|apply f_stable_l]. }
    repeat split; [intros; apply W_nonneg|exact W_diag|exact Hs].
  - assert (Hn : forall i j, tle tzero (Ds (S k) i j)).
    { intros i j. rewrite IHs.
      destruct ((i <? n)%nat && (j <? n)%nat); [|apply IHn].
      destruct (f_cases (Ds k i k) (Ds k k j) (Ds k i j)) as [E|E];
        rewrite E; [apply IHn|apply tadd_nonneg; apply IHn]. }
    assert (Hd : forall i, Ds (S k) i i = tzero).
    { intros i. pose proof (Hn i i) as Hi. rewrite IHs in Hi |- *.
      destruct ((i <? n)%nat && (i <? n)%nat); [|apply IHd].
      apply tle_antisym; [|exact Hi].
      rewrite (IHd i). apply f_le_c. }
    repeat split; [exact Hn|exact Hd|].
    intros a b. change (Ds (S (S k))) with (round_g f n (S k) (Ds (S k))).
    apply round_g_spec; intros; rewrite Hd;
      [apply f_stable_r|apply f_stable_l].
Qed.
End Walks.

Section WalkBounds.
Context {T : Type} (tle : T -> T -> Prop) (tadd : T -> T -> T) (tzero : T)
        (f : T -> T -> T -> T).
Hypothesis tle_refl : forall a, tle a a.
Hypothesis tle_trans : forall a b c, tle a b -> tle b c -> tle a c.
Hypothesis tle_antisym : forall a b, tle a b -> tle b a -> a = b.
Hypothesis tadd_mono :
  forall a b c d, tle a b -> tle c d -> tle (tadd a c) (tadd b d).
Hypothesis tadd_comm : forall a b, tadd a b = tadd b a.
Hypothesis tadd_assoc : forall a b c, tadd a (tadd b c) = tadd (tadd a b) c.
Hypothesis tadd_0_l : forall a, tadd tzero a = a.
Hypothesis f_le_c : forall a b c, tle (f a b c) c.
Hypothesis f_le_sum : forall a b c, tle (f a b c) (tadd a b).
Hypothesis f_cases : forall a b c, f a b c = c \/ f a b c = tadd a b.
Hypothesis f_comm : forall a b c, f a b c = f b a c.

Variable n : nat.
Variable W : nat -> nat -> T.
Hypothesis W_nonneg : forall i j, tle tzero (W i j).
Hypothesis W_diag : forall i, W i i = tzero.

Let Ds (k : nat) : nat -> nat -> T := for_up k (round_g f n) W.

Let inv := Ds_invariant tle tadd tzero f tle_antisym tadd_mono tadd_comm
                        tadd_0_l f_le_c f_cases n W W_nonneg W_diag.

Lemma Ds_step k a b :
  Ds (S k) a b =
  if (a <? n)%nat && (b <? n)%nat
  then f (Ds k a k) (Ds k k b) (Ds k a b) else Ds k a b.
Proof. apply (inv k). Qed.

Lemma Ds_nonneg k i j : tle tzero (Ds k i j).
Proof. apply (inv k). Qed.

Lemma Ds_diag k i : Ds k i i = tzero.
Proof. apply (inv k). Qed.

Lemma Ds_decreasing k i j : tle (Ds (S k) i j) (Ds k i j).
Proof.
  rewrite Ds_step. destruct ((i <? n)%nat && (j <? n)%nat);
    [apply f_le_c|apply tle_refl].
Qed.

Lemma Ds_below_W k i j : tle (Ds k i j) (W i j).
Proof.
  induction k as [|k IH].
  - apply tle_refl.
  - eapply tle_trans; [apply Ds_decreasing|exact IH].
Qed.

Lemma Ds_outside k i j :
  (i <? n)%nat && (j <? n)%nat = false -> Ds k i j = W i j.
Proof.
  intros H. induction k as [|k IH]; [reflexivity|].
  rewrite Ds_step, H. exact IH.
Qed.

Lemma Ds_col_fixed k i : Ds (S k) i k = Ds k i k.
Proof.
  rewrite Ds_step. destruct ((i <? n)%nat && (k <? n)%nat); [|reflexivity].
  rewrite Ds_diag.
  apply (f_stable_r tadd tzero f tadd_comm tadd_0_l f_cases).
Qed.

Lemma Ds_row_fixed k j : Ds (S k) k j = Ds k k j.
Proof.
  rewrite Ds_step. destruct ((k <? n)%nat && (j <? n)%nat); [|reflexivity].
  rewrite Ds_diag. apply (f_stable_l tadd tzero f tadd_0_l f_cases).
Qed.

Lemma Ds_symmetric k :
  (forall i j, W i j = W j i) -> forall i j, Ds k i j = Ds k j i.
Proof.
  intros Hsym. induction k as [|k IH]; intros i j.
  - apply Hsym.
  - rewrite !Ds_step, andb_comm.
    destruct ((j <? n)%nat && (i <? n)%nat); [|apply IH].
    rewrite f_comm, (IH i k), (IH k j), (IH i j). reflexivity.
Qed.

(** Every entry is the weight of a walk through the vertices already
    used as intermediate ones. *)
Lemma Ds_is_walk k i j :
  exists p, Forall (fun m => (m < k)%nat) p /\ Ds k i j = wsum tadd W i p j.
Proof.
  revert i j. induction k as [|k IH]; intros i j.
  - exists []. split; [constructor|reflexivity].
  - rewrite Ds_step.
    assert (Hold : exists p, Forall (fun m => (m < S k)%nat) p /\
                             Ds k i j = wsum tadd W i p j).
    { destruct (IH i j) as [p [Hp E]]. exists p. split; [|exact E].
      eapply Forall_impl; [|exact Hp]. simpl; intros; lia. }
    destruct ((i <? n)%nat && (j <? n)%nat); [|exact Hold].
    destruct (f_cases (Ds k i k) (Ds k k j) (Ds k i j)) as [E|E]; rewrite E.
    + exact Hold.
    + destruct (IH i k) as [p1 [Hp1 E1]]. destruct (IH k j) as [p2 [Hp2 E2]].
      exists (p1 ++ k :: p2). split.
      * apply Forall_app. split.
        -- eapply Forall_impl; [|exact Hp1]. simpl; intros; lia.
        -- constructor; [lia|].
           eapply Forall_impl; [|exact Hp2]. simpl; intros; lia.
      * rewrite (wsum_app tadd tadd_assoc), E1, E2. reflexivity.
Qed.

(** No walk through the vertices already used is lighter than the entry. *)
Lemma Ds_below_walks k :
  (k <= n)%nat ->
  forall p i j, (i < n)%nat -> (j < n)%nat ->
                Forall (fun m => (m < k)%nat) p ->
                tle (Ds k i j) (wsum tadd W i p j).
Proof.
  induction k as [|k IH]; intros Hk.
  - intros p i j _ _ Hp. destruct p as [|m p].
    + apply tle_refl.
    + inversion Hp; lia.
  - assert (G : forall len p i j,
               (length p <= len)%nat -> (i < n)%nat -> (j < n)%nat ->
               Forall (fun m => (m < S k)%nat) p ->
               tle (Ds (S k) i j) (wsum tadd W i p j)).
    { induction len as [|len IHlen]; intros p i j Hlen Hi Hj Hp.
      - destruct p; [|simpl in Hlen; lia].
        eapply tle_trans; [apply Ds_below_W|apply tle_refl].
      - destruct (in_dec Nat.eq_dec k p) as [Hin|Hnin].
        + destruct (in_split _ _ Hin) as [p1 [p2 ->]].
          rewrite length_app in Hlen. simpl in Hlen.
          apply Forall_app in Hp. destruct Hp as [Hp1 Hp2].
          inversion Hp2 as [|? ? _ Hp2']; subst.
          rewrite (wsum_app tadd tadd_assoc).
          eapply tle_trans.
          * rewrite Ds_step.
            replace ((i <? n)%nat && (j <? n)%nat) with true.
            -- apply f_le_sum.
            -- symmetry. apply andb_true_intro.
               split; apply Nat.ltb_lt; assumption.
          * rewrite <- Ds_col_fixed, <- Ds_row_fixed.
            apply tadd_mono; apply IHlen; try assumption; lia.
        + eapply tle_trans; [apply Ds_decreasing|].
          apply IH; try assumption; [lia|].
          rewrite Forall_forall in Hp |- *. intros m Hm.
          specialize (Hp m Hm). simpl in Hp.
          assert (m <> k) by (intros ->; contradiction). lia. }
    intros p i j. apply (G (length p)). lia.
Qed.

(** After the last round the triangle inequality holds. *)
Lemma Ds_triangle i j m :
  (i < n)%nat -> (j < n)%nat -> (m < n)%nat ->
  tle (Ds n i j) (tadd (Ds n i m) (Ds n m j)).
Proof.
  intros Hi Hj Hm.
  destruct (Ds_is_walk n i m) as [p1 [Hp1 E1]].
  destruct (Ds_is_walk n m j) as [p2 [Hp2 E2]].
  rewrite E1, E2, <- (wsum_app tadd tadd_assoc).
  apply Ds_below_walks; try assumption; [lia|].
  apply Forall_app. split; [exact Hp1|]. constructor; assumption.
Qed.
End WalkBounds.

(** ** The pass of main.c is the reference pass *)

Lemma Rleb_true a b : Rleb a b = true <-> a <= b.
Proof. unfold Rleb. destruct (Rle_dec a b); split; intros; try easy. Qed.

Lemma Rltb_true a b : Rltb a b = true <-> a < b.
Proof. unfold Rltb. destruct (Rlt_dec a b); split; intros; try easy. Qed.

Lemma Rleb_false a b : Rleb a b = false <-> b < a.
Proof.
  unfold Rleb. destruct (Rle_dec a b); split; intros; try easy; lra.
Qed.

Lemma Rltb_false a b : Rltb a b = false <-> b <= a.
Proof.
  unfold Rltb. destruct (Rlt_dec a b); split; intros; try easy; lra.
Qed.

Lemma INF_pos : 0 < MainC.INF.
Proof. unfold MainC.INF. lra. Qed.

Definition bounded (D : nat -> nat -> R) : Prop :=
  forall a b, 0 <= D a b <= MainC.INF.

Lemma min_c_le_c a b c : min_c a b c <= c.
Proof. unfold min_c. destruct (Rlt_dec (a + b) c); lra. Qed.

Lemma min_c_le_sum a b c : min_c a b c <= a + b.
Proof. unfold min_c. destruct (Rlt_dec (a + b) c); lra. Qed.

Lemma min_c_cases a b c : min_c a b c = c \/ min_c a b c = a + b.
Proof. unfold min_c. destruct (Rlt_dec (a + b) c); auto. Qed.

Lemma min_c_comm a b c : min_c a b c = min_c b a c.
Proof. unfold min_c. rewrite (Rplus_comm a b). reflexivity. Qed.

Lemma min_c_stable a b : 0 <= b -> min_c a b a = a.
Proof. intros H. unfold min_c. destruct (Rlt_dec (a + b) a); lra. Qed.

Lemma c_relax_eq D k i j : MainC.relax D k i j = relax_g min_c D k i j.
Proof.
  unfold MainC.relax, relax_g, min_c.
  destruct (Rlt_dec (D i k + D k j) (D i j)); [reflexivity|].
  extensionality a. extensionality b. unfold upd.
  destruct (Nat.eqb_spec a i), (Nat.eqb_spec b j); simpl; congruence.
Qed.

Lemma row_g_bounded n k i D : bounded D -> bounded (row_g min_c n k i D).
Proof.
  intros HD a b. rewrite row_g_spec by (apply min_c_stable, HD).
  destruct ((a =? i)%nat && (b <? n)%nat); [|apply HD].
  pose proof (HD i k). pose proof (HD k b). pose proof (HD i b).
  unfold min_c. destruct (Rlt_dec (D i k + D k b) (D i b)); lra.
Qed.

Lemma c_floyd_row_eq n k i D :
  bounded D -> MainC.floyd_row n k i D = row_g min_c n k i D.
Proof.
  intros HD. unfold MainC.floyd_row.
  destruct (Rge_dec (D i k) MainC.INF) as [Hge|Hlt].
  - extensionality a. extensionality b.
    rewrite row_g_spec by (apply min_c_stable, HD).
    destruct ((a =? i)%nat && (b <? n)%nat) eqn:E; [|reflexivity].
    apply andb_prop in E. destruct E as [E _].
    apply Nat.eqb_eq in E. subst a.
    pose proof (HD k b). pose proof (HD i b).
    unfold min_c. destruct (Rlt_dec (D i k + D k b) (D i b)); lra.
  - unfold row_g. apply for_up_ext. intros; apply c_relax_eq.
Qed.

Lemma round_g_bounded n k D : bounded D -> bounded (round_g min_c n k D).
Proof.
  intros HD. unfold round_g.
  apply (for_up_inv (fun _ D' => bounded D')); [exact HD|].
  intros; now apply row_g_bounded.
Qed.

Lemma c_floyd_round_eq n k D :
  bounded D -> MainC.floyd_round n k D = round_g min_c n k D.
Proof.
  intros HD. unfold MainC.floyd_round, round_g.
  assert (G : forall m,
             for_up m (MainC.floyd_row n k) D = for_up m (row_g min_c n k) D
             /\ bounded (for_up m (row_g min_c n k) D)).
  { induction m as [|m [IHe IHb]]; simpl.
    - split; [reflexivity|exact HD].
    - rewrite IHe. split; [now apply c_floyd_row_eq|now apply row_g_bounded]. }
  apply G.
Qed.

Lemma c_floyd_eq n D : bounded D -> MainC.floyd n D = fw_g min_c n D.
Proof.
  intros HD. unfold MainC.floyd, fw_g.
  assert (G : forall m,
             for_up m (MainC.floyd_round n) D = for_up m (round_g min_c n) D
             /\ bounded (for_up m (round_g min_c n) D)).
  { induction m as [|m [IHe IHb]]; simpl.
    - split; [reflexivity|exact HD].
    - rewrite IHe.
      split; [now apply c_floyd_round_eq|now apply round_g_bounded]. }
  apply G.
Qed.

(** The facts of the reference pass, for main.c's weights. *)
Section PassC.
Variable n : nat.
Variable W : nat -> nat -> R.
Hypothesis W_bounded : bounded W.
Hypothesis W_diag : forall i, W i i = 0.

Let W_nonneg : forall i j, 0 <= W i j := fun i j => proj1 (W_bounded i j).

Lemma c_floyd_symmetric :
  (forall i j, W i j = W j i) ->
  forall i j, MainC.floyd n W i j = MainC.floyd n W j i.
Proof.
  intros Hsym i j. rewrite c_floyd_eq by exact W_bounded.
  apply (Ds_symmetric Rle Rplus 0 min_c Rle_antisym Rplus_le_compat
                      Rplus_comm Rplus_0_l min_c_le_c min_c_cases
                      min_c_comm n W W_nonneg W_diag n Hsym).
Qed.

Lemma c_floyd_diag i : MainC.floyd n W i i = 0.
Proof.
  rewrite c_floyd_eq by exact W_bounded.
  apply (Ds_diag Rle Rplus 0 min_c Rle_antisym Rplus_le_compat
                 Rplus_comm Rplus_0_l min_c_le_c min_c_cases
                 n W W_nonneg W_diag n).
Qed.

Lemma c_floyd_nonneg i j : 0 <= MainC.floyd n W i j.
Proof.
  rewrite c_floyd_eq by exact W_bounded.
  apply (Ds_nonneg Rle Rplus 0 min_c Rle_antisym Rplus_le_compat
                   Rplus_comm Rplus_0_l min_c_le_c min_c_cases
                   n W W_nonneg W_diag n).
Qed.

Lemma c_floyd_below_W i j : MainC.floyd n W i j <= W i j.
Proof.
  rewrite c_floyd_eq by exact W_bounded.
  apply (Ds_below_W Rle Rplus 0 min_c Rle_refl Rle_trans Rle_antisym
                    Rplus_le_compat Rplus_comm Rplus_0_l min_c_le_c
                    min_c_cases n W W_nonneg W_diag n).
Qed.

Lemma c_floyd_outside i j :
  (i <? n)%nat && (j <? n)%nat = false -> MainC.floyd n W i j = W i j.
Proof.
  rewrite c_floyd_eq by exact W_bounded.
  apply (Ds_outside Rle Rplus 0 min_c Rle_antisym Rplus_le_compat
                    Rplus_comm Rplus_0_l min_c_le_c min_c_cases
                    n W W_nonneg W_diag n).
Qed.

Lemma c_floyd_triangle i j m :
  (i < n)%nat -> (j < n)%nat -> (m < n)%nat ->
  MainC.floyd n W i j <= MainC.floyd n W i m + MainC.floyd n W m j.
Proof.
  rewrite c_floyd_eq by exact W_bounded.
  apply (Ds_triangle Rle Rplus 0 min_c Rle_refl Rle_trans Rle_antisym
                     Rplus_le_compat Rplus_comm
                     (fun a b c => eq_sym (Rplus_assoc a b c))
                     Rplus_0_l min_c_le_c min_c_le_sum min_c_cases
                     n W W_nonneg W_diag).
Qed.

Lemma c_floyd_is_walk i j :
  exists p, Forall (fun m => (m < n)%nat) p /\
            MainC.floyd n W i j = wsum Rplus W i p j.
Proof.
  rewrite c_floyd_eq by exact W_bounded.
  apply (Ds_is_walk Rle Rplus 0 min_c Rle_antisym Rplus_le_compat
                    Rplus_comm (fun a b c => eq_sym (Rplus_assoc a b c))
                    Rplus_0_l min_c_le_c min_c_cases
                    n W W_nonneg W_diag n).
Qed.

Lemma c_floyd_below_walks p i j :
  (i < n)%nat -> (j < n)%nat -> Forall (fun m => (m < n)%nat) p ->
  MainC.floyd n W i j <= wsum Rplus W i p j.
Proof.
  rewrite c_floyd_eq by exact W_bounded.
  apply (Ds_below_walks Rle Rplus 0 min_c Rle_refl Rle_trans Rle_antisym
                        Rplus_le_compat Rplus_comm
                        (fun a b c => eq_sym (Rplus_assoc a b c))
                        Rplus_0_l min_c_le_c min_c_le_sum min_c_cases
                        n W W_nonneg W_diag n (Nat.le_refl n)).
Qed.
End PassC.

(** ** The pass of main.cpp is the reference pass *)

Lemma ele_refl a : ele a a.
Proof. destruct a; simpl; [lra|exact I]. Qed.

Lemma ele_trans a b c : ele a b -> ele b c -> ele a c.
Proof. destruct a, b, c; simpl; try tauto; lra. Qed.

Lemma ele_antisym a b : ele a b -> ele b a -> a = b.
Proof.
  destruct a, b; simpl; try tauto. intros. f_equal. lra.
Qed.

Lemma eadd_mono a b c d :
  ele a b -> ele c d -> ele (MainCpp.eadd a c) (MainCpp.eadd b d).
Proof. destruct a, b, c, d; simpl; try tauto; lra. Qed.

Lemma eadd_comm a b : MainCpp.eadd a b = MainCpp.eadd b a.
Proof. destruct a, b; simpl; try reflexivity. f_equal. lra. Qed.

Lemma eadd_assoc a b c :
  MainCpp.eadd a (MainCpp.eadd b c) = MainCpp.eadd (MainCpp.eadd a b) c.
Proof. destruct a, b, c; simpl; try reflexivity. f_equal. lra. Qed.

Lemma eadd_0_l a : MainCpp.eadd (MainCpp.Fin 0) a = a.
Proof. destruct a; simpl; [f_equal; lra|reflexivity]. Qed.

Lemma eltb_true a b : MainCpp.eltb a b = true <-> ele a b /\ a <> b.
Proof.
  destruct a as [p|], b as [q|]; simpl; try rewrite Rltb_true.
  - split.
    + intros H. split; [lra|]. intros E. inversion E. lra.
    + intros [H Hne]. destruct (Rle_lt_or_eq_dec _ _ H); [assumption|].
      subst. contradiction.
  - split; [intros _; split; [exact I|discriminate]|reflexivity].
  - split; [discriminate|tauto].
  - split; [discriminate|]. intros [_ H]. contradiction.
Qed.

Lemma emin_le_l a b : ele (MainCpp.emin a b) a.
Proof.
  unfold MainCpp.emin. destruct (MainCpp.eltb b a) eqn:E.
  - apply eltb_true in E. tauto.
  - apply ele_refl.
Qed.

Lemma emin_le_r a b : ele (MainCpp.emin a b) b.
Proof.
  unfold MainCpp.emin. destruct (MainCpp.eltb b a) eqn:E.
  - apply ele_refl.
  - destruct a as [p|], b as [q|]; simpl in *; try tauto.
    + apply Rltb_false in E. exact E.
    + discriminate.
Qed.

Lemma emin_cases a b : MainCpp.emin a b = a \/ MainCpp.emin a b = b.
Proof. unfold MainCpp.emin. destruct (MainCpp.eltb b a); auto. Qed.

Lemma min_cpp_le_c a b c : ele (min_cpp a b c) c.
Proof.
  unfold min_cpp.
  destruct (negb (MainCpp.is_inf a) && negb (MainCpp.is_inf b));
    [apply emin_le_l|apply ele_refl].
Qed.

Lemma min_cpp_le_sum a b c : ele (min_cpp a b c) (MainCpp.eadd a b).
Proof.
  unfold min_cpp. destruct a as [p|], b as [q|]; simpl;
    try (destruct c; exact I).
  apply emin_le_r.
Qed.

Lemma min_cpp_cases a b c :
  min_cpp a b c = c \/ min_cpp a b c = MainCpp.eadd a b.
Proof.
  unfold min_cpp.
  destruct (negb (MainCpp.is_inf a) && negb (MainCpp.is_inf b));
    [apply emin_cases|now left].
Qed.

Lemma min_cpp_comm a b c : min_cpp a b c = min_cpp b a c.
Proof. unfold min_cpp. now rewrite andb_comm, eadd_comm. Qed.

Lemma cpp_relax_eq D k i j : MainCpp.relax D k i j = relax_g min_cpp D k i j.
Proof.
  unfold MainCpp.relax, relax_g, min_cpp.
  destruct (negb (MainCpp.is_inf (D i k)) && negb (MainCpp.is_inf (D k j)));
    [reflexivity|].
  extensionality a. extensionality b. unfold upd.
  destruct (Nat.eqb_spec a i), (Nat.eqb_spec b j); simpl; congruence.
Qed.

Lemma cpp_floyd_eq n D : MainCpp.floyd_warshall n D = fw_g min_cpp n D.
Proof.
  unfold MainCpp.floyd_warshall, fw_g, round_g, row_g.
  apply for_up_ext. intros k D1 _.
  apply for_up_ext. intros i D2 _.
  apply for_up_ext. intros j D3 _. apply cpp_relax_eq.
Qed.

Definition enonneg (D : nat -> nat -> MainCpp.ereal) : Prop :=
  forall a b, ele (MainCpp.Fin 0) (D a b).

Section PassCpp.
Variable n : nat.
Variable W : nat -> nat -> MainCpp.ereal.
Hypothesis W_nonneg : enonneg W.
Hypothesis W_diag : forall i, W i i = MainCpp.Fin 0.

Lemma cpp_floyd_symmetric :
  (forall i j, W i j = W j i) ->
  forall i j, MainCpp.floyd_warshall n W i j = MainCpp.floyd_warshall n W j i.
Proof.
  intros Hsym i j. rewrite cpp_floyd_eq.
  apply (Ds_symmetric ele MainCpp.eadd (MainCpp.Fin 0) min_cpp ele_antisym
                      eadd_mono eadd_comm eadd_0_l min_cpp_le_c
                      min_cpp_cases min_cpp_comm n W W_nonneg W_diag n Hsym).
Qed.

Lemma cpp_floyd_diag i : MainCpp.floyd_warshall n W i i = MainCpp.Fin 0.
Proof.
  rewrite cpp_floyd_eq.
  apply (Ds_diag ele MainCpp.eadd (MainCpp.Fin 0) min_cpp ele_antisym
                 eadd_mono eadd_comm eadd_0_l min_cpp_le_c min_cpp_cases
                 n W W_nonneg W_diag n).
Qed.

Lemma cpp_floyd_nonneg i j : ele (MainCpp.Fin 0) (MainCpp.floyd_warshall n W i j).
Proof.
  rewrite cpp_floyd_eq.
  apply (Ds_nonneg ele MainCpp.eadd (MainCpp.Fin 0) min_cpp ele_antisym
                   eadd_mono eadd_comm eadd_0_l min_cpp_le_c min_cpp_cases
                   n W W_nonneg W_diag n).
Qed.

Lemma cpp_floyd_below_W i j : ele (MainCpp.floyd_warshall n W i j) (W i j).
Proof.
  rewrite cpp_floyd_eq.
  apply (Ds_below_W ele MainCpp.eadd (MainCpp.Fin 0) min_cpp ele_refl
                    ele_trans ele_antisym eadd_mono eadd_comm eadd_0_l
                    min_cpp_le_c min_cpp_cases n W W_nonneg W_diag n).
Qed.

Lemma cpp_floyd_triangle i j m :
  (i < n)%nat -> (j < n)%nat -> (m < n)%nat ->
  ele (MainCpp.floyd_warshall n W i j)
      (MainCpp.eadd (MainCpp.floyd_warshall n W i m)
                    (MainCpp.floyd_warshall n W m j)).
Proof.
  rewrite cpp_floyd_eq.
  apply (Ds_triangle ele MainCpp.eadd (MainCpp.Fin 0) min_cpp ele_refl
                     ele_trans ele_antisym eadd_mono eadd_comm eadd_assoc
                     eadd_0_l min_cpp_le_c min_cpp_le_sum min_cpp_cases
                     n W W_nonneg W_diag).
Qed.

Lemma cpp_floyd_is_walk i j :
  exists p, Forall (fun m => (m < n)%nat) p /\
            MainCpp.floyd_warshall n W i j = wsum MainCpp.eadd W i p j.
Proof.
  rewrite cpp_floyd_eq.
  apply (Ds_is_walk ele MainCpp.eadd (MainCpp.Fin 0) min_cpp ele_antisym
                    eadd_mono eadd_comm eadd_assoc eadd_0_l min_cpp_le_c
                    min_cpp_cases n W W_nonneg W_diag n).
Qed.

Lemma cpp_floyd_below_walks p i j :
  (i < n)%nat -> (j < n)%nat -> Forall (fun m => (m < n)%nat) p ->
  ele (MainCpp.floyd_warshall n W i j) (wsum MainCpp.eadd W i p j).
Proof.
  rewrite cpp_floyd_eq.
  apply (Ds_below_walks ele MainCpp.eadd (MainCpp.Fin 0) min_cpp ele_refl
                        ele_trans ele_antisym eadd_mono eadd_comm eadd_assoc
                        eadd_0_l min_cpp_le_c min_cpp_le_sum min_cpp_cases
                        n W W_nonneg W_diag n (Nat.le_refl n)).
Qed.
End PassCpp.

(** ** The matrices before the pass *)

Lemma PI_le_4 : PI <= 4.
Proof. exact PI_4. Qed.

Lemma c_theta_bounds a b : 0 <= MainC.theta_of a b <= PI.
Proof. unfold MainC.theta_of. apply acos_bound. Qed.

Lemma c_arc_edge_cases theta ivs :
  MainC.arc_edge theta ivs = MainC.INF \/
  (1e-12 <= theta /\ MainC.arc_edge theta ivs = theta * MainC.EARTH_R).
Proof.
  unfold MainC.arc_edge. destruct (Rlt_dec theta 1e-12); [now left|].
  destruct (MainC.covered theta ivs); [right; split; [lra|reflexivity]|now left].
Qed.

Lemma c_direct_bounded airports cosA a b :
  0 <= MainC.direct airports cosA a b <= MainC.INF.
Proof.
  unfold MainC.direct.
  destruct (c_arc_edge_cases (MainC.theta_of a b)
              (MainC.gather airports cosA a b (MainC.theta_of a b)))
    as [E|[Ht E]]; rewrite E.
  - pose proof INF_pos. lra.
  - pose proof (c_theta_bounds a b) as [H0 H1]. pose proof PI_le_4.
    unfold MainC.EARTH_R, MainC.INF. split; [nra|nra].
Qed.

Lemma c_D_init_bounded airports V cosA : bounded (MainC.D_init airports V cosA).
Proof.
  intros i j. unfold MainC.D_init. pose proof INF_pos.
  destruct (i =? j)%nat; [lra|].
  destruct ((i <? length V)%nat && (j <? length V)%nat);
    [apply c_direct_bounded|lra].
Qed.

Lemma c_D_init_diag airports V cosA i : MainC.D_init airports V cosA i i = 0.
Proof. unfold MainC.D_init. now rewrite Nat.eqb_refl. Qed.

Lemma c_D_init_symmetric airports V cosA i j :
  MainC.D_init airports V cosA i j = MainC.D_init airports V cosA j i.
Proof.
  unfold MainC.D_init.
  rewrite (Nat.eqb_sym j i), (andb_comm (j <? length V)%nat),
    (Nat.min_comm j i), (Nat.max_comm j i).
  reflexivity.
Qed.

Lemma cpp_clamp_domain d : -1 <= MainCpp.clamp d <= 1.
Proof.
  unfold MainCpp.clamp, Rmax, Rmin.
  destruct (Rle_dec 1 d); destruct (Rle_dec (-1) _); lra.
Qed.

Lemma cpp_dist_xyz_bounds p q : 0 <= MainCpp.dist_xyz p q <= PI * MainCpp.R_earth.
Proof.
  unfold MainCpp.dist_xyz, MainCpp.R_earth.
  pose proof (acos_bound
                (MainCpp.clamp (MainCpp.dot (MainCpp.normalize p)
                                            (MainCpp.normalize q)))).
  nra.
Qed.

Lemma cpp_adj_init_nonneg vs airports R_sphere :
  enonneg (MainCpp.adj_init vs airports R_sphere).
Proof.
  intros i j. unfold MainCpp.adj_init.
  destruct (i =? j)%nat; [simpl; lra|].
  destruct ((i <? length vs)%nat && (j <? length vs)%nat); [|exact I].
  match goal with |- ele _ (if ?c then _ else _) => destruct c end;
    [|exact I].
  simpl. apply cpp_dist_xyz_bounds.
Qed.

Lemma cpp_adj_init_diag vs airports R_sphere i :
  MainCpp.adj_init vs airports R_sphere i i = MainCpp.Fin 0.
Proof. unfold MainCpp.adj_init. now rewrite Nat.eqb_refl. Qed.

Lemma cpp_adj_init_symmetric vs airports R_sphere i j :
  MainCpp.adj_init vs airports R_sphere i j =
  MainCpp.adj_init vs airports R_sphere j i.
Proof.
  unfold MainCpp.adj_init.
  rewrite (Nat.eqb_sym j i), (andb_comm (j <? length vs)%nat),
    (Nat.min_comm j i), (Nat.max_comm j i).
  reflexivity.
Qed.

(** ** C5: the safe-distance matrix after the all-pairs pass *)

(** C5.  After the all-pairs shortest-path pass the safe-distance matrix
    of either program is symmetric, has a zero diagonal and satisfies
    the triangle inequality [M i j <= M i k + M k j] for all vertex
    indices (in main.cpp the order and the sum are those of the extended
    reals, so an infinite right-hand side bounds everything). *)
Theorem safe_distance_matrix_metric :
  (forall (R0 : Z) (lonlat : list (R * R)) (i j k : nat),
      (i < length (MainC.node_list R0 lonlat))%nat ->
      (j < length (MainC.node_list R0 lonlat))%nat ->
      (k < length (MainC.node_list R0 lonlat))%nat ->
      MainC.D_final R0 lonlat i j = MainC.D_final R0 lonlat j i /\
      MainC.D_final R0 lonlat i i = 0 /\
      MainC.D_final R0 lonlat i j
      <= MainC.D_final R0 lonlat i k + MainC.D_final R0 lonlat k j) /\
  (forall (R_sphere : R) (lonlat : list (R * R)) (i j k : nat),
      let V := length (MainCpp.vertices (MainCpp.airports_of lonlat) R_sphere) in
      (i < V)%nat -> (j < V)%nat -> (k < V)%nat ->
      MainCpp.adj_aux R_sphere lonlat i j = MainCpp.adj_aux R_sphere lonlat j i /\
      MainCpp.adj_aux R_sphere lonlat i i = MainCpp.Fin 0 /\
      ele (MainCpp.adj_aux R_sphere lonlat i j)
          (MainCpp.eadd (MainCpp.adj_aux R_sphere lonlat i k)
                        (MainCpp.adj_aux R_sphere lonlat k j))).
Proof.
  split.
  - intros R0 lonlat i j k Hi Hj Hk. unfold MainC.D_final.
    set (W := MainC.D_init _ _ _).
    assert (HB : bounded W) by apply c_D_init_bounded.
    assert (HD : forall a, W a a = 0) by (intros; apply c_D_init_diag).
    repeat split.
    + apply c_floyd_symmetric; try assumption.
      intros; apply c_D_init_symmetric.
    + now apply c_floyd_diag.
    + now apply c_floyd_triangle.
  - intros R_sphere lonlat i j k V Hi Hj Hk. unfold MainCpp.adj_aux.
    fold V. set (W := MainCpp.adj_init _ _ _).
    assert (HN : enonneg W) by apply cpp_adj_init_nonneg.
    assert (HD : forall a, W a a = MainCpp.Fin 0)
      by (intros; apply cpp_adj_init_diag).
    repeat split.
    + apply cpp_floyd_symmetric; try assumption.
      intros; apply cpp_adj_init_symmetric.
    + now apply cpp_floyd_diag.
    + now apply cpp_floyd_triangle.
Qed.

(** C5 as stated fails in the program's arithmetic: the sums of the pass
    are rounded, and rounded addition is not associative.  Radius 1707,
    airports at (4, 6), (4, -3) and (20, -4): after the pass the entry
    for airports 2 and 3 (3787.7589850319468) exceeds the sum of the
    entries for airports 2 and 1 and for airports 1 and 3
    (3787.7589850319464), both finite. *)
Lemma rounded_sums_break_triangle :
  PrimFloat.ltb (MainC64.floyd 9 MainC64.D_1707 1 0) MainC64.INF = true /\
  PrimFloat.ltb (MainC64.floyd 9 MainC64.D_1707 0 2) MainC64.INF = true /\
  PrimFloat.ltb (PrimFloat.add (MainC64.floyd 9 MainC64.D_1707 1 0)
                               (MainC64.floyd 9 MainC64.D_1707 0 2))
                (MainC64.floyd 9 MainC64.D_1707 1 2) = true.
Proof. vm_compute. repeat split. Qed.

(** Symmetry and the zero diagonal survive the rounding there. *)
Lemma c64_symmetric_zero_diagonal :
  forallb (fun i =>
             PrimFloat.eqb (MainC64.floyd 9 MainC64.D_1707 i i) PrimFloat.zero
             && forallb (fun j =>
                           PrimFloat.eqb (MainC64.floyd 9 MainC64.D_1707 i j)
                                         (MainC64.floyd 9 MainC64.D_1707 j i))
                        (seq 0 9))
          (seq 0 9) = true.
Proof. vm_compute. reflexivity. Qed.

(** ** Dijkstra's search of main.c *)

Lemma select_spec (N : nat) (st : MainC.dstate) :
  match MainC.select N st with
  | (None, _) =>
      forall i, (i < N)%nat -> snd st i = false -> MainC.INF <= fst st i
  | (Some u, _) =>
      (u < N)%nat /\ snd st u = false /\ fst st u < MainC.INF /\
      forall i, (i < N)%nat -> snd st i = false -> fst st u <= fst st i
  end.
Proof.
  unfold MainC.select.
  set (body := fun (i : nat) (ub : option nat * R) =>
                 if negb (snd st i) && Rltb (fst st i) (snd ub)
                 then (Some i, fst st i) else ub).
  assert (G : forall m,
             let ub := for_up m body (None, MainC.INF) in
             snd ub <= MainC.INF /\
             (forall i, (i < m)%nat -> snd st i = false -> snd ub <= fst st i) /\
             match fst ub with
             | None => snd ub = MainC.INF
             | Some u => (u < m)%nat /\ snd st u = false /\
                         snd ub = fst st u /\ fst st u < MainC.INF
             end).
  { induction m as [|m IH]; simpl.
    - split; [lra|]. split; [intros; lia|reflexivity].
    - destruct IH as [Hle [Hmin Hfst]].
      set (ub := for_up m body (None, MainC.INF)) in *.
      unfold body.
      destruct (snd st m) eqn:Eu; simpl.
      + split; [exact Hle|]. split.
        * intros i Hi Hui. destruct (Nat.eq_dec i m) as [->|];
            [congruence|apply Hmin; [lia|assumption]].
        * destruct (fst ub); [|exact Hfst].
          destruct Hfst as [? ?]. split; [lia|assumption].
      + destruct (Rltb (fst st m) (snd ub)) eqn:El; simpl.
        * apply Rltb_true in El. split; [lra|]. split.
          -- intros i Hi Hui. destruct (Nat.eq_dec i m) as [->|]; [lra|].
             specialize (Hmin i ltac:(lia) Hui). lra.
          -- repeat split; [lia|assumption|lra].
        * apply Rltb_false in El. split; [exact Hle|]. split.
          -- intros i Hi Hui. destruct (Nat.eq_dec i m) as [->|];
               [exact El|apply Hmin; [lia|assumption]].
          -- destruct (fst ub); [|exact Hfst].
             destruct Hfst as [? ?]. split; [lia|assumption]. }
  specialize (G N). simpl in G. destruct G as [Hle [Hmin Hfst]].
  destruct (for_up N body (None, MainC.INF)) as [[u|] best]; simpl in *.
  - destruct Hfst as [Hu [Huu [Hb Hlt]]]. repeat split; try assumption.
    intros i Hi Hui. rewrite <- Hb. now apply Hmin.
  - intros i Hi Hui. rewrite <- Hfst. now apply Hmin.
Qed.

Lemma relax_from_spec N A c u d v :
  bounded A ->
  MainC.relax_from N A c u d v =
  if (v <? N)%nat && Rleb (A u v) (c + 1e-9) && Rltb (d u + A u v) (d v)
  then d u + A u v else d v.
Proof.
  intros A_bounded. unfold MainC.relax_from.
  set (body := fun (v0 : nat) (d0 : nat -> R) =>
                 if Rleb (A u v0) (c + 1e-9) && Rltb (d0 u + A u v0) (d0 v0)
                 then upd1 d0 v0 (d0 u + A u v0) else d0).
  assert (G : forall m v0,
             for_up m body d v0 =
             if (v0 <? m)%nat && Rleb (A u v0) (c + 1e-9)
                && Rltb (d u + A u v0) (d v0)
             then d u + A u v0 else d v0).
  { induction m as [|m IH]; intros v0; simpl.
    - reflexivity.
    - set (dm := for_up m body d) in *.
      assert (Hu : dm u = d u).
      { rewrite IH. destruct (Rltb (d u + A u u) (d u)) eqn:E.
        - apply Rltb_true in E. pose proof (A_bounded u u). lra.
        - now rewrite andb_false_r. }
      assert (Hm : dm m = d m).
      { rewrite IH, Nat.ltb_irrefl. reflexivity. }
      unfold body at 1. rewrite Hu, Hm.
      destruct (Nat.eq_dec v0 m) as [->|Hne].
      + replace (m <? S m)%nat with true by (symmetry; apply Nat.ltb_lt; lia).
        simpl.
        destruct (Rleb (A u m) (c + 1e-9) && Rltb (d u + A u m) (d m)).
        * unfold upd1. now rewrite Nat.eqb_refl.
        * exact Hm.
      + assert (E : (v0 <? S m)%nat = (v0 <? m)%nat).
        { destruct (Nat.ltb_spec v0 (S m)), (Nat.ltb_spec v0 m);
            try reflexivity; lia. }
        rewrite E, <- IH.
        destruct (Rleb (A u m) (c + 1e-9) && Rltb (d u + A u m) (d m));
          [|reflexivity].
        unfold upd1. destruct (Nat.eqb_spec v0 m); [contradiction|reflexivity]. }
  apply G.
Qed.

Section Dijkstra.
Variable N : nat.
Variable A : nat -> nat -> R.
Variable c : R.
Variable src : nat.
Hypothesis A_bounded : bounded A.
Hypothesis src_valid : (src < N)%nat.

Let wc := leg_weight A c.

Lemma leg_weight_bounds u v : 0 <= wc u v <= MainC.INF.
Proof.
  unfold wc, leg_weight. pose proof INF_pos. pose proof (A_bounded u v).
  destruct (u =? v)%nat; [lra|]. destruct (Rle_dec (A u v) (c + 1e-9)); lra.
Qed.

(** What holds of [distN] and [used] before and after every round. *)
Record dinv (st : MainC.dstate) : Prop := {
  dinv_range : forall v, 0 <= fst st v <= MainC.INF;
  dinv_walk : forall v,
      fst st v = MainC.INF \/
      exists p, Forall (fun m => (m < N)%nat) p /\
                fst st v = wsum Rplus wc src p v;
  dinv_relaxed : forall u v,
      (u < N)%nat -> (v < N)%nat -> snd st u = true ->
      fst st v <= fst st u + wc u v;
  dinv_order : forall u v,
      (u < N)%nat -> (v < N)%nat -> snd st u = true -> snd st v = false ->
      fst st u <= fst st v;
  dinv_used : forall u, snd st u = true -> (u < N)%nat;
  dinv_src : fst st src = 0
}.

Definition dinit : MainC.dstate :=
  ((fun i => if (Z.of_nat i =? Z.of_nat src)%Z then 0 else MainC.INF),
   fun _ => false).

Lemma dinit_inv : dinv dinit.
Proof.
  pose proof INF_pos. constructor; simpl; try discriminate;
    [| |now rewrite Z.eqb_refl].
  - intros v. destruct (Z.of_nat v =? Z.of_nat src)%Z; lra.
  - intros v. destruct (Z.eqb_spec (Z.of_nat v) (Z.of_nat src)) as [E|E].
    + right. exists []. split; [constructor|]. simpl.
      apply Nat2Z.inj in E. subst. unfold wc, leg_weight.
      now rewrite Nat.eqb_refl.
    + now left.
Qed.

Lemma dstep_inv st u :
  dinv st ->
  (u < N)%nat -> snd st u = false -> fst st u < MainC.INF ->
  (forall i, (i < N)%nat -> snd st i = false -> fst st u <= fst st i) ->
  dinv (MainC.relax_from N A c u (fst st), upd1 (snd st) u true).
Proof.
  intros [Hr Hw Hx Ho Hu Hs] HuN Hun Hlt Hmin.
  destruct st as [d used]. simpl in *.
  assert (Hle : forall v, MainC.relax_from N A c u d v <= d v).
  { intros v. rewrite relax_from_spec by exact A_bounded.
    destruct ((v <? N)%nat && Rleb (A u v) (c + 1e-9)) eqn:E1; simpl;
      [|lra].
    destruct (Rltb (d u + A u v) (d v)) eqn:E2; [|lra].
    apply Rltb_true in E2. lra. }
  assert (Hge : forall v, d u <= d v ->
                          d u <= MainC.relax_from N A c u d v).
  { intros v Hv. rewrite relax_from_spec by exact A_bounded. pose proof (A_bounded u v).
    destruct ((v <? N)%nat && Rleb (A u v) (c + 1e-9)
              && Rltb (d u + A u v) (d v)); lra. }
  assert (Hfix : forall v, d v <= d u ->
                           MainC.relax_from N A c u d v = d v).
  { intros v Hv. rewrite relax_from_spec by exact A_bounded. pose proof (A_bounded u v).
    destruct (Rltb (d u + A u v) (d v)) eqn:E2.
    - apply Rltb_true in E2. lra.
    - now rewrite andb_false_r. }
  assert (Huu : MainC.relax_from N A c u d u = d u) by (apply Hfix; lra).
  constructor; simpl.
  - intros v. rewrite relax_from_spec by exact A_bounded. pose proof (Hr v). pose proof (Hr u).
    pose proof (A_bounded u v).
    destruct ((v <? N)%nat && Rleb (A u v) (c + 1e-9)) eqn:E1; simpl;
      [|lra].
    destruct (Rltb (d u + A u v) (d v)) eqn:E2; [|lra].
    apply Rltb_true in E2. lra.
  - intros v. rewrite relax_from_spec by exact A_bounded.
    destruct ((v <? N)%nat && Rleb (A u v) (c + 1e-9)
              && Rltb (d u + A u v) (d v)) eqn:E; [|apply Hw].
    apply andb_prop in E. destruct E as [E E2].
    apply andb_prop in E. destruct E as [E0 E1].
    apply Rleb_true in E1. apply Rltb_true in E2.
    destruct (Hw u) as [Hinf|[p [Hp Ep]]]; [lra|].
    right. exists (p ++ [u]). split.
    + apply Forall_app. split; [exact Hp|]. constructor; [exact HuN|constructor].
    + rewrite (wsum_app Rplus (fun a b c0 => eq_sym (Rplus_assoc a b c0))).
      simpl. rewrite <- Ep. f_equal. unfold wc, leg_weight.
      destruct (Nat.eqb_spec u v) as [->|Hne].
      * pose proof (A_bounded v v). lra.
      * destruct (Rle_dec (A u v) (c + 1e-9)); [reflexivity|contradiction].
  - intros a v Ha Hv Hua. unfold upd1 in Hua.
    destruct (Nat.eqb_spec a u) as [->|Hne].
    + rewrite Huu. rewrite relax_from_spec by exact A_bounded.
      pose proof (leg_weight_bounds u v) as Hb. pose proof (Hr v).
      pose proof (Hr u). unfold wc, leg_weight in *.
      replace (v <? N)%nat with true by (symmetry; now apply Nat.ltb_lt).
      simpl. destruct (Nat.eqb_spec u v) as [->|Hne].
      * destruct (Rleb (A v v) (c + 1e-9) && Rltb (d v + A v v) (d v)) eqn:E;
          [|lra].
        apply andb_prop in E. destruct E as [_ E]. apply Rltb_true in E. lra.
      * destruct (Rle_dec (A u v) (c + 1e-9)) as [Hc|Hc].
        -- replace (Rleb (A u v) (c + 1e-9)) with true
             by (symmetry; now apply Rleb_true).
           simpl. destruct (Rltb (d u + A u v) (d v)) eqn:E; [lra|].
           apply Rltb_false in E. lra.
        -- replace (Rleb (A u v) (c + 1e-9)) with false
             by (symmetry; apply Rleb_false; lra).
           simpl. lra.
    + rewrite (Hfix a) by (apply Ho; assumption).
      eapply Rle_trans; [apply Hle|]. now apply Hx.
  - intros a v Ha Hv Hua Huv. unfold upd1 in Hua, Huv.
    destruct (Nat.eqb_spec v u) as [->|Hvu]; [discriminate|].
    destruct (Nat.eqb_spec a u) as [->|Hau].
    + rewrite Huu. apply Hge. now apply Hmin.
    + rewrite (Hfix a) by (apply Ho; assumption).
      eapply Rle_trans; [apply (Ho a u); assumption|].
      apply Hge. now apply Hmin.
  - intros a Ha. unfold upd1 in Ha.
    destruct (Nat.eqb_spec a u) as [E|E]; [now rewrite E|now apply Hu].
  - rewrite Hfix; [exact Hs|]. rewrite Hs. apply Hr.
Qed.

Definition unused_count (used : nat -> bool) : nat :=
  length (filter (fun v => negb (used v)) (seq 0 N)).

Lemma unused_count_zero used :
  unused_count used = O -> forall v, (v < N)%nat -> used v = true.
Proof.
  unfold unused_count. intros H v Hv.
  destruct (used v) eqn:E; [reflexivity|].
  assert (Hin : In v (filter (fun v => negb (used v)) (seq 0 N))).
  { apply filter_In. split; [apply in_seq; lia|now rewrite E]. }
  destruct (filter _ _); [contradiction|discriminate].
Qed.

Lemma unused_count_mark used u :
  (u < N)%nat -> used u = false ->
  (unused_count (upd1 used u true) < unused_count used)%nat.
Proof.
  intros Hu Hun. unfold unused_count.
  assert (Hin : In u (seq 0 N)) by (apply in_seq; lia).
  revert Hin. generalize (seq 0 N) as l.
  assert (Hle : forall l,
             (length (filter (fun v => negb (upd1 used u true v)) l)
              <= length (filter (fun v => negb (used v)) l))%nat).
  { induction l as [|a l IH]; simpl; [lia|].
    unfold upd1 at 1. destruct (Nat.eqb_spec a u) as [->|]; simpl.
    - rewrite Hun. simpl. lia.
    - destruct (used a); simpl; lia. }
  induction l as [|a l IH]; simpl; [contradiction|].
  intros [->|Hin].
  - unfold upd1 at 1. rewrite Nat.eqb_refl, Hun. simpl.
    pose proof (Hle l). lia.
  - specialize (IH Hin). unfold upd1 at 1.
    destruct (Nat.eqb_spec a u) as [->|]; simpl.
    + rewrite Hun. simpl. lia.
    + destruct (used a); simpl; lia.
Qed.

Lemma dijkstra_loop_final it st :
  dinv st -> (unused_count (snd st) <= it)%nat ->
  dinv (MainC.dijkstra_loop it N A c st) /\
  forall v, (v < N)%nat ->
            snd (MainC.dijkstra_loop it N A c st) v = true \/
            MainC.INF <= fst (MainC.dijkstra_loop it N A c st) v.
Proof.
  revert st. induction it as [|it IH]; intros st Hinv Hcnt; simpl.
  - split; [exact Hinv|]. intros v Hv. left.
    apply unused_count_zero; [lia|exact Hv].
  - pose proof (select_spec N st) as Hsel.
    destruct (MainC.select N st) as [[u|] best]; simpl.
    + destruct Hsel as [Hu [Hun [Hlt Hmin]]].
      apply IH.
      * now apply dstep_inv.
      * simpl. pose proof (unused_count_mark (snd st) u Hu Hun). lia.
    + split; [exact Hinv|]. intros v Hv.
      destruct (snd st v) eqn:E; [now left|right; now apply Hsel].
Qed.

(** [distN] after the search: within [0, INF], zero at the source, the
    weight of a walk of legs wherever it is not [INF], and below the
    weight of every walk of legs. *)
Lemma dijkstra_correct :
  let d := MainC.dijkstra N A c (Z.of_nat src) in
  (forall v, 0 <= d v <= MainC.INF) /\
  d src = 0 /\
  (forall v, d v = MainC.INF \/
             exists p, Forall (fun m => (m < N)%nat) p /\
                       d v = wsum Rplus wc src p v) /\
  (forall p t, (t < N)%nat -> Forall (fun m => (m < N)%nat) p ->
               d t <= wsum Rplus wc src p t).
Proof.
  intros d. unfold MainC.dijkstra in d. fold dinit in d.
  destruct (dijkstra_loop_final N dinit dinit_inv) as [Hinv Hfin].
  { unfold unused_count. rewrite filter_length_le, length_seq. lia. }
  fold d in Hfin. destruct Hinv as [Hr Hw Hx Ho Hu Hs].
  fold d in Hr, Hw, Hx, Ho, Hs.
  assert (Hused : forall v, (v < N)%nat -> d v < MainC.INF ->
                            snd (MainC.dijkstra_loop N N A c dinit) v = true).
  { intros v Hv Hlt. destruct (Hfin v Hv) as [H|H]; [exact H|lra]. }
  repeat split; try assumption; try apply Hr.
  intros p. induction p as [|m p IH] using rev_ind; intros t Ht Hp.
  - simpl. pose proof (Hx src t src_valid Ht) as H.
    rewrite Hs, Rplus_0_l in H. apply H. apply Hused; [exact src_valid|].
    rewrite Hs. apply INF_pos.
  - apply Forall_app in Hp. destruct Hp as [Hp Hm].
    inversion Hm as [|? ? HmN _]; subst.
    rewrite (wsum_app Rplus (fun a b c0 => eq_sym (Rplus_assoc a b c0))).
    simpl. specialize (IH m HmN Hp).
    pose proof (leg_weight_bounds m t) as Hb. fold wc in Hb.
    destruct (Rlt_dec (d m) MainC.INF) as [Hlt|Hge].
    + pose proof (Hx m t HmN Ht (Hused m HmN Hlt)). lra.
    + pose proof (Hr t). lra.
Qed.
End Dijkstra.

(** ** The matrices the queries read *)

Lemma c_floyd_bounded n W :
  bounded W -> (forall i, W i i = 0) -> bounded (MainC.floyd n W).
Proof.
  intros HB HD a b. split.
  - now apply c_floyd_nonneg.
  - eapply Rle_trans; [now apply c_floyd_below_W|apply HB].
Qed.

Lemma c_AtoA_bounded R0 lonlat : bounded (MainC.AtoA R0 lonlat).
Proof.
  unfold MainC.AtoA, MainC.D_final. intros a b.
  apply c_floyd_bounded; [apply c_D_init_bounded|].
  intros; apply c_D_init_diag.
Qed.

Lemma cpp_adj_aux_nonneg R_sphere lonlat :
  enonneg (MainCpp.adj_aux R_sphere lonlat).
Proof.
  unfold MainCpp.adj_aux. intros a b.
  apply cpp_floyd_nonneg; [apply cpp_adj_init_nonneg|].
  intros; apply cpp_adj_init_diag.
Qed.

Lemma cpp_refuel_init_nonneg N adj idx c :
  enonneg adj -> enonneg (MainCpp.refuel_init N adj idx c).
Proof.
  intros H i j. unfold MainCpp.refuel_init.
  destruct (i =? j)%nat; [simpl; lra|].
  destruct ((i <? N)%nat && (j <? N)%nat); [|exact I].
  destruct (MainCpp.within _ _); [apply H|exact I].
Qed.

Lemma cpp_refuel_init_diag N adj idx c i :
  MainCpp.refuel_init N adj idx c i i = MainCpp.Fin 0.
Proof. unfold MainCpp.refuel_init. now rewrite Nat.eqb_refl. Qed.

(** ** C10: a query from an airport to itself *)

Lemma c_same_airport R0 lonlat s c :
  (1 <= s <= Z.of_nat (length lonlat))%Z ->
  MainC.run_query R0 lonlat s s c = Distance 0.
Proof.
  intros Hs. unfold MainC.run_query, MainC.query.
  set (N := length lonlat) in *.
  set (src := Z.to_nat (s - 1)).
  assert (Hsrc : (src < N)%nat) by (unfold src; lia).
  replace (s - 1)%Z with (Z.of_nat src) by (unfold src; lia).
  destruct (dijkstra_correct N (MainC.AtoA R0 lonlat) c src
              (c_AtoA_bounded R0 lonlat) Hsrc) as [_ [H0 _]].
  rewrite H0.
  destruct (Rge_dec 0 (MainC.INF / 2)) as [H|H]; [|reflexivity].
  pose proof INF_pos. lra.
Qed.

Lemma cpp_same_airport R_sphere lonlat s c :
  MainCpp.run_query R_sphere lonlat s s c = Distance 0.
Proof.
  unfold MainCpp.run_query, MainCpp.query.
  rewrite cpp_floyd_diag; [reflexivity| |].
  - apply cpp_refuel_init_nonneg, cpp_adj_aux_nonneg.
  - intros; apply cpp_refuel_init_diag.
Qed.

(** C10.  For every valid query whose source airport equals its target
    airport, both programs report the distance 0 and never "impossible",
    whatever the capacity (zero and negative ones included) and whatever
    the radius and the airports. *)
Theorem same_airport_query_is_zero :
  (forall (R0 : Z) (lonlat : list (R * R)) (s : Z) (c : R),
      (1 <= s <= Z.of_nat (length lonlat))%Z ->
      MainC.run_query R0 lonlat s s c = Distance 0) /\
  (forall (R_sphere : R) (lonlat : list (R * R)) (s : Z) (c : R),
      (1 <= s <= Z.of_nat (length lonlat))%Z ->
      MainCpp.run_query R_sphere lonlat s s c = Distance 0).
Proof.
  split.
  - intros R0 lonlat s c Hs. now apply c_same_airport.
  - intros R_sphere lonlat s c _. apply cpp_same_airport.
Qed.

Lemma same_airport_query_is_zero_witness :
  MainC.run_query 100 [(0, 0); (0, 10)] 2 2 0 = Distance 0 /\
  MainCpp.run_query 0 [(0, 0); (0, 10)] 1 1 0 = Distance 0.
Proof.
  destruct same_airport_query_is_zero as [Hc Hcpp]. split.
  - apply (Hc 100%Z [(0, 0); (0, 10)] 2%Z 0). simpl. lia.
  - apply (Hcpp 0 [(0, 0); (0, 10)] 1%Z 0). simpl. lia.
Defined.

(** ** C6: more capacity never hurts *)

Lemma wsum_mono {T : Type} (tle : T -> T -> Prop) (tadd : T -> T -> T)
      (W1 W2 : nat -> nat -> T) :
  (forall a b c d, tle a b -> tle c d -> tle (tadd a c) (tadd b d)) ->
  (forall u v, tle (W2 u v) (W1 u v)) ->
  forall p i j, tle (wsum tadd W2 i p j) (wsum tadd W1 i p j).
Proof.
  intros Hmono HW p. induction p as [|m p IH]; intros i j; simpl.
  - apply HW.
  - apply Hmono; [apply HW|apply IH].
Qed.

Lemma leg_weight_antitone A c1 c2 u v :
  bounded A -> c1 <= c2 -> leg_weight A c2 u v <= leg_weight A c1 u v.
Proof.
  intros HA Hc. unfold leg_weight. pose proof (HA u v).
  destruct (u =? v)%nat; [lra|].
  destruct (Rle_dec (A u v) (c2 + 1e-9)), (Rle_dec (A u v) (c1 + 1e-9)); lra.
Qed.

Lemma cpp_refuel_init_antitone N adj idx c1 c2 i j :
  c1 <= c2 ->
  ele (MainCpp.refuel_init N adj idx c2 i j)
      (MainCpp.refuel_init N adj idx c1 i j).
Proof.
  intros Hc. unfold MainCpp.refuel_init.
  destruct (i =? j)%nat; [apply ele_refl|].
  destruct ((i <? N)%nat && (j <? N)%nat); [|apply ele_refl].
  destruct (adj (idx i) (idx j)) as [p|]; simpl; [|exact I].
  destruct (Rleb p (c1 + MainCpp.EPS)) eqn:E1; [|
    destruct (Rleb p (c2 + MainCpp.EPS)); exact I].
  apply Rleb_true in E1.
  replace (Rleb p (c2 + MainCpp.EPS)) with true
    by (symmetry; apply Rleb_true; lra).
  simpl. lra.
Qed.

(** C6.  For a fixed scenario and a fixed pair of airports, raising the
    capacity from [c1] to [c2] keeps a reachable target reachable and
    does not increase the reported distance, in both programs. *)
Theorem query_monotone_in_capacity :
  (forall (R0 : Z) (lonlat : list (R * R)) (s t : Z) (c1 c2 d1 : R),
      (1 <= s <= Z.of_nat (length lonlat))%Z ->
      (1 <= t <= Z.of_nat (length lonlat))%Z ->
      c1 <= c2 ->
      MainC.run_query R0 lonlat s t c1 = Distance d1 ->
      exists d2, MainC.run_query R0 lonlat s t c2 = Distance d2 /\ d2 <= d1) /\
  (forall (R_sphere : R) (lonlat : list (R * R)) (s t : Z) (c1 c2 d1 : R),
      (1 <= s <= Z.of_nat (length lonlat))%Z ->
      (1 <= t <= Z.of_nat (length lonlat))%Z ->
      c1 <= c2 ->
      MainCpp.run_query R_sphere lonlat s t c1 = Distance d1 ->
      exists d2,
        MainCpp.run_query R_sphere lonlat s t c2 = Distance d2 /\ d2 <= d1).
Proof.
  split.
  - intros R0 lonlat s t c1 c2 d1 Hs Ht Hc.
    unfold MainC.run_query, MainC.query.
    set (N := length lonlat) in *. set (A := MainC.AtoA R0 lonlat).
    set (src := Z.to_nat (s - 1)). set (tgt := Z.to_nat (t - 1)).
    assert (Hsrc : (src < N)%nat) by (unfold src; lia).
    assert (Htgt : (tgt < N)%nat) by (unfold tgt; lia).
    replace (s - 1)%Z with (Z.of_nat src) by (unfold src; lia).
    assert (HA : bounded A) by apply c_AtoA_bounded.
    destruct (dijkstra_correct N A c1 src HA Hsrc) as [Hr1 [_ [Hw1 _]]].
    destruct (dijkstra_correct N A c2 src HA Hsrc) as [_ [_ [_ Hl2]]].
    set (dA := MainC.dijkstra N A c1 (Z.of_nat src)) in *.
    set (dB := MainC.dijkstra N A c2 (Z.of_nat src)) in *.
    destruct (Rge_dec (dA tgt) (MainC.INF / 2)) as [Hge|Hlt]; [discriminate|].
    intros E. inversion E; subst d1. clear E.
    assert (Hle : dB tgt <= dA tgt).
    { destruct (Hw1 tgt) as [Hinf|[p [Hp Ep]]].
      - pose proof INF_pos. lra.
      - rewrite Ep. eapply Rle_trans; [apply Hl2; eassumption|].
        apply (wsum_mono Rle Rplus); [apply Rplus_le_compat|].
        intros; now apply leg_weight_antitone. }
    exists (dB tgt). split; [|exact Hle].
    destruct (Rge_dec (dB tgt) (MainC.INF / 2)); [lra|reflexivity].
  - intros R_sphere lonlat s t c1 c2 d1 Hs Ht Hc.
    unfold MainCpp.run_query, MainCpp.query.
    set (N := length lonlat) in *.
    set (adj := MainCpp.adj_aux R_sphere lonlat).
    set (idx := MainCpp.airport_to_vertex_idx _ _).
    set (src := Z.to_nat (s - 1)). set (tgt := Z.to_nat (t - 1)).
    assert (Hsrc : (src < N)%nat) by (unfold src; lia).
    assert (Htgt : (tgt < N)%nat) by (unfold tgt; lia).
    assert (Hadj : enonneg adj) by apply cpp_adj_aux_nonneg.
    set (W1 := MainCpp.refuel_init N adj idx c1).
    set (W2 := MainCpp.refuel_init N adj idx c2).
    destruct (cpp_floyd_is_walk N W1 (cpp_refuel_init_nonneg N adj idx c1 Hadj)
                (cpp_refuel_init_diag N adj idx c1) src tgt) as [p [Hp Ep]].
    pose proof (cpp_floyd_below_walks N W2
                  (cpp_refuel_init_nonneg N adj idx c2 Hadj)
                  (cpp_refuel_init_diag N adj idx c2) p src tgt Hsrc Htgt Hp)
      as Hl.
    assert (Hm : ele (wsum MainCpp.eadd W2 src p tgt)
                     (wsum MainCpp.eadd W1 src p tgt)).
    { apply (wsum_mono ele MainCpp.eadd); [apply eadd_mono|].
      intros; now apply cpp_refuel_init_antitone. }
    rewrite <- Ep in Hm. pose proof (ele_trans _ _ _ Hl Hm) as Hle.
    destruct (MainCpp.floyd_warshall N W1 src tgt) as [q1|]; [|discriminate].
    intros E. inversion E; subst d1. clear E.
    destruct (MainCpp.floyd_warshall N W2 src tgt) as [q2|];
      [|contradiction].
    exists q2. split; [reflexivity|exact Hle].
Qed.

(** ** Simple walks *)

Lemma all_edges_app P i p m q j :
  all_edges P i (p ++ m :: q) j <-> all_edges P i p m /\ all_edges P m q j.
Proof.
  revert i. induction p as [|a p IH]; intros i; simpl.
  - tauto.
  - rewrite IH. tauto.
Qed.

Lemma all_edges_impl (P Q : nat -> nat -> Prop) i p j :
  (forall a b, P a b -> Q a b) -> all_edges P i p j -> all_edges Q i p j.
Proof.
  intros H. revert i. induction p as [|a p IH]; intros i; simpl.
  - apply H.
  - intros [H1 H2]. split; [now apply H|now apply IH].
Qed.

(** Cutting the cycles out of a walk keeps its steps among the old ones. *)
Lemma simple_walk P p :
  forall i j, all_edges P i p j ->
              exists q, NoDup q /\ incl q p /\ all_edges P i q j.
Proof.
  assert (G : forall len p i j,
             (length p <= len)%nat -> all_edges P i p j ->
             exists q, NoDup q /\ incl q p /\ all_edges P i q j).
  { induction len as [|len IH]; intros p0 i j Hlen Hp.
    - destruct p0; [|simpl in Hlen; lia].
      exists []. split; [constructor|]. split; [apply incl_refl|exact Hp].
    - destruct p0 as [|a p'].
      { exists []. split; [constructor|]. split; [apply incl_refl|exact Hp]. }
      simpl in Hlen, Hp. destruct Hp as [Hia Hp'].
      destruct (in_dec Nat.eq_dec a p') as [Hin|Hnin].
      + destruct (in_split _ _ Hin) as [p1 [p2 E]]. subst p'.
        apply all_edges_app in Hp'. destruct Hp' as [_ Hp2].
        rewrite length_app in Hlen. simpl in Hlen.
        destruct (IH (a :: p2) i j) as [q [Hq [Hincl Hall]]].
        * simpl. lia.
        * simpl. split; assumption.
        * exists q. split; [exact Hq|]. split; [|exact Hall].
          intros b Hb. pose proof (Hincl b Hb) as Hb'.
          destruct Hb' as [E|Hb2]; [left; exact E|].
          right. apply in_or_app. right. now right.
      + destruct (IH p' a j) as [q [Hq [Hincl Hall]]]; [lia|exact Hp'|].
        exists (a :: q). split; [|split].
        * constructor; [|exact Hq]. intros Hc. apply Hnin. now apply Hincl.
        * intros b [->|Hb]; [now left|right; now apply Hincl].
        * simpl. split; assumption. }
  intros i j. apply (G (length p)). lia.
Qed.

Lemma NoDup_below_length (n : nat) (q : list nat) :
  NoDup q -> Forall (fun m => (m < n)%nat) q -> (length q <= n)%nat.
Proof.
  intros Hq Hlt.
  assert (Hincl : incl q (seq 0 n)).
  { intros a Ha. apply in_seq. rewrite Forall_forall in Hlt.
    specialize (Hlt a Ha). simpl in Hlt. lia. }
  pose proof (NoDup_incl_length Hq Hincl) as H.
  now rewrite length_seq in H.
Qed.

Lemma wsum_le_bound (W : nat -> nat -> R) (M : R) i p j :
  all_edges (fun a b => W a b <= M) i p j ->
  wsum Rplus W i p j <= (INR (length p) + 1) * M.
Proof.
  revert i. induction p as [|a p IH]; intros i H.
  - simpl in *. lra.
  - destruct H as [H1 H2]. specialize (IH a H2).
    change (wsum Rplus W i (a :: p) j) with (W i a + wsum Rplus W a p j).
    change (length (a :: p)) with (S (length p)). rewrite S_INR. lra.
Qed.

Lemma wsum_nonneg_R (W : nat -> nat -> R) i p j :
  (forall a b, 0 <= W a b) -> 0 <= wsum Rplus W i p j.
Proof.
  intros HW. revert i. induction p as [|a p IH]; intros i; simpl.
  - apply HW.
  - pose proof (HW i a). pose proof (IH a). lra.
Qed.

Lemma wsum_lt_edges (W : nat -> nat -> R) (X : R) i p j :
  (forall a b, 0 <= W a b) ->
  wsum Rplus W i p j < X -> all_edges (fun a b => W a b < X) i p j.
Proof.
  intros HW. revert i. induction p as [|a p IH]; intros i H; simpl in *.
  - exact H.
  - pose proof (HW i a). pose proof (wsum_nonneg_R W a p j HW).
    split; [lra|apply IH; lra].
Qed.

(** ** How large a finite safe distance can be (main.c) *)

Lemma c_boundary_points_length cosA alpha u v :
  (length (MainC.boundary_points cosA alpha u v) <= 2)%nat.
Proof.
  unfold MainC.boundary_points.
  repeat match goal with
         | |- context [if ?c then _ else _] => destruct c
         end; simpl; lia.
Qed.

Lemma c_intersections_length cosA alpha l :
  (length (MainC.intersections cosA alpha l) <= length l * length l)%nat.
Proof.
  induction l as [|u rest IH]; simpl; [lia|].
  rewrite length_app.
  assert (H : (length (flat_map (MainC.boundary_points cosA alpha u) rest)
               <= 2 * length rest)%nat).
  { clear IH. induction rest as [|v rest IH]; simpl; [lia|].
    rewrite length_app. pose proof (c_boundary_points_length cosA alpha u v).
    lia. }
  lia.
Qed.

Lemma c_node_count R0 lonlat :
  (length lonlat <= length (MainC.node_list R0 lonlat)
   <= length lonlat + length lonlat * length lonlat)%nat.
Proof.
  unfold MainC.node_list, MainC.nodes, MainC.airports_of.
  rewrite length_app, length_map.
  pose proof (c_intersections_length (cos (MainC.alpha_of R0))
                (MainC.alpha_of R0)
                (map (fun p => MainC.sph2vec (fst p) (snd p)) lonlat)) as H.
  rewrite length_map in H. lia.
Qed.

Lemma c_D_init_finite airports V cosA i j :
  MainC.D_init airports V cosA i j < MainC.INF ->
  MainC.D_init airports V cosA i j <= 25480.
Proof.
  unfold MainC.D_init. destruct (i =? j)%nat; [lra|].
  destruct ((i <? length V)%nat && (j <? length V)%nat); [|lra].
  unfold MainC.direct.
  match goal with |- MainC.arc_edge ?t ?l < _ -> _ =>
    destruct (c_arc_edge_cases t l) as [E|[Ht E]]; rewrite E; [lra|];
    pose proof (acos_bound (MainC.clamp_cab
                              (MainC.dot (nth (Nat.min i j) V MainC.zero_vec)
                                         (nth (Nat.max i j) V MainC.zero_vec))))
  end.
  intros _. pose proof PI_le_4. unfold MainC.theta_of, MainC.EARTH_R in *. nra.
Qed.

Lemma c_floyd_finite n W M i j :
  bounded W -> (forall a, W a a = 0) ->
  (forall a b, W a b < MainC.INF -> W a b <= M) ->
  (i < n)%nat -> (j < n)%nat ->
  MainC.floyd n W i j < MainC.INF ->
  MainC.floyd n W i j <= (INR n + 1) * M.
Proof.
  intros HB HD HM Hi Hj Hlt.
  assert (H0 : 0 <= M) by (rewrite <- (HD O); apply HM; rewrite HD; apply INF_pos).
  destruct (c_floyd_is_walk n W HB HD i j) as [p [Hp Ep]].
  rewrite Ep in Hlt.
  apply wsum_lt_edges in Hlt; [|intros; apply HB].
  apply (all_edges_impl _ (fun a b => W a b <= M)) in Hlt; [|exact HM].
  destruct (simple_walk _ p i j Hlt) as [q [Hq [Hincl Hall]]].
  assert (Hqn : Forall (fun m => (m < n)%nat) q).
  { rewrite Forall_forall in Hp |- *. intros a Ha. apply Hp. now apply Hincl. }
  eapply Rle_trans; [apply (c_floyd_below_walks n W HB HD q); assumption|].
  eapply Rle_trans; [apply wsum_le_bound; exact Hall|].
  pose proof (NoDup_below_length n q Hq Hqn) as Hlen.
  apply le_INR in Hlen. nra.
Qed.

(** The search reaches exactly the airports joined to the source by hops,
    when the finite entries of the matrix are far below [INF]. *)
Section Reach.
Variable N : nat.
Variable A : nat -> nat -> R.
Variable c : R.
Variable src : nat.
Variable B : R.
Hypothesis A_bounded : bounded A.
Hypothesis src_valid : (src < N)%nat.
Hypothesis A_finite : forall u v, A u v < MainC.INF -> A u v <= B.
Hypothesis B_nonneg : 0 <= B.
Hypothesis B_small : (INR N + 1) * B < MainC.INF / 2.

Lemma hop_c_weight u v :
  hop_c A c u v <-> leg_weight A c u v < MainC.INF.
Proof.
  unfold hop_c, leg_weight. pose proof INF_pos.
  destruct (Nat.eqb_spec u v) as [E|E].
  - split; [lra|now left].
  - destruct (Rle_dec (A u v) (c + 1e-9)) as [Hc|Hc]; split.
    + intros [Hu|[H1 _]]; [contradiction|exact H1].
    + intros H1. right. split; assumption.
    + intros [Hu|[_ H1]]; contradiction.
    + lra.
Qed.

Lemma dijkstra_reach t :
  (t < N)%nat ->
  (MainC.dijkstra N A c (Z.of_nat src) t < MainC.INF / 2
   <-> connected_c N A c src t).
Proof.
  intros Ht.
  destruct (dijkstra_correct N A c src A_bounded src_valid)
    as [Hr [_ [Hw Hl]]].
  set (d := MainC.dijkstra N A c (Z.of_nat src)) in *.
  pose proof INF_pos as HI. split.
  - intros Hlt. destruct (Hw t) as [Hinf|[p [Hp Ep]]]; [lra|].
    exists p. split; [exact Hp|].
    assert (Hlt' : wsum Rplus (leg_weight A c) src p t < MainC.INF)
      by (rewrite <- Ep; lra).
    apply wsum_lt_edges in Hlt'.
    + eapply all_edges_impl; [|exact Hlt']. intros a b. apply hop_c_weight.
    + intros a b. apply (leg_weight_bounds A c A_bounded).
  - intros [p [Hp Hall]].
    pose proof B_nonneg as H0.
    assert (Hall' : all_edges (fun a b => leg_weight A c a b <= B) src p t).
    { eapply all_edges_impl; [|exact Hall]. intros a b Hab.
      apply hop_c_weight in Hab. unfold leg_weight in *.
      destruct (a =? b)%nat; [exact H0|].
      destruct (Rle_dec (A a b) (c + 1e-9)); [now apply A_finite|lra]. }
    destruct (simple_walk _ p src t Hall') as [q [Hq [Hincl Hallq]]].
    assert (Hqn : Forall (fun m => (m < N)%nat) q).
    { rewrite Forall_forall in Hp |- *. intros a Ha. apply Hp.
      now apply Hincl. }
    pose proof (Hl q t Ht Hqn) as Hle.
    pose proof (wsum_le_bound _ _ _ _ _ Hallq) as Hb.
    pose proof (NoDup_below_length N q Hq Hqn) as Hlen.
    apply le_INR in Hlen. fold d. nra.
Qed.
End Reach.

Lemma c_AtoA_finite R0 lonlat u v :
  MainC.AtoA R0 lonlat u v < MainC.INF ->
  MainC.AtoA R0 lonlat u v
  <= (INR (length (MainC.node_list R0 lonlat)) + 1) * 25480.
Proof.
  unfold MainC.AtoA, MainC.D_final.
  set (V := MainC.node_list R0 lonlat).
  set (W := MainC.D_init _ V _).
  assert (HB : bounded W) by apply c_D_init_bounded.
  assert (HD : forall a, W a a = 0) by (intros; apply c_D_init_diag).
  assert (HM : forall a b, W a b < MainC.INF -> W a b <= 25480)
    by (intros a b; apply c_D_init_finite).
  intros Hlt.
  destruct ((u <? length V)%nat && (v <? length V)%nat) eqn:E.
  - apply andb_prop in E. destruct E as [Eu Ev].
    apply Nat.ltb_lt in Eu. apply Nat.ltb_lt in Ev.
    now apply c_floyd_finite.
  - rewrite c_floyd_outside in Hlt |- * by assumption.
    pose proof (HM _ _ Hlt). pose proof (pos_INR (length V)). nra.
Qed.

(** ** Reachability in main.cpp's query *)

Lemma all_edges_impl_range (P Q : nat -> nat -> Prop) N i p j :
  (forall a b, (a < N)%nat -> (b < N)%nat -> P a b -> Q a b) ->
  (i < N)%nat -> (j < N)%nat -> Forall (fun m => (m < N)%nat) p ->
  all_edges P i p j -> all_edges Q i p j.
Proof.
  intros H. revert i. induction p as [|a p IH]; intros i Hi Hj Hp; simpl.
  - now apply H.
  - inversion Hp as [|? ? Ha Hp']; subst. intros [E1 E2].
    split; [now apply H|now apply IH].
Qed.

Lemma wsum_fin_edges (W : nat -> nat -> MainCpp.ereal) i p j :
  wsum MainCpp.eadd W i p j <> MainCpp.PInf <->
  all_edges (fun a b => W a b <> MainCpp.PInf) i p j.
Proof.
  revert i. induction p as [|a p IH]; intros i; simpl.
  - tauto.
  - rewrite <- IH.
    destruct (W i a), (wsum MainCpp.eadd W a p j); simpl;
      intuition congruence.
Qed.

Lemma cpp_refuel_init_hop N adj idx c a b :
  (a < N)%nat -> (b < N)%nat ->
  (MainCpp.refuel_init N adj idx c a b <> MainCpp.PInf
   <-> hop_cpp adj idx c a b).
Proof.
  intros Ha Hb. unfold MainCpp.refuel_init, hop_cpp.
  replace ((a <? N)%nat && (b <? N)%nat) with true
    by (symmetry; apply andb_true_intro; split; now apply Nat.ltb_lt).
  destruct (Nat.eqb_spec a b) as [E|E].
  - split; [now left|discriminate].
  - destruct (MainCpp.within (adj (idx a) (idx b)) (c + MainCpp.EPS)) eqn:Ew.
    + split; [now right|]. intros _.
      destruct (adj (idx a) (idx b)); [discriminate|discriminate Ew].
    + split; [congruence|]. intros [H|H]; [contradiction|discriminate].
Qed.

Lemma cpp_query_reach N adj idx c s t :
  enonneg adj -> (s < N)%nat -> (t < N)%nat ->
  (MainCpp.floyd_warshall N (MainCpp.refuel_init N adj idx c) s t
   <> MainCpp.PInf
   <-> connected_cpp N adj idx c s t).
Proof.
  intros Hadj Hs Ht.
  set (W := MainCpp.refuel_init N adj idx c).
  assert (HN : enonneg W) by now apply cpp_refuel_init_nonneg.
  assert (HD : forall a, W a a = MainCpp.Fin 0)
    by (intros; apply cpp_refuel_init_diag).
  split.
  - intros Hfin. destruct (cpp_floyd_is_walk N W HN HD s t) as [p [Hp Ep]].
    rewrite Ep in Hfin. apply wsum_fin_edges in Hfin.
    exists p. split; [exact Hp|].
    eapply all_edges_impl_range; [|exact Hs|exact Ht|exact Hp|exact Hfin].
    intros a b Ha Hb. now apply cpp_refuel_init_hop.
  - intros [p [Hp Hall]].
    pose proof (cpp_floyd_below_walks N W HN HD p s t Hs Ht Hp) as Hle.
    assert (Hfin : wsum MainCpp.eadd W s p t <> MainCpp.PInf).
    { apply wsum_fin_edges.
      eapply all_edges_impl_range; [|exact Hs|exact Ht|exact Hp|exact Hall].
      intros a b Ha Hb. now apply cpp_refuel_init_hop. }
    intros E. rewrite E in Hle.
    destruct (wsum MainCpp.eadd W s p t); [contradiction|congruence].
Qed.

(** ** The recorded sums *)

Lemma for_up_fst {S L : Type} (n : nat) (body : nat -> S -> S)
      (body' : nat -> S * L -> S * L) (st : S * L) :
  (forall i t, fst (body' i t) = body i (fst t)) ->
  fst (for_up n body' st) = for_up n body (fst st).
Proof.
  intros H. induction n as [|m IH]; simpl; [reflexivity|].
  now rewrite H, IH.
Qed.

Lemma cpp_floyd_adds_fst n D :
  fst (MainCpp.floyd_warshall_adds n D) = MainCpp.floyd_warshall n D.
Proof.
  unfold MainCpp.floyd_warshall_adds, MainCpp.floyd_warshall.
  rewrite (for_up_fst n (fun k D1 =>
             for_up n (fun i D2 =>
               for_up n (fun j D3 => MainCpp.relax D3 k i j) D2) D1));
    [reflexivity|].
  intros k t.
  rewrite (for_up_fst n (fun i D2 =>
             for_up n (fun j D3 => MainCpp.relax D3 k i j) D2));
    [reflexivity|].
  intros i t2.
  rewrite (for_up_fst n (fun j D3 => MainCpp.relax D3 k i j));
    [reflexivity|].
  intros j t3. reflexivity.
Qed.

Definition both_finite (ab : MainCpp.ereal * MainCpp.ereal) : Prop :=
  fst ab <> MainCpp.PInf /\ snd ab <> MainCpp.PInf.

Lemma cpp_floyd_adds_finite n D :
  Forall both_finite (snd (MainCpp.floyd_warshall_adds n D)).
Proof.
  unfold MainCpp.floyd_warshall_adds.
  apply (for_up_inv (fun _ st => Forall both_finite (snd st))); [constructor|].
  intros k st1 _ H1.
  apply (for_up_inv (fun _ st => Forall both_finite (snd st))); [exact H1|].
  intros i st2 _ H2.
  apply (for_up_inv (fun _ st => Forall both_finite (snd st))); [exact H2|].
  intros j st3 _ H3. unfold MainCpp.relax_adds. simpl.
  destruct (fst st3 i k) eqn:E1, (fst st3 k j) eqn:E2; simpl; try exact H3.
  apply Forall_app. split; [exact H3|].
  constructor; [|constructor]. split; simpl; discriminate.
Qed.

(** A recorded sum of main.c is sound when its first operand is below
    [INF] and, if the sum is stored, so is the second. *)
Definition sound_sum (t : R * R * R) : Prop :=
  let '(a, b, old) := t in
  a < MainC.INF /\ (a + b < old -> b < MainC.INF).

Lemma c_relax_bounded D k i j : bounded D -> bounded (MainC.relax D k i j).
Proof.
  intros HD. unfold MainC.relax.
  destruct (Rlt_dec (D i k + D k j) (D i j)) as [Hlt|]; [|exact HD].
  intros a b. unfold upd.
  destruct ((a =? i)%nat && (b =? j)%nat); [|apply HD].
  pose proof (HD i k). pose proof (HD k j). pose proof (HD i j). lra.
Qed.

Lemma c_relax_le D k i j a b : MainC.relax D k i j a b <= D a b.
Proof.
  unfold MainC.relax.
  destruct (Rlt_dec (D i k + D k j) (D i j)) as [Hlt|]; [|lra].
  unfold upd.
  destruct (Nat.eqb_spec a i), (Nat.eqb_spec b j); simpl; subst; lra.
Qed.

Lemma c_floyd_row_adds_fst Vn k i st :
  fst (MainC.floyd_row_adds Vn k i st) = MainC.floyd_row Vn k i (fst st).
Proof.
  unfold MainC.floyd_row_adds, MainC.floyd_row.
  destruct (Rge_dec (fst st i k) MainC.INF); [reflexivity|].
  apply for_up_fst. reflexivity.
Qed.

Lemma c_floyd_adds_fst Vn D :
  fst (MainC.floyd_adds Vn D) = MainC.floyd Vn D.
Proof.
  unfold MainC.floyd_adds, MainC.floyd, MainC.floyd_round.
  rewrite (for_up_fst Vn (fun k D1 => for_up Vn (MainC.floyd_row Vn k) D1));
    [reflexivity|].
  intros k t. apply for_up_fst. intros i t2. apply c_floyd_row_adds_fst.
Qed.

Lemma c_floyd_adds_sound Vn D :
  bounded D -> Forall sound_sum (snd (MainC.floyd_adds Vn D)).
Proof.
  intros HD. unfold MainC.floyd_adds.
  set (P := fun (_ : nat) (st : (nat -> nat -> R) * list (R * R * R)) =>
              bounded (fst st) /\ Forall sound_sum (snd st)).
  apply (for_up_inv P); [split; [exact HD|constructor]|].
  intros k st1 _ H1. apply (for_up_inv P); [exact H1|].
  intros i st2 _ [HB HL]. unfold MainC.floyd_row_adds.
  destruct (Rge_dec (fst st2 i k) MainC.INF) as [Hge|Hlt]; [now split|].
  set (Q := fun (_ : nat) (st : (nat -> nat -> R) * list (R * R * R)) =>
              bounded (fst st) /\ fst st i k < MainC.INF /\
              Forall sound_sum (snd st)).
  assert (HQ : Q Vn (for_up Vn
                       (fun j st' =>
                          (MainC.relax (fst st') k i j,
                           snd st' ++ [(fst st' i k, fst st' k j, fst st' i j)]))
                       st2)).
  { apply (for_up_inv Q); [repeat split; [apply HB|apply HB|lra|exact HL]|].
    intros j st3 _ [HB3 [Hik HL3]]. unfold Q. simpl.
    split; [now apply c_relax_bounded|]. split.
    - eapply Rle_lt_trans; [apply c_relax_le|exact Hik].
    - apply Forall_app. split; [exact HL3|]. constructor; [|constructor].
      simpl. split; [exact Hik|].
      pose proof (HB3 i k). pose proof (HB3 k j). pose proof (HB3 i j). lra. }
  destruct HQ as [H1' [_ H3']]. now split.
Qed.

Lemma c_relax_from_adds_fst N A c u st :
  fst (MainC.relax_from_adds N A c u st) = MainC.relax_from N A c u (fst st).
Proof.
  unfold MainC.relax_from_adds, MainC.relax_from.
  apply for_up_fst. intros v t. simpl.
  destruct (Rleb (A u v) (c + 1e-9)); simpl; [|reflexivity].
  destruct (Rltb (fst t u + A u v) (fst t v)); reflexivity.
Qed.

Lemma c_dijkstra_adds_fst N A c s :
  fst (fst (MainC.dijkstra_adds N A c s)) = MainC.dijkstra N A c s.
Proof.
  unfold MainC.dijkstra_adds, MainC.dijkstra.
  assert (G : forall it st log,
             fst (MainC.dijkstra_loop_adds it N A c st log) =
             MainC.dijkstra_loop it N A c st).
  { induction it as [|it IH]; intros st log; simpl; [reflexivity|].
    destruct (fst (MainC.select N st)); [|reflexivity].
    rewrite IH, c_relax_from_adds_fst. reflexivity. }
  now rewrite G.
Qed.

Lemma c_dijkstra_adds_sound N A c s :
  bounded A -> Forall sound_sum (snd (MainC.dijkstra_adds N A c s)).
Proof.
  intros HA. unfold MainC.dijkstra_adds.
  assert (G : forall it st log,
             (forall v, 0 <= fst st v <= MainC.INF) ->
             Forall sound_sum log ->
             Forall sound_sum (snd (MainC.dijkstra_loop_adds it N A c st log))).
  { induction it as [|it IH]; intros st log Hr HL; simpl; [exact HL|].
    pose proof (select_spec N st) as Hsel.
    destruct (MainC.select N st) as [[u|] best]; simpl; [|exact HL].
    destruct Hsel as [_ [_ [Hlt _]]].
    set (Q := fun (_ : nat) (dl : (nat -> R) * list (R * R * R)) =>
                (forall v, 0 <= fst dl v <= MainC.INF) /\
                fst dl u < MainC.INF /\ Forall sound_sum (snd dl)).
    assert (HQ : Q N (MainC.relax_from_adds N A c u (fst st, log))).
    { unfold MainC.relax_from_adds.
      apply (for_up_inv Q); [repeat split; [apply Hr|apply Hr|exact Hlt|exact HL]|].
      intros v dl _ [Hr' [Hu HL']]. unfold Q.
      pose proof (HA u v). pose proof (Hr' u). pose proof (Hr' v).
      destruct (Rleb (A u v) (c + 1e-9)); simpl; [|repeat split; try apply Hr';
                                                    assumption].
      assert (HS : Forall sound_sum
                     (snd dl ++ [(fst dl u, A u v, fst dl v)])).
      { apply Forall_app. split; [exact HL'|]. constructor; [|constructor].
        simpl. split; [exact Hu|lra]. }
      destruct (Rltb (fst dl u + A u v) (fst dl v)) eqn:E.
      - apply Rltb_true in E. split; [|split; [|exact HS]].
        + intros a. unfold upd1. destruct (a =? v)%nat; [lra|apply Hr'].
        + unfold upd1. destruct (u =? v)%nat; lra.
      - split; [exact Hr'|]. split; [exact Hu|exact HS]. }
    destruct HQ as [Hr' [_ HL']]. apply IH; [exact Hr'|exact HL']. }
  apply G; [|constructor].
  intros v. simpl. pose proof INF_pos.
  destruct (Z.of_nat v =? s)%Z; lra.
Qed.

(** ** Two airports at the same place (main.c) *)

Lemma c_sph2vec_origin : MainC.sph2vec 0 0 = MainC.mkVec 1 0 0.
Proof.
  unfold MainC.sph2vec.
  replace (0 * PI / 180) with 0 by lra.
  rewrite cos_0, sin_0. f_equal; lra.
Qed.

Lemma c_boundary_points_coincident cosA alpha a :
  MainC.dot a a = 1 -> MainC.boundary_points cosA alpha a a = [].
Proof.
  intros Ha. unfold MainC.boundary_points. rewrite Ha.
  pose proof (COS_bound (2 * alpha)) as [_ Hc].
  destruct (Rlt_dec 1 (cos (2 * alpha) - 1e-12)); [lra|].
  destruct (Rlt_dec (1 - 1 * 1) 1e-15); [reflexivity|lra].
Qed.

Lemma c_direct_coincident airports cosA a :
  MainC.dot a a = 1 -> MainC.direct airports cosA a a = MainC.INF.
Proof.
  intros Ha. unfold MainC.direct, MainC.theta_of, MainC.clamp_cab.
  rewrite Ha.
  destruct (Rgt_dec 1 1); [lra|]. destruct (Rlt_dec 1 (-1)); [lra|].
  rewrite acos_1. unfold MainC.arc_edge.
  destruct (Rlt_dec 0 1e-12); [reflexivity|lra].
Qed.

Lemma c_twin_nodes R0 :
  MainC.node_list R0 [(0, 0); (0, 0)] = [MainC.mkVec 1 0 0; MainC.mkVec 1 0 0].
Proof.
  unfold MainC.node_list, MainC.nodes, MainC.airports_of. simpl map.
  rewrite c_sph2vec_origin. simpl.
  rewrite c_boundary_points_coincident; [reflexivity|].
  unfold MainC.dot. simpl. lra.
Qed.

Lemma c_twin_D_init R0 :
  let D := MainC.D_init (MainC.airports_of [(0, 0); (0, 0)])
                        (MainC.node_list R0 [(0, 0); (0, 0)])
                        (cos (MainC.alpha_of R0)) in
  D 0%nat 0%nat = 0 /\ D 0%nat 1%nat = MainC.INF /\
  D 1%nat 0%nat = MainC.INF /\ D 1%nat 1%nat = 0.
Proof.
  intros D. unfold D. rewrite c_twin_nodes. unfold MainC.D_init. simpl.
  assert (H : MainC.dot (MainC.mkVec 1 0 0) (MainC.mkVec 1 0 0) = 1)
    by (unfold MainC.dot; simpl; lra).
  repeat split; try reflexivity; now apply c_direct_coincident.
Qed.

Lemma for_up_log_mono {S L : Type} (body : nat -> S * list L -> S * list L) :
  (forall i st a, In a (snd st) -> In a (snd (body i st))) ->
  forall m n st a, (m <= n)%nat ->
                   In a (snd (for_up m body st)) -> In a (snd (for_up n body st)).
Proof.
  intros Hb m n st a Hmn. induction Hmn as [|n Hmn IH]; [tauto|].
  intros H. simpl. apply Hb. now apply IH.
Qed.

Lemma c_floyd_row_adds_mono Vn k i st a :
  In a (snd st) -> In a (snd (MainC.floyd_row_adds Vn k i st)).
Proof.
  intros H. unfold MainC.floyd_row_adds.
  destruct (Rge_dec (fst st i k) MainC.INF); [exact H|].
  apply (for_up_inv (fun _ st' => In a (snd st'))); [exact H|].
  intros j st' _ H'. simpl. apply in_or_app. now left.
Qed.

(** With [D[0][0] = 0] and [D[0][1] = INF] the very first row of the
    pass computes [0 + INF]. *)
Lemma c_floyd_adds_infinite_operand n D :
  (2 <= n)%nat -> D 0%nat 0%nat = 0 -> D 0%nat 1%nat = MainC.INF ->
  In (0, MainC.INF, MainC.INF) (snd (MainC.floyd_adds n D)).
Proof.
  intros Hn H00 H01. unfold MainC.floyd_adds.
  apply (for_up_log_mono _ (fun i st a H => for_up_inv
           (fun _ st' => In a (snd st')) n (MainC.floyd_row_adds n i) st H
           (fun j t _ Ht => c_floyd_row_adds_mono n i j t a Ht)) 1 n);
    [lia|].
  simpl.
  apply (for_up_log_mono _ (fun i st a H =>
           c_floyd_row_adds_mono n 0 i st a H) 1 n); [lia|].
  simpl. unfold MainC.floyd_row_adds. simpl. rewrite H00.
  pose proof INF_pos.
  destruct (Rge_dec 0 MainC.INF); [lra|].
  apply (for_up_log_mono
           (fun j st' =>
              (MainC.relax (fst st') 0 0 j,
               snd st' ++ [(fst st' 0%nat 0%nat, fst st' 0%nat j,
                            fst st' 0%nat j)])) 
           (fun i st a H => in_or_app _ _ a (or_introl H)) 2 n); [lia|].
  simpl. unfold MainC.relax at 1 2 3. rewrite H00.
  destruct (Rlt_dec (0 + 0) 0); [lra|].
  rewrite ?H00, ?H01. right. now left.
Qed.

(** ** C7: "impossible" and the infinite distance *)

Lemma c_query_impossible_iff R0 lonlat s t c :
  (length lonlat <= 25)%nat ->
  (1 <= s <= Z.of_nat (length lonlat))%Z ->
  (1 <= t <= Z.of_nat (length lonlat))%Z ->
  (MainC.run_query R0 lonlat s t c = Impossible <->
   ~ connected_c (length lonlat) (MainC.AtoA R0 lonlat) c
       (Z.to_nat (s - 1)) (Z.to_nat (t - 1))).
Proof.
  intros HN Hs Ht. unfold MainC.run_query, MainC.query.
  set (N := length lonlat) in *. set (A := MainC.AtoA R0 lonlat).
  set (src := Z.to_nat (s - 1)). set (tgt := Z.to_nat (t - 1)).
  assert (Hsrc : (src < N)%nat) by (unfold src; lia).
  assert (Htgt : (tgt < N)%nat) by (unfold tgt; lia).
  replace (s - 1)%Z with (Z.of_nat src) by (unfold src; lia).
  set (Vn := length (MainC.node_list R0 lonlat)).
  assert (HVn : (Vn <= 650)%nat).
  { pose proof (c_node_count R0 lonlat) as [_ H]. fold N Vn in H. nia. }
  assert (Hreach := dijkstra_reach N A c src ((INR Vn + 1) * 25480)
                      (c_AtoA_bounded R0 lonlat) Hsrc
                      (c_AtoA_finite R0 lonlat)).
  assert (HVR : 0 <= INR Vn <= 650).
  { split; [apply pos_INR|]. apply le_INR in HVn.
    replace 650 with (INR 650); [exact HVn|].
    rewrite INR_IZR_INZ. reflexivity. }
  assert (HNR : 0 <= INR N <= 25).
  { split; [apply pos_INR|]. apply le_INR in HN.
    replace 25 with (INR 25); [exact HN|].
    rewrite INR_IZR_INZ. reflexivity. }
  specialize (Hreach ltac:(nra)).
  assert (Hsmall : (INR N + 1) * ((INR Vn + 1) * 25480) < MainC.INF / 2).
  { unfold MainC.INF.
    assert ((INR N + 1) * ((INR Vn + 1) * 25480) <= 26 * (651 * 25480)) by nra.
    lra. }
  specialize (Hreach Hsmall tgt Htgt).
  destruct (Rge_dec (MainC.dijkstra N A c (Z.of_nat src) tgt) (MainC.INF / 2))
    as [Hge|Hlt].
  - split; [|reflexivity]. intros _ Hc. apply Hreach in Hc. lra.
  - split; [discriminate|]. intros Hc. exfalso. apply Hc. apply Hreach. lra.
Qed.

Lemma cpp_query_impossible_iff R_sphere lonlat s t c :
  (1 <= s <= Z.of_nat (length lonlat))%Z ->
  (1 <= t <= Z.of_nat (length lonlat))%Z ->
  (MainCpp.run_query R_sphere lonlat s t c = Impossible <->
   ~ connected_cpp (length lonlat) (MainCpp.adj_aux R_sphere lonlat)
       (MainCpp.airport_to_vertex_idx
          (MainCpp.airports_of lonlat)
          (MainCpp.vertices (MainCpp.airports_of lonlat) R_sphere))
       c (Z.to_nat (s - 1)) (Z.to_nat (t - 1))).
Proof.
  intros Hs Ht. unfold MainCpp.run_query, MainCpp.query.
  set (N := length lonlat) in *.
  set (src := Z.to_nat (s - 1)). set (tgt := Z.to_nat (t - 1)).
  assert (Hsrc : (src < N)%nat) by (unfold src; lia).
  assert (Htgt : (tgt < N)%nat) by (unfold tgt; lia).
  pose proof (cpp_query_reach N (MainCpp.adj_aux R_sphere lonlat)
                (MainCpp.airport_to_vertex_idx
                   (MainCpp.airports_of lonlat)
                   (MainCpp.vertices (MainCpp.airports_of lonlat) R_sphere))
                c src tgt (cpp_adj_aux_nonneg R_sphere lonlat) Hsrc Htgt)
    as Hreach.
  destruct (MainCpp.floyd_warshall N _ src tgt) as [d|].
  - split; [discriminate|]. intros Hc. exfalso. apply Hc. apply Hreach.
    discriminate.
  - split; [|reflexivity]. intros _ Hc. apply Hreach in Hc. now apply Hc.
Qed.

(** C7, as the code has it.  For every valid query (main.c: with at most
    25 airports, its arrays' size) the program prints "impossible"
    exactly when no chain of hops joins source to target, a hop being a
    pair of airports whose safe distance is finite and within the
    capacity plus tolerance; otherwise it prints a distance.  In
    main.cpp every sum of a shortest-path pass has two finite operands.
    In main.c the first operand of every sum is below [INF]; the second
    may be [INF], and whenever the sum is stored the second is below
    [INF] too. *)
Theorem impossible_iff_no_chain :
  (forall (R0 : Z) (lonlat : list (R * R)) (s t : Z) (c : R),
      (length lonlat <= 25)%nat ->
      (1 <= s <= Z.of_nat (length lonlat))%Z ->
      (1 <= t <= Z.of_nat (length lonlat))%Z ->
      (MainC.run_query R0 lonlat s t c = Impossible <->
       ~ connected_c (length lonlat) (MainC.AtoA R0 lonlat) c
           (Z.to_nat (s - 1)) (Z.to_nat (t - 1))) /\
      Forall sound_sum (MainC.floyd_log R0 lonlat) /\
      Forall sound_sum (MainC.query_log R0 lonlat s c)) /\
  (forall (R_sphere : R) (lonlat : list (R * R)) (s t : Z) (c : R),
      (1 <= s <= Z.of_nat (length lonlat))%Z ->
      (1 <= t <= Z.of_nat (length lonlat))%Z ->
      (MainCpp.run_query R_sphere lonlat s t c = Impossible <->
       ~ connected_cpp (length lonlat) (MainCpp.adj_aux R_sphere lonlat)
           (MainCpp.airport_to_vertex_idx
              (MainCpp.airports_of lonlat)
              (MainCpp.vertices (MainCpp.airports_of lonlat) R_sphere))
           c (Z.to_nat (s - 1)) (Z.to_nat (t - 1))) /\
      Forall both_finite (MainCpp.aux_log R_sphere lonlat) /\
      Forall both_finite (MainCpp.query_log R_sphere lonlat c)).
Proof.
  split.
  - intros R0 lonlat s t c HN Hs Ht. split; [|split].
    + now apply c_query_impossible_iff.
    + unfold MainC.floyd_log. apply c_floyd_adds_sound, c_D_init_bounded.
    + unfold MainC.query_log. apply c_dijkstra_adds_sound, c_AtoA_bounded.
  - intros R_sphere lonlat s t c Hs Ht. split; [|split].
    + now apply cpp_query_impossible_iff.
    + unfold MainCpp.aux_log. apply cpp_floyd_adds_finite.
    + unfold MainCpp.query_log. apply cpp_floyd_adds_finite.
Qed.

Lemma impossible_iff_no_chain_witness :
  Forall sound_sum (MainC.floyd_log 100 [(0, 0); (0, 0)]) /\
  Forall both_finite (MainCpp.aux_log 100 [(0, 0); (0, 10)]).
Proof.
  destruct impossible_iff_no_chain as [Hc Hcpp]. split.
  - apply (Hc 100%Z [(0, 0); (0, 0)] 1%Z 2%Z 1000); simpl; lia.
  - apply (Hcpp 100 [(0, 0); (0, 10)] 1%Z 2%Z 1000); simpl; lia.
Defined.

(** C7 as stated fails in main.c: with two airports at the same place
    the pass of the node graph computes [0 + INF], a relaxation with an
    infinite operand. *)
Lemma sum_with_infinite_operand :
  ~ Forall (fun t : R * R * R => fst (fst t) < MainC.INF /\
                                 snd (fst t) < MainC.INF)
           (MainC.floyd_log 100 [(0, 0); (0, 0)]).
Proof.
  intros HF. rewrite Forall_forall in HF.
  assert (Hin : In (0, MainC.INF, MainC.INF)
                   (MainC.floyd_log 100 [(0, 0); (0, 0)])).
  { unfold MainC.floyd_log.
    destruct (c_twin_D_init 100) as [H00 [H01 _]].
    apply c_floyd_adds_infinite_operand; [|exact H00|exact H01].
    rewrite c_twin_nodes. simpl. lia. }
  specialize (HF _ Hin). simpl in HF. lra.
Qed.

(** ** C9: two nodes at the same place *)

(** In main.c an arc shorter than [1e-12] never becomes an edge. *)
Lemma c_short_arc_no_edge theta ivs :
  theta < 1e-12 -> MainC.arc_edge theta ivs = MainC.INF.
Proof.
  intros H. unfold MainC.arc_edge.
  destruct (Rlt_dec theta 1e-12); [reflexivity|contradiction].
Qed.

(** In main.cpp an arc shorter than [EPS] is safe whatever the disks. *)
Lemma cpp_short_arc_safe u v airports R_sphere :
  MainCpp.dist_xyz u v < MainCpp.EPS ->
  MainCpp.is_arc_safe u v airports R_sphere = true.
Proof.
  intros H. unfold MainCpp.is_arc_safe.
  destruct (Rlt_dec (MainCpp.dist_xyz u v) MainCpp.EPS);
    [reflexivity|contradiction].
Qed.

Lemma c_twin_AtoA_infinite R0 :
  MainC.AtoA R0 [(0, 0); (0, 0)] 0%nat 1%nat = MainC.INF.
Proof.
  unfold MainC.AtoA, MainC.D_final.
  destruct (c_twin_D_init R0) as [H00 [H01 _]].
  set (D := MainC.D_init _ _ _) in *.
  assert (HB : bounded D) by apply c_D_init_bounded.
  assert (HD : forall a, D a a = 0) by (intros; apply c_D_init_diag).
  rewrite c_twin_nodes. simpl length.
  apply Rle_antisym.
  - rewrite <- H01. now apply c_floyd_below_W.
  - destruct (c_floyd_is_walk 2 D HB HD 0%nat 1%nat) as [p [Hp Ep]].
    rewrite Ep. clear Ep.
    induction p as [|m p IH]; simpl.
    + rewrite H01. lra.
    + inversion Hp as [|? ? Hm Hp']; subst. specialize (IH Hp').
      destruct m as [|[|m]]; [| |lia].
      * rewrite H00. lra.
      * rewrite H01.
        pose proof (wsum_nonneg_R D 1%nat p 1%nat (fun a b => proj1 (HB a b))).
        lra.
Qed.

Lemma c_twin_not_connected R0 c :
  ~ connected_c 2 (MainC.AtoA R0 [(0, 0); (0, 0)]) c 0%nat 1%nat.
Proof.
  intros [p [Hp Hall]].
  pose proof (c_twin_AtoA_infinite R0) as HA.
  induction p as [|m p IH]; simpl in Hall.
  - destruct Hall as [E|[Hlt _]]; [discriminate|lra].
  - inversion Hp as [|? ? Hm Hp']; subst. destruct Hall as [H1 H2].
    destruct m as [|[|m]]; [now apply IH| |lia].
    destruct H1 as [E|[Hlt _]]; [discriminate|lra].
Qed.

Lemma cpp_lat_lon_origin :
  MainCpp.lat_lon_to_xyz 0 0 = MainCpp.mkPoint 6370 0 0.
Proof.
  unfold MainCpp.lat_lon_to_xyz, MainCpp.R_earth.
  replace (0 * PI / 180) with 0 by lra.
  rewrite cos_0, sin_0. f_equal; lra.
Qed.

Lemma cpp_Compare_irrefl a : MainCpp.Compare a a = false.
Proof.
  unfold MainCpp.Compare, MainCpp.EPS.
  replace (MainCpp.x a - MainCpp.x a) with 0 by lra.
  replace (MainCpp.y a - MainCpp.y a) with 0 by lra.
  rewrite Rabs_R0.
  destruct (Rgt_dec 0 1e-9); [lra|].
  apply Rltb_false. lra.
Qed.

Lemma cpp_normalize_scaled :
  MainCpp.normalize (MainCpp.mkPoint 6370 0 0) = MainCpp.mkPoint 1 0 0.
Proof.
  unfold MainCpp.normalize, MainCpp.magnitude, MainCpp.dot, MainCpp.pdiv.
  simpl.
  replace (6370 * 6370 + 0 * 0 + 0 * 0) with (6370 * 6370) by lra.
  rewrite sqrt_square by lra.
  destruct (Rlt_dec 6370 MainCpp.EPS) as [H|H];
    [unfold MainCpp.EPS in H; lra|].
  f_equal; lra.
Qed.

Lemma cpp_twin_no_intersection R_sphere :
  0 <= R_sphere ->
  MainCpp.get_small_circle_intersections
    (MainCpp.mkPoint 6370 0 0) (MainCpp.mkPoint 6370 0 0) R_sphere = [].
Proof.
  intros HR.
  unfold MainCpp.get_small_circle_intersections, MainCpp.beta_of,
    MainCpp.cos_beta_arg_at_acos.
  rewrite cpp_normalize_scaled.
  replace (MainCpp.dot (MainCpp.mkPoint 1 0 0) (MainCpp.mkPoint 1 0 0))
    with 1 by (unfold MainCpp.dot; simpl; lra).
  replace (MainCpp.clamp 1) with 1.
  2:{ unfold MainCpp.clamp, Rmax, Rmin.
      destruct (Rle_dec 1 1); [|lra]. destruct (Rle_dec (-1) 1); lra. }
  rewrite acos_1. unfold MainCpp.EPS, MainCpp.R_earth.
  destruct (Rgt_dec 0 (2 * (R_sphere / 6370) + 1e-9)) as [H|H];
    [reflexivity|].
  destruct (Rlt_dec 0 1e-9); [reflexivity|lra].
Qed.

Lemma cpp_twin_vertices R_sphere :
  0 <= R_sphere ->
  MainCpp.vertices (MainCpp.airports_of [(0, 0); (0, 0)]) R_sphere
  = [MainCpp.mkPoint 6370 0 0].
Proof.
  intros HR. unfold MainCpp.vertices, MainCpp.airports_of. simpl map.
  rewrite cpp_lat_lon_origin. simpl.
  rewrite cpp_twin_no_intersection by exact HR. simpl.
  now rewrite cpp_Compare_irrefl.
Qed.

(** Two airports that share a vertex are at distance 0 for main.cpp. *)
Lemma cpp_shared_vertex_zero N adj idx s t c :
  enonneg adj -> (forall a, adj a a = MainCpp.Fin 0) ->
  (s < N)%nat -> (t < N)%nat -> idx s = idx t -> 0 <= c + MainCpp.EPS ->
  MainCpp.floyd_warshall N (MainCpp.refuel_init N adj idx c) s t
  = MainCpp.Fin 0.
Proof.
  intros Hadj Hdiag Hs Ht Hidx Hc.
  set (W := MainCpp.refuel_init N adj idx c).
  assert (HN : enonneg W) by now apply cpp_refuel_init_nonneg.
  assert (HD : forall a, W a a = MainCpp.Fin 0)
    by (intros; apply cpp_refuel_init_diag).
  apply ele_antisym; [|now apply cpp_floyd_nonneg].
  eapply ele_trans; [now apply cpp_floyd_below_W|].
  unfold W, MainCpp.refuel_init.
  destruct (s =? t)%nat; [apply ele_refl|].
  replace ((s <? N)%nat && (t <? N)%nat) with true
    by (symmetry; apply andb_true_intro; split; now apply Nat.ltb_lt).
  rewrite Hidx, Hdiag. simpl.
  replace (Rleb 0 (c + MainCpp.EPS)) with true
    by (symmetry; now apply Rleb_true).
  apply ele_refl.
Qed.

(** C9 at two airports entered at the same place, radius 100, capacity
    1000, query from airport 1 to airport 2: main.c prints "impossible"
    (the pair keeps the distance [INF]), main.cpp prints 0. *)
Theorem coincident_airports_main_c_impossible :
  MainC.D_final 100 [(0, 0); (0, 0)] 0%nat 1%nat = MainC.INF /\
  MainC.run_query 100 [(0, 0); (0, 0)] 1 2 1000 = Impossible /\
  MainCpp.run_query 100 [(0, 0); (0, 0)] 1 2 1000 = Distance 0.
Proof.
  split; [exact (c_twin_AtoA_infinite 100)|]. split.
  - apply c_query_impossible_iff; [simpl; lia|simpl; lia|simpl; lia|].
    simpl. apply c_twin_not_connected.
  - unfold MainCpp.run_query, MainCpp.query.
    rewrite cpp_shared_vertex_zero; try reflexivity.
    + apply cpp_adj_aux_nonneg.
    + intros a. unfold MainCpp.adj_aux.
      apply cpp_floyd_diag; [apply cpp_adj_init_nonneg|].
      intros; apply cpp_adj_init_diag.
    + simpl. lia.
    + simpl. lia.
    + unfold MainCpp.EPS. lra.
Qed.

(** ** C3: the boundary points of two safety circles *)

(** main.c: the loop body appends no point or two points, mirror images
    of each other about [p]; the two coincide when [h] is zero. *)
Lemma c_boundary_points_cases cosA alpha u v :
  let cuv := MainC.dot u v in
  let Delta := 1 - cuv * cuv in
  let nl := MainC.norm (MainC.cross u v) in
  let k := cosA * (1 - cuv) / Delta in
  let p := MainC.mkVec (k * (MainC.x u + MainC.x v))
                       (k * (MainC.y u + MainC.y v))
                       (k * (MainC.z u + MainC.z v)) in
  ((cuv < cos (2 * alpha) - 1e-12 \/ Delta < 1e-15 \/ nl < 1e-15) ->
   MainC.boundary_points cosA alpha u v = []) /\
  (~ cuv < cos (2 * alpha) - 1e-12 -> ~ Delta < 1e-15 -> ~ nl < 1e-15 ->
   (exists n, MainC.boundary_points cosA alpha u v =
              [MainC.normalize (MainC.addv p n);
               MainC.normalize (MainC.subv p n)]) /\
   (1 - MainC.dot p p <= 0 ->
    MainC.boundary_points cosA alpha u v =
    [MainC.normalize p; MainC.normalize p])).
Proof.
  intros cuv Delta nl k p. unfold MainC.boundary_points.
  fold cuv. fold Delta. fold nl. fold k. fold p.
  split.
  - intros H.
    destruct (Rlt_dec cuv (cos (2 * alpha) - 1e-12)); [reflexivity|].
    destruct (Rlt_dec Delta 1e-15); [reflexivity|].
    destruct (Rlt_dec nl 1e-15); [reflexivity|].
    destruct H as [H|[H|H]]; contradiction.
  - intros H1 H2 H3.
    destruct (Rlt_dec cuv (cos (2 * alpha) - 1e-12)); [contradiction|].
    destruct (Rlt_dec Delta 1e-15); [contradiction|].
    destruct (Rlt_dec nl 1e-15); [contradiction|].
    split; [eexists; reflexivity|].
    intros Hh.
    assert (Hs : sqrt (if Rlt_dec (1 - MainC.dot p p) 0 then 0
                       else 1 - MainC.dot p p) = 0).
    { destruct (Rlt_dec (1 - MainC.dot p p) 0); [apply sqrt_0|].
      replace (1 - MainC.dot p p) with 0 by lra. apply sqrt_0. }
    rewrite Hs.
    assert (Ha : forall w, MainC.addv p (MainC.scale w 0) = p).
    { intros w. unfold MainC.addv, MainC.scale. destruct p; simpl.
      f_equal; lra. }
    assert (Hb : forall w, MainC.subv p (MainC.scale w 0) = p).
    { intros w. unfold MainC.subv, MainC.scale. destruct p; simpl.
      f_equal; lra. }
    now rewrite Ha, Hb.
Qed.

Lemma cos_PI4_sqr : cos (PI / 4) * cos (PI / 4) = 1 / 2.
Proof.
  rewrite cos_PI4.
  assert (H : sqrt 2 * sqrt 2 = 2) by (apply sqrt_sqrt; lra).
  assert (H0 : sqrt 2 <> 0).
  { intros E. rewrite E in H. lra. }
  field_simplify; [|exact H0]. rewrite <- Rsqr_pow2. unfold Rsqr.
  rewrite H. lra.
Qed.

Lemma cpp_intersections_cases c1 c2 R_sphere :
  let d := acos (MainCpp.clamp (MainCpp.dot (MainCpp.normalize c1)
                                            (MainCpp.normalize c2))) in
  let r := R_sphere / MainCpp.R_earth in
  ((d > 2 * r + MainCpp.EPS \/ d < MainCpp.EPS) ->
   MainCpp.get_small_circle_intersections c1 c2 R_sphere = []) /\
  (~ d > 2 * r + MainCpp.EPS -> ~ d < MainCpp.EPS ->
   exists arg,
     MainCpp.cos_beta_arg_at_acos c1 c2 R_sphere = Some arg /\
     match acos_nan arg with
     | None =>
         MainCpp.get_small_circle_intersections c1 c2 R_sphere = [None]
     | Some beta =>
         (beta <= MainCpp.EPS ->
          exists P,
            MainCpp.get_small_circle_intersections c1 c2 R_sphere = [Some P])
         /\
         (beta > MainCpp.EPS ->
          exists M O,
            MainCpp.get_small_circle_intersections c1 c2 R_sphere =
            [Some (MainCpp.pmul
                     (MainCpp.padd (MainCpp.pmul M (cos beta))
                                   (MainCpp.pmul O (sin beta)))
                     MainCpp.R_earth);
             Some (MainCpp.pmul
                     (MainCpp.psub (MainCpp.pmul M (cos beta))
                                   (MainCpp.pmul O (sin beta)))
                     MainCpp.R_earth)])
     end).
Proof.
  intros d r.
  unfold MainCpp.get_small_circle_intersections, MainCpp.beta_of,
    MainCpp.cos_beta_arg_at_acos.
  fold d. fold r. split.
  - intros H.
    destruct (Rgt_dec d (2 * r + MainCpp.EPS)); [reflexivity|].
    destruct (Rlt_dec d MainCpp.EPS); [reflexivity|].
    destruct H; contradiction.
  - intros H1 H2.
    destruct (Rgt_dec d (2 * r + MainCpp.EPS)); [contradiction|].
    destruct (Rlt_dec d MainCpp.EPS); [contradiction|].
    eexists. split; [reflexivity|]. simpl.
    destruct (acos_nan _) as [beta|]; [|reflexivity].
    split.
    + intros Hb. destruct (Rgt_dec beta MainCpp.EPS); [lra|].
      eexists. reflexivity.
    + intros Hb. destruct (Rgt_dec beta MainCpp.EPS); [|contradiction].
      do 2 eexists. reflexivity.
Qed.

Lemma cpp_intersections_explicit c1 c2 R_sphere :
  let c1n := MainCpp.normalize c1 in
  let c2n := MainCpp.normalize c2 in
  let d := acos (MainCpp.clamp (MainCpp.dot c1n c2n)) in
  let r := R_sphere / MainCpp.R_earth in
  let q := cos r / cos (d / 2) in
  let arg := if Rgt_dec q (1 + MainCpp.EPS) then MainCpp.clamp q
             else if Rlt_dec q (-1 - MainCpp.EPS) then MainCpp.clamp q
             else q in
  let M := MainCpp.point_at_angle_on_great_circle c1n c2n (d / 2) in
  let O := MainCpp.normalize (MainCpp.cross M (MainCpp.psub c1n c2n)) in
  ((d > 2 * r + MainCpp.EPS \/ d < MainCpp.EPS) ->
   MainCpp.get_small_circle_intersections c1 c2 R_sphere = []) /\
  (~ d > 2 * r + MainCpp.EPS -> ~ d < MainCpp.EPS ->
   match acos_nan arg with
   | None => MainCpp.get_small_circle_intersections c1 c2 R_sphere = [None]
   | Some beta =>
       (beta <= MainCpp.EPS ->
        MainCpp.get_small_circle_intersections c1 c2 R_sphere
        = [Some (MainCpp.pmul
                   (MainCpp.padd (MainCpp.pmul M (cos beta))
                                 (MainCpp.pmul O (sin beta)))
                   MainCpp.R_earth)]) /\
       (beta > MainCpp.EPS ->
        MainCpp.get_small_circle_intersections c1 c2 R_sphere
        = [Some (MainCpp.pmul
                   (MainCpp.padd (MainCpp.pmul M (cos beta))
                                 (MainCpp.pmul O (sin beta)))
                   MainCpp.R_earth);
           Some (MainCpp.pmul
                   (MainCpp.psub (MainCpp.pmul M (cos beta))
                                 (MainCpp.pmul O (sin beta)))
                   MainCpp.R_earth)])
   end).
Proof.
  intros c1n c2n d r q arg M O.
  unfold MainCpp.get_small_circle_intersections, MainCpp.beta_of,
    MainCpp.cos_beta_arg_at_acos.
  fold c1n c2n. fold d. fold r. fold q. split.
  - intros H.
    destruct (Rgt_dec d (2 * r + MainCpp.EPS)); [reflexivity|].
    destruct (Rlt_dec d MainCpp.EPS); [reflexivity|].
    destruct H; contradiction.
  - intros H1 H2.
    destruct (Rgt_dec d (2 * r + MainCpp.EPS)); [contradiction|].
    destruct (Rlt_dec d MainCpp.EPS); [contradiction|].
    cbn [option_map]. fold arg.
    destruct (acos_nan arg) as [beta|]; [|reflexivity].
    fold M. fold O. split.
    + intros Hb. destruct (Rgt_dec beta MainCpp.EPS); [lra|reflexivity].
    + intros Hb. destruct (Rgt_dec beta MainCpp.EPS); [reflexivity|contradiction].
Qed.



(** ** C4: the vertex set *)

Lemma cpp_Compare_apart p q : MainCpp.Compare p q = true -> apart p q.
Proof.
  unfold MainCpp.Compare, apart.
  destruct (Rgt_dec (Rabs (MainCpp.x p - MainCpp.x q)) MainCpp.EPS);
    [now left|].
  destruct (Rgt_dec (Rabs (MainCpp.y p - MainCpp.y q)) MainCpp.EPS);
    [right; now left|].
  intros H. apply Rltb_true in H. right. right.
  unfold MainCpp.EPS in *.
  rewrite Rabs_left; lra.
Qed.

Lemma cpp_set_insert_In p s a :
  In a (MainCpp.set_insert p s) -> a = p \/ In a s.
Proof.
  induction s as [|q s IH]; simpl.
  - intros [E|[]]; now left.
  - destruct (MainCpp.Compare p q).
    + intros [E|H]; [now left|now right].
    + destruct (MainCpp.Compare q p); [|now right].
      intros [E|H]; [right; now left|].
      destruct (IH H) as [E|H']; [now left|right; now right].
Qed.

Lemma cpp_set_insert_sorted p s :
  Compare_transitive_on (p :: s) ->
  StronglySorted (fun a b => MainCpp.Compare a b = true) s ->
  StronglySorted (fun a b => MainCpp.Compare a b = true)
                 (MainCpp.set_insert p s).
Proof.
  intros Htr Hs. induction s as [|q s IH]; simpl.
  - constructor; constructor.
  - apply StronglySorted_inv in Hs. destruct Hs as [Hs Hq].
    destruct (MainCpp.Compare p q) eqn:Epq.
    + constructor; [constructor; assumption|].
      constructor; [exact Epq|].
      rewrite Forall_forall in Hq |- *. intros r Hr.
      apply (Htr p q r); simpl; auto.
    + destruct (MainCpp.Compare q p) eqn:Eqp; [|constructor; assumption].
      constructor.
      * apply IH; [|exact Hs].
        intros a b c Ha Hb Hc. apply Htr; simpl in *; tauto.
      * rewrite Forall_forall in Hq |- *. intros r Hr.
        destruct (cpp_set_insert_In _ _ _ Hr) as [->|Hr']; [exact Eqp|].
        now apply Hq.
Qed.

Lemma somes_In {T : Type} (l : list (option T)) (a : T) :
  In a (somes l) <-> In (Some a) l.
Proof.
  induction l as [|[b|] l IH]; simpl.
  - tauto.
  - rewrite IH. split; intros [E|H]; auto; left; congruence.
  - rewrite IH. split; [auto|]. intros [E|H]; [discriminate|exact H].
Qed.

Lemma cpp_vertices_sorted airports_xyz R_sphere :
  Compare_transitive_on (candidates airports_xyz R_sphere) ->
  StronglySorted (fun a b => MainCpp.Compare a b = true)
                 (MainCpp.vertices airports_xyz R_sphere) /\
  incl (MainCpp.vertices airports_xyz R_sphere)
       (candidates airports_xyz R_sphere).
Proof.
  intros Htr. unfold MainCpp.vertices, candidates in *.
  set (C := airports_xyz ++ somes _) in *.
  set (Inv := fun s : list MainCpp.Point =>
                StronglySorted (fun a b => MainCpp.Compare a b = true) s /\
                incl s C).
  assert (Hstep : forall p s, In p C -> Inv s -> Inv (MainCpp.set_insert p s)).
  { intros p s Hp [Hs Hi]. split.
    - apply cpp_set_insert_sorted; [|exact Hs].
      intros a b c Ha Hb Hc. apply Htr.
      + destruct Ha as [<-|Ha]; [exact Hp|now apply Hi].
      + destruct Hb as [<-|Hb]; [exact Hp|now apply Hi].
      + destruct Hc as [<-|Hc]; [exact Hp|now apply Hi].
    - intros a Ha. destruct (cpp_set_insert_In _ _ _ Ha) as [->|Ha'];
        [exact Hp|now apply Hi]. }
  assert (H1 : forall l s, incl l C -> Inv s ->
                           Inv (fold_left (fun s p => MainCpp.set_insert p s) l s)).
  { induction l as [|p l IH]; intros s Hl Hs; simpl; [exact Hs|].
    apply IH; [intros a Ha; apply Hl; now right|].
    apply Hstep; [apply Hl; now left|exact Hs]. }
  assert (H2 : forall l s, incl (somes l) C -> Inv s ->
                           Inv (fold_left (fun s p => MainCpp.set_insert_opt p s)
                                          l s)).
  { induction l as [|[p|] l IH]; intros s Hl Hs; simpl; [exact Hs| |].
    - apply IH; [intros a Ha; apply Hl; now right|].
      apply Hstep; [apply Hl; now left|exact Hs].
    - apply IH; assumption. }
  apply H2.
  - intros a Ha. apply in_or_app. now right.
  - apply H1.
    + intros a Ha. apply in_or_app. now left.
    + split; [constructor|intros a []].
Qed.

Lemma StronglySorted_nth {T : Type} (Rel : T -> T -> Prop) (l : list T) (d : T) :
  StronglySorted Rel l ->
  forall i j, (i < j < length l)%nat -> Rel (nth i l d) (nth j l d).
Proof.
  intros Hs. induction Hs as [|a l Hs IH Ha]; intros i j Hij.
  - simpl in Hij. lia.
  - destruct j as [|j]; [lia|]. destruct i as [|i]; simpl.
    + rewrite Forall_forall in Ha. apply Ha. apply nth_In.
      simpl in Hij. lia.
    + apply IH. simpl in Hij. lia.
Qed.

(** Two airports a quarter circle apart, radius 100 (main.cpp). *)
Lemma cpp_lat_lon_pole :
  MainCpp.lat_lon_to_xyz 90 0 = MainCpp.mkPoint 0 0 6370.
Proof.
  unfold MainCpp.lat_lon_to_xyz, MainCpp.R_earth.
  replace (0 * PI / 180) with 0 by lra.
  replace (90 * PI / 180) with (PI / 2) by lra.
  rewrite cos_0, sin_0, cos_PI2, sin_PI2. f_equal; lra.
Qed.

Lemma cpp_normalize_pole :
  MainCpp.normalize (MainCpp.mkPoint 0 0 6370) = MainCpp.mkPoint 0 0 1.
Proof.
  unfold MainCpp.normalize, MainCpp.magnitude, MainCpp.dot, MainCpp.pdiv.
  simpl.
  replace (0 * 0 + 0 * 0 + 6370 * 6370) with (6370 * 6370) by lra.
  rewrite sqrt_square by lra.
  destruct (Rlt_dec 6370 MainCpp.EPS) as [H|H];
    [unfold MainCpp.EPS in H; lra|].
  f_equal; lra.
Qed.

Lemma cpp_clamp_id a : -1 <= a <= 1 -> MainCpp.clamp a = a.
Proof.
  intros H. unfold MainCpp.clamp, Rmax, Rmin.
  destruct (Rle_dec 1 a); destruct (Rle_dec (-1) _); lra.
Qed.

Lemma cpp_quarter_no_intersection :
  MainCpp.get_small_circle_intersections
    (MainCpp.mkPoint 6370 0 0) (MainCpp.mkPoint 0 0 6370) 100 = [].
Proof.
  pose proof (cpp_intersections_cases (MainCpp.mkPoint 6370 0 0)
                (MainCpp.mkPoint 0 0 6370) 100) as [H _].
  apply H. left.
  rewrite cpp_normalize_scaled, cpp_normalize_pole.
  replace (MainCpp.dot (MainCpp.mkPoint 1 0 0) (MainCpp.mkPoint 0 0 1))
    with 0 by (unfold MainCpp.dot; simpl; lra).
  rewrite cpp_clamp_id by lra. rewrite acos_0.
  pose proof PI2_3_2. unfold MainCpp.EPS, MainCpp.R_earth. lra.
Qed.

Lemma cpp_quarter_Compare :
  MainCpp.Compare (MainCpp.mkPoint 0 0 6370) (MainCpp.mkPoint 6370 0 0) = true
  /\ MainCpp.Compare (MainCpp.mkPoint 6370 0 0) (MainCpp.mkPoint 0 0 6370)
     = false.
Proof.
  unfold MainCpp.Compare, MainCpp.EPS.
  cbn [MainCpp.x MainCpp.y MainCpp.z]. split.
  - destruct (Rgt_dec (Rabs (0 - 6370)) 1e-9) as [H|H].
    + apply Rltb_true. lra.
    + exfalso. apply H. unfold Rabs. destruct (Rcase_abs (0 - 6370)); lra.
  - destruct (Rgt_dec (Rabs (6370 - 0)) 1e-9) as [H|H].
    + apply Rltb_false. lra.
    + exfalso. apply H. unfold Rabs. destruct (Rcase_abs (6370 - 0)); lra.
Qed.

(** main.cpp: when [Point::Compare] is transitive on the airports and
    intersection points offered to the set, any two distinct vertices
    differ by more than [EPS] in some coordinate. *)
Lemma cpp_vertices_apart airports_xyz R_sphere i j :
  Compare_transitive_on (candidates airports_xyz R_sphere) ->
  (i < j < length (MainCpp.vertices airports_xyz R_sphere))%nat ->
  apart (nth i (MainCpp.vertices airports_xyz R_sphere)
             (MainCpp.mkPoint 0 0 0))
        (nth j (MainCpp.vertices airports_xyz R_sphere)
             (MainCpp.mkPoint 0 0 0)).
Proof.
  intros Htr Hij. apply cpp_Compare_apart.
  destruct (cpp_vertices_sorted airports_xyz R_sphere Htr) as [Hs _].
  now apply (StronglySorted_nth _ _ _ Hs).
Qed.

(** main.c: the first [N] nodes are the airports, each at its own
    position, whatever the other airports are. *)
Lemma c_airport_nodes R0 lonlat a :
  (a < length lonlat)%nat ->
  nth a (MainC.node_list R0 lonlat) MainC.zero_vec
  = MainC.sph2vec (fst (nth a lonlat (0, 0))) (snd (nth a lonlat (0, 0))).
Proof.
  intros Ha. unfold MainC.node_list, MainC.nodes, MainC.airports_of.
  rewrite app_nth1 by (rewrite length_map; exact Ha).
  rewrite (nth_indep _ MainC.zero_vec
                     (MainC.sph2vec (fst (0, 0)) (snd (0, 0))))
    by (rewrite length_map; exact Ha).
  apply (map_nth (fun p => MainC.sph2vec (fst p) (snd p))).
Qed.

(** C4, as the code has it.  main.cpp: when [Point::Compare] is
    transitive on the airports and intersection points offered to the
    set, any two distinct vertices differ by more than [EPS] in some
    coordinate.  main.c keeps no such set: every airport is a node of its
    own, at its own position, whatever the positions of the others. *)
Theorem vertex_set_deduplication :
  (forall (airports_xyz : list MainCpp.Point) (R_sphere : R) (i j : nat),
      Compare_transitive_on (candidates airports_xyz R_sphere) ->
      (i < j < length (MainCpp.vertices airports_xyz R_sphere))%nat ->
      apart (nth i (MainCpp.vertices airports_xyz R_sphere)
                 (MainCpp.mkPoint 0 0 0))
            (nth j (MainCpp.vertices airports_xyz R_sphere)
                 (MainCpp.mkPoint 0 0 0))) /\
  (forall (R0 : Z) (lonlat : list (R * R)) (a : nat),
      (a < length lonlat)%nat ->
      nth a (MainC.node_list R0 lonlat) MainC.zero_vec
      = MainC.sph2vec (fst (nth a lonlat (0, 0)))
                      (snd (nth a lonlat (0, 0)))).
Proof.
  split.
  - intros airports_xyz R_sphere i j. apply cpp_vertices_apart.
  - intros R0 lonlat a. apply c_airport_nodes.
Qed.

(** ** C1: the sweep over the coverage intervals *)

Lemma insert_by_In {T : Type} (leb : T -> T -> bool) (a : T) (l : list T) b :
  In b (insert_by leb a l) <-> b = a \/ In b l.
Proof.
  induction l as [|c l IH]; simpl.
  - split; [intros [E|[]]; now left|intros [E|[]]; now left].
  - destruct (leb a c); simpl.
    + split; [intros [E|H]; auto|intros [E|H]; auto].
    + rewrite IH. split.
      * intros [E|[E|H]]; auto.
      * intros [E|[E|H]]; auto.
Qed.

Lemma sort_by_In {T : Type} (leb : T -> T -> bool) (l : list T) b :
  In b (sort_by leb l) <-> In b l.
Proof.
  induction l as [|a l IH]; simpl; [tauto|].
  rewrite insert_by_In, IH. split; intros [E|H]; auto.
Qed.

Lemma sort_by_nil {T : Type} (leb : T -> T -> bool) (l : list T) :
  sort_by leb l = [] <-> l = [].
Proof.
  split; [|now intros ->].
  destruct l as [|a l]; [reflexivity|]. intros H.
  assert (Hin : In a (sort_by leb (a :: l))) by (apply sort_by_In; now left).
  rewrite H in Hin. contradiction.
Qed.

(** Once the reach is at [theta - tol], intervals that start at or
    before [theta] leave no gap. *)
Lemma sweep_spec_reached tol theta reach l :
  theta - tol <= reach ->
  (forall iv, In iv l -> fst iv <= theta) ->
  sweep_spec tol theta reach l = true.
Proof.
  revert reach. induction l as [|iv l IH]; intros reach Hr Hl; simpl.
  - now apply Rleb_true.
  - assert (fst iv <= theta) by (apply Hl; now left).
    destruct (Rle_dec (fst iv) (reach + tol)); [|lra].
    apply IH; [|intros; apply Hl; now right].
    pose proof (Rmax_l reach (snd iv)). lra.
Qed.

(** The inner loop of main.c merges a batch that the specification's
    sweep merges one by one. *)
Lemma c_sweep_inner_spec theta l :
  forall reach best,
    reach <= best ->
    let '(best', rest) := MainC.sweep_inner reach best l in
    (length rest <= length l)%nat /\
    (forall iv, In iv rest -> In iv l) /\
    sweep_spec 1e-12 theta best l = sweep_spec 1e-12 theta best' rest.
Proof.
  induction l as [|iv l IH]; intros reach best Hrb; simpl.
  - split; [lia|]. split; [tauto|reflexivity].
  - destruct (Rle_dec (fst iv) (reach + 1e-12)) as [Hle|Hgt].
    + specialize (IH reach (if Rgt_dec (snd iv) best then snd iv else best)).
      assert (HM : (if Rgt_dec (snd iv) best then snd iv else best)
                   = Rmax best (snd iv)).
      { unfold Rmax. destruct (Rgt_dec (snd iv) best), (Rle_dec best (snd iv));
          lra. }
      rewrite HM in IH.
      assert (Hrm : reach <= Rmax best (snd iv))
        by (pose proof (Rmax_l best (snd iv)); lra).
      specialize (IH Hrm).
      rewrite HM.
      destruct (MainC.sweep_inner reach (Rmax best (snd iv)) l) as [b' rest].
      destruct IH as [Hlen [Hin Hs]].
      split; [lia|]. split; [intros; right; now apply Hin|].
      destruct (Rle_dec (fst iv) (best + 1e-12)); [exact Hs|lra].
    + split; [simpl; lia|]. split; [tauto|reflexivity].
Qed.

Lemma c_sweep_spec theta :
  forall fuel l reach,
    (length l <= fuel)%nat ->
    (forall iv, In iv l -> fst iv <= theta) ->
    (MainC.sweep fuel theta reach l >= theta - 1e-12 <->
     sweep_spec 1e-12 theta reach l = true).
Proof.
  induction fuel as [|fuel IH]; intros l reach Hlen Hl.
  - destruct l; [|simpl in Hlen; lia]. simpl.
    rewrite Rleb_true. split; lra.
  - destruct l as [|iv l]; [simpl; rewrite Rleb_true; split; lra|].
    assert (Hiv : fst iv <= theta) by (apply Hl; now left).
    change (MainC.sweep (S fuel) theta reach (iv :: l)) with
      (if Rle_dec (fst iv) (reach + 1e-12) then
         let '(best, l') := MainC.sweep_inner reach reach (iv :: l) in
         if Rge_dec best (theta - 1e-12) then best
         else MainC.sweep fuel theta best l'
       else reach).
    destruct (Rle_dec (fst iv) (reach + 1e-12)) as [Hle|Hgt].
    + pose proof (c_sweep_inner_spec theta (iv :: l) reach reach
                    (Rle_refl reach)) as Hin.
      assert (Hshort : (length (snd (MainC.sweep_inner reach reach (iv :: l)))
                        <= length l)%nat).
      { simpl. destruct (Rle_dec (fst iv) (reach + 1e-12)); [|lra].
        pose proof (c_sweep_inner_spec theta l reach
                      (if Rgt_dec (snd iv) reach then snd iv else reach)) as H.
        assert (Hr : reach <= (if Rgt_dec (snd iv) reach then snd iv else reach))
          by (destruct (Rgt_dec (snd iv) reach); lra).
        specialize (H Hr).
        destruct (MainC.sweep_inner reach _ l) as [b' r']. simpl. tauto. }
      destruct (MainC.sweep_inner reach reach (iv :: l)) as [best rest].
      simpl in Hshort. destruct Hin as [_ [Hsub Hs]]. rewrite Hs.
      destruct (Rge_dec best (theta - 1e-12)) as [Hge|Hlt].
      * split; [intros _|intros _; exact Hge].
        apply sweep_spec_reached; [lra|].
        intros iv' H'. apply Hl. now apply Hsub.
      * apply IH; [simpl in Hlen; lia|].
        intros iv' H'. apply Hl. now apply Hsub.
    + simpl. destruct (Rle_dec (fst iv) (reach + 1e-12)); [lra|].
      split; [intros H; lra|discriminate].
Qed.

Lemma c_covered_spec theta ivs :
  (forall iv, In iv ivs -> fst iv <= theta) ->
  MainC.covered theta ivs
  = covers_spec 1e-12 theta (sort_by MainC.compare_intervals ivs).
Proof.
  intros Hl. unfold MainC.covered, covers_spec.
  destruct ivs as [|iv ivs].
  - reflexivity.
  - set (s := sort_by MainC.compare_intervals (iv :: ivs)).
    assert (Hs : s <> []).
    { intros E. apply sort_by_nil in E. discriminate. }
    assert (Hl' : forall iv', In iv' s -> fst iv' <= theta).
    { intros iv' H'. apply Hl. now apply sort_by_In in H'. }
    pose proof (c_sweep_spec theta (length s) s 0 (Nat.le_refl _) Hl') as H.
    destruct s as [|a s']; [contradiction|].
    destruct (Rge_dec (MainC.sweep (length (a :: s')) theta 0 (a :: s'))
                      (theta - 1e-12)) as [Hge|Hlt].
    + symmetry. now apply H.
    + destruct (sweep_spec 1e-12 theta 0 (a :: s')) eqn:E; [|reflexivity].
      exfalso. apply Hlt. now apply H.
Qed.

(** Every interval main.c gathers starts inside the arc's range. *)
Lemma c_coverage_starts abU abW Ai cosA theta iv :
  0 <= theta ->
  In iv (MainC.coverage abU abW Ai cosA theta) -> fst iv <= theta.
Proof.
  intros Ht. unfold MainC.coverage.
  destruct (Rlt_dec _ 1e-15); [intros []|].
  destruct (Rlt_dec _ cosA); [intros []|].
  destruct (acos_nan _) as [delta|]; [|intros []].
  set (t1 := MainC.normalize_angle _). set (t2 := MainC.normalize_angle _).
  destruct (Rle_dec t1 t2).
  - destruct (Rlt_dec t2 0); [intros []|].
    destruct (Rgt_dec t1 theta); [intros []|].
    intros [<-|[]]. simpl. unfold Rmax. destruct (Rle_dec 0 t1); lra.
  - intros H. apply in_app_or in H. destruct H as [H|H].
    + destruct (Rle_dec t1 theta); [|destruct H].
      destruct H as [<-|[]]. simpl. lra.
    + destruct (Rge_dec t2 0); [|destruct H].
      destruct (Rgt_dec _ _); [|destruct H].
      destruct H as [<-|[]]. simpl. unfold Rmax.
      destruct (Rle_dec 0 0); lra.
Qed.

Lemma c_gather_starts airports cosA a b theta iv :
  0 <= theta ->
  In iv (MainC.gather airports cosA a b theta) -> fst iv <= theta.
Proof.
  intros Ht H. unfold MainC.gather in H. apply in_flat_map in H.
  destruct H as [Ai [_ H]]. eapply c_coverage_starts; eassumption.
Qed.

(** main.cpp merges and then scans; together they are the
    specification's sweep over [[0, 1]]. *)
Lemma cpp_merge_from_head cur l :
  exists E rest, MainCpp.merge_from cur l = (fst cur, E) :: rest.
Proof.
  revert cur. induction l as [|iv l IH]; intros cur; simpl.
  - exists (snd cur), []. now destruct cur.
  - destruct (Rle_dec (fst iv) (snd cur + MainCpp.EPS)).
    + destruct (IH (fst cur, Rmax (snd cur) (snd iv))) as [E [rest H]].
      exists E, rest. exact H.
    + exists (snd cur), (MainCpp.merge_from iv l). now destruct cur.
Qed.

Lemma cpp_scan_merge l :
  forall cur t,
    fst cur <= t + MainCpp.EPS ->
    MainCpp.scan t (MainCpp.merge_from cur l)
    = sweep_spec MainCpp.EPS 1 (Rmax t (snd cur)) l.
Proof.
  induction l as [|iv l IH]; intros cur t Hc; simpl.
  - destruct (Rgt_dec (fst cur) (t + MainCpp.EPS)); [lra|].
    unfold Rleb.
    destruct (Rlt_dec (Rmax t (snd cur)) (1 - MainCpp.EPS)),
      (Rle_dec (1 - MainCpp.EPS) (Rmax t (snd cur))); try reflexivity; lra.
  - destruct (Rle_dec (fst iv) (snd cur + MainCpp.EPS)) as [Hm|Hm].
    + rewrite IH by exact Hc. simpl.
      pose proof (Rmax_r t (snd cur)).
      destruct (Rle_dec (fst iv) (Rmax t (snd cur) + MainCpp.EPS)); [|lra].
      f_equal. apply Rmax_assoc.
    + simpl. destruct (Rgt_dec (fst cur) (t + MainCpp.EPS)); [lra|].
      destruct (Rle_dec (fst iv) (Rmax t (snd cur) + MainCpp.EPS)) as [Hn|Hn].
      * now apply IH.
      * destruct (cpp_merge_from_head iv l) as [E [rest H]]. rewrite H.
        simpl. destruct (Rgt_dec (fst iv) (Rmax t (snd cur) + MainCpp.EPS));
          [reflexivity|lra].
Qed.

Lemma cpp_covers_spec intervals :
  MainCpp.covers intervals
  = covers_spec MainCpp.EPS 1 (sort_by MainCpp.pair_leb intervals).
Proof.
  unfold MainCpp.covers, MainCpp.merge_intervals, covers_spec.
  destruct (sort_by MainCpp.pair_leb intervals) as [|a l]; [reflexivity|].
  destruct (cpp_merge_from_head a l) as [E [rest H]].
  destruct (Rle_dec (fst a) (0 + MainCpp.EPS)) as [Ha|Ha].
  - pose proof (cpp_scan_merge l a 0 Ha) as Hs. rewrite H in Hs |- *.
    rewrite Hs. simpl. destruct (Rle_dec (fst a) (0 + MainCpp.EPS)); [|lra].
    reflexivity.
  - rewrite H. simpl.
    destruct (Rgt_dec (fst a) (0 + MainCpp.EPS)); [|lra].
    destruct (Rle_dec (fst a) (0 + MainCpp.EPS)); [lra|reflexivity].
Qed.


(** Two airports a quarter circle apart, radius 0 (main.c). *)
Lemma c_sph2vec_pole : MainC.sph2vec 0 90 = MainC.mkVec 0 0 1.
Proof.
  unfold MainC.sph2vec.
  replace (0 * PI / 180) with 0 by lra.
  replace (90 * PI / 180) with (PI / 2) by lra.
  rewrite cos_0, sin_0, cos_PI2, sin_PI2. f_equal; lra.
Qed.

Lemma c_quarter_nodes :
  MainC.node_list 0 [(0, 0); (0, 90)]
  = [MainC.mkVec 1 0 0; MainC.mkVec 0 0 1].
Proof.
  unfold MainC.node_list, MainC.nodes, MainC.airports_of. simpl map.
  rewrite c_sph2vec_origin, c_sph2vec_pole.
  cbn [MainC.intersections flat_map app].
  pose proof (c_boundary_points_cases (cos (MainC.alpha_of 0))
                (MainC.alpha_of 0) (MainC.mkVec 1 0 0) (MainC.mkVec 0 0 1))
    as [H _].
  rewrite H; [reflexivity|].
  left. unfold MainC.dot, MainC.alpha_of, MainC.EARTH_R.
  cbn [MainC.x MainC.y MainC.z].
  replace (2 * (0 / 6370)) with 0 by lra. rewrite cos_0. lra.
Qed.

Lemma c_quarter_theta :
  MainC.theta_of (MainC.mkVec 1 0 0) (MainC.mkVec 0 0 1) = PI / 2.
Proof.
  unfold MainC.theta_of, MainC.clamp_cab, MainC.dot.
  cbn [MainC.x MainC.y MainC.z].
  replace (1 * 0 + 0 * 0 + 0 * 1) with 0 by lra.
  destruct (Rgt_dec 0 1); [lra|]. destruct (Rlt_dec 0 (-1)); [lra|].
  apply acos_0.
Qed.

Lemma cpp_quarter_dist :
  MainCpp.dist_xyz (MainCpp.mkPoint 0 0 6370) (MainCpp.mkPoint 6370 0 0)
  = PI / 2 * 6370.
Proof.
  unfold MainCpp.dist_xyz. rewrite cpp_normalize_scaled, cpp_normalize_pole.
  replace (MainCpp.dot (MainCpp.mkPoint 0 0 1) (MainCpp.mkPoint 1 0 0))
    with 0 by (unfold MainCpp.dot; simpl; lra).
  rewrite cpp_clamp_id by lra. rewrite acos_0. reflexivity.
Qed.

(** ** C8: the arguments of [acos] *)

Lemma PI_tight : 3.14159265358 < PI < 3.14159265359.
Proof.
  pose proof (PI_2_3_7_ineq 7) as H.
  unfold sum_f_R0, tg_alt, PI_2_3_7_tg, Ratan_seq in H.
  simpl in H. lra.
Qed.

Lemma inv_sqrt2_bounds : 1 / 2 < 1 / sqrt 2 < 1.
Proof.
  assert (H1 : 1 < sqrt 2).
  { rewrite <- sqrt_1 at 1. apply sqrt_lt_1; lra. }
  assert (H2 : sqrt 2 < 2).
  { replace 2 with (sqrt (2 * 2)) at 2 by (apply sqrt_square; lra).
    apply sqrt_lt_1; lra. }
  assert (H3 : 1 / sqrt 2 * sqrt 2 = 1) by (field; lra).
  assert (H4 : 0 < 1 / sqrt 2) by (apply Rdiv_lt_0_compat; lra).
  split; nra.
Qed.

(** Just inside tangency the quotient [cos r / cos (d / 2)] is a little
    above 1. *)
Lemma cos_ratio_band eps :
  0 < eps <= 1e-9 ->
  1 < cos (PI / 4 - eps) / cos (PI / 4) <= 1 + eps.
Proof.
  intros [H0 H1]. pose proof PI_tight as HP. pose proof inv_sqrt2_bounds as Hc.
  assert (Hlow : cos (PI / 4) < cos (PI / 4 - eps))
    by (apply cos_decreasing_1; lra).
  rewrite cos_minus, sin_PI4 in *. rewrite cos_PI4 in *.
  set (c := 1 / sqrt 2) in *.
  pose proof (COS_bound eps) as [_ Hce]. pose proof (sin_lt_x eps H0) as Hse.
  replace ((c * cos eps + c * sin eps) / c) with (cos eps + sin eps)
    by (field; lra).
  split; [|lra].
  apply Rmult_lt_reg_l with c; [lra|]. lra.
Qed.

Lemma cpp_unclamped_acos_argument :
  exists arg,
    MainCpp.cos_beta_arg_at_acos (MainCpp.lat_lon_to_xyz 0 0)
                                 (MainCpp.lat_lon_to_xyz 90 0) 5002.9863
    = Some arg /\ 1 < arg /\
    MainCpp.get_small_circle_intersections
      (MainCpp.lat_lon_to_xyz 0 0) (MainCpp.lat_lon_to_xyz 90 0) 5002.9863
    = [None].
Proof.
  pose proof PI_tight as HP.
  set (eps := PI / 4 - 5002.9863 / 6370).
  assert (He : 0 < eps <= 1e-9) by (unfold eps; lra).
  pose proof (cos_ratio_band eps He) as [Hq1 Hq2].
  replace (PI / 4 - eps) with (5002.9863 / 6370) in * by (unfold eps; lra).
  exists (cos (5002.9863 / 6370) / cos (PI / 4)).
  assert (HA : MainCpp.cos_beta_arg_at_acos (MainCpp.lat_lon_to_xyz 0 0)
                 (MainCpp.lat_lon_to_xyz 90 0) 5002.9863
               = Some (cos (5002.9863 / 6370) / cos (PI / 4))).
  { unfold MainCpp.cos_beta_arg_at_acos.
    rewrite cpp_lat_lon_origin, cpp_lat_lon_pole.
    rewrite cpp_normalize_scaled, cpp_normalize_pole.
    replace (MainCpp.dot (MainCpp.mkPoint 1 0 0) (MainCpp.mkPoint 0 0 1))
      with 0 by (unfold MainCpp.dot; simpl; lra).
    rewrite cpp_clamp_id by lra. rewrite acos_0.
    unfold MainCpp.R_earth, MainCpp.EPS.
    destruct (Rgt_dec (PI / 2) (2 * (5002.9863 / 6370) + 1e-9)); [lra|].
    destruct (Rlt_dec (PI / 2) 1e-9); [lra|].
    replace (PI / 2 / 2) with (PI / 4) by lra.
    destruct (Rgt_dec _ (1 + 1e-9)); [lra|].
    destruct (Rlt_dec _ (-1 - 1e-9)); [lra|]. reflexivity. }
  split; [exact HA|]. split; [exact Hq1|].
  unfold MainCpp.get_small_circle_intersections, MainCpp.beta_of.
  rewrite HA. simpl. unfold acos_nan.
  destruct (Rle_dec (-1) _); [|reflexivity].
  destruct (Rle_dec _ 1); [lra|reflexivity].
Qed.

Lemma c_sph2vec_mid :
  MainC.sph2vec 0 45 = MainC.mkVec (1 / sqrt 2) 0 (1 / sqrt 2).
Proof.
  unfold MainC.sph2vec.
  replace (0 * PI / 180) with 0 by lra.
  replace (45 * PI / 180) with (PI / 4) by lra.
  rewrite cos_0, sin_0, cos_PI4, sin_PI4. f_equal; lra.
Qed.

Lemma c_quarter_basis_W :
  MainC.basis_W (MainC.mkVec 1 0 0) (MainC.mkVec 0 0 1) (PI / 2)
  = MainC.mkVec (-1) 0 1.
Proof.
  unfold MainC.basis_W, MainC.scale, MainC.subv.
  cbn [MainC.x MainC.y MainC.z]. rewrite sin_PI2. f_equal; lra.
Qed.

Lemma c_unclamped_acos_argument :
  exists arg,
    MainC.coverage_acos_arg
      (MainC.sph2vec 0 0)
      (MainC.basis_W (MainC.sph2vec 0 0) (MainC.sph2vec 0 90)
                     (MainC.theta_of (MainC.sph2vec 0 0) (MainC.sph2vec 0 90)))
      (MainC.sph2vec 0 45) (cos (MainC.alpha_of 20000))
    = Some arg /\ arg < -1 /\
    MainC.coverage
      (MainC.sph2vec 0 0)
      (MainC.basis_W (MainC.sph2vec 0 0) (MainC.sph2vec 0 90)
                     (MainC.theta_of (MainC.sph2vec 0 0) (MainC.sph2vec 0 90)))
      (MainC.sph2vec 0 45) (cos (MainC.alpha_of 20000))
      (MainC.theta_of (MainC.sph2vec 0 0) (MainC.sph2vec 0 90))
    = [].
Proof.
  pose proof PI_tight as HP. pose proof inv_sqrt2_bounds as Hc.
  rewrite c_sph2vec_origin, c_sph2vec_pole, c_sph2vec_mid, c_quarter_theta,
    c_quarter_basis_W.
  set (c := 1 / sqrt 2) in *.
  assert (HcosA : cos (MainC.alpha_of 20000) < - c).
  { unfold MainC.alpha_of, MainC.EARTH_R.
    replace (- c) with (cos (3 * (PI / 4)))
      by (rewrite cos_3PI4; unfold c; lra).
    apply cos_decreasing_1; lra. }
  set (cosA := cos (MainC.alpha_of 20000)) in *.
  assert (HRv : sqrt (MainC.dot (MainC.mkVec 1 0 0) (MainC.mkVec c 0 c)
                      * MainC.dot (MainC.mkVec 1 0 0) (MainC.mkVec c 0 c)
                      + MainC.dot (MainC.mkVec (-1) 0 1) (MainC.mkVec c 0 c)
                        * MainC.dot (MainC.mkVec (-1) 0 1) (MainC.mkVec c 0 c))
                = c).
  { unfold MainC.dot. cbn [MainC.x MainC.y MainC.z].
    replace ((1 * c + 0 * 0 + 0 * c) * (1 * c + 0 * 0 + 0 * c)
             + (-1 * c + 0 * 0 + 1 * c) * (-1 * c + 0 * 0 + 1 * c))
      with (c * c) by lra.
    apply sqrt_square. lra. }
  assert (Harg : cosA / c < -1).
  { apply Rmult_lt_reg_r with c; [lra|].
    unfold Rdiv. rewrite Rmult_assoc, Rinv_l by lra. lra. }
  exists (cosA / c). split; [|split; [exact Harg|]].
  - unfold MainC.coverage_acos_arg. rewrite HRv.
    destruct (Rlt_dec c 1e-15); [lra|].
    destruct (Rlt_dec c cosA); [lra|reflexivity].
  - unfold MainC.coverage. rewrite HRv.
    destruct (Rlt_dec c 1e-15); [lra|].
    destruct (Rlt_dec c cosA); [lra|].
    unfold acos_nan. destruct (Rle_dec (-1) (cosA / c)); [lra|reflexivity].
Qed.

(** C8 at two inputs.  main.cpp, radius 5002.9863 and airports at
    (0, 0) and (0, 90): [cos_beta_arg] is above 1 by less than [EPS],
    is not clamped, and [acos] is called on it.  main.c, radius 20000
    and airports at (0, 0), (0, 90), (0, 45): for the arc between the
    first two and the disk of the third, [acos] is called on a value
    below -1. *)
Theorem acos_called_outside_its_domain :
  (exists arg,
      MainCpp.cos_beta_arg_at_acos (MainCpp.lat_lon_to_xyz 0 0)
                                   (MainCpp.lat_lon_to_xyz 90 0) 5002.9863
      = Some arg /\ ~ acos_domain arg) /\
  (exists arg,
      MainC.coverage_acos_arg
        (MainC.sph2vec 0 0)
        (MainC.basis_W (MainC.sph2vec 0 0) (MainC.sph2vec 0 90)
                       (MainC.theta_of (MainC.sph2vec 0 0)
                                       (MainC.sph2vec 0 90)))
        (MainC.sph2vec 0 45) (cos (MainC.alpha_of 20000))
      = Some arg /\ ~ acos_domain arg).
Proof.
  split.
  - destruct cpp_unclamped_acos_argument as [arg [H1 [H2 _]]].
    exists arg. split; [exact H1|]. unfold acos_domain. lra.
  - destruct c_unclamped_acos_argument as [arg [H1 [H2 _]]].
    exists arg. split; [exact H1|]. unfold acos_domain. lra.
Qed.

(** ** C2: the coverage interval of one disk in main.c *)

Lemma c_sph2vec_far : MainC.sph2vec 180 45
                      = MainC.mkVec (- (1 / sqrt 2)) 0 (1 / sqrt 2).
Proof.
  unfold MainC.sph2vec.
  replace (180 * PI / 180) with PI by lra.
  replace (45 * PI / 180) with (PI / 4) by lra.
  rewrite cos_PI, sin_PI, cos_PI4, sin_PI4. f_equal; lra.
Qed.

Lemma c_alpha_zero : cos (MainC.alpha_of 0) = 1.
Proof.
  unfold MainC.alpha_of, MainC.EARTH_R.
  replace (0 / 6370) with 0 by lra. apply cos_0.
Qed.

Lemma inv_sqrt2_sqr : 1 / sqrt 2 * (1 / sqrt 2) = 1 / 2.
Proof.
  pose proof inv_sqrt2_bounds as Hc.
  assert (Hs : sqrt 2 * sqrt 2 = 2) by (apply sqrt_sqrt; lra).
  assert (H0 : sqrt 2 <> 0).
  { intro E. rewrite E in Hs. lra. }
  field_simplify_eq; [|exact H0]. lra.
Qed.

Lemma c_normalize_angle_id t :
  0 <= t <= 2 * PI -> MainC.normalize_angle t = t.
Proof.
  intros [H0 H1]. unfold MainC.normalize_angle, MainC.wrap_fuel. simpl.
  destruct (Rlt_dec t 0); [lra|].
  destruct (Rgt_dec t (2 * PI)); [lra|]. reflexivity.
Qed.

Lemma acos_between a :
  1 / 2 < a < 1 / sqrt 2 -> PI / 4 < acos a < PI / 2.
Proof.
  intros [H0 H1]. pose proof inv_sqrt2_bounds as Hc. pose proof PI_tight as HP.
  pose proof (acos_bound a) as [Hb0 Hb1].
  assert (Hcos : cos (acos a) = a) by (apply cos_acos; lra).
  split.
  - apply cos_decreasing_0; try lra. rewrite Hcos, cos_PI4. exact H1.
  - apply cos_decreasing_0; try lra. rewrite Hcos, cos_PI2. lra.
Qed.

Lemma atan_2_bounds : PI / 4 < atan 2 < PI / 2.
Proof.
  split.
  - rewrite <- atan_1. apply atan_increasing. lra.
  - apply atan_bound.
Qed.

(** The interval main.c computes for the arc from (0, 0) to (0, 90) and
    the disk of radius 0 at (180, 45). *)
Lemma c_skewed_coverage :
  exists t1,
    MainC.coverage (MainC.mkVec 1 0 0) (MainC.mkVec (-1) 0 1)
                   (MainC.mkVec (- (1 / sqrt 2)) 0 (1 / sqrt 2)) 1 (PI / 2)
    = [(t1, PI / 2)] /\ 0 < t1 < PI / 2.
Proof.
  pose proof inv_sqrt2_bounds as Hc. pose proof inv_sqrt2_sqr as Hcc.
  pose proof PI_tight as HP.
  set (c := 1 / sqrt 2) in *.
  set (r := sqrt (5 / 2)).
  assert (Hrr : r * r = 5 / 2) by (apply sqrt_sqrt; lra).
  assert (Hr0 : 0 <= r) by apply sqrt_pos.
  assert (Hr : 1 < r < 2) by (split; nra).
  assert (Hinv : 1 / 2 < 1 / r < c).
  { assert (H1 : 1 / r * r = 1) by (field; lra).
    assert (H2 : 0 < 1 / r) by (apply Rdiv_lt_0_compat; lra).
    split; [nra|].
    destruct (Rlt_dec (1 / r) c) as [|Hn]; [assumption|exfalso].
    assert (c <= 1 / r) by lra.
    assert (c * c <= 1 / r * (1 / r)) by (apply Rmult_le_compat; lra).
    assert (1 / r * (1 / r) * (r * r) = 1) by (field; lra).
    nra. }
  pose proof (acos_between (1 / r) Hinv) as Hd.
  pose proof atan_2_bounds as Ha.
  exists (PI - atan 2 - acos (1 / r)).
  unfold MainC.coverage, MainC.dot. cbn [MainC.x MainC.y MainC.z].
  replace (1 * - c + 0 * 0 + 0 * c) with (- c) by lra.
  replace (-1 * - c + 0 * 0 + 1 * c) with (2 * c) by lra.
  replace (- c * - c + 2 * c * (2 * c)) with (5 / 2) by lra.
  fold r.
  destruct (Rlt_dec r 1e-15); [lra|].
  destruct (Rlt_dec r 1); [lra|].
  unfold acos_nan.
  destruct (Rle_dec (-1) (1 / r)); [|lra].
  destruct (Rle_dec (1 / r) 1); [|lra].
  assert (Hphi : atan2 (2 * c) (- c) = PI - atan 2).
  { unfold atan2.
    destruct (Rlt_dec 0 (- c)); [lra|].
    destruct (Rlt_dec (- c) 0); [|lra].
    destruct (Rle_dec 0 (2 * c)); [|lra].
    replace (atan (2 * c / - c)) with (- atan 2); [lra|].
    rewrite <- atan_opp. f_equal. field. lra. }
  rewrite Hphi.
  rewrite !c_normalize_angle_id by lra.
  destruct (Rle_dec (PI - atan 2 - acos (1 / r)) (PI - atan 2 + acos (1 / r)));
    [|lra].
  destruct (Rlt_dec (PI - atan 2 + acos (1 / r)) 0); [lra|].
  destruct (Rgt_dec (PI - atan 2 - acos (1 / r)) (PI / 2)); [lra|].
  split; [|lra].
  rewrite Rmax_right by lra. rewrite Rmin_left by lra. reflexivity.
Qed.

Lemma c_quarter_arc_point t :
  arc_point (MainC.mkVec 1 0 0) (MainC.mkVec 0 0 1) t
  = MainC.mkVec (cos t) 0 (sin t).
Proof.
  unfold arc_point, MainC.normalize, MainC.norm, MainC.addv, MainC.scale,
    MainC.subv, MainC.dot.
  cbn [MainC.x MainC.y MainC.z].
  replace ((0 - 1 * (1 * 0 + 0 * 0 + 0 * 1)) * (0 - 1 * (1 * 0 + 0 * 0 + 0 * 1))
           + (0 - 0 * (1 * 0 + 0 * 0 + 0 * 1)) * (0 - 0 * (1 * 0 + 0 * 0 + 0 * 1))
           + (1 - 0 * (1 * 0 + 0 * 0 + 0 * 1)) * (1 - 0 * (1 * 0 + 0 * 0 + 0 * 1)))
    with 1 by lra.
  rewrite sqrt_1. destruct (Rlt_dec 0 1); [|lra].
  cbn [MainC.x MainC.y MainC.z]. f_equal; lra.
Qed.

Lemma c_normalize_unit v :
  MainC.dot v v = 1 -> MainC.normalize v = v.
Proof.
  intros H. unfold MainC.normalize, MainC.norm. rewrite H, sqrt_1.
  destruct (Rlt_dec 0 1); [|lra].
  unfold MainC.scale. destruct v as [a b c]. cbn [MainC.x MainC.y MainC.z].
  f_equal; lra.
Qed.

Lemma acos_pos_below_1 a : -1 <= a < 1 -> 0 < acos a.
Proof.
  intros [H0 H1]. pose proof (acos_bound a) as [Hb _].
  destruct (Req_dec (acos a) 0) as [E|E]; [|lra].
  exfalso. assert (Hc : cos (acos a) = a) by (apply cos_acos; lra).
  rewrite E, cos_0 in Hc. lra.
Qed.

(** No point of that arc lies in that disk. *)
Lemma c_quarter_arc_off_disk t :
  0 <= t <= PI / 2 ->
  ~ in_disk (MainC.mkVec (- (1 / sqrt 2)) 0 (1 / sqrt 2)) 0
            (arc_point (MainC.mkVec 1 0 0) (MainC.mkVec 0 0 1) t).
Proof.
  intros [H0 H1]. pose proof inv_sqrt2_bounds as Hc.
  pose proof inv_sqrt2_sqr as Hcc. pose proof PI_tight as HP.
  unfold in_disk, angle_between. rewrite c_quarter_arc_point.
  rewrite !c_normalize_unit.
  2:{ unfold MainC.dot. cbn [MainC.x MainC.y MainC.z].
      set (c := 1 / sqrt 2) in *. lra. }
  2:{ unfold MainC.dot. cbn [MainC.x MainC.y MainC.z].
      pose proof (sin2_cos2 t) as Hsc. unfold Rsqr in Hsc. lra. }
  unfold MainC.dot, MainC.clamp_cab. cbn [MainC.x MainC.y MainC.z].
  set (c := 1 / sqrt 2) in *.
  assert (Hcos : 0 <= cos t) by (apply cos_ge_0; lra).
  assert (Hcos1 : cos t <= 1) by apply COS_bound.
  assert (Hsin : 0 <= sin t) by (apply sin_ge_0; lra).
  assert (Hsin1 : sin t <= 1) by apply SIN_bound.
  set (d := cos t * - c + 0 * 0 + sin t * c).
  assert (Hd : - c <= d <= c) by (unfold d; split; nra).
  destruct (Rgt_dec d 1); [lra|]. destruct (Rlt_dec d (-1)); [lra|].
  pose proof (acos_pos_below_1 d). lra.
Qed.

(** C2 at one input of main.c: radius 0, the arc from the airport at
    (0, 0) to the airport at (0, 90), the disk of the airport at
    (180, 45).  The coverage step returns a proper interval [(t1, theta)]
    of arc parameters, although no point of the arc lies in that disk:
    the vector [W] of lines 142-144 is [(b - a) / sin theta], not the
    orthogonal [(b - a * cab) / sin theta] of the comment at line 140. *)
Theorem coverage_interval_with_skewed_basis :
  exists t1,
    MainC.coverage
      (MainC.sph2vec 0 0)
      (MainC.basis_W (MainC.sph2vec 0 0) (MainC.sph2vec 0 90)
                     (MainC.theta_of (MainC.sph2vec 0 0) (MainC.sph2vec 0 90)))
      (MainC.sph2vec 180 45) (cos (MainC.alpha_of 0))
      (MainC.theta_of (MainC.sph2vec 0 0) (MainC.sph2vec 0 90))
    = [(t1, MainC.theta_of (MainC.sph2vec 0 0) (MainC.sph2vec 0 90))] /\
    0 < t1 < MainC.theta_of (MainC.sph2vec 0 0) (MainC.sph2vec 0 90) /\
    forall t,
      0 <= t <= MainC.theta_of (MainC.sph2vec 0 0) (MainC.sph2vec 0 90) ->
      ~ in_disk (MainC.sph2vec 180 45) (MainC.alpha_of 0)
                (arc_point (MainC.sph2vec 0 0) (MainC.sph2vec 0 90) t).
Proof.
  rewrite c_sph2vec_origin, c_sph2vec_pole, c_sph2vec_far, c_quarter_theta,
    c_quarter_basis_W, c_alpha_zero.
  destruct c_skewed_coverage as [t1 [H1 H2]].
  exists t1. split; [exact H1|]. split; [exact H2|].
  intros t Ht.
  replace (MainC.alpha_of 0) with 0
    by (unfold MainC.alpha_of, MainC.EARTH_R; lra).
  now apply c_quarter_arc_off_disk.
Qed.

(** ** The vector helpers of main.c *)

Ltac c_vec_ring :=
  repeat match goal with v : MainC.Vec |- _ => destruct v end;
  unfold MainC.dot, MainC.cross, MainC.addv, MainC.subv, MainC.scale;
  cbn [MainC.x MainC.y MainC.z]; try ring.

Lemma c_dot_comm a b : MainC.dot a b = MainC.dot b a.
Proof. c_vec_ring. Qed.

Lemma c_dot_addv a b c :
  MainC.dot (MainC.addv a b) c = MainC.dot a c + MainC.dot b c.
Proof. c_vec_ring. Qed.

Lemma c_dot_subv a b c :
  MainC.dot (MainC.subv a b) c = MainC.dot a c - MainC.dot b c.
Proof. c_vec_ring. Qed.

Lemma c_dot_scale a s c : MainC.dot (MainC.scale a s) c = s * MainC.dot a c.
Proof. c_vec_ring. Qed.

Lemma c_dot_cross_l u v : MainC.dot (MainC.cross u v) u = 0.
Proof. c_vec_ring. Qed.

Lemma c_dot_cross_r u v : MainC.dot (MainC.cross u v) v = 0.
Proof. c_vec_ring. Qed.

Lemma c_cross_lagrange u v :
  MainC.dot (MainC.cross u v) (MainC.cross u v)
  = MainC.dot u u * MainC.dot v v - MainC.dot u v * MainC.dot u v.
Proof. c_vec_ring. Qed.

Lemma c_dot_self_nonneg v : 0 <= MainC.dot v v.
Proof. destruct v as [a b c]. unfold MainC.dot. cbn [MainC.x MainC.y MainC.z]. nra. Qed.

Lemma c_dot_self_zero v : MainC.dot v v = 0 -> v = MainC.zero_vec.
Proof.
  destruct v as [a b c]. unfold MainC.dot, MainC.zero_vec.
  cbn [MainC.x MainC.y MainC.z]. intros H.
  assert (a = 0) by nra. assert (b = 0) by nra. assert (c = 0) by nra.
  subst. reflexivity.
Qed.

Lemma c_sph2vec_unit lon lat :
  MainC.dot (MainC.sph2vec lon lat) (MainC.sph2vec lon lat) = 1.
Proof.
  unfold MainC.sph2vec, MainC.dot. cbn [MainC.x MainC.y MainC.z].
  set (a := lon * PI / 180). set (b := lat * PI / 180).
  pose proof (sin2_cos2 a) as Ha. pose proof (sin2_cos2 b) as Hb.
  unfold Rsqr in Ha, Hb.
  replace (cos b * cos a * (cos b * cos a) + cos b * sin a * (cos b * sin a)
           + sin b * sin b)
    with (cos b * cos b * (sin a * sin a + cos a * cos a) + sin b * sin b)
    by ring.
  rewrite Ha. lra.
Qed.

Lemma c_normalize_nonzero v :
  MainC.dot v v <> 0 ->
  MainC.dot (MainC.normalize v) (MainC.normalize v) = 1.
Proof.
  intros Hv. pose proof (c_dot_self_nonneg v) as H0.
  assert (Hpos : 0 < MainC.dot v v) by lra.
  unfold MainC.normalize, MainC.norm.
  pose proof (sqrt_lt_R0 _ Hpos) as Hs.
  destruct (Rlt_dec 0 (sqrt (MainC.dot v v))); [|lra].
  pose proof (sqrt_sqrt (MainC.dot v v) H0) as Hq.
  set (n := sqrt (MainC.dot v v)) in *.
  rewrite c_dot_scale, (c_dot_comm v), c_dot_scale.
  rewrite <- Hq. field. lra.
Qed.

Lemma c_normalize_zero : MainC.normalize MainC.zero_vec = MainC.zero_vec.
Proof.
  unfold MainC.normalize, MainC.norm, MainC.zero_vec, MainC.dot.
  cbn [MainC.x MainC.y MainC.z].
  replace (0 * 0 + 0 * 0 + 0 * 0) with 0 by ring. rewrite sqrt_0.
  destruct (Rlt_dec 0 0); [lra|reflexivity].
Qed.

Lemma c_normalize_idem v :
  MainC.normalize (MainC.normalize v) = MainC.normalize v.
Proof.
  destruct (Req_dec (MainC.dot v v) 0) as [E|E].
  - apply c_dot_self_zero in E. subst. now rewrite !c_normalize_zero.
  - apply c_normalize_unit. now apply c_normalize_nonzero.
Qed.

(** ** The boundary points of two safety circles (main.c, lines 93-124) *)

Lemma c_dot_addv_self a b :
  MainC.dot (MainC.addv a b) (MainC.addv a b)
  = MainC.dot a a + 2 * MainC.dot a b + MainC.dot b b.
Proof. c_vec_ring. Qed.

Lemma c_dot_subv_self a b :
  MainC.dot (MainC.subv a b) (MainC.subv a b)
  = MainC.dot a a - 2 * MainC.dot a b + MainC.dot b b.
Proof. c_vec_ring. Qed.

Lemma c_mid_dot_l k u v :
  MainC.dot (MainC.mkVec (k * (MainC.x u + MainC.x v))
                         (k * (MainC.y u + MainC.y v))
                         (k * (MainC.z u + MainC.z v))) u
  = k * (MainC.dot u u + MainC.dot u v).
Proof. c_vec_ring. Qed.

Lemma c_mid_dot_r k u v :
  MainC.dot (MainC.mkVec (k * (MainC.x u + MainC.x v))
                         (k * (MainC.y u + MainC.y v))
                         (k * (MainC.z u + MainC.z v))) v
  = k * (MainC.dot u v + MainC.dot v v).
Proof. c_vec_ring. Qed.

Lemma c_mid_dot_self k u v :
  MainC.dot (MainC.mkVec (k * (MainC.x u + MainC.x v))
                         (k * (MainC.y u + MainC.y v))
                         (k * (MainC.z u + MainC.z v)))
            (MainC.mkVec (k * (MainC.x u + MainC.x v))
                         (k * (MainC.y u + MainC.y v))
                         (k * (MainC.z u + MainC.z v)))
  = k * k * (MainC.dot u u + 2 * MainC.dot u v + MainC.dot v v).
Proof. c_vec_ring. Qed.

Lemma c_mid_dot_cross k u v :
  MainC.dot (MainC.mkVec (k * (MainC.x u + MainC.x v))
                         (k * (MainC.y u + MainC.y v))
                         (k * (MainC.z u + MainC.z v)))
            (MainC.cross u v) = 0.
Proof. c_vec_ring. Qed.

(** For unit vectors the norm of the cross product is the square root of
    [Delta]; the guard on it (line 113) cannot fire after the guard on
    [Delta] (line 101). *)
Lemma c_cross_norm_unit u v :
  MainC.dot u u = 1 -> MainC.dot v v = 1 ->
  1e-15 <= 1 - MainC.dot u v * MainC.dot u v ->
  1e-15 <= MainC.norm (MainC.cross u v) /\
  MainC.norm (MainC.cross u v) * MainC.norm (MainC.cross u v)
  = 1 - MainC.dot u v * MainC.dot u v.
Proof.
  intros Hu Hv HD. unfold MainC.norm.
  rewrite c_cross_lagrange, Hu, Hv.
  replace (1 * 1 - MainC.dot u v * MainC.dot u v)
    with (1 - MainC.dot u v * MainC.dot u v) by ring.
  set (D := 1 - MainC.dot u v * MainC.dot u v) in *.
  assert (Hq : sqrt D * sqrt D = D) by (apply sqrt_sqrt; lra).
  pose proof (sqrt_pos D) as Hp.
  split; [|exact Hq].
  destruct (Rle_dec 1e-15 (sqrt D)); [assumption|exfalso]. nra.
Qed.

Lemma c_boundary_points_guards cosA alpha u v :
  MainC.dot u u = 1 -> MainC.dot v v = 1 ->
  (MainC.boundary_points cosA alpha u v = []
   <-> (MainC.dot u v < cos (2 * alpha) - 1e-12
        \/ 1 - MainC.dot u v * MainC.dot u v < 1e-15)).
Proof.
  intros Hu Hv. unfold MainC.boundary_points.
  destruct (Rlt_dec (MainC.dot u v) (cos (2 * alpha) - 1e-12)) as [H1|H1].
  { split; [now left|reflexivity]. }
  destruct (Rlt_dec (1 - MainC.dot u v * MainC.dot u v) 1e-15) as [H2|H2].
  { split; [now right|reflexivity]. }
  destruct (c_cross_norm_unit u v Hu Hv) as [Hn _]; [lra|].
  destruct (Rlt_dec (MainC.norm (MainC.cross u v)) 1e-15); [lra|].
  split; [discriminate|]. intros [H|H]; lra.
Qed.

Lemma c_boundary_points_on_circles alpha u v :
  MainC.dot u u = 1 -> MainC.dot v v = 1 ->
  1e-15 <= 1 - MainC.dot u v * MainC.dot u v ->
  cos (2 * alpha) <= MainC.dot u v ->
  exists i1 i2,
    MainC.boundary_points (cos alpha) alpha u v = [i1; i2] /\
    (MainC.dot i1 i1 = 1 /\ MainC.dot i1 u = cos alpha
     /\ MainC.dot i1 v = cos alpha) /\
    (MainC.dot i2 i2 = 1 /\ MainC.dot i2 u = cos alpha
     /\ MainC.dot i2 v = cos alpha).
Proof.
  intros Hu Hv HD H2a.
  destruct (c_cross_norm_unit u v Hu Hv HD) as [Hnl Hnn].
  unfold MainC.boundary_points.
  set (c := MainC.dot u v) in *.
  set (D := 1 - c * c) in *.
  destruct (Rlt_dec c (cos (2 * alpha) - 1e-12)); [lra|].
  destruct (Rlt_dec D 1e-15); [lra|].
  set (nl := MainC.norm (MainC.cross u v)) in *.
  destruct (Rlt_dec nl 1e-15); [lra|].
  assert (Hc : -1 < c < 1) by (unfold D in HD; split; nra).
  set (k := cos alpha * (1 - c) / D).
  assert (Hk : k * (1 + c) = cos alpha).
  { unfold k, D in *. field. lra. }
  set (p := MainC.mkVec (k * (MainC.x u + MainC.x v))
                        (k * (MainC.y u + MainC.y v))
                        (k * (MainC.z u + MainC.z v))).
  assert (Hpu : MainC.dot p u = cos alpha).
  { unfold p. rewrite c_mid_dot_l, Hu. fold c. exact Hk. }
  assert (Hpv : MainC.dot p v = cos alpha).
  { unfold p. rewrite c_mid_dot_r, Hv. fold c. rewrite <- Hk. ring. }
  assert (Hpp : MainC.dot p p = 2 * k * cos alpha).
  { unfold p. rewrite c_mid_dot_self, Hu, Hv. fold c. rewrite <- Hk. ring. }
  assert (Hpn : MainC.dot p (MainC.cross u v) = 0)
    by (unfold p; apply c_mid_dot_cross).
  assert (Hcos : 2 * cos alpha * cos alpha <= 1 + c).
  { rewrite cos_2a_cos in H2a. lra. }
  assert (Hp1 : MainC.dot p p <= 1).
  { rewrite Hpp. apply Rmult_le_reg_r with (1 + c); [lra|].
    replace (2 * k * cos alpha * (1 + c))
      with (2 * (k * (1 + c)) * cos alpha) by ring.
    rewrite Hk. lra. }
  destruct (Rlt_dec (1 - MainC.dot p p) 0); [lra|].
  set (h := sqrt (1 - MainC.dot p p)).
  assert (Hh : h * h = 1 - MainC.dot p p) by (apply sqrt_sqrt; lra).
  set (nn := MainC.scale (MainC.scale (MainC.cross u v) (1 / nl)) h).
  assert (Hnu : MainC.dot nn u = 0).
  { unfold nn. rewrite !c_dot_scale, c_dot_cross_l. ring. }
  assert (Hnv : MainC.dot nn v = 0).
  { unfold nn. rewrite !c_dot_scale, c_dot_cross_r. ring. }
  assert (Hpnn : MainC.dot p nn = 0).
  { rewrite c_dot_comm. unfold nn.
    rewrite !c_dot_scale, (c_dot_comm _ p), Hpn. ring. }
  assert (Hnn2 : MainC.dot nn nn = 1 - MainC.dot p p).
  { unfold nn.
    rewrite !c_dot_scale, (c_dot_comm (MainC.cross u v)), !c_dot_scale.
    rewrite c_cross_lagrange, Hu, Hv. fold c.
    replace (1 * 1 - c * c) with D by (unfold D; ring).
    rewrite <- Hh, <- Hnn. field. lra. }
  assert (H1 : MainC.dot (MainC.addv p nn) (MainC.addv p nn) = 1)
    by (rewrite c_dot_addv_self, Hpnn, Hnn2; ring).
  assert (H2 : MainC.dot (MainC.subv p nn) (MainC.subv p nn) = 1)
    by (rewrite c_dot_subv_self, Hpnn, Hnn2; ring).
  exists (MainC.addv p nn), (MainC.subv p nn).
  rewrite !c_normalize_unit by assumption.
  split; [reflexivity|]. split; (split; [assumption|]); split.
  - rewrite c_dot_addv, Hpu, Hnu. ring.
  - rewrite c_dot_addv, Hpv, Hnv. ring.
  - rewrite c_dot_subv, Hpu, Hnu. ring.
  - rewrite c_dot_subv, Hpv, Hnv. ring.
Qed.

(** ** The interval of one airport (main.c, lines 149-192) *)

Lemma atan_nonpos a : a <= 0 -> atan a <= 0.
Proof.
  intros [H|H].
  - pose proof (atan_increasing a 0 H) as Hi. rewrite atan_0 in Hi. lra.
  - subst. rewrite atan_0. lra.
Qed.

Lemma atan_nonneg a : 0 <= a -> 0 <= atan a.
Proof.
  intros [H|H].
  - pose proof (atan_increasing 0 a H) as Hi. rewrite atan_0 in Hi. lra.
  - subst. rewrite atan_0. lra.
Qed.

Lemma atan2_range y0 x0 : - PI < atan2 y0 x0 <= PI.
Proof.
  pose proof PI_RGT_0 as HP. unfold atan2.
  destruct (Rlt_dec 0 x0) as [Hx|Hx].
  { pose proof (atan_bound (y0 / x0)). lra. }
  destruct (Rlt_dec x0 0) as [Hx'|Hx'].
  - assert (Hi : / x0 < 0) by now apply Rinv_lt_0_compat.
    destruct (Rle_dec 0 y0) as [Hy|Hy].
    + assert (y0 / x0 <= 0) by (unfold Rdiv; nra).
      pose proof (atan_nonpos _ H). pose proof (atan_bound (y0 / x0)). lra.
    + assert (0 < y0 / x0) by (unfold Rdiv; nra).
      pose proof (atan_increasing _ _ H) as Hi'. rewrite atan_0 in Hi'.
      pose proof (atan_bound (y0 / x0)). lra.
  - destruct (Rlt_dec 0 y0); [lra|]. destruct (Rlt_dec y0 0); lra.
Qed.

Lemma sqrt_sum_sqr_factor x0 y0 :
  x0 <> 0 ->
  sqrt (x0 * x0 + y0 * y0) = Rabs x0 * sqrt (1 + (y0 / x0)²).
Proof.
  intros Hx.
  replace (x0 * x0 + y0 * y0) with (x0² * (1 + (y0 / x0)²))
    by (unfold Rsqr; field; exact Hx).
  rewrite sqrt_mult.
  - now rewrite sqrt_Rsqr_abs.
  - apply Rle_0_sqr.
  - pose proof (Rle_0_sqr (y0 / x0)). lra.
Qed.

(** [atan2 y x] is the angle of the point [(x, y)]. *)
Lemma atan2_polar y0 x0 :
  0 < sqrt (x0 * x0 + y0 * y0) ->
  sqrt (x0 * x0 + y0 * y0) * cos (atan2 y0 x0) = x0 /\
  sqrt (x0 * x0 + y0 * y0) * sin (atan2 y0 x0) = y0.
Proof.
  intros Hr. unfold atan2.
  assert (Hq : forall a, 0 < sqrt (1 + a²)).
  { intros a. apply sqrt_lt_R0. pose proof (Rle_0_sqr a). lra. }
  destruct (Rlt_dec 0 x0) as [Hx|Hx].
  { rewrite sqrt_sum_sqr_factor by lra. rewrite Rabs_right by lra.
    rewrite cos_atan, sin_atan. pose proof (Hq (y0 / x0)).
    split; field; lra. }
  destruct (Rlt_dec x0 0) as [Hx'|Hx'].
  - rewrite sqrt_sum_sqr_factor by lra. rewrite Rabs_left by lra.
    pose proof (Hq (y0 / x0)).
    destruct (Rle_dec 0 y0).
    + rewrite neg_cos, neg_sin, cos_atan, sin_atan. split; field; lra.
    + unfold Rminus. rewrite cos_plus, sin_plus, cos_neg, sin_neg.
      rewrite cos_PI, sin_PI, cos_atan, sin_atan. split; field; lra.
  - assert (x0 = 0) by lra. subst x0.
    replace (0 * 0 + y0 * y0) with (y0²) in * by (unfold Rsqr; ring).
    rewrite sqrt_Rsqr_abs in *.
    destruct (Rlt_dec 0 y0).
    + rewrite Rabs_right by lra. rewrite cos_PI2, sin_PI2. lra.
    + destruct (Rlt_dec y0 0).
      * rewrite Rabs_left by lra. rewrite cos_neg, sin_neg, cos_PI2, sin_PI2.
        lra.
      * assert (y0 = 0) by lra. subst. rewrite Rabs_R0 in Hr. lra.
Qed.

(** Where the cosine is at least [cos delta], on [[-PI, 2 PI]]. *)
Lemma cos_ge_iff a delta :
  - PI <= a <= 2 * PI -> 0 <= delta <= PI ->
  (cos delta <= cos a <-> (- delta <= a <= delta) \/ 2 * PI - delta <= a).
Proof.
  intros [Ha0 Ha1] [Hd0 Hd1]. pose proof PI_RGT_0 as HP.
  destruct (Rle_dec 0 a) as [H0|H0].
  - destruct (Rle_dec a PI) as [H1|H1].
    + split.
      * intros H. left. split; [lra|]. apply cos_decr_0; lra.
      * intros [[_ H]|H].
        -- apply cos_decr_1; lra.
        -- apply cos_decr_1; lra.
    + assert (E : cos a = cos (2 * PI - a)).
      { replace (2 * PI - a) with (- a + 2 * PI) by ring.
        rewrite cos_plus, cos_2PI, sin_2PI, cos_neg. ring. }
      rewrite E. split.
      * intros H. right.
        assert (2 * PI - a <= delta) by (apply cos_decr_0; lra). lra.
      * intros [[_ H]|H]; [lra|]. apply cos_decr_1; lra.
  - rewrite <- (cos_neg a). split.
    + intros H. left. split; [|lra].
      assert (- a <= delta) by (apply cos_decr_0; lra). lra.
    + intros [[H _]|H]; [|lra]. apply cos_decr_1; lra.
Qed.

Lemma c_wrap_range t :
  - 2 * PI <= t <= 2 * PI ->
  0 <= MainC.normalize_angle t <= 2 * PI /\
  (MainC.normalize_angle t = t \/ MainC.normalize_angle t = t + 2 * PI).
Proof.
  intros [H0 H1]. pose proof PI_RGT_0 as HP.
  unfold MainC.normalize_angle, MainC.wrap_fuel. simpl.
  destruct (Rlt_dec t 0).
  - destruct (Rlt_dec (t + 2 * PI) 0); [lra|].
    destruct (Rgt_dec (t + 2 * PI) (2 * PI)); [lra|].
    split; [lra|now right].
  - destruct (Rgt_dec t (2 * PI)); [lra|]. split; [lra|now left].
Qed.

Lemma c_wrap_neg t : t < 0 -> - 2 * PI <= t ->
                     MainC.normalize_angle t = t + 2 * PI.
Proof.
  intros H0 H1. pose proof PI_RGT_0 as HP.
  unfold MainC.normalize_angle, MainC.wrap_fuel. simpl.
  destruct (Rlt_dec t 0); [|lra].
  destruct (Rlt_dec (t + 2 * PI) 0); [lra|].
  destruct (Rgt_dec (t + 2 * PI) (2 * PI)); [lra|]. reflexivity.
Qed.

(** Every interval appended lies in the arc's range, and an airport
    appends at most two. *)
Lemma c_coverage_shape abU abW Ai cosA theta :
  0 <= theta ->
  (length (MainC.coverage abU abW Ai cosA theta) <= 2)%nat /\
  forall iv, In iv (MainC.coverage abU abW Ai cosA theta) ->
             0 <= fst iv /\ fst iv <= snd iv /\ snd iv <= theta.
Proof.
  intros Ht. pose proof PI_RGT_0 as HP. unfold MainC.coverage.
  destruct (Rlt_dec _ 1e-15); [split; [simpl; lia|intros ? []]|].
  destruct (Rlt_dec _ cosA); [split; [simpl; lia|intros ? []]|].
  unfold acos_nan.
  destruct (Rle_dec (-1) _); [|split; [simpl; lia|intros ? []]].
  destruct (Rle_dec _ 1); [|split; [simpl; lia|intros ? []]].
  set (phi := atan2 _ _). set (delta := acos _).
  pose proof (atan2_range (MainC.dot abW Ai) (MainC.dot abU Ai)) as Hphi.
  fold phi in Hphi.
  pose proof (acos_bound (cosA / sqrt (MainC.dot abU Ai * MainC.dot abU Ai
                                       + MainC.dot abW Ai * MainC.dot abW Ai)))
    as Hd. fold delta in Hd.
  destruct (c_wrap_range (phi - delta)) as [H1 _]; [lra|].
  destruct (c_wrap_range (phi + delta)) as [H2 _]; [lra|].
  set (t1 := MainC.normalize_angle (phi - delta)) in *.
  set (t2 := MainC.normalize_angle (phi + delta)) in *.
  destruct (Rle_dec t1 t2).
  - destruct (Rlt_dec t2 0); [split; [simpl; lia|intros ? []]|].
    destruct (Rgt_dec t1 theta); [split; [simpl; lia|intros ? []]|].
    split; [simpl; lia|]. intros iv [<-|[]]. simpl.
    unfold Rmax, Rmin. destruct (Rle_dec 0 t1), (Rle_dec theta t2); lra.
  - split.
    + rewrite length_app.
      destruct (Rle_dec t1 theta), (Rge_dec t2 0);
        try destruct (Rgt_dec _ _); simpl; lia.
    + intros iv H. apply in_app_or in H. destruct H as [H|H].
      * destruct (Rle_dec t1 theta); [|destruct H].
        destruct H as [<-|[]]. simpl. lra.
      * destruct (Rge_dec t2 0); [|destruct H].
        destruct (Rgt_dec _ _) as [Hg|Hg]; [|destruct H].
        destruct H as [<-|[]]. simpl. revert Hg. unfold Rmax, Rmin.
        destruct (Rle_dec 0 0), (Rle_dec theta t2); lra.
Qed.

Lemma c_gather_length airports cosA a b theta :
  0 <= theta ->
  (length (MainC.gather airports cosA a b theta) <= 2 * length airports)%nat.
Proof.
  intros Ht. unfold MainC.gather.
  induction airports as [|Ai l IH]; simpl; [lia|].
  rewrite length_app.
  destruct (c_coverage_shape a (MainC.basis_W a b theta) Ai cosA theta Ht)
    as [H _]. lia.
Qed.

Lemma c_lincomb_le_Rv du dw t :
  du * cos t + dw * sin t <= sqrt (du * du + dw * dw).
Proof.
  pose proof (sin2_cos2 t) as Hsc. unfold Rsqr in Hsc.
  assert (H0 : 0 <= du * du + dw * dw) by nra.
  pose proof (sqrt_sqrt _ H0) as Hq. pose proof (sqrt_pos (du * du + dw * dw)).
  set (r := sqrt (du * du + dw * dw)) in *.
  destruct (Rle_dec (du * cos t + dw * sin t) r); [assumption|exfalso].
  assert (Hsq : (du * cos t + dw * sin t) * (du * cos t + dw * sin t)
                <= du * du + dw * dw).
  { assert (E : (du * cos t + dw * sin t) * (du * cos t + dw * sin t)
                = (du * du + dw * dw) * (sin t * sin t + cos t * cos t)
                  - (du * sin t - dw * cos t) * (du * sin t - dw * cos t))
      by ring.
    rewrite Hsc in E.
    pose proof (Rle_0_sqr (du * sin t - dw * cos t)) as Hs. unfold Rsqr in Hs.
    lra. }
  assert (Hlt : r < du * cos t + dw * sin t) by lra.
  assert (r * r < (du * cos t + dw * sin t) * (du * cos t + dw * sin t))
    by (apply Rmult_le_0_lt_compat; lra).
  lra.
Qed.

Ltac c_pick_interval :=
  first
    [ eexists; split; [left; reflexivity|];
      cbn [fst snd]; unfold Rmax, Rmin;
      repeat match goal with
             | |- context [Rle_dec ?a ?b] => destruct (Rle_dec a b)
             end; lra
    | eexists; split; [right; left; reflexivity|];
      cbn [fst snd]; unfold Rmax, Rmin;
      repeat match goal with
             | |- context [Rle_dec ?a ?b] => destruct (Rle_dec a b)
             end; lra ].

Ltac c_from_interval H :=
  let iv := fresh "iv" in
  let Hin := fresh "Hin" in
  let Hb := fresh "Hb" in
  destruct H as [iv [Hin Hb]]; cbn [In app] in Hin;
  repeat (destruct Hin as [Hin|Hin]; [subst iv|]); try contradiction;
  cbn [fst snd] in Hb; unfold Rmax, Rmin in Hb;
  repeat match type of Hb with
         | context [Rle_dec ?a ?b] => destruct (Rle_dec a b)
         end; lra.

(** The intervals appended for one airport are the solutions of
    [du * cos t + dw * sin t >= cosA] in the arc's range. *)
Lemma c_coverage_solves abU abW Ai cosA theta t :
  1e-15 <= cosA -> 0 <= theta <= PI -> 0 <= t <= theta ->
  ((exists iv, In iv (MainC.coverage abU abW Ai cosA theta)
               /\ fst iv <= t <= snd iv) ->
   cosA <= MainC.dot abU Ai * cos t + MainC.dot abW Ai * sin t) /\
  (cosA <= MainC.dot abU Ai * cos t + MainC.dot abW Ai * sin t -> 0 < t ->
   exists iv, In iv (MainC.coverage abU abW Ai cosA theta)
              /\ fst iv <= t <= snd iv).
Proof.
  intros HA Hth Ht. pose proof PI_RGT_0 as HP.
  unfold MainC.coverage.
  set (du := MainC.dot abU Ai). set (dw := MainC.dot abW Ai).
  pose proof (c_lincomb_le_Rv du dw t) as Hle.
  set (Rv := sqrt (du * du + dw * dw)) in *.
  destruct (Rlt_dec Rv 1e-15).
  { split; [intros [iv [[] _]]|intros; lra]. }
  destruct (Rlt_dec Rv cosA).
  { split; [intros [iv [[] _]]|intros; lra]. }
  assert (HRv : 0 < Rv) by lra.
  assert (Hq : 0 < cosA / Rv <= 1).
  { split; [apply Rdiv_lt_0_compat; lra|].
    apply Rmult_le_reg_r with Rv; [lra|].
    unfold Rdiv. rewrite Rmult_assoc, Rinv_l by lra. lra. }
  unfold acos_nan.
  destruct (Rle_dec (-1) (cosA / Rv)); [|lra].
  destruct (Rle_dec (cosA / Rv) 1); [|lra].
  set (delta := acos (cosA / Rv)).
  assert (Hcd : cos delta = cosA / Rv) by (apply cos_acos; lra).
  pose proof (acos_bound (cosA / Rv)) as Hdb. fold delta in Hdb.
  assert (Hd2 : delta <= PI / 2).
  { apply cos_decr_0; try lra. rewrite cos_PI2, Hcd. lra. }
  set (phi := atan2 dw du).
  pose proof (atan2_range dw du) as Hphi. fold phi in Hphi.
  destruct (atan2_polar dw du HRv) as [Hpc Hps]. fold Rv phi in Hpc, Hps.
  assert (Hexpr : du * cos t + dw * sin t = Rv * cos (t - phi)).
  { rewrite cos_minus, <- Hpc at 1. rewrite <- Hps at 1. ring. }
  assert (Htruth : cosA <= du * cos t + dw * sin t
                   <-> (phi - delta <= t <= phi + delta)
                       \/ phi - delta + 2 * PI <= t).
  { rewrite Hexpr.
    assert (Hc : cosA <= Rv * cos (t - phi) <-> cos delta <= cos (t - phi)).
    { rewrite Hcd. split; intros H.
      - apply Rmult_le_reg_r with Rv; [lra|].
        unfold Rdiv. rewrite Rmult_assoc, Rinv_l by lra. lra.
      - apply Rmult_le_compat_r with (r := Rv) in H; [|lra].
        unfold Rdiv in H. rewrite Rmult_assoc, Rinv_l in H by lra. lra. }
    rewrite Hc, cos_ge_iff by lra.
    split; intros [H|H]; [left|right|left|right]; lra. }
  rewrite Htruth. clear Htruth Hexpr Hle Hpc Hps Hcd.
  assert (E1 : MainC.normalize_angle (phi - delta)
               = if Rlt_dec (phi - delta) 0 then phi - delta + 2 * PI
                 else phi - delta).
  { destruct (Rlt_dec (phi - delta) 0);
      [apply c_wrap_neg|apply c_normalize_angle_id]; lra. }
  assert (E2 : MainC.normalize_angle (phi + delta)
               = if Rlt_dec (phi + delta) 0 then phi + delta + 2 * PI
                 else phi + delta).
  { destruct (Rlt_dec (phi + delta) 0);
      [apply c_wrap_neg|apply c_normalize_angle_id]; lra. }
  rewrite E1, E2. clear E1 E2. unfold Rmax, Rmin.
  destruct (Rlt_dec (phi - delta) 0), (Rlt_dec (phi + delta) 0); try lra;
    repeat match goal with
           | |- context [Rle_dec ?a ?b] => destruct (Rle_dec a b)
           | |- context [Rlt_dec ?a ?b] => destruct (Rlt_dec a b)
           | |- context [Rgt_dec ?a ?b] => destruct (Rgt_dec a b)
           | |- context [Rge_dec ?a ?b] => destruct (Rge_dec a b)
           end; try lra;
    (split;
     [ intros H; c_from_interval H
     | intros [H|H] Hpos; first [lra | c_pick_interval] ]).
Qed.

(** ** What the sweep decides *)

Section SortBy.
Context {T : Type} (leb : T -> T -> bool).
Hypothesis leb_total : forall a b, leb a b = false -> leb b a = true.
Hypothesis leb_trans :
  forall a b c, leb a b = true -> leb b c = true -> leb a c = true.

Lemma insert_by_sorted a l :
  StronglySorted (fun p q => leb p q = true) l ->
  StronglySorted (fun p q => leb p q = true) (insert_by leb a l).
Proof.
  induction l as [|b l IH]; intros Hs; simpl.
  - constructor; [constructor|constructor].
  - inversion Hs as [|? ? Hl Hb]; subst.
    destruct (leb a b) eqn:E.
    + constructor; [exact Hs|]. constructor; [exact E|].
      rewrite Forall_forall in Hb |- *. intros q Hq.
      apply leb_trans with b; [exact E|now apply Hb].
    + constructor; [now apply IH|].
      rewrite Forall_forall in Hb |- *. intros q Hq.
      apply insert_by_In in Hq. destruct Hq as [->|Hq].
      * now apply leb_total.
      * now apply Hb.
Qed.

Lemma sort_by_sorted l :
  StronglySorted (fun p q => leb p q = true) (sort_by leb l).
Proof.
  induction l as [|a l IH]; simpl; [constructor|].
  now apply insert_by_sorted.
Qed.
End SortBy.

Lemma c_sorted_by_start ivs :
  StronglySorted (fun p q : R * R => fst p <= fst q)
                 (sort_by MainC.compare_intervals ivs).
Proof.
  assert (H : StronglySorted
                (fun p q => MainC.compare_intervals p q = true)
                (sort_by MainC.compare_intervals ivs)).
  { apply sort_by_sorted; unfold MainC.compare_intervals.
    - intros a b H. apply Rleb_false in H. apply Rleb_true. lra.
    - intros a b c H1 H2. apply Rleb_true in H1, H2. apply Rleb_true. lra. }
  induction H as [|a l Hl IH Ha]; constructor; [exact IH|].
  rewrite Forall_forall in Ha |- *. intros q Hq.
  apply Rleb_true. now apply Ha.
Qed.

Lemma cpp_sorted_by_start ivs :
  StronglySorted (fun p q : R * R => fst p <= fst q)
                 (sort_by MainCpp.pair_leb ivs).
Proof.
  assert (H : StronglySorted (fun p q => MainCpp.pair_leb p q = true)
                             (sort_by MainCpp.pair_leb ivs)).
  { apply sort_by_sorted; unfold MainCpp.pair_leb.
    - intros a b.
      destruct (Rlt_dec (fst a) (fst b)); [discriminate|].
      destruct (Rlt_dec (fst b) (fst a)); [reflexivity|].
      intros H. apply Rleb_false in H. apply Rleb_true. lra.
    - intros a b c.
      destruct (Rlt_dec (fst a) (fst b)), (Rlt_dec (fst b) (fst c)),
        (Rlt_dec (fst a) (fst c)), (Rlt_dec (fst b) (fst a)),
        (Rlt_dec (fst c) (fst b)), (Rlt_dec (fst c) (fst a));
        try discriminate; try reflexivity; try lra;
        intros H1 H2; apply Rleb_true in H1, H2; apply Rleb_true; lra. }
  induction H as [|a l Hl IH Ha]; constructor; [exact IH|].
  rewrite Forall_forall in Ha |- *. intros q Hq.
  specialize (Ha q Hq). unfold MainCpp.pair_leb in Ha.
  destruct (Rlt_dec (fst a) (fst q)); [lra|].
  destruct (Rlt_dec (fst q) (fst a)); [discriminate|lra].
Qed.

(** A sweep that succeeds leaves no parameter further than the
    tolerance from the intervals. *)
Lemma sweep_spec_sound tol theta l :
  0 <= tol ->
  forall reach,
    sweep_spec tol theta reach l = true ->
    forall t, reach + tol < t <= theta ->
              exists iv, In iv l /\ fst iv - tol <= t <= snd iv + tol.
Proof.
  intros Htol.
  induction l as [|iv l IH]; intros reach Hs t Ht; simpl in Hs.
  - apply Rleb_true in Hs. lra.
  - destruct (Rle_dec (fst iv) (reach + tol)); [|discriminate].
    destruct (Rle_dec t (snd iv + tol)).
    + exists iv. split; [now left|lra].
    + destruct (IH _ Hs t) as [iv' [Hin Hb]].
      * unfold Rmax. destruct (Rle_dec reach (snd iv)); lra.
      * exists iv'. split; [now right|exact Hb].
Qed.

Lemma covers_spec_sound tol theta l :
  0 <= tol ->
  (forall iv, In iv l -> 0 <= snd iv) ->
  covers_spec tol theta l = true ->
  forall t, 0 <= t <= theta ->
            exists iv, In iv l /\ fst iv - tol <= t <= snd iv + tol.
Proof.
  intros Htol Hl Hc t Ht. destruct l as [|iv l]; [discriminate|].
  unfold covers_spec in Hc.
  destruct (Rlt_dec (0 + tol) t) as [Hlt|Hge].
  - apply (sweep_spec_sound tol theta (iv :: l) Htol 0 Hc). lra.
  - simpl in Hc. destruct (Rle_dec (fst iv) (0 + tol)); [|discriminate].
    exists iv. split; [now left|].
    assert (0 <= snd iv) by (apply Hl; now left). lra.
Qed.

(** Sorted intervals that leave no parameter uncovered pass the sweep. *)
Lemma sweep_spec_complete tol theta l :
  0 < tol ->
  StronglySorted (fun p q : R * R => fst p <= fst q) l ->
  (forall iv, In iv l -> fst iv <= theta) ->
  forall reach,
    (forall t, reach < t <= theta ->
               exists iv, In iv l /\ fst iv <= t <= snd iv) ->
    sweep_spec tol theta reach l = true.
Proof.
  intros Htol Hs. induction Hs as [|iv l Hs IH Hhd]; intros Hl reach Hc; simpl.
  - apply Rleb_true. destruct (Rle_dec theta reach); [lra|].
    destruct (Hc theta) as [iv [[] _]]. lra.
  - assert (Hiv : fst iv <= theta) by (apply Hl; now left).
    rewrite Forall_forall in Hhd.
    destruct (Rle_dec (fst iv) (reach + tol)) as [Hle|Hgap].
    + apply IH; [intros; apply Hl; now right|].
      intros t Ht.
      assert (Hr : reach <= Rmax reach (snd iv)) by apply Rmax_l.
      assert (Hr' : snd iv <= Rmax reach (snd iv)) by apply Rmax_r.
      destruct (Hc t) as [iv' [[<-|Hin] Hb]]; [lra|lra|].
      exists iv'. split; assumption.
    + exfalso. destruct (Hc (reach + tol)) as [iv' [[<-|Hin] Hb]]; [lra|lra|].
      specialize (Hhd iv' Hin). lra.
Qed.

Lemma covers_spec_complete tol theta l :
  0 < tol -> 0 < theta ->
  StronglySorted (fun p q : R * R => fst p <= fst q) l ->
  (forall iv, In iv l -> fst iv <= theta) ->
  (forall t, 0 < t <= theta -> exists iv, In iv l /\ fst iv <= t <= snd iv) ->
  covers_spec tol theta l = true.
Proof.
  intros Htol Hth Hs Hl Hc. unfold covers_spec.
  destruct l as [|iv l].
  - destruct (Hc theta) as [iv [[] _]]. lra.
  - now apply sweep_spec_complete.
Qed.

(** ** The direct edges of main.c and the curve it sweeps *)

Lemma c_curve_dot a b t Ai :
  MainC.dot (c_curve a b t) Ai
  = MainC.dot a Ai * cos t
    + MainC.dot (MainC.basis_W a b (MainC.theta_of a b)) Ai * sin t.
Proof.
  unfold c_curve. rewrite c_dot_addv, !c_dot_scale. ring.
Qed.

Lemma c_direct_cases airports cosA a b :
  (MainC.theta_of a b < 1e-12 /\ MainC.direct airports cosA a b = MainC.INF)
  \/ (1e-12 <= MainC.theta_of a b /\
      MainC.direct airports cosA a b
      = if covers_spec 1e-12 (MainC.theta_of a b)
             (sort_by MainC.compare_intervals
                (MainC.gather airports cosA a b (MainC.theta_of a b)))
        then MainC.theta_of a b * MainC.EARTH_R else MainC.INF).
Proof.
  pose proof (c_theta_bounds a b) as [Ht0 Ht1].
  unfold MainC.direct, MainC.arc_edge.
  destruct (Rlt_dec (MainC.theta_of a b) 1e-12); [left; now split|].
  right. split; [lra|].
  rewrite c_covered_spec; [reflexivity|].
  intros iv Hiv. eapply c_gather_starts; eassumption.
Qed.

Lemma c_direct_complete airports cosA a b :
  1e-15 <= cosA -> 1e-12 <= MainC.theta_of a b ->
  (forall t, 0 < t <= MainC.theta_of a b -> c_curve_safe airports cosA a b t) ->
  MainC.direct airports cosA a b = MainC.theta_of a b * MainC.EARTH_R.
Proof.
  intros HA Hth Hsafe. pose proof (c_theta_bounds a b) as [Ht0 Ht1].
  destruct (c_direct_cases airports cosA a b) as [[H _]|[_ ->]]; [lra|].
  rewrite covers_spec_complete; try lra.
  - apply c_sorted_by_start.
  - intros iv Hiv. apply sort_by_In in Hiv.
    eapply c_gather_starts; eassumption.
  - intros t Ht. destruct (Hsafe t Ht) as [Ai [HAi Hdot]].
    rewrite c_curve_dot in Hdot.
    destruct (c_coverage_solves a (MainC.basis_W a b (MainC.theta_of a b)) Ai
                cosA (MainC.theta_of a b) t HA) as [_ Hc]; try lra.
    destruct (Hc Hdot) as [iv [Hin Hb]]; [lra|].
    exists iv. split; [|exact Hb]. apply sort_by_In.
    unfold MainC.gather. apply in_flat_map. exists Ai. now split.
Qed.

Lemma c_direct_sound airports cosA a b t :
  1e-15 <= cosA ->
  MainC.direct airports cosA a b < MainC.INF ->
  0 <= t <= MainC.theta_of a b ->
  exists t', 0 <= t' <= MainC.theta_of a b /\ Rabs (t - t') <= 1e-12 /\
             c_curve_safe airports cosA a b t'.
Proof.
  intros HA Hd Ht. pose proof (c_theta_bounds a b) as [Ht0 Ht1].
  destruct (c_direct_cases airports cosA a b) as [[_ H]|[Hth H]]; [lra|].
  rewrite H in Hd.
  destruct (covers_spec 1e-12 (MainC.theta_of a b) _) eqn:Hc; [|lra].
  apply covers_spec_sound with (t := t) in Hc; [|lra| |exact Ht].
  - destruct Hc as [iv [Hin Hb]]. apply sort_by_In in Hin.
    unfold MainC.gather in Hin. apply in_flat_map in Hin.
    destruct Hin as [Ai [HAi Hin]].
    destruct (c_coverage_shape a (MainC.basis_W a b (MainC.theta_of a b)) Ai
                cosA (MainC.theta_of a b) Ht0) as [_ Hsh].
    destruct (Hsh iv Hin) as [H0 [H1 H2]].
    set (t' := Rmax (fst iv) (Rmin t (snd iv))).
    assert (Ht' : fst iv <= t' <= snd iv /\ Rabs (t - t') <= 1e-12).
    { unfold t', Rmax, Rmin, Rabs.
      destruct (Rle_dec t (snd iv));
        [destruct (Rle_dec (fst iv) t)|destruct (Rle_dec (fst iv) (snd iv))];
        destruct (Rcase_abs _); lra. }
    exists t'. split; [lra|]. split; [tauto|].
    exists Ai. split; [exact HAi|]. rewrite c_curve_dot.
    destruct (c_coverage_solves a (MainC.basis_W a b (MainC.theta_of a b)) Ai
                cosA (MainC.theta_of a b) t' HA) as [Hs _]; try lra.
    apply Hs. exists iv. split; [exact Hin|tauto].
  - intros iv Hin. apply sort_by_In in Hin.
    unfold MainC.gather in Hin. apply in_flat_map in Hin.
    destruct Hin as [Ai [_ Hin]].
    destruct (c_coverage_shape a (MainC.basis_W a b (MainC.theta_of a b)) Ai
                cosA (MainC.theta_of a b) Ht0) as [_ Hsh].
    destruct (Hsh iv Hin) as [H0 [H1 H2]]. lra.
Qed.

(** ** [Point::Compare] and the vertex set (main.cpp) *)

Lemma cpp_Compare_asym p q :
  MainCpp.Compare p q = true -> MainCpp.Compare q p = false.
Proof.
  unfold MainCpp.Compare, MainCpp.EPS.
  replace (MainCpp.x q - MainCpp.x p) with (- (MainCpp.x p - MainCpp.x q))
    by ring.
  replace (MainCpp.y q - MainCpp.y p) with (- (MainCpp.y p - MainCpp.y q))
    by ring.
  rewrite !Rabs_Ropp.
  destruct (Rgt_dec (Rabs (MainCpp.x p - MainCpp.x q)) 1e-9).
  { intros H. apply Rltb_true in H. apply Rltb_false. lra. }
  destruct (Rgt_dec (Rabs (MainCpp.y p - MainCpp.y q)) 1e-9).
  { intros H. apply Rltb_true in H. apply Rltb_false. lra. }
  intros H. apply Rltb_true in H. apply Rltb_false. lra.
Qed.

(** Two points are equivalent for the set (neither precedes the other)
    exactly when every coordinate agrees within [EPS]. *)
Lemma cpp_Compare_equiv p q :
  (MainCpp.Compare p q = false /\ MainCpp.Compare q p = false)
  <-> ~ apart p q.
Proof.
  unfold MainCpp.Compare, apart, MainCpp.EPS.
  replace (MainCpp.x q - MainCpp.x p) with (- (MainCpp.x p - MainCpp.x q))
    by ring.
  replace (MainCpp.y q - MainCpp.y p) with (- (MainCpp.y p - MainCpp.y q))
    by ring.
  rewrite !Rabs_Ropp.
  destruct (Rgt_dec (Rabs (MainCpp.x p - MainCpp.x q)) 1e-9) as [Hx|Hx].
  { split; [|tauto]. intros [H1 H2]. exfalso.
    apply Rltb_false in H1, H2.
    assert (E : MainCpp.x p - MainCpp.x q = 0) by lra.
    rewrite E, Rabs_R0 in Hx. lra. }
  destruct (Rgt_dec (Rabs (MainCpp.y p - MainCpp.y q)) 1e-9) as [Hy|Hy].
  { split; [|tauto]. intros [H1 H2]. exfalso.
    apply Rltb_false in H1, H2.
    assert (E : MainCpp.y p - MainCpp.y q = 0) by lra.
    rewrite E, Rabs_R0 in Hy. lra. }
  split.
  - intros [H1 H2]. apply Rltb_false in H1, H2.
    intros [H|[H|H]]; [contradiction|contradiction|].
    revert H. unfold Rabs. destruct (Rcase_abs _); lra.
  - intros H.
    assert (Hz : ~ Rabs (MainCpp.z p - MainCpp.z q) > 1e-9) by tauto.
    revert Hz. unfold Rabs. destruct (Rcase_abs _); intros Hz;
      split; apply Rltb_false; lra.
Qed.

(** The equivalence is not transitive: three points on a line, each
    [0.8 EPS] from the next. *)
Lemma cpp_Compare_equiv_not_transitive :
  exists p q r,
    ~ apart p q /\ ~ apart q r /\ MainCpp.Compare p r = true.
Proof.
  exists (MainCpp.mkPoint 0 0 0), (MainCpp.mkPoint 0 0 8e-10),
    (MainCpp.mkPoint 0 0 16e-10).
  unfold apart, MainCpp.Compare, MainCpp.EPS.
  cbn [MainCpp.x MainCpp.y MainCpp.z].
  replace (0 - 0) with 0 by ring. rewrite Rabs_R0.
  assert (E1 : Rabs (0 - 8e-10) = 8e-10)
    by (unfold Rabs; destruct (Rcase_abs _); lra).
  assert (E2 : Rabs (8e-10 - 16e-10) = 8e-10)
    by (unfold Rabs; destruct (Rcase_abs _); lra).
  rewrite E1, E2. split; [|split].
  - intros [H|[H|H]]; lra.
  - intros [H|[H|H]]; lra.
  - destruct (Rgt_dec 0 1e-9); [lra|]. apply Rltb_true. lra.
Qed.

Lemma cpp_find_vertex_some p vs n :
  MainCpp.find_vertex p vs = Some n ->
  (n < length vs)%nat /\ cpp_equiv p (nth n vs (MainCpp.mkPoint 0 0 0)).
Proof.
  revert n. induction vs as [|q vs IH]; intros n; simpl; [discriminate|].
  destruct (MainCpp.Compare p q) eqn:E1, (MainCpp.Compare q p) eqn:E2; simpl;
    try (destruct (MainCpp.find_vertex p vs) as [m|]; [|discriminate];
         intros H; injection H as <-;
         destruct (IH m eq_refl) as [Hm He]; split; [lia|exact He]).
  intros H. injection H as <-. split; [lia|]. now split.
Qed.

Lemma cpp_find_vertex_finds p vs :
  (exists q, In q vs /\ cpp_equiv p q) ->
  exists n, MainCpp.find_vertex p vs = Some n.
Proof.
  induction vs as [|a vs IH]; intros [q [Hin He]]; [destruct Hin|].
  simpl.
  destruct (MainCpp.Compare p a) eqn:E1, (MainCpp.Compare a p) eqn:E2; simpl;
    try (destruct Hin as [->|Hin];
         [destruct He; congruence|];
         destruct IH as [n Hn]; [exists q; now split|];
         rewrite Hn; now eexists).
  now eexists.
Qed.

Lemma cpp_set_insert_keeps p s a :
  In a s -> In a (MainCpp.set_insert p s).
Proof.
  induction s as [|q s IH]; intros Hin; [destruct Hin|]. simpl.
  destruct (MainCpp.Compare p q); [now right|].
  destruct (MainCpp.Compare q p); [|exact Hin].
  destruct Hin as [->|Hin]; [now left|right; now apply IH].
Qed.

Lemma cpp_set_insert_has p s :
  exists q, In q (MainCpp.set_insert p s) /\ cpp_equiv p q.
Proof.
  induction s as [|q s IH]; simpl.
  - exists p. split; [now left|]. split; apply cpp_Compare_irrefl.
  - destruct (MainCpp.Compare p q) eqn:E1.
    + exists p. split; [now left|]. split; apply cpp_Compare_irrefl.
    + destruct (MainCpp.Compare q p) eqn:E2.
      * destruct IH as [r [Hr He]]. exists r. split; [now right|exact He].
      * exists q. split; [now left|]. now split.
Qed.

Lemma cpp_fold_insert_keeps l s a :
  In a s -> In a (fold_left (fun s p => MainCpp.set_insert p s) l s).
Proof.
  revert s. induction l as [|p l IH]; intros s Hin; simpl; [exact Hin|].
  apply IH. now apply cpp_set_insert_keeps.
Qed.

Lemma cpp_fold_insert_opt_keeps l s a :
  In a s -> In a (fold_left (fun s p => MainCpp.set_insert_opt p s) l s).
Proof.
  revert s. induction l as [|p l IH]; intros s Hin; simpl; [exact Hin|].
  apply IH. destruct p; simpl; [now apply cpp_set_insert_keeps|exact Hin].
Qed.

Lemma cpp_fold_insert_has l s p :
  In p l ->
  exists q, In q (fold_left (fun s p => MainCpp.set_insert p s) l s)
            /\ cpp_equiv p q.
Proof.
  revert s. induction l as [|a l IH]; intros s Hin; [destruct Hin|]. simpl.
  destruct Hin as [->|Hin].
  - destruct (cpp_set_insert_has p s) as [q [Hq He]].
    exists q. split; [|exact He]. now apply cpp_fold_insert_keeps.
  - now apply IH.
Qed.

(** Every airport finds its vertex: the lookup never falls back to the
    default index, and the vertex found agrees with the airport within
    [EPS] in every coordinate. *)
Lemma cpp_airport_vertex airports_xyz R_sphere i :
  (i < length airports_xyz)%nat ->
  let vs := MainCpp.vertices airports_xyz R_sphere in
  let n := MainCpp.airport_to_vertex_idx airports_xyz vs i in
  MainCpp.find_vertex (nth i airports_xyz (MainCpp.mkPoint 0 0 0)) vs = Some n
  /\ (n < length vs)%nat
  /\ ~ apart (nth i airports_xyz (MainCpp.mkPoint 0 0 0))
             (nth n vs (MainCpp.mkPoint 0 0 0)).
Proof.
  intros Hi vs n.
  set (p := nth i airports_xyz (MainCpp.mkPoint 0 0 0)).
  assert (Hp : In p airports_xyz) by (apply nth_In; exact Hi).
  destruct (cpp_fold_insert_has airports_xyz [] p Hp) as [q [Hq He]].
  assert (Hq' : In q vs).
  { unfold vs, MainCpp.vertices. now apply cpp_fold_insert_opt_keeps. }
  destruct (cpp_find_vertex_finds p vs) as [m Hm]; [exists q; now split|].
  assert (En : n = m).
  { unfold n, MainCpp.airport_to_vertex_idx. fold p. now rewrite Hm. }
  rewrite En. destruct (cpp_find_vertex_some p vs m Hm) as [Hlt Heq].
  split; [exact Hm|]. split; [exact Hlt|]. now apply cpp_Compare_equiv.
Qed.

(** ** Merging and scanning the intervals (main.cpp) *)

Lemma cpp_merge_from_gap l :
  forall cur, Sorted cpp_gap (MainCpp.merge_from cur l).
Proof.
  induction l as [|iv l IH]; intros cur; simpl.
  - constructor; constructor.
  - destruct (Rle_dec (fst iv) (snd cur + MainCpp.EPS)) as [H|H].
    + apply IH.
    + constructor; [apply IH|].
      destruct (cpp_merge_from_head iv l) as [E [rest ->]].
      constructor. unfold cpp_gap. simpl. lra.
Qed.

Lemma cpp_merge_from_covers l :
  forall cur,
    StronglySorted (fun p q : R * R => fst p <= fst q) (cur :: l) ->
    forall iv, In iv (cur :: l) ->
               exists m, In m (MainCpp.merge_from cur l)
                         /\ fst m <= fst iv /\ snd iv <= snd m.
Proof.
  induction l as [|iv0 l IH]; intros cur Hs iv Hin.
  - destruct Hin as [<-|[]]. exists cur. simpl. split; [now left|lra].
  - inversion Hs as [|? ? Hl Hhd]; subst.
    inversion Hl as [|? ? Hl' Hhd']; subst.
    rewrite Forall_forall in Hhd, Hhd'.
    simpl. destruct (Rle_dec (fst iv0) (snd cur + MainCpp.EPS)) as [H|H].
    + set (cur' := (fst cur, Rmax (snd cur) (snd iv0))).
      assert (Hs' : StronglySorted (fun p q : R * R => fst p <= fst q)
                                   (cur' :: l)).
      { constructor; [exact Hl'|]. apply Forall_forall. intros q Hq.
        simpl. apply Hhd. now right. }
      assert (Hc : forall iv', In iv' (cur' :: l) ->
                               exists m, In m (MainCpp.merge_from cur' l)
                                         /\ fst m <= fst iv'
                                         /\ snd iv' <= snd m)
        by (apply IH; exact Hs').
      pose proof (Rmax_l (snd cur) (snd iv0)).
      pose proof (Rmax_r (snd cur) (snd iv0)).
      destruct Hin as [<-|[<-|Hin]].
      * destruct (Hc cur') as [m [Hm [Hm1 Hm2]]]; [now left|].
        exists m. split; [exact Hm|]. simpl in *. lra.
      * destruct (Hc cur') as [m [Hm [Hm1 Hm2]]]; [now left|].
        exists m. split; [exact Hm|].
        assert (fst cur <= fst iv0) by (apply Hhd; now left).
        simpl in *. lra.
      * apply Hc. now right.
    + destruct Hin as [<-|Hin].
      * exists cur. split; [now left|lra].
      * destruct (IH iv0 Hl iv Hin) as [m [Hm Hb]].
        exists m. split; [now right|exact Hb].
Qed.

Lemma cpp_merge_from_ends l :
  forall cur m,
    In m (MainCpp.merge_from cur l) ->
    (exists a, In a (cur :: l) /\ fst m = fst a) /\
    (exists b, In b (cur :: l) /\ snd m = snd b).
Proof.
  induction l as [|iv0 l IH]; intros cur m Hin; simpl in Hin.
  - destruct Hin as [<-|[]]. split; exists cur; (split; [now left|reflexivity]).
  - destruct (Rle_dec (fst iv0) (snd cur + MainCpp.EPS)) as [H|H].
    + destruct (IH _ m Hin) as [[a [Ha Ea]] [b [Hb Eb]]]. split.
      * destruct Ha as [<-|Ha].
        -- exists cur. split; [now left|exact Ea].
        -- exists a. split; [right; now right|exact Ea].
      * destruct Hb as [<-|Hb].
        -- simpl in Eb. unfold Rmax in Eb.
           destruct (Rle_dec (snd cur) (snd iv0)).
           ++ exists iv0. split; [right; now left|exact Eb].
           ++ exists cur. split; [now left|exact Eb].
        -- exists b. split; [right; now right|exact Eb].
    + destruct Hin as [<-|Hin].
      * split; exists cur; (split; [now left|reflexivity]).
      * destruct (IH _ m Hin) as [[a [Ha Ea]] [b [Hb Eb]]].
        split; [exists a|exists b]; (split; [now right|assumption]).
Qed.

Lemma cpp_merge_intervals_facts ivs :
  (MainCpp.merge_intervals ivs = [] <-> ivs = []) /\
  Sorted cpp_gap (MainCpp.merge_intervals ivs) /\
  (forall iv, In iv ivs ->
              exists m, In m (MainCpp.merge_intervals ivs)
                        /\ fst m <= fst iv /\ snd iv <= snd m) /\
  (forall m, In m (MainCpp.merge_intervals ivs) ->
             (exists a, In a ivs /\ fst m = fst a) /\
             (exists b, In b ivs /\ snd m = snd b)).
Proof.
  unfold MainCpp.merge_intervals.
  pose proof (cpp_sorted_by_start ivs) as Hs.
  pose proof (sort_by_In MainCpp.pair_leb ivs) as Hin.
  pose proof (sort_by_nil MainCpp.pair_leb ivs) as Hnil.
  destruct (sort_by MainCpp.pair_leb ivs) as [|a l].
  - split; [tauto|]. split; [constructor|]. split.
    + intros iv H. apply Hin in H. destruct H.
    + intros m [].
  - split.
    { split.
      - intros E. destruct (cpp_merge_from_head a l) as [x [rest H]].
        congruence.
      - intros E. apply Hnil in E. discriminate. }
    split; [apply cpp_merge_from_gap|]. split.
    + intros iv H. apply Hin in H. now apply cpp_merge_from_covers.
    + intros m H. destruct (cpp_merge_from_ends l a m H)
        as [[x [Hx Ex]] [y [Hy Ey]]].
      split; [exists x|exists y]; (split; [now apply Hin|assumption]).
Qed.

(** The scan after the merge decides whether the intervals cover
    [[0, 1]]. *)
Lemma cpp_covers_sound ivs :
  (forall iv, In iv ivs -> 0 <= snd iv) ->
  MainCpp.covers ivs = true ->
  forall t, 0 <= t <= 1 ->
            exists iv, In iv ivs /\
                       fst iv - MainCpp.EPS <= t <= snd iv + MainCpp.EPS.
Proof.
  intros Hl Hc t Ht. rewrite cpp_covers_spec in Hc.
  apply covers_spec_sound with (t := t) in Hc.
  - destruct Hc as [iv [Hin Hb]]. exists iv. split; [|exact Hb].
    now apply sort_by_In in Hin.
  - unfold MainCpp.EPS. lra.
  - intros iv Hin. apply Hl. now apply sort_by_In in Hin.
  - exact Ht.
Qed.

Lemma cpp_covers_complete ivs :
  (forall iv, In iv ivs -> fst iv <= 1) ->
  (forall t, 0 < t <= 1 -> exists iv, In iv ivs /\ fst iv <= t <= snd iv) ->
  MainCpp.covers ivs = true.
Proof.
  intros Hl Hc. rewrite cpp_covers_spec.
  apply covers_spec_complete.
  - unfold MainCpp.EPS. lra.
  - lra.
  - apply cpp_sorted_by_start.
  - intros iv Hin. apply Hl. now apply sort_by_In in Hin.
  - intros t Ht. destruct (Hc t Ht) as [iv [Hin Hb]].
    exists iv. split; [|exact Hb]. now apply sort_by_In.
Qed.

(** ** The intervals of one disk (main.cpp, [get_covered_intervals]) *)

Lemma cpp_unique_from_In k l a : In a (MainCpp.unique_from k l) -> In a l.
Proof.
  revert k. induction l as [|b l IH]; intros k; simpl; [tauto|].
  destruct (Rlt_dec _ _).
  - intros H. right. now apply (IH k).
  - intros [<-|H]; [now left|right; now apply (IH b)].
Qed.

Lemma cpp_unique_In l a : In a (MainCpp.unique l) -> In a l.
Proof.
  destruct l as [|b l]; simpl; [tauto|].
  intros [<-|H]; [now left|right; now apply cpp_unique_from_In in H].
Qed.

Lemma cpp_unique_from_sorted k l :
  StronglySorted Rle l -> StronglySorted Rle (MainCpp.unique_from k l).
Proof.
  intros Hs. revert k. induction Hs as [|b l Hl IH Hb]; intros k; simpl.
  - constructor.
  - destruct (Rlt_dec _ _); [apply IH|].
    constructor; [apply IH|].
    rewrite Forall_forall in Hb |- *. intros a Ha.
    apply Hb. now apply cpp_unique_from_In in Ha.
Qed.

Lemma cpp_unique_sorted l :
  StronglySorted Rle l -> StronglySorted Rle (MainCpp.unique l).
Proof.
  intros Hs. destruct Hs as [|b l Hl Hb]; simpl; [constructor|].
  constructor; [now apply cpp_unique_from_sorted|].
  rewrite Forall_forall in Hb |- *. intros a Ha.
  apply Hb. now apply cpp_unique_from_In in Ha.
Qed.

Lemma cpp_sort_Rleb_sorted l : StronglySorted Rle (sort_by Rleb l).
Proof.
  assert (H : StronglySorted (fun p q => Rleb p q = true) (sort_by Rleb l)).
  { apply sort_by_sorted.
    - intros a b H. apply Rleb_false in H. apply Rleb_true. lra.
    - intros a b c H1 H2. apply Rleb_true in H1, H2. apply Rleb_true. lra. }
  induction H as [|a l' Hl IH Ha]; constructor; [exact IH|].
  rewrite Forall_forall in Ha |- *. intros q Hq.
  apply Rleb_true. now apply Ha.
Qed.

Lemma cpp_midpoint_intervals_shape u v k R_sphere angle_uv P :
  StronglySorted Rle P ->
  (forall iv, In iv (MainCpp.midpoint_intervals u v k R_sphere angle_uv P) ->
              In (fst iv) P /\ In (snd iv) P
              /\ fst iv + MainCpp.EPS <= snd iv) /\
  StronglySorted (fun a b : R * R => snd a <= fst b)
                 (MainCpp.midpoint_intervals u v k R_sphere angle_uv P).
Proof.
  intros Hs. induction Hs as [|a P Hl IH Ha].
  - simpl. split; [intros ? []|constructor].
  - destruct P as [|b P'].
    + simpl. split; [intros ? []|constructor].
    + destruct IH as [IH1 IH2].
      change (MainCpp.midpoint_intervals u v k R_sphere angle_uv (a :: b :: P'))
        with (let tail := MainCpp.midpoint_intervals u v k R_sphere angle_uv
                            (b :: P') in
              if Rlt_dec (b - a) MainCpp.EPS then tail
              else if Rle_dec (MainCpp.dist_xyz
                                 (MainCpp.point_at_angle_on_great_circle
                                    u v ((a + b) / 2 * angle_uv)) k)
                              (R_sphere + MainCpp.EPS)
                   then (a, b) :: tail else tail).
      cbv zeta.
      set (tail := MainCpp.midpoint_intervals u v k R_sphere angle_uv (b :: P'))
        in *.
      assert (Htail : forall iv, In iv tail ->
                                 In (fst iv) (a :: b :: P')
                                 /\ In (snd iv) (a :: b :: P')
                                 /\ fst iv + MainCpp.EPS <= snd iv).
      { intros iv Hiv. destruct (IH1 iv Hiv) as [H1 [H2 H3]].
        split; [now right|]. split; [now right|exact H3]. }
      destruct (Rlt_dec (b - a) MainCpp.EPS) as [Hd|Hd];
        [split; assumption|].
      destruct (Rle_dec _ _); [|split; assumption].
      split.
      * intros iv [<-|Hiv]; [|now apply Htail].
        simpl. split; [now left|]. split; [right; now left|lra].
      * constructor; [exact IH2|].
        apply Forall_forall. intros iv Hiv. simpl.
        destruct (IH1 iv Hiv) as [H1 _].
        inversion Hl as [|? ? _ Hb]; subst.
        rewrite Forall_forall in Hb.
        destruct H1 as [<-|H1]; [lra|]. now apply Hb.
Qed.

Lemma cpp_get_arc_parameter_nonneg u v p :
  0 <= MainCpp.get_arc_parameter u v p.
Proof.
  unfold MainCpp.get_arc_parameter.
  destruct (Rlt_dec _ _) as [|Hd]; [lra|].
  pose proof (cpp_dist_xyz_bounds u p) as [H0 _].
  apply Rmult_le_pos; [exact H0|].
  left. apply Rinv_0_lt_compat. unfold MainCpp.EPS in Hd. lra.
Qed.

(** The intervals returned for one disk start at or after 0, are at
    least [EPS] long, and follow one another without overlap. *)
Lemma cpp_get_covered_intervals_shape u v k R_sphere :
  (forall iv, In iv (MainCpp.get_covered_intervals u v k R_sphere) ->
              0 <= fst iv /\ fst iv + MainCpp.EPS <= snd iv) /\
  StronglySorted (fun a b : R * R => snd a <= fst b)
                 (MainCpp.get_covered_intervals u v k R_sphere).
Proof.
  assert (Hone : (forall iv, In iv [(0, 1)] ->
                             0 <= fst iv /\ fst iv + MainCpp.EPS <= snd iv) /\
                 StronglySorted (fun a b : R * R => snd a <= fst b) [(0, 1)]).
  { split.
    - intros iv [<-|[]]. simpl. unfold MainCpp.EPS. lra.
    - constructor; constructor. }
  assert (Hnil : (forall iv, In iv (@nil (R * R)) ->
                             0 <= fst iv /\ fst iv + MainCpp.EPS <= snd iv) /\
                 StronglySorted (fun a b : R * R => snd a <= fst b) []).
  { split; [intros ? []|constructor]. }
  assert (Hfin : forall params ang,
             (forall a, In a params -> 0 <= a) ->
             (forall iv, In iv (MainCpp.midpoint_intervals u v k R_sphere ang
                                  (MainCpp.unique (sort_by Rleb params))) ->
                         0 <= fst iv /\ fst iv + MainCpp.EPS <= snd iv) /\
             StronglySorted (fun a b : R * R => snd a <= fst b)
               (MainCpp.midpoint_intervals u v k R_sphere ang
                  (MainCpp.unique (sort_by Rleb params)))).
  { intros params ang Hp.
    destruct (cpp_midpoint_intervals_shape u v k R_sphere ang
                (MainCpp.unique (sort_by Rleb params))) as [H1 H2].
    { apply cpp_unique_sorted, cpp_sort_Rleb_sorted. }
    split; [|exact H2]. intros iv Hiv.
    destruct (H1 iv Hiv) as [Ha [_ Hc]]. split; [|exact Hc].
    apply Hp. apply cpp_unique_In in Ha. now apply sort_by_In in Ha. }
  unfold MainCpp.get_covered_intervals.
  destruct (Rlt_dec _ MainCpp.EPS).
  { destruct (Rle_dec _ _); assumption. }
  destruct (Rle_dec _ _) as [H1|H1].
  - destruct (Rlt_dec _ MainCpp.EPS).
    + apply Hfin. intros a [<-|[<-|[]]]; lra.
    + destruct (Rge_dec _ _) as [H2|H2].
      * destruct (Rle_dec _ (1 + MainCpp.EPS)) as [H3|H3].
        -- apply Hfin. intros a Ha.
           apply in_app_or in Ha. destruct Ha as [[<-|[<-|[]]]|Ha]; try lra.
           apply in_app_or in Ha. destruct Ha as [Ha|Ha].
           ++ destruct (MainCpp.is_on_arc _ _ _); [|destruct Ha].
              destruct Ha as [<-|[]]. apply cpp_get_arc_parameter_nonneg.
           ++ destruct (Rgt_dec _ _); [|destruct Ha].
              destruct (MainCpp.is_on_arc _ _ _); [|destruct Ha].
              destruct Ha as [<-|[]]. apply cpp_get_arc_parameter_nonneg.
        -- destruct (Rle_dec _ _); assumption.
      * destruct (Rle_dec _ _); assumption.
  - destruct (Rle_dec _ _); assumption.
Qed.

(** An arc that [is_arc_safe] accepts has every parameter within [EPS]
    of an interval returned for some airport's disk. *)
Lemma cpp_is_arc_safe_sound u v airports R_sphere t :
  MainCpp.EPS <= MainCpp.dist_xyz u v ->
  MainCpp.is_arc_safe u v airports R_sphere = true ->
  0 <= t <= 1 ->
  exists k iv, In k airports /\
               In iv (MainCpp.get_covered_intervals u v k R_sphere) /\
               fst iv - MainCpp.EPS <= t <= snd iv + MainCpp.EPS.
Proof.
  intros Hd Hs Ht. unfold MainCpp.is_arc_safe in Hs.
  destruct (Rlt_dec _ _); [lra|].
  assert (Hsh : forall iv, In iv (MainCpp.all_intervals u v airports R_sphere)
                           -> exists k, In k airports /\
                                In iv (MainCpp.get_covered_intervals
                                         u v k R_sphere)).
  { intros iv Hiv. unfold MainCpp.all_intervals in Hiv.
    apply in_flat_map in Hiv. exact Hiv. }
  assert (Hnn : forall iv,
             In iv (MainCpp.all_intervals u v airports R_sphere) ->
             0 <= snd iv).
  { intros iv Hiv. destruct (Hsh iv Hiv) as [k [_ Hk]].
    destruct (cpp_get_covered_intervals_shape u v k R_sphere) as [H _].
    destruct (H iv Hk). unfold MainCpp.EPS in *. lra. }
  destruct (cpp_covers_sound _ Hnn Hs t Ht) as [iv [Hin Hb]].
  destruct (Hsh iv Hin) as [k [Hk Hiv]]. exists k, iv. tauto.
Qed.

(** ** The vector helpers of main.cpp *)

Ltac cpp_vec_ring :=
  repeat match goal with v : MainCpp.Point |- _ => destruct v end;
  unfold MainCpp.dot, MainCpp.cross, MainCpp.padd, MainCpp.psub,
    MainCpp.pmul;
  cbn [MainCpp.x MainCpp.y MainCpp.z]; try ring.

Lemma cpp_dot_comm a b : MainCpp.dot a b = MainCpp.dot b a.
Proof. cpp_vec_ring. Qed.

Lemma cpp_dot_padd a b c :
  MainCpp.dot (MainCpp.padd a b) c = MainCpp.dot a c + MainCpp.dot b c.
Proof. cpp_vec_ring. Qed.

Lemma cpp_dot_psub a b c :
  MainCpp.dot (MainCpp.psub a b) c = MainCpp.dot a c - MainCpp.dot b c.
Proof. cpp_vec_ring. Qed.

Lemma cpp_dot_pmul a s c :
  MainCpp.dot (MainCpp.pmul a s) c = s * MainCpp.dot a c.
Proof. cpp_vec_ring. Qed.

Lemma cpp_dot_pdiv a s c :
  MainCpp.dot (MainCpp.pdiv a s) c = MainCpp.dot a c / s.
Proof.
  destruct a, c. unfold MainCpp.dot, MainCpp.pdiv.
  cbn [MainCpp.x MainCpp.y MainCpp.z]. unfold Rdiv. ring.
Qed.

Lemma cpp_dot_self_nonneg p : 0 <= MainCpp.dot p p.
Proof.
  destruct p as [a b c]. unfold MainCpp.dot.
  cbn [MainCpp.x MainCpp.y MainCpp.z]. nra.
Qed.

Lemma cpp_magnitude_sqr p :
  MainCpp.magnitude p * MainCpp.magnitude p = MainCpp.dot p p.
Proof. unfold MainCpp.magnitude. apply sqrt_sqrt, cpp_dot_self_nonneg. Qed.

Lemma cpp_magnitude_zero : MainCpp.magnitude (MainCpp.mkPoint 0 0 0) = 0.
Proof.
  unfold MainCpp.magnitude, MainCpp.dot. cbn [MainCpp.x MainCpp.y MainCpp.z].
  replace (0 * 0 + 0 * 0 + 0 * 0) with 0 by ring. apply sqrt_0.
Qed.

Lemma cpp_normalize_small p :
  MainCpp.magnitude p < MainCpp.EPS ->
  MainCpp.normalize p = MainCpp.mkPoint 0 0 0.
Proof.
  intros H. unfold MainCpp.normalize.
  destruct (Rlt_dec _ _); [reflexivity|contradiction].
Qed.

Lemma cpp_normalize_unit p :
  MainCpp.EPS <= MainCpp.magnitude p ->
  MainCpp.dot (MainCpp.normalize p) (MainCpp.normalize p) = 1.
Proof.
  intros H. unfold MainCpp.normalize.
  destruct (Rlt_dec _ _); [lra|].
  rewrite cpp_dot_pdiv, cpp_dot_comm, cpp_dot_pdiv.
  rewrite <- cpp_magnitude_sqr. unfold MainCpp.EPS in H. field. lra.
Qed.

Lemma cpp_unit_magnitude p : MainCpp.dot p p = 1 -> MainCpp.magnitude p = 1.
Proof. intros H. unfold MainCpp.magnitude. rewrite H. apply sqrt_1. Qed.

Lemma cpp_normalize_of_unit p : MainCpp.dot p p = 1 -> MainCpp.normalize p = p.
Proof.
  intros H. unfold MainCpp.normalize. rewrite (cpp_unit_magnitude p H).
  destruct (Rlt_dec 1 MainCpp.EPS) as [Hlt|_];
    [unfold MainCpp.EPS in Hlt; lra|].
  destruct p as [a b c]. unfold MainCpp.pdiv.
  cbn [MainCpp.x MainCpp.y MainCpp.z]. f_equal; field.
Qed.

Lemma cpp_normalize_idem p :
  MainCpp.normalize (MainCpp.normalize p) = MainCpp.normalize p.
Proof.
  destruct (Rlt_dec (MainCpp.magnitude p) MainCpp.EPS) as [H|H].
  - rewrite (cpp_normalize_small p H). apply cpp_normalize_small.
    rewrite cpp_magnitude_zero. unfold MainCpp.EPS. lra.
  - apply cpp_normalize_of_unit, cpp_normalize_unit. lra.
Qed.

Lemma cpp_lat_lon_dot lat lon :
  MainCpp.dot (MainCpp.lat_lon_to_xyz lat lon) (MainCpp.lat_lon_to_xyz lat lon)
  = MainCpp.R_earth * MainCpp.R_earth.
Proof.
  unfold MainCpp.lat_lon_to_xyz, MainCpp.dot.
  cbn [MainCpp.x MainCpp.y MainCpp.z].
  set (a := lon * PI / 180). set (b := lat * PI / 180).
  pose proof (sin2_cos2 a) as Ha. pose proof (sin2_cos2 b) as Hb.
  unfold Rsqr in Ha, Hb.
  set (E := MainCpp.R_earth).
  replace (E * cos b * cos a * (E * cos b * cos a)
           + E * cos b * sin a * (E * cos b * sin a)
           + E * sin b * (E * sin b))
    with (E * E * (cos b * cos b * (sin a * sin a + cos a * cos a)
                   + sin b * sin b)) by ring.
  rewrite Ha. replace (cos b * cos b * 1 + sin b * sin b) with 1 by lra. ring.
Qed.

Lemma cpp_lat_lon_magnitude lat lon :
  MainCpp.magnitude (MainCpp.lat_lon_to_xyz lat lon) = MainCpp.R_earth.
Proof.
  unfold MainCpp.magnitude. rewrite cpp_lat_lon_dot.
  apply sqrt_square. unfold MainCpp.R_earth. lra.
Qed.

(** Both programs place an airport in the same direction. *)
Lemma cpp_lat_lon_direction lat lon :
  MainCpp.normalize (MainCpp.lat_lon_to_xyz lat lon)
  = MainCpp.mkPoint (MainC.x (MainC.sph2vec lon lat))
                    (MainC.y (MainC.sph2vec lon lat))
                    (MainC.z (MainC.sph2vec lon lat)).
Proof.
  unfold MainCpp.normalize. rewrite cpp_lat_lon_magnitude.
  destruct (Rlt_dec MainCpp.R_earth MainCpp.EPS) as [H|_];
    [unfold MainCpp.R_earth, MainCpp.EPS in H; lra|].
  unfold MainCpp.lat_lon_to_xyz, MainCpp.pdiv, MainC.sph2vec, MainCpp.R_earth.
  cbn [MainCpp.x MainCpp.y MainCpp.z MainC.x MainC.y MainC.z].
  f_equal; field.
Qed.

Lemma cpp_dist_sym p q : MainCpp.dist_xyz p q = MainCpp.dist_xyz q p.
Proof. unfold MainCpp.dist_xyz. now rewrite cpp_dot_comm. Qed.

Lemma cpp_dist_degenerate p q :
  MainCpp.magnitude p < MainCpp.EPS ->
  MainCpp.dist_xyz p q = PI / 2 * MainCpp.R_earth.
Proof.
  intros H. unfold MainCpp.dist_xyz. rewrite (cpp_normalize_small p H).
  replace (MainCpp.dot (MainCpp.mkPoint 0 0 0) (MainCpp.normalize q)) with 0
    by (unfold MainCpp.dot; cbn [MainCpp.x MainCpp.y MainCpp.z]; ring).
  rewrite cpp_clamp_id by lra. now rewrite acos_0.
Qed.

(** ** Points along a great circle (main.cpp) *)

Lemma cpp_cross_lagrange a b :
  MainCpp.dot (MainCpp.cross a b) (MainCpp.cross a b)
  = MainCpp.dot a a * MainCpp.dot b b - MainCpp.dot a b * MainCpp.dot a b.
Proof. cpp_vec_ring. Qed.

Lemma cpp_unit_dot_range a b :
  MainCpp.dot a a = 1 -> MainCpp.dot b b = 1 -> -1 <= MainCpp.dot a b <= 1.
Proof.
  intros Ha Hb.
  pose proof (cpp_dot_self_nonneg (MainCpp.cross a b)) as H.
  rewrite cpp_cross_lagrange, Ha, Hb in H. split; nra.
Qed.

Section GreatCircle.
Variables u v : MainCpp.Point.
Hypothesis u_big : MainCpp.EPS <= MainCpp.magnitude u.
Hypothesis v_big : MainCpp.EPS <= MainCpp.magnitude v.

Let un := MainCpp.normalize u.
Let vn := MainCpp.normalize v.
Let d := MainCpp.dot un vn.
Let theta := acos (MainCpp.clamp d).

Hypothesis theta_big : MainCpp.EPS <= theta.
Hypothesis sin_big : MainCpp.EPS <= sin theta.

Let w := MainCpp.psub vn (MainCpp.pmul un d).
Let wn := MainCpp.normalize w.

Lemma gc_un_unit : MainCpp.dot un un = 1.
Proof. apply cpp_normalize_unit, u_big. Qed.

Lemma gc_vn_unit : MainCpp.dot vn vn = 1.
Proof. apply cpp_normalize_unit, v_big. Qed.

Lemma gc_d_range : -1 <= d <= 1.
Proof. apply cpp_unit_dot_range; [apply gc_un_unit|apply gc_vn_unit]. Qed.

Lemma gc_cos_theta : cos theta = d.
Proof.
  unfold theta. rewrite cpp_clamp_id by apply gc_d_range.
  apply cos_acos, gc_d_range.
Qed.

Lemma gc_w_dot : MainCpp.dot w w = 1 - d * d.
Proof.
  unfold w. rewrite cpp_dot_psub, cpp_dot_pmul.
  rewrite (cpp_dot_comm vn (MainCpp.psub _ _)),
    (cpp_dot_comm un (MainCpp.psub _ _)).
  rewrite !cpp_dot_psub, !cpp_dot_pmul.
  rewrite gc_un_unit, gc_vn_unit. fold d.
  rewrite (cpp_dot_comm vn un). fold d. ring.
Qed.

Lemma gc_w_magnitude : MainCpp.magnitude w = sin theta.
Proof.
  unfold MainCpp.magnitude. rewrite gc_w_dot.
  unfold theta. rewrite cpp_clamp_id by apply gc_d_range.
  rewrite sin_acos by apply gc_d_range. unfold Rsqr. reflexivity.
Qed.

Lemma gc_wn : wn = MainCpp.pdiv w (sin theta).
Proof.
  unfold wn, MainCpp.normalize. rewrite gc_w_magnitude.
  destruct (Rlt_dec _ _); [lra|reflexivity].
Qed.

Lemma gc_sin_pos : 0 < sin theta.
Proof. unfold MainCpp.EPS in sin_big. lra. Qed.

Lemma gc_sin_sqr : sin theta * sin theta = 1 - d * d.
Proof.
  rewrite <- gc_w_dot, <- cpp_magnitude_sqr, gc_w_magnitude. reflexivity.
Qed.

Lemma gc_un_w : MainCpp.dot un w = 0.
Proof.
  unfold w. rewrite cpp_dot_comm, cpp_dot_psub, cpp_dot_pmul.
  rewrite gc_un_unit, (cpp_dot_comm vn un). fold d. ring.
Qed.

Lemma gc_vn_w : MainCpp.dot vn w = 1 - d * d.
Proof.
  unfold w. rewrite cpp_dot_comm, cpp_dot_psub, cpp_dot_pmul.
  rewrite gc_vn_unit. fold d. ring.
Qed.

Lemma gc_point t :
  MainCpp.point_at_angle_on_great_circle u v t
  = MainCpp.padd (MainCpp.pmul un (cos t)) (MainCpp.pmul wn (sin t)).
Proof.
  unfold MainCpp.point_at_angle_on_great_circle.
  fold un vn. fold d. fold theta.
  destruct (Rlt_dec theta MainCpp.EPS); [lra|]. reflexivity.
Qed.

Lemma gc_point_facts t :
  let P := MainCpp.point_at_angle_on_great_circle u v t in
  MainCpp.dot P P = 1 /\ MainCpp.dot P un = cos t
  /\ MainCpp.dot P vn = cos (theta - t).
Proof.
  intros P. unfold P. rewrite gc_point, gc_wn.
  pose proof gc_sin_pos as Hs. pose proof gc_sin_sqr as Hq.
  pose proof (sin2_cos2 t) as Ht. unfold Rsqr in Ht.
  assert (Huw : MainCpp.dot (MainCpp.pdiv w (sin theta)) un = 0).
  { rewrite cpp_dot_pdiv, cpp_dot_comm, gc_un_w. unfold Rdiv. ring. }
  assert (Hww : MainCpp.dot (MainCpp.pdiv w (sin theta))
                            (MainCpp.pdiv w (sin theta)) = 1).
  { rewrite cpp_dot_pdiv, cpp_dot_comm, cpp_dot_pdiv, gc_w_dot, <- Hq.
    field. lra. }
  assert (Hvw : MainCpp.dot (MainCpp.pdiv w (sin theta)) vn = sin theta).
  { rewrite cpp_dot_pdiv, cpp_dot_comm, gc_vn_w, <- Hq. field. lra. }
  split; [|split].
  - rewrite cpp_dot_padd, !cpp_dot_pmul.
    rewrite (cpp_dot_comm un (MainCpp.padd _ _)),
      (cpp_dot_comm (MainCpp.pdiv w (sin theta)) (MainCpp.padd _ _)).
    rewrite !cpp_dot_padd, !cpp_dot_pmul.
    rewrite gc_un_unit, Hww, Huw, (cpp_dot_comm un (MainCpp.pdiv _ _)), Huw.
    lra.
  - rewrite cpp_dot_padd, !cpp_dot_pmul, gc_un_unit, Huw. ring.
  - rewrite cpp_dot_padd, !cpp_dot_pmul, Hvw. fold d.
    rewrite cos_minus, gc_cos_theta. ring.
Qed.

Lemma gc_point_start :
  MainCpp.point_at_angle_on_great_circle u v 0 = un.
Proof.
  rewrite gc_point, cos_0, sin_0.
  destruct un as [a b c], wn as [a' b' c'].
  unfold MainCpp.padd, MainCpp.pmul. cbn [MainCpp.x MainCpp.y MainCpp.z].
  f_equal; ring.
Qed.

Lemma gc_point_end :
  MainCpp.point_at_angle_on_great_circle u v theta = vn.
Proof.
  rewrite gc_point, gc_wn, gc_cos_theta. pose proof gc_sin_pos as Hs.
  unfold w. destruct un as [a b c], vn as [a' b' c'].
  unfold MainCpp.padd, MainCpp.pmul, MainCpp.pdiv, MainCpp.psub.
  cbn [MainCpp.x MainCpp.y MainCpp.z]. f_equal; field; lra.
Qed.
End GreatCircle.

(** Between antipodal points the basis vector is lost: the "point at
    angle [t]" is [cos t] times the start direction, the zero vector half
    way. *)
Lemma cpp_point_antipodal u t :
  MainCpp.EPS <= MainCpp.magnitude u ->
  MainCpp.point_at_angle_on_great_circle u (MainCpp.pmul u (-1)) t
  = MainCpp.pmul (MainCpp.normalize u) (cos t).
Proof.
  intros Hu.
  assert (Hm : MainCpp.magnitude (MainCpp.pmul u (-1)) = MainCpp.magnitude u).
  { unfold MainCpp.magnitude. f_equal.
    rewrite cpp_dot_pmul, cpp_dot_comm, cpp_dot_pmul. ring. }
  assert (Hn : MainCpp.normalize (MainCpp.pmul u (-1))
               = MainCpp.pmul (MainCpp.normalize u) (-1)).
  { unfold MainCpp.normalize. rewrite Hm.
    destruct (Rlt_dec _ _); [lra|].
    destruct u as [a b c]. unfold MainCpp.pmul, MainCpp.pdiv.
    cbn [MainCpp.x MainCpp.y MainCpp.z]. unfold Rdiv. f_equal; ring. }
  pose proof (cpp_normalize_unit u Hu) as Hun.
  unfold MainCpp.point_at_angle_on_great_circle. rewrite Hn.
  set (un := MainCpp.normalize u) in *.
  assert (Hd : MainCpp.dot un (MainCpp.pmul un (-1)) = -1).
  { rewrite cpp_dot_comm, cpp_dot_pmul, Hun. ring. }
  rewrite Hd, cpp_clamp_id by lra.
  assert (Ea : acos (-1) = PI).
  { replace (-1) with (Ropp 1) by lra. rewrite acos_opp, acos_1. ring. }
  rewrite Ea. pose proof PI_tight as HP.
  destruct (Rlt_dec PI MainCpp.EPS) as [H|_];
    [unfold MainCpp.EPS in H; lra|].
  assert (Hw : MainCpp.psub (MainCpp.pmul un (-1)) (MainCpp.pmul un (-1))
               = MainCpp.mkPoint 0 0 0).
  { destruct un as [a b c]. unfold MainCpp.psub, MainCpp.pmul.
    cbn [MainCpp.x MainCpp.y MainCpp.z]. f_equal; ring. }
  rewrite Hw, cpp_normalize_small
    by (rewrite cpp_magnitude_zero; unfold MainCpp.EPS; lra).
  destruct un as [a b c]. unfold MainCpp.padd, MainCpp.pmul.
  cbn [MainCpp.x MainCpp.y MainCpp.z]. f_equal; ring.
Qed.

(** ** Array bounds and the loops of the search (main.c) *)

Lemma c_pair_points_length cosA alpha u rest :
  (length (flat_map (MainC.boundary_points cosA alpha u) rest)
   <= 2 * length rest)%nat.
Proof.
  induction rest as [|v rest IH]; simpl; [lia|].
  rewrite length_app. pose proof (c_boundary_points_length cosA alpha u v).
  lia.
Qed.

Lemma c_intersections_count cosA alpha l :
  (length (MainC.intersections cosA alpha l)
   <= length l * (length l - 1))%nat.
Proof.
  induction l as [|u rest IH]; simpl; [lia|].
  rewrite length_app, Nat.sub_0_r.
  pose proof (c_pair_points_length cosA alpha u rest). nia.
Qed.

Lemma c_node_list_length R0 lonlat :
  (length (MainC.node_list R0 lonlat)
   <= length lonlat + length lonlat * (length lonlat - 1))%nat.
Proof.
  unfold MainC.node_list, MainC.nodes, MainC.airports_of.
  rewrite length_app, length_map.
  pose proof (c_intersections_count (cos (MainC.alpha_of R0))
                (MainC.alpha_of R0)
                (map (fun p => MainC.sph2vec (fst p) (snd p)) lonlat)) as H.
  rewrite length_map in H. lia.
Qed.

Lemma c_coverage_acos_safe abU abW Ai cosA a :
  0 <= cosA ->
  MainC.coverage_acos_arg abU abW Ai cosA = Some a -> 0 <= a <= 1.
Proof.
  intros HA. unfold MainC.coverage_acos_arg.
  set (Rv := sqrt _).
  destruct (Rlt_dec Rv 1e-15); [discriminate|].
  destruct (Rlt_dec Rv cosA); [discriminate|].
  intros E. injection E as <-.
  assert (HRv : 0 < Rv) by lra. split.
  - apply Rmult_le_pos; [exact HA|]. left. now apply Rinv_0_lt_compat.
  - apply Rmult_le_reg_r with Rv; [exact HRv|].
    unfold Rdiv. rewrite Rmult_assoc, Rinv_l by lra. lra.
Qed.

Lemma c_select_some N st u :
  fst (MainC.select N st) = Some u ->
  (u < N)%nat /\ snd st u = false /\ fst st u < MainC.INF /\
  forall i, (i < N)%nat -> snd st i = false -> fst st u <= fst st i.
Proof.
  pose proof (select_spec N st) as H.
  destruct (MainC.select N st) as [o b]. simpl. intros ->. exact H.
Qed.

Lemma c_select_none N st :
  fst (MainC.select N st) = None <->
  forall i, (i < N)%nat -> snd st i = false -> MainC.INF <= fst st i.
Proof.
  pose proof (select_spec N st) as H.
  destruct (MainC.select N st) as [[u|] b]; simpl.
  - split; [discriminate|]. intros Hall.
    destruct H as [Hu [Hf [Hlt _]]]. specialize (Hall u Hu Hf). lra.
  - split; [intros _; exact H|reflexivity].
Qed.

(** ** The intersection points of two safety circles (main.cpp) *)

Lemma cpp_triple_gram a b c :
  MainCpp.dot (MainCpp.cross a b) c * MainCpp.dot (MainCpp.cross a b) c
  = MainCpp.dot a a * (MainCpp.dot b b * MainCpp.dot c c
                       - MainCpp.dot b c * MainCpp.dot b c)
    - MainCpp.dot a b * (MainCpp.dot a b * MainCpp.dot c c
                         - MainCpp.dot b c * MainCpp.dot a c)
    + MainCpp.dot a c * (MainCpp.dot a b * MainCpp.dot b c
                         - MainCpp.dot b b * MainCpp.dot a c).
Proof. cpp_vec_ring. Qed.

Lemma cpp_dot_cross_l a b : MainCpp.dot (MainCpp.cross a b) a = 0.
Proof. cpp_vec_ring. Qed.

Lemma cpp_normalize_dot p c :
  MainCpp.EPS <= MainCpp.magnitude p ->
  MainCpp.dot (MainCpp.normalize p) c = MainCpp.dot p c / MainCpp.magnitude p.
Proof.
  intros H. unfold MainCpp.normalize.
  destruct (Rlt_dec _ _); [lra|]. apply cpp_dot_pdiv.
Qed.

Lemma cpp_scaled_unit_normalize p :
  MainCpp.dot p p = 1 ->
  MainCpp.normalize (MainCpp.mkPoint (MainCpp.x p * MainCpp.R_earth)
                                     (MainCpp.y p * MainCpp.R_earth)
                                     (MainCpp.z p * MainCpp.R_earth)) = p.
Proof.
  intros Hp. unfold MainCpp.normalize, MainCpp.magnitude.
  replace (MainCpp.dot _ _)
    with (MainCpp.R_earth * MainCpp.R_earth * MainCpp.dot p p)
    by (destruct p; unfold MainCpp.dot; cbn [MainCpp.x MainCpp.y MainCpp.z];
        ring).
  rewrite Hp, Rmult_1_r, sqrt_square by (unfold MainCpp.R_earth; lra).
  destruct (Rlt_dec _ _) as [H|_];
    [unfold MainCpp.R_earth, MainCpp.EPS in H; lra|].
  destruct p as [a b c]. unfold MainCpp.pdiv, MainCpp.R_earth.
  cbn [MainCpp.x MainCpp.y MainCpp.z]. f_equal; field.
Qed.

(** A unit combination of two orthonormal vectors, one of them
    orthogonal to [c]. *)
Lemma cpp_circle_point m o c a X Y :
  MainCpp.dot m m = 1 -> MainCpp.dot o o = 1 -> MainCpp.dot o m = 0 ->
  MainCpp.dot m c = a -> MainCpp.dot o c = 0 ->
  X * X + Y * Y = 1 ->
  let p1 := MainCpp.padd (MainCpp.pmul m X) (MainCpp.pmul o Y) in
  let p2 := MainCpp.psub (MainCpp.pmul m X) (MainCpp.pmul o Y) in
  (MainCpp.dot p1 p1 = 1 /\ MainCpp.dot p1 c = a * X) /\
  (MainCpp.dot p2 p2 = 1 /\ MainCpp.dot p2 c = a * X).
Proof.
  intros Hm Ho Hom Hmc Hoc HXY p1 p2. unfold p1, p2.
  assert (Hmo : MainCpp.dot m o = 0) by (rewrite cpp_dot_comm; exact Hom).
  split; split.
  - rewrite cpp_dot_padd, !cpp_dot_pmul.
    rewrite (cpp_dot_comm m (MainCpp.padd _ _)),
      (cpp_dot_comm o (MainCpp.padd _ _)).
    rewrite !cpp_dot_padd, !cpp_dot_pmul, Hm, Ho, Hom, Hmo. lra.
  - rewrite cpp_dot_padd, !cpp_dot_pmul, Hmc, Hoc. ring.
  - rewrite cpp_dot_psub, !cpp_dot_pmul.
    rewrite (cpp_dot_comm m (MainCpp.psub _ _)),
      (cpp_dot_comm o (MainCpp.psub _ _)).
    rewrite !cpp_dot_psub, !cpp_dot_pmul, Hm, Ho, Hom, Hmo. lra.
  - rewrite cpp_dot_psub, !cpp_dot_pmul, Hmc, Hoc. ring.
Qed.

Lemma cpp_dist_of_pushed p c r :
  MainCpp.dot p p = 1 -> 0 <= r <= PI ->
  MainCpp.dot p (MainCpp.normalize c) = cos r ->
  MainCpp.dist_xyz (MainCpp.mkPoint (MainCpp.x p * MainCpp.R_earth)
                                    (MainCpp.y p * MainCpp.R_earth)
                                    (MainCpp.z p * MainCpp.R_earth)) c
  = r * MainCpp.R_earth.
Proof.
  intros Hp Hr Hd. unfold MainCpp.dist_xyz.
  rewrite (cpp_scaled_unit_normalize p Hp), Hd.
  rewrite cpp_clamp_id by apply COS_bound.
  now rewrite acos_cos.
Qed.

Lemma cpp_intersections_on_circles c1 c2 R_sphere :
  let r := R_sphere / MainCpp.R_earth in
  let theta := acos (MainCpp.clamp (MainCpp.dot (MainCpp.normalize c1)
                                                (MainCpp.normalize c2))) in
  MainCpp.EPS <= MainCpp.magnitude c1 -> MainCpp.EPS <= MainCpp.magnitude c2 ->
  MainCpp.EPS <= theta -> MainCpp.EPS <= sin theta ->
  0 <= r <= PI ->
  acos_domain (cos r / cos (theta / 2)) ->
  MainCpp.get_small_circle_intersections c1 c2 R_sphere <> [] /\
  forall p, In p (MainCpp.get_small_circle_intersections c1 c2 R_sphere) ->
            exists P, p = Some P /\ MainCpp.dist_xyz P c1 = R_sphere
                      /\ MainCpp.dist_xyz P c2 = R_sphere.
Proof.
  intros r theta H1 H2 Hth Hsin Hr Harg.
  pose proof PI_tight as HP.
  set (un := MainCpp.normalize c1) in *. set (vn := MainCpp.normalize c2) in *.
  assert (Hun : MainCpp.dot un un = 1) by (apply cpp_normalize_unit; exact H1).
  assert (Hvn : MainCpp.dot vn vn = 1) by (apply cpp_normalize_unit; exact H2).
  set (d := MainCpp.dot un vn) in *.
  assert (Hd : -1 <= d <= 1) by now apply cpp_unit_dot_range.
  assert (Hcd : cos theta = d).
  { unfold theta. rewrite cpp_clamp_id by exact Hd. now apply cos_acos. }
  pose proof (acos_bound (MainCpp.clamp d)) as Htb. fold theta in Htb.
  assert (Hspos : 0 < sin theta) by (unfold MainCpp.EPS in Hsin; lra).
  assert (Htpi : theta < PI).
  { destruct (Rlt_dec theta PI); [assumption|].
    assert (theta = PI) by lra. rewrite H, sin_PI in Hspos. lra. }
  assert (Htpos : 0 < theta) by (unfold MainCpp.EPS in Hth; lra).
  set (a := cos (theta / 2)) in *.
  assert (Ha : 0 < a) by (apply cos_gt_0; lra).
  assert (Hda : d = 2 * a * a - 1).
  { rewrite <- Hcd. replace theta with (2 * (theta / 2)) at 1 by field.
    apply cos_2a_cos. }
  assert (Hcr : - a <= cos r <= a).
  { destruct Harg as [L U]. split.
    - apply Rmult_le_compat_r with (r := a) in L; [|lra].
      unfold Rdiv in L. rewrite Rmult_assoc, Rinv_l in L by lra. lra.
    - apply Rmult_le_compat_r with (r := a) in U; [|lra].
      unfold Rdiv in U. rewrite Rmult_assoc, Rinv_l in U by lra. lra. }
  assert (Hr2 : theta / 2 <= r) by (apply cos_decr_0; try lra; apply Hcr).
  set (arg := cos r / a) in *.
  assert (Earg : MainCpp.cos_beta_arg_at_acos c1 c2 R_sphere = Some arg).
  { unfold MainCpp.cos_beta_arg_at_acos. fold un vn. fold d. fold theta.
    fold r. fold a. fold arg. destruct Harg as [L U].
    destruct (Rgt_dec theta (2 * r + MainCpp.EPS));
      [unfold MainCpp.EPS in *; lra|].
    destruct (Rlt_dec theta MainCpp.EPS); [lra|].
    destruct (Rgt_dec arg (1 + MainCpp.EPS)); [unfold MainCpp.EPS in *; lra|].
    destruct (Rlt_dec arg (-1 - MainCpp.EPS));
      [unfold MainCpp.EPS in *; lra|].
    reflexivity. }
  set (beta := acos arg).
  assert (Hcb : cos beta = arg) by (apply cos_acos; exact Harg).
  assert (Hsc : cos beta * cos beta + sin beta * sin beta = 1).
  { pose proof (sin2_cos2 beta) as H. unfold Rsqr in H. lra. }
  (* the midpoint *)
  assert (Hmu : MainCpp.EPS <= MainCpp.magnitude un)
    by (rewrite (cpp_unit_magnitude un Hun); unfold MainCpp.EPS; lra).
  assert (Hmv : MainCpp.EPS <= MainCpp.magnitude vn)
    by (rewrite (cpp_unit_magnitude vn Hvn); unfold MainCpp.EPS; lra).
  pose proof (gc_point_facts un vn Hmu Hmv) as Hgc.
  rewrite (cpp_normalize_of_unit un Hun), (cpp_normalize_of_unit vn Hvn) in Hgc.
  fold d in Hgc. fold theta in Hgc.
  specialize (Hgc Hth Hsin (theta / 2)). cbv zeta in Hgc.
  set (m := MainCpp.point_at_angle_on_great_circle un vn (theta / 2)) in *.
  destruct Hgc as [Hmm [Hmun Hmvn]].
  replace (theta - theta / 2) with (theta / 2) in Hmvn by field.
  fold a in Hmun, Hmvn.
  (* the orthogonal direction *)
  set (e := MainCpp.psub un vn).
  set (q := MainCpp.cross m e).
  assert (Hme : MainCpp.dot m e = 0).
  { unfold e. rewrite cpp_dot_comm, cpp_dot_psub,
      (cpp_dot_comm un m), (cpp_dot_comm vn m), Hmun, Hmvn. ring. }
  assert (Hee : MainCpp.dot e e = 2 - 2 * d).
  { unfold e. rewrite cpp_dot_psub, (cpp_dot_comm un (MainCpp.psub _ _)),
      (cpp_dot_comm vn (MainCpp.psub _ _)), !cpp_dot_psub.
    rewrite Hun, Hvn, (cpp_dot_comm vn un). fold d. ring. }
  assert (Heu : MainCpp.dot e un = 1 - d).
  { unfold e. rewrite cpp_dot_psub, Hun, (cpp_dot_comm vn un). fold d. ring. }
  assert (Hev : MainCpp.dot e vn = d - 1).
  { unfold e. rewrite cpp_dot_psub, Hvn. fold d. ring. }
  assert (Hqq : MainCpp.dot q q = 2 - 2 * d).
  { unfold q. rewrite cpp_cross_lagrange, Hmm, Hee, Hme. ring. }
  assert (Hqm : MainCpp.dot q m = 0) by apply cpp_dot_cross_l.
  assert (Hqu : MainCpp.dot q un = 0).
  { assert (Hsq : MainCpp.dot q un * MainCpp.dot q un = 0).
    { unfold q. rewrite cpp_triple_gram, Hmm, Hee, Hun, Heu, Hme, Hmun, Hda.
      ring. }
    nra. }
  assert (Hqv : MainCpp.dot q vn = 0).
  { assert (Hsq : MainCpp.dot q vn * MainCpp.dot q vn = 0).
    { unfold q. rewrite cpp_triple_gram, Hmm, Hee, Hvn, Hev, Hme, Hmvn, Hda.
      ring. }
    nra. }
  assert (Hqbig : MainCpp.EPS <= MainCpp.magnitude q).
  { unfold MainCpp.magnitude. rewrite Hqq.
    assert (Hs2 : sin theta * sin theta = 1 - d * d).
    { pose proof (sin2_cos2 theta) as H. unfold Rsqr in H. rewrite Hcd in H.
      lra. }
    assert (Hge : MainCpp.EPS * MainCpp.EPS <= 2 - 2 * d).
    { assert (MainCpp.EPS * MainCpp.EPS <= sin theta * sin theta)
        by (unfold MainCpp.EPS in *; nra).
      nra. }
    rewrite <- (sqrt_square MainCpp.EPS) by (unfold MainCpp.EPS; lra).
    apply sqrt_le_1_alt. exact Hge. }
  set (o := MainCpp.normalize q).
  assert (Hoo : MainCpp.dot o o = 1) by (apply cpp_normalize_unit; exact Hqbig).
  assert (Hom : MainCpp.dot o m = 0).
  { unfold o. rewrite cpp_normalize_dot, Hqm by exact Hqbig.
    unfold Rdiv. ring. }
  assert (Hou : MainCpp.dot o un = 0).
  { unfold o. rewrite cpp_normalize_dot, Hqu by exact Hqbig.
    unfold Rdiv. ring. }
  assert (Hov : MainCpp.dot o vn = 0).
  { unfold o. rewrite cpp_normalize_dot, Hqv by exact Hqbig.
    unfold Rdiv. ring. }
  destruct (cpp_circle_point m o un a (cos beta) (sin beta)
              Hmm Hoo Hom Hmun Hou Hsc) as [[Hp1 Hp1u] [Hp2 Hp2u]].
  destruct (cpp_circle_point m o vn a (cos beta) (sin beta)
              Hmm Hoo Hom Hmvn Hov Hsc) as [[_ Hp1v] [_ Hp2v]].
  assert (Hacr : a * cos beta = cos r).
  { rewrite Hcb. unfold arg. field. lra. }
  rewrite Hacr in Hp1u, Hp2u, Hp1v, Hp2v.
  assert (HR : r * MainCpp.R_earth = R_sphere).
  { unfold r, MainCpp.R_earth. field. }
  unfold MainCpp.get_small_circle_intersections, MainCpp.beta_of.
  rewrite Earg. cbn [option_map]. unfold acos_nan.
  destruct Harg as [L U]. fold arg in L, U.
  destruct (Rle_dec (-1) arg); [|lra]. destruct (Rle_dec arg 1); [|lra].
  fold un vn. fold d. fold theta. fold m. fold e. fold q. fold o. fold beta.
  split; [discriminate|].
  intros p [<-|Hin].
  - eexists. split; [reflexivity|]. rewrite <- HR.
    split; apply cpp_dist_of_pushed; assumption.
  - destruct (Rgt_dec beta MainCpp.EPS); [|destruct Hin].
    destruct Hin as [<-|[]].
    eexists. split; [reflexivity|]. rewrite <- HR.
    split; apply cpp_dist_of_pushed; assumption.
Qed.

(** * Worked scenarios *)

(** ** Two airports a quarter turn apart within reach of each other *)

(** main.c with radius 10000: [cosA = cos (10000 / 6370)] is small and
    positive. *)
Lemma c_far_cosA : 1e-15 <= cos (MainC.alpha_of 10000) <= 1 / 4.
Proof.
  unfold MainC.alpha_of, MainC.EARTH_R.
  assert (H1 : -2 <= 10000 / 6370) by lra.
  assert (H2 : 10000 / 6370 <= 2) by lra.
  pose proof (pre_cos_bound (10000 / 6370) 0 H1 H2) as [_ Hu].
  pose proof (pre_cos_bound (10000 / 6370) 1 H1 H2) as [Hl _].
  unfold cos_approx, cos_term, sum_f_R0 in Hu, Hl. simpl in Hu, Hl.
  split; lra.
Qed.

Lemma c_far_curve_safe t :
  0 <= t <= PI / 2 ->
  c_curve_safe [MainC.mkVec 1 0 0; MainC.mkVec 0 0 1]
               (cos (MainC.alpha_of 10000))
               (MainC.mkVec 1 0 0) (MainC.mkVec 0 0 1) t.
Proof.
  intros Ht. pose proof PI_tight as HP. pose proof c_far_cosA as [_ HA].
  assert (Hc : 0 <= cos t) by (apply cos_ge_0; lra).
  assert (Hs : 0 <= sin t) by (apply sin_ge_0; lra).
  pose proof (sin2_cos2 t) as Hsc. unfold Rsqr in Hsc.
  destruct (Rle_dec (1 / 4) (sin t)) as [Hq|Hq].
  - exists (MainC.mkVec 0 0 1). split; [right; now left|].
    rewrite c_curve_dot, c_quarter_theta, c_quarter_basis_W.
    unfold MainC.dot. cbn [MainC.x MainC.y MainC.z]. lra.
  - exists (MainC.mkVec 1 0 0). split; [now left|].
    rewrite c_curve_dot, c_quarter_theta, c_quarter_basis_W.
    unfold MainC.dot. cbn [MainC.x MainC.y MainC.z].
    assert (3 / 4 <= cos t) by nra. lra.
Qed.

Lemma c_far_direct :
  MainC.direct [MainC.mkVec 1 0 0; MainC.mkVec 0 0 1]
               (cos (MainC.alpha_of 10000))
               (MainC.mkVec 1 0 0) (MainC.mkVec 0 0 1)
  = PI / 2 * MainC.EARTH_R.
Proof.
  pose proof PI_tight as HP. pose proof c_far_cosA as [HA _].
  rewrite <- c_quarter_theta.
  apply c_direct_complete; [exact HA|rewrite c_quarter_theta; lra|].
  rewrite c_quarter_theta. intros t Ht. apply c_far_curve_safe. lra.
Qed.

(** The two safety circles meet: the node list has the two airports and
    two boundary points. *)
Lemma c_far_nodes :
  exists P1 P2,
    MainC.node_list 10000 [(0, 0); (0, 90)]
    = [MainC.mkVec 1 0 0; MainC.mkVec 0 0 1; P1; P2].
Proof.
  pose proof PI_tight as HP.
  unfold MainC.node_list, MainC.nodes, MainC.airports_of. simpl map.
  rewrite c_sph2vec_origin, c_sph2vec_pole.
  cbn [MainC.intersections flat_map app].
  pose proof (c_boundary_points_cases (cos (MainC.alpha_of 10000))
                (MainC.alpha_of 10000) (MainC.mkVec 1 0 0) (MainC.mkVec 0 0 1))
    as [_ H].
  assert (Hd : MainC.dot (MainC.mkVec 1 0 0) (MainC.mkVec 0 0 1) = 0)
    by (unfold MainC.dot; simpl; lra).
  assert (Hn : MainC.norm (MainC.cross (MainC.mkVec 1 0 0)
                                       (MainC.mkVec 0 0 1)) = 1).
  { unfold MainC.norm, MainC.cross, MainC.dot. simpl.
    replace ((0 * 1 - 0 * 0) * (0 * 1 - 0 * 0)
             + (0 * 0 - 1 * 1) * (0 * 0 - 1 * 1)
             + (1 * 0 - 0 * 0) * (1 * 0 - 0 * 0)) with 1 by lra.
    apply sqrt_1. }
  assert (Hc : cos (2 * MainC.alpha_of 10000) <= 0).
  { apply cos_le_0; unfold MainC.alpha_of, MainC.EARTH_R; lra. }
  rewrite Hd, Hn in H.
  destruct H as [[n Hb] _]; [lra|lra|lra|].
  rewrite Hb. simpl. eexists. eexists. reflexivity.
Qed.

Lemma c_far_D_init :
  MainC.D_init (MainC.airports_of [(0, 0); (0, 90)])
               (MainC.node_list 10000 [(0, 0); (0, 90)])
               (cos (MainC.alpha_of 10000)) 0 1
  = PI / 2 * MainC.EARTH_R.
Proof.
  destruct c_far_nodes as [P1 [P2 HV]]. rewrite HV.
  unfold MainC.D_init, MainC.airports_of. simpl map.
  rewrite c_sph2vec_origin, c_sph2vec_pole. simpl.
  apply c_far_direct.
Qed.

Lemma c_far_AtoA :
  MainC.AtoA 10000 [(0, 0); (0, 90)] 0 1 <= PI / 2 * MainC.EARTH_R.
Proof.
  unfold MainC.AtoA, MainC.D_final. rewrite <- c_far_D_init.
  apply c_floyd_below_W; [apply c_D_init_bounded|].
  intros; apply c_D_init_diag.
Qed.

(** With a capacity of at least 10006 the query from the first airport to
    the second is answered with a distance. *)
Lemma c_far_query c :
  10006 <= c ->
  exists d, MainC.run_query 10000 [(0, 0); (0, 90)] 1 2 c = Distance d.
Proof.
  intros Hc. pose proof PI_tight as HP. pose proof c_far_AtoA as HA.
  unfold MainC.EARTH_R in HA.
  destruct (MainC.run_query 10000 [(0, 0); (0, 90)] 1 2 c) as [|d] eqn:E;
    [|now exists d].
  exfalso. apply c_query_impossible_iff in E; [|simpl; lia..].
  apply E. exists []. split; [constructor|].
  change (hop_c (MainC.AtoA 10000 [(0, 0); (0, 90)]) c 0 1).
  right. unfold MainC.INF. split; lra.
Qed.

(** ** main.cpp: two airports a quarter turn apart, radius 6671 *)

Lemma cpp_Compare_x_lt p q :
  MainCpp.x p < MainCpp.x q - MainCpp.EPS ->
  MainCpp.Compare p q = true /\ MainCpp.Compare q p = false.
Proof.
  intros H. unfold MainCpp.Compare, MainCpp.EPS in *. split.
  - destruct (Rgt_dec (Rabs (MainCpp.x p - MainCpp.x q)) 1e-9) as [G|G].
    + apply Rltb_true. lra.
    + exfalso. apply G. rewrite Rabs_left; lra.
  - destruct (Rgt_dec (Rabs (MainCpp.x q - MainCpp.x p)) 1e-9) as [G|G].
    + apply Rltb_false. lra.
    + exfalso. apply G. rewrite Rabs_right; lra.
Qed.

Lemma cpp_Compare_y_lt p q :
  MainCpp.x p = MainCpp.x q ->
  MainCpp.y p < MainCpp.y q - MainCpp.EPS ->
  MainCpp.Compare p q = true /\ MainCpp.Compare q p = false.
Proof.
  intros Hx H. unfold MainCpp.Compare, MainCpp.EPS in *. rewrite Hx.
  replace (MainCpp.x q - MainCpp.x q) with 0 by lra. rewrite Rabs_R0.
  destruct (Rgt_dec 0 1e-9); [lra|]. split.
  - destruct (Rgt_dec (Rabs (MainCpp.y p - MainCpp.y q)) 1e-9) as [G|G].
    + apply Rltb_true. lra.
    + exfalso. apply G. rewrite Rabs_left; lra.
  - destruct (Rgt_dec (Rabs (MainCpp.y q - MainCpp.y p)) 1e-9) as [G|G].
    + apply Rltb_false. lra.
    + exfalso. apply G. rewrite Rabs_right; lra.
Qed.

Lemma cpp_normalize_e1 :
  MainCpp.normalize (MainCpp.mkPoint 1 0 0) = MainCpp.mkPoint 1 0 0.
Proof. apply cpp_normalize_of_unit. unfold MainCpp.dot. simpl. lra. Qed.

Lemma cpp_normalize_e3 :
  MainCpp.normalize (MainCpp.mkPoint 0 0 1) = MainCpp.mkPoint 0 0 1.
Proof. apply cpp_normalize_of_unit. unfold MainCpp.dot. simpl. lra. Qed.

Lemma cpp_angle_e1_e3 :
  acos (MainCpp.clamp (MainCpp.dot (MainCpp.mkPoint 1 0 0)
                                   (MainCpp.mkPoint 0 0 1))) = PI / 2.
Proof.
  replace (MainCpp.dot _ _) with 0 by (unfold MainCpp.dot; simpl; lra).
  rewrite cpp_clamp_id by lra. apply acos_0.
Qed.

Lemma cpp_angle_e3_e1 :
  acos (MainCpp.clamp (MainCpp.dot (MainCpp.mkPoint 0 0 1)
                                   (MainCpp.mkPoint 1 0 0))) = PI / 2.
Proof.
  replace (MainCpp.dot _ _) with 0 by (unfold MainCpp.dot; simpl; lra).
  rewrite cpp_clamp_id by lra. apply acos_0.
Qed.

(** The great circle from the first airport's direction to the pole's. *)
Lemma cpp_point_e1_e3 t :
  MainCpp.point_at_angle_on_great_circle
    (MainCpp.mkPoint 1 0 0) (MainCpp.mkPoint 0 0 1) t
  = MainCpp.mkPoint (cos t) 0 (sin t).
Proof.
  pose proof PI_tight as HP.
  unfold MainCpp.point_at_angle_on_great_circle.
  rewrite cpp_normalize_e1, cpp_normalize_e3, cpp_angle_e1_e3.
  destruct (Rlt_dec (PI / 2) MainCpp.EPS) as [H|_];
    [unfold MainCpp.EPS in H; lra|].
  replace (MainCpp.psub _ _) with (MainCpp.mkPoint 0 0 1)
    by (unfold MainCpp.psub, MainCpp.pmul, MainCpp.dot; simpl; f_equal; lra).
  rewrite cpp_normalize_e3.
  unfold MainCpp.padd, MainCpp.pmul. simpl. f_equal; lra.
Qed.

Lemma cpp_point_pole_origin t :
  MainCpp.point_at_angle_on_great_circle
    (MainCpp.mkPoint 0 0 6370) (MainCpp.mkPoint 6370 0 0) t
  = MainCpp.mkPoint (sin t) 0 (cos t).
Proof.
  pose proof PI_tight as HP.
  unfold MainCpp.point_at_angle_on_great_circle.
  rewrite cpp_normalize_scaled, cpp_normalize_pole, cpp_angle_e3_e1.
  destruct (Rlt_dec (PI / 2) MainCpp.EPS) as [H|_];
    [unfold MainCpp.EPS in H; lra|].
  replace (MainCpp.psub _ _) with (MainCpp.mkPoint 1 0 0)
    by (unfold MainCpp.psub, MainCpp.pmul, MainCpp.dot; simpl; f_equal; lra).
  rewrite cpp_normalize_e1.
  unfold MainCpp.padd, MainCpp.pmul. simpl. f_equal; lra.
Qed.

Lemma cpp_dist_from_unit a b c k :
  a * a + b * b + c * c = 1 ->
  MainCpp.dot (MainCpp.mkPoint a b c) (MainCpp.normalize k) = / sqrt 2 ->
  MainCpp.dist_xyz (MainCpp.mkPoint a b c) k = PI / 4 * MainCpp.R_earth.
Proof.
  intros Hu Hd. unfold MainCpp.dist_xyz.
  rewrite (cpp_normalize_of_unit (MainCpp.mkPoint a b c))
    by (unfold MainCpp.dot; simpl; exact Hu).
  rewrite Hd. pose proof inv_sqrt2_bounds as Hb.
  rewrite cpp_clamp_id by (unfold Rdiv in Hb; lra).
  now rewrite acos_inv_sqrt2.
Qed.

Lemma sin_cos_PI4_unit : sin (PI / 4) * sin (PI / 4) + 0 * 0
                         + cos (PI / 4) * cos (PI / 4) = 1.
Proof.
  pose proof (sin2_cos2 (PI / 4)) as H. unfold Rsqr in H. lra.
Qed.

(** The radius 6671 is a little more than a sixth of the circumference. *)
Lemma cpp_far_radius :
  PI / 3 < 6671 / MainCpp.R_earth < PI / 2 - 1 / 2.
Proof. pose proof PI_tight. unfold MainCpp.R_earth. lra. Qed.

Lemma cpp_far_cos : 2 / 5 <= cos (6671 / MainCpp.R_earth) <= 1 / 2.
Proof.
  pose proof PI_tight as HP. pose proof cpp_far_radius as Hr. split.
  - unfold MainCpp.R_earth.
    assert (H1 : -2 <= 6671 / 6370) by lra.
    assert (H2 : 6671 / 6370 <= 2) by lra.
    pose proof (pre_cos_bound (6671 / 6370) 0 H1 H2) as [Hl _].
    unfold cos_approx, cos_term, sum_f_R0 in Hl. simpl in Hl. lra.
  - rewrite <- cos_PI3. apply cos_decr_1; lra.
Qed.

(** One airport's disk holds the midpoint of the arc between the two
    airports, and its centre is a quarter turn from the arc's normal: the
    function answers by the midpoint alone. *)
Lemma cpp_far_intervals k :
  MainCpp.normalize k = MainCpp.mkPoint 1 0 0 \/
  MainCpp.normalize k = MainCpp.mkPoint 0 0 1 ->
  MainCpp.get_covered_intervals (MainCpp.mkPoint 0 0 6370)
                                (MainCpp.mkPoint 6370 0 0) k 6671
  = [(0, 1)].
Proof.
  intros Hk. pose proof PI_tight as HP. pose proof cpp_far_radius as Hr.
  unfold MainCpp.get_covered_intervals.
  rewrite cpp_normalize_scaled, cpp_normalize_pole, cpp_angle_e3_e1.
  destruct (Rlt_dec (PI / 2) MainCpp.EPS) as [H|_];
    [unfold MainCpp.EPS in H; lra|].
  replace (MainCpp.cross (MainCpp.mkPoint 0 0 1) (MainCpp.mkPoint 1 0 0))
    with (MainCpp.mkPoint 0 1 0)
    by (unfold MainCpp.cross; simpl; f_equal; lra).
  rewrite (cpp_normalize_of_unit (MainCpp.mkPoint 0 1 0))
    by (unfold MainCpp.dot; simpl; lra).
  assert (Hd : MainCpp.dot (MainCpp.normalize k) (MainCpp.mkPoint 0 1 0) = 0).
  { destruct Hk as [-> | ->]; unfold MainCpp.dot; simpl; lra. }
  rewrite Hd, Rabs_R0, cpp_clamp_id by lra. rewrite acos_0.
  destruct (Rle_dec (PI / 2) (6671 / MainCpp.R_earth + MainCpp.EPS)) as [H|_];
    [unfold MainCpp.EPS in H; lra|].
  replace (PI / 2 / 2) with (PI / 4) by lra.
  rewrite cpp_point_pole_origin.
  rewrite cpp_dist_from_unit.
  - destruct (Rle_dec _ _) as [_|H]; [reflexivity|].
    exfalso. apply H. unfold MainCpp.R_earth, MainCpp.EPS. lra.
  - apply sin_cos_PI4_unit.
  - destruct Hk as [-> | ->]; unfold MainCpp.dot; simpl;
      rewrite ?sin_PI4, ?cos_PI4; unfold Rdiv; lra.
Qed.

(** The arc between the two airports passes the sweep. *)
Lemma cpp_far_arc_safe :
  MainCpp.EPS <= MainCpp.dist_xyz (MainCpp.mkPoint 0 0 6370)
                                  (MainCpp.mkPoint 6370 0 0) /\
  MainCpp.all_intervals (MainCpp.mkPoint 0 0 6370) (MainCpp.mkPoint 6370 0 0)
    [MainCpp.mkPoint 6370 0 0; MainCpp.mkPoint 0 0 6370] 6671
  = [(0, 1); (0, 1)] /\
  MainCpp.is_arc_safe (MainCpp.mkPoint 0 0 6370) (MainCpp.mkPoint 6370 0 0)
    [MainCpp.mkPoint 6370 0 0; MainCpp.mkPoint 0 0 6370] 6671 = true.
Proof.
  pose proof PI_tight as HP.
  assert (Hi : MainCpp.all_intervals (MainCpp.mkPoint 0 0 6370)
                 (MainCpp.mkPoint 6370 0 0)
                 [MainCpp.mkPoint 6370 0 0; MainCpp.mkPoint 0 0 6370] 6671
               = [(0, 1); (0, 1)]).
  { unfold MainCpp.all_intervals. cbn [flat_map].
    rewrite !cpp_far_intervals;
      [reflexivity|right; apply cpp_normalize_pole
      |left; apply cpp_normalize_scaled]. }
  split; [rewrite cpp_quarter_dist; unfold MainCpp.EPS; lra|].
  split; [exact Hi|].
  unfold MainCpp.is_arc_safe. rewrite cpp_quarter_dist.
  destruct (Rlt_dec _ MainCpp.EPS) as [H|_]; [unfold MainCpp.EPS in H; lra|].
  rewrite Hi. apply cpp_covers_complete.
  - intros iv [<-|[<-|[]]]; simpl; lra.
  - intros t Ht. exists (0, 1). split; [now left|simpl; lra].
Qed.

Lemma cpp_far_arg :
  0 < cos (6671 / MainCpp.R_earth) / cos (PI / 4) < 1 /\
  cos (PI / 4) * cos cpp_far_beta = cos (6671 / MainCpp.R_earth) /\
  7 / 10 <= sin cpp_far_beta /\
  MainCpp.EPS < cpp_far_beta.
Proof.
  pose proof cpp_far_cos as [Hc0 Hc1]. pose proof inv_sqrt2_bounds as Hb.
  pose proof cos_PI4_sqr as Hq. rewrite cos_PI4 in *.
  set (c := 1 / sqrt 2) in *. set (cr := cos (6671 / MainCpp.R_earth)) in *.
  assert (Hqc : cr / c * c = cr) by (field; lra).
  assert (Hq0 : 0 < cr / c) by (apply Rdiv_lt_0_compat; lra).
  assert (Hq1 : cr / c < 1) by nra.
  assert (Hcos : cos cpp_far_beta = cr / c).
  { unfold cpp_far_beta. rewrite cos_PI4. fold c. fold cr.
    apply cos_acos. lra. }
  assert (Hs0 : 0 <= sin cpp_far_beta).
  { apply sin_ge_0; apply acos_bound. }
  pose proof (sin2_cos2 cpp_far_beta) as Hsc. unfold Rsqr in Hsc.
  rewrite Hcos in Hsc.
  assert (Hsin : 7 / 10 <= sin cpp_far_beta) by nra.
  split; [lra|]. split; [rewrite Hcos; lra|]. split; [exact Hsin|].
  destruct (Rlt_dec MainCpp.EPS cpp_far_beta) as [H|H]; [exact H|].
  exfalso. unfold MainCpp.EPS in H.
  assert (Hb0 : 0 <= cpp_far_beta) by apply acos_bound.
  destruct (Req_dec cpp_far_beta 0) as [E|E].
  - rewrite E, sin_0 in Hsin. lra.
  - pose proof (sin_lt_x cpp_far_beta). lra.
Qed.

Lemma cpp_far_intersections :
  MainCpp.get_small_circle_intersections
    (MainCpp.mkPoint 6370 0 0) (MainCpp.mkPoint 0 0 6370) 6671
  = [Some (cpp_far_point 1); Some (cpp_far_point (-1))].
Proof.
  pose proof PI_tight as HP. pose proof cpp_far_radius as Hr.
  pose proof cpp_far_arg as [[Hq0 Hq1] [Hcb [Hsb Hbe]]].
  pose proof (cpp_intersections_explicit
                (MainCpp.mkPoint 6370 0 0) (MainCpp.mkPoint 0 0 6370) 6671)
    as [_ H].
  cbv zeta in H.
  rewrite cpp_normalize_scaled, cpp_normalize_pole, cpp_angle_e1_e3 in H.
  replace (PI / 2 / 2) with (PI / 4) in H by lra.
  rewrite cpp_point_e1_e3 in H.
  destruct (Rgt_dec _ (1 + MainCpp.EPS)) as [G|_] in H;
    [unfold MainCpp.EPS in G; lra|].
  destruct (Rlt_dec _ (-1 - MainCpp.EPS)) as [G|_] in H;
    [unfold MainCpp.EPS in G; lra|].
  unfold acos_nan in H.
  destruct (Rle_dec (-1) _) as [_|G] in H; [|lra].
  destruct (Rle_dec _ 1) as [_|G] in H; [|lra].
  fold cpp_far_beta in H.
  destruct H as [_ H]; [unfold MainCpp.EPS; lra|unfold MainCpp.EPS; lra|].
  rewrite (H Hbe). clear H.
  assert (HO : MainCpp.normalize
                 (MainCpp.cross (MainCpp.mkPoint (cos (PI / 4)) 0 (sin (PI / 4)))
                    (MainCpp.psub (MainCpp.mkPoint 1 0 0) (MainCpp.mkPoint 0 0 1)))
               = MainCpp.mkPoint 0 1 0).
  { rewrite sin_PI4, cos_PI4. pose proof inv_sqrt2_bounds as Hb.
    set (c := 1 / sqrt 2) in *.
    assert (Hc2 : c * c = 1 / 2).
    { pose proof cos_PI4_sqr as Hq. now rewrite cos_PI4 in Hq. }
    unfold MainCpp.normalize, MainCpp.magnitude, MainCpp.cross, MainCpp.psub,
      MainCpp.dot, MainCpp.pdiv. cbn [MainCpp.x MainCpp.y MainCpp.z].
    replace (sqrt _) with (2 * c).
    - destruct (Rlt_dec (2 * c) MainCpp.EPS) as [G|_];
        [unfold MainCpp.EPS in G; lra|].
      f_equal; field; lra.
    - symmetry. replace ((0 * (0 - 1) - c * (0 - 0)) * (0 * (0 - 1) - c * (0 - 0))
                         + (c * (1 - 0) - c * (0 - 1)) * (c * (1 - 0) - c * (0 - 1))
                         + (c * (0 - 0) - 0 * (1 - 0)) * (c * (0 - 0) - 0 * (1 - 0)))
        with ((2 * c) * (2 * c)) by ring.
      apply sqrt_square. lra. }
  rewrite HO. unfold cpp_far_point, MainCpp.pmul, MainCpp.padd, MainCpp.psub.
  cbn [MainCpp.x MainCpp.y MainCpp.z]. rewrite sin_PI4, <- cos_PI4, Hcb.
  f_equal.
  - f_equal. f_equal; ring.
  - f_equal. f_equal. f_equal; ring.
Qed.

Lemma cpp_far_vertices :
  MainCpp.vertices (MainCpp.airports_of [(0, 0); (0, 90)]) 6671
  = [MainCpp.mkPoint 0 0 6370; cpp_far_point (-1); cpp_far_point 1;
     MainCpp.mkPoint 6370 0 0].
Proof.
  pose proof cpp_far_cos as [Hc0 Hc1].
  pose proof cpp_far_arg as [_ [_ [Hsb _]]].
  unfold MainCpp.vertices, MainCpp.airports_of. simpl map.
  rewrite cpp_lat_lon_origin, cpp_lat_lon_pole.
  cbn [MainCpp.pair_intersections flat_map app].
  rewrite cpp_far_intersections.
  cbn [fold_left MainCpp.set_insert MainCpp.set_insert_opt app].
  destruct (cpp_Compare_x_lt (MainCpp.mkPoint 0 0 6370)
                             (MainCpp.mkPoint 6370 0 0)) as [A1 A2];
    [unfold MainCpp.EPS; simpl; lra|].
  rewrite A1.
  destruct (cpp_Compare_x_lt (MainCpp.mkPoint 0 0 6370) (cpp_far_point 1))
    as [B1 B2]; [unfold cpp_far_point, MainCpp.EPS, MainCpp.R_earth in *;
     cbn [MainCpp.x MainCpp.y MainCpp.z]; lra|].
  destruct (cpp_Compare_x_lt (cpp_far_point 1) (MainCpp.mkPoint 6370 0 0))
    as [C1 C2]; [unfold cpp_far_point, MainCpp.EPS, MainCpp.R_earth in *;
     cbn [MainCpp.x MainCpp.y MainCpp.z]; lra|].
  destruct (cpp_Compare_x_lt (MainCpp.mkPoint 0 0 6370) (cpp_far_point (-1)))
    as [D1 D2]; [unfold cpp_far_point, MainCpp.EPS, MainCpp.R_earth in *;
     cbn [MainCpp.x MainCpp.y MainCpp.z]; lra|].
  destruct (cpp_Compare_y_lt (cpp_far_point (-1)) (cpp_far_point 1))
    as [E1 E2];
    [reflexivity
    |unfold cpp_far_point, MainCpp.EPS, MainCpp.R_earth in *;
     cbn [MainCpp.x MainCpp.y MainCpp.z]; lra|].
  cbn [MainCpp.set_insert]. rewrite B2, B1. cbn [MainCpp.set_insert].
  rewrite C1. cbn [fold_left MainCpp.set_insert MainCpp.set_insert_opt].
  rewrite D2, D1, E1. reflexivity.
Qed.

Lemma cpp_far_idx :
  MainCpp.airport_to_vertex_idx
    (MainCpp.airports_of [(0, 0); (0, 90)])
    (MainCpp.vertices (MainCpp.airports_of [(0, 0); (0, 90)]) 6671) 0 = 3%nat
  /\ MainCpp.airport_to_vertex_idx
       (MainCpp.airports_of [(0, 0); (0, 90)])
       (MainCpp.vertices (MainCpp.airports_of [(0, 0); (0, 90)]) 6671) 1
     = 0%nat.
Proof.
  pose proof cpp_far_cos as [Hc0 Hc1].
  rewrite cpp_far_vertices.
  unfold MainCpp.airport_to_vertex_idx, MainCpp.airports_of. simpl map.
  rewrite cpp_lat_lon_origin, cpp_lat_lon_pole. cbn [nth].
  destruct (cpp_Compare_x_lt (MainCpp.mkPoint 0 0 6370)
                             (MainCpp.mkPoint 6370 0 0)) as [A1 A2];
    [unfold MainCpp.EPS; simpl; lra|].
  destruct (cpp_Compare_x_lt (cpp_far_point 1) (MainCpp.mkPoint 6370 0 0))
    as [C1 C2]; [unfold cpp_far_point, MainCpp.EPS, MainCpp.R_earth in *;
     cbn [MainCpp.x MainCpp.y MainCpp.z]; lra|].
  destruct (cpp_Compare_x_lt (cpp_far_point (-1)) (MainCpp.mkPoint 6370 0 0))
    as [F1 F2]; [unfold cpp_far_point, MainCpp.EPS, MainCpp.R_earth in *;
     cbn [MainCpp.x MainCpp.y MainCpp.z]; lra|].
  split.
  - cbn [MainCpp.find_vertex]. rewrite A1, A2, C1, C2, F1, F2.
    rewrite cpp_Compare_irrefl. reflexivity.
  - cbn [MainCpp.find_vertex]. rewrite cpp_Compare_irrefl. reflexivity.
Qed.

Lemma cpp_far_adj_init :
  MainCpp.adj_init
    (MainCpp.vertices (MainCpp.airports_of [(0, 0); (0, 90)]) 6671)
    (MainCpp.airports_of [(0, 0); (0, 90)]) 6671 3 0
  = MainCpp.Fin (PI / 2 * 6370).
Proof.
  rewrite cpp_far_vertices.
  unfold MainCpp.adj_init, MainCpp.airports_of. simpl map.
  rewrite cpp_lat_lon_origin, cpp_lat_lon_pole. simpl.
  destruct cpp_far_arc_safe as [Hd [_ Hs]].
  rewrite Hs, cpp_quarter_dist.
  destruct (Rlt_dec _ MainCpp.EPS); reflexivity.
Qed.

Lemma cpp_far_adj_aux :
  exists d, MainCpp.adj_aux 6671 [(0, 0); (0, 90)] 3 0 = MainCpp.Fin d /\
            d <= PI / 2 * 6370.
Proof.
  pose proof (cpp_floyd_below_W
                (length (MainCpp.vertices
                           (MainCpp.airports_of [(0, 0); (0, 90)]) 6671))
                (MainCpp.adj_init
                   (MainCpp.vertices (MainCpp.airports_of [(0, 0); (0, 90)]) 6671)
                   (MainCpp.airports_of [(0, 0); (0, 90)]) 6671)
                (cpp_adj_init_nonneg _ _ _)
                (fun i => cpp_adj_init_diag _ _ _ i) 3 0) as H.
  rewrite cpp_far_adj_init in H. unfold MainCpp.adj_aux.
  destruct (MainCpp.floyd_warshall _ _ 3 0) as [d|]; [|contradiction].
  exists d. split; [reflexivity|exact H].
Qed.

(** With a capacity of at least 10006 the query from the first airport to
    the second is answered with a distance. *)
Lemma cpp_far_query c :
  10006 <= c ->
  exists d, MainCpp.run_query 6671 [(0, 0); (0, 90)] 1 2 c = Distance d.
Proof.
  intros Hc. pose proof PI_tight as HP.
  destruct cpp_far_adj_aux as [d0 [Hd0 Hle]].
  destruct cpp_far_idx as [I0 I1].
  destruct (MainCpp.run_query 6671 [(0, 0); (0, 90)] 1 2 c) as [|d] eqn:E;
    [|now exists d].
  exfalso. apply cpp_query_impossible_iff in E; [|simpl; lia..].
  apply E. exists []. split; [constructor|].
  change (hop_cpp (MainCpp.adj_aux 6671 [(0, 0); (0, 90)])
            (MainCpp.airport_to_vertex_idx
               (MainCpp.airports_of [(0, 0); (0, 90)])
               (MainCpp.vertices (MainCpp.airports_of [(0, 0); (0, 90)]) 6671))
            c 0 1).
  right. rewrite I0, I1, Hd0. apply Rleb_true. unfold MainCpp.EPS. lra.
Qed.

(** ** Touching safety circles in main.c *)






(** ** Three airports chained within [EPS] (main.cpp) *)

Lemma tiny_angle_bounds t :
  0 <= t <= 1e-12 ->
  1 - 1e-24 <= cos t <= 1 /\ t * (1 - 1e-24) <= sin t <= t.
Proof.
  intros [H0 H1].
  assert (A1 : -2 <= t) by lra. assert (A2 : t <= 2) by lra.
  assert (A3 : t <= 4) by lra.
  pose proof (pre_cos_bound t 0 A1 A2) as [Hc _].
  pose proof (pre_sin_bound t 0 H0 A3) as [Hs _].
  unfold cos_approx, cos_term, sin_approx, sin_term, sum_f_R0 in Hc, Hs.
  simpl in Hc, Hs.
  pose proof (COS_bound t) as [_ Hc1].
  assert (Hsx : sin t <= t).
  { destruct (Req_dec t 0) as [->|Hn]; [rewrite sin_0; lra|].
    pose proof (sin_lt_x t). lra. }
  assert (Ht2 : t * t <= 1e-24) by nra.
  split; [split; nra|]. split; [nra|exact Hsx].
Qed.

Lemma acos_below e d :
  0 < e <= PI -> cos e < d -> acos (MainCpp.clamp d) < e.
Proof.
  intros He Hd. pose proof (COS_bound e) as [Hl Hu].
  assert (H1 : cos e < 1).
  { rewrite <- cos_0. apply cos_decreasing_1; lra. }
  set (c := MainCpp.clamp d).
  assert (Hc : -1 <= c <= 1) by apply cpp_clamp_domain.
  assert (Hce : cos e < c).
  { unfold c, MainCpp.clamp, Rmax, Rmin.
    destruct (Rle_dec 1 d); destruct (Rle_dec (-1) _); lra. }
  destruct (Rlt_dec (acos c) e) as [H|H]; [exact H|].
  exfalso. pose proof (acos_bound c) as [Ha0 Ha1].
  assert (cos (acos c) <= cos e) by (apply cos_decr_1; lra).
  rewrite cos_acos in H0 by exact Hc. lra.
Qed.

Lemma cos_EPS_below : cos MainCpp.EPS < 1 - 4e-19.
Proof.
  unfold MainCpp.EPS.
  assert (A1 : -2 <= 1e-9) by lra. assert (A2 : 1e-9 <= 2) by lra.
  pose proof (pre_cos_bound 1e-9 0 A1 A2) as [_ Hu].
  unfold cos_approx, cos_term, sum_f_R0 in Hu. simpl in Hu. lra.
Qed.

Lemma cpp_Compare_by_y p q :
  Rabs (MainCpp.x p - MainCpp.x q) <= MainCpp.EPS ->
  MainCpp.y p < MainCpp.y q - MainCpp.EPS ->
  MainCpp.Compare p q = true /\ MainCpp.Compare q p = false.
Proof.
  intros Hx Hy.
  assert (Hx' : Rabs (MainCpp.x q - MainCpp.x p) <= MainCpp.EPS)
    by (rewrite Rabs_minus_sym; exact Hx).
  unfold MainCpp.Compare, MainCpp.EPS in *. split.
  - destruct (Rgt_dec (Rabs (MainCpp.x p - MainCpp.x q)) 1e-9); [lra|].
    destruct (Rgt_dec (Rabs (MainCpp.y p - MainCpp.y q)) 1e-9) as [G|G].
    + apply Rltb_true. lra.
    + exfalso. apply G. rewrite Rabs_left; lra.
  - destruct (Rgt_dec (Rabs (MainCpp.x q - MainCpp.x p)) 1e-9); [lra|].
    destruct (Rgt_dec (Rabs (MainCpp.y q - MainCpp.y p)) 1e-9) as [G|G].
    + apply Rltb_false. lra.
    + exfalso. apply G. rewrite Rabs_right; lra.
Qed.

Lemma cpp_Compare_by_z p q :
  Rabs (MainCpp.x p - MainCpp.x q) <= MainCpp.EPS ->
  Rabs (MainCpp.y p - MainCpp.y q) <= MainCpp.EPS ->
  MainCpp.z p < MainCpp.z q - MainCpp.EPS ->
  MainCpp.Compare p q = true /\ MainCpp.Compare q p = false.
Proof.
  intros Hx Hy Hz.
  assert (Hx' : Rabs (MainCpp.x q - MainCpp.x p) <= MainCpp.EPS)
    by (rewrite Rabs_minus_sym; exact Hx).
  assert (Hy' : Rabs (MainCpp.y q - MainCpp.y p) <= MainCpp.EPS)
    by (rewrite Rabs_minus_sym; exact Hy).
  unfold MainCpp.Compare, MainCpp.EPS in *. split.
  - destruct (Rgt_dec (Rabs (MainCpp.x p - MainCpp.x q)) 1e-9); [lra|].
    destruct (Rgt_dec (Rabs (MainCpp.y p - MainCpp.y q)) 1e-9); [lra|].
    apply Rltb_true. lra.
  - destruct (Rgt_dec (Rabs (MainCpp.x q - MainCpp.x p)) 1e-9); [lra|].
    destruct (Rgt_dec (Rabs (MainCpp.y q - MainCpp.y p)) 1e-9); [lra|].
    apply Rltb_false. lra.
Qed.

Lemma Rabs_le_of a b e : a - b <= e -> b - a <= e -> Rabs (a - b) <= e.
Proof. intros H1 H2. unfold Rabs. destruct (Rcase_abs (a - b)); lra. Qed.

(** The position of an airport at latitude [-1.8e-11] degrees and a
    longitude of at most [2e-11] degrees. *)
Lemma cpp_chain_coords lon :
  0 <= lon <= 2e-11 ->
  let P := MainCpp.lat_lon_to_xyz (-1.8e-11) lon in
  let l := lon * PI / 180 in
  6370 - 1e-19 <= MainCpp.x P <= 6370 /\
  6370 * l * (1 - 3e-24) <= MainCpp.y P <= 6370 * l /\
  -2.0013e-9 <= MainCpp.z P <= -2.0010e-9.
Proof.
  intros Hl P l. pose proof PI_tight as HP.
  unfold P, MainCpp.lat_lon_to_xyz, MainCpp.R_earth.
  cbn [MainCpp.x MainCpp.y MainCpp.z]. fold l.
  replace (-1.8e-11 * PI / 180) with (- (1.8e-11 * PI / 180)) by lra.
  rewrite cos_neg, sin_neg.
  set (f := 1.8e-11 * PI / 180).
  assert (Hf : 3.1415e-13 <= f <= 3.1417e-13) by (unfold f; lra).
  assert (Hl' : 0 <= l <= 1e-12) by (unfold l; nra).
  destruct (tiny_angle_bounds f) as [[Hc0 Hc1] [Hs0 Hs1]]; [lra|].
  destruct (tiny_angle_bounds l) as [[Hd0 Hd1] [Ht0 Ht1]]; [exact Hl'|].
  set (cf := cos f) in *. set (sf := sin f) in *.
  set (cl := cos l) in *. set (sl := sin l) in *.
  assert (Hsl0 : 0 <= sl) by nra.
  split; [split; nra|]. split; [split; nra|]. split; nra.
Qed.

(** The angle between two such airports, or between one of them and the
    airport at (0, 0), is below [EPS]: their circles give no vertex. *)
Lemma cpp_chain_direction lon :
  0 <= lon <= 2e-11 ->
  exists a b c,
    MainCpp.normalize (MainCpp.lat_lon_to_xyz (-1.8e-11) lon)
    = MainCpp.mkPoint a b c /\
    1 - 2e-24 <= a <= 1 /\ 0 <= b <= 1e-12 /\ -1e-12 <= c <= 0.
Proof.
  intros Hl. pose proof PI_tight as HP.
  rewrite cpp_lat_lon_direction. unfold MainC.sph2vec.
  cbn [MainC.x MainC.y MainC.z].
  replace (-1.8e-11 * PI / 180) with (- (1.8e-11 * PI / 180)) by lra.
  rewrite cos_neg, sin_neg.
  set (l := lon * PI / 180). set (f := 1.8e-11 * PI / 180).
  assert (Hf : 3.1415e-13 <= f <= 3.1417e-13) by (unfold f; lra).
  assert (Hl' : 0 <= l <= 1e-12) by (unfold l; nra).
  destruct (tiny_angle_bounds f) as [[Hc0 Hc1] [Hs0 Hs1]]; [lra|].
  destruct (tiny_angle_bounds l) as [[Hd0 Hd1] [Ht0 Ht1]]; [exact Hl'|].
  do 3 eexists. split; [reflexivity|].
  set (cf := cos f) in *. set (sf := sin f) in *.
  set (cl := cos l) in *. set (sl := sin l) in *.
  assert (Hsl0 : 0 <= sl) by nra.
  split; [split; nra|]. split; [split; nra|]. split; nra.
Qed.

Lemma cpp_close_no_intersection c1 c2 R_sphere :
  1 - 4e-19 <= MainCpp.dot (MainCpp.normalize c1) (MainCpp.normalize c2) ->
  MainCpp.get_small_circle_intersections c1 c2 R_sphere = [].
Proof.
  intros Hd. pose proof PI_tight as HP. pose proof cos_EPS_below as HE.
  pose proof (cpp_intersections_cases c1 c2 R_sphere) as [H _].
  apply H. right. apply acos_below; [unfold MainCpp.EPS; lra|lra].
Qed.

(** main.cpp on the chained airports, radius 100: the set keeps all
    three, the third (placed first) without ever being compared with the
    second, which it is equivalent to. *)
Lemma cpp_chain_vertices :
  MainCpp.vertices (MainCpp.airports_of cpp_chain) 100
  = [MainCpp.lat_lon_to_xyz (-1.8e-11) 5.4e-12;
     MainCpp.mkPoint 6370 0 0;
     MainCpp.lat_lon_to_xyz (-1.8e-11) 1.35e-11] /\
  ~ apart (MainCpp.lat_lon_to_xyz (-1.8e-11) 5.4e-12)
          (MainCpp.lat_lon_to_xyz (-1.8e-11) 1.35e-11).
Proof.
  pose proof PI_tight as HP.
  assert (LQ : 0 <= 1.35e-11 <= 2e-11) by lra.
  assert (LA : 0 <= 5.4e-12 <= 2e-11) by lra.
  pose proof (cpp_chain_coords 1.35e-11 LQ) as [[Qx0 Qx1] [[Qy0 Qy1] [Qz0 Qz1]]].
  pose proof (cpp_chain_coords 5.4e-12 LA) as [[Ax0 Ax1] [[Ay0 Ay1] [Az0 Az1]]].
  cbv zeta in *.
  destruct (cpp_chain_direction 1.35e-11 LQ)
    as [qa [qb [qc [HQn [[Qa0 Qa1] [[Qb0 Qb1] [Qc0 Qc1]]]]]]].
  destruct (cpp_chain_direction 5.4e-12 LA)
    as [aa [ab [ac [HAn [[Aa0 Aa1] [[Ab0 Ab1] [Ac0 Ac1]]]]]]].
  set (Q := MainCpp.lat_lon_to_xyz (-1.8e-11) 1.35e-11) in *.
  set (A := MainCpp.lat_lon_to_xyz (-1.8e-11) 5.4e-12) in *.
  set (P0 := MainCpp.mkPoint 6370 0 0).
  assert (I1 : MainCpp.get_small_circle_intersections P0 Q 100 = []).
  { apply cpp_close_no_intersection. unfold P0.
    rewrite cpp_normalize_scaled, HQn. unfold MainCpp.dot.
    cbn [MainCpp.x MainCpp.y MainCpp.z]. lra. }
  assert (I2 : MainCpp.get_small_circle_intersections P0 A 100 = []).
  { apply cpp_close_no_intersection. unfold P0.
    rewrite cpp_normalize_scaled, HAn. unfold MainCpp.dot.
    cbn [MainCpp.x MainCpp.y MainCpp.z]. lra. }
  assert (I3 : MainCpp.get_small_circle_intersections Q A 100 = []).
  { apply cpp_close_no_intersection. rewrite HQn, HAn. unfold MainCpp.dot.
    cbn [MainCpp.x MainCpp.y MainCpp.z]. nra. }
  destruct (cpp_Compare_by_y P0 Q) as [C1 C2].
  { apply Rabs_le_of; unfold P0, MainCpp.EPS;
      cbn [MainCpp.x MainCpp.y MainCpp.z]; lra. }
  { unfold P0, MainCpp.EPS. cbn [MainCpp.x MainCpp.y MainCpp.z]. lra. }
  destruct (cpp_Compare_by_z A P0) as [C3 C4].
  { apply Rabs_le_of; unfold P0, MainCpp.EPS;
      cbn [MainCpp.x MainCpp.y MainCpp.z]; lra. }
  { apply Rabs_le_of; unfold P0, MainCpp.EPS;
      cbn [MainCpp.x MainCpp.y MainCpp.z]; lra. }
  { unfold P0, MainCpp.EPS. cbn [MainCpp.x MainCpp.y MainCpp.z]. lra. }
  split.
  - unfold MainCpp.vertices, MainCpp.airports_of, cpp_chain.
    cbn [map fst snd]. rewrite cpp_lat_lon_origin. fold Q A P0.
    cbn [MainCpp.pair_intersections flat_map app].
    rewrite I1, I2, I3.
    cbn [app fold_left MainCpp.set_insert MainCpp.set_insert_opt].
    rewrite C2, C1. cbn [MainCpp.set_insert]. rewrite C3. reflexivity.
  - unfold apart, MainCpp.EPS. intros [H|[H|H]].
    + assert (Rabs (MainCpp.x A - MainCpp.x Q) <= 1e-9)
        by (apply Rabs_le_of; lra). lra.
    + assert (Rabs (MainCpp.y A - MainCpp.y Q) <= 1e-9)
        by (apply Rabs_le_of; lra). lra.
    + assert (Rabs (MainCpp.z A - MainCpp.z Q) <= 1e-9)
        by (apply Rabs_le_of; lra). lra.
Qed.

(** ** Two airports at one place and a third far away (main.cpp) *)

(** Two airports at the same place and one a quarter turn away, radius
    100: no circles meet, and [Point::Compare] is a strict weak ordering
    on the three positions. *)
Lemma cpp_twin_and_pole_candidates :
  candidates [MainCpp.mkPoint 6370 0 0; MainCpp.mkPoint 6370 0 0;
              MainCpp.mkPoint 0 0 6370] 100
  = [MainCpp.mkPoint 6370 0 0; MainCpp.mkPoint 6370 0 0;
     MainCpp.mkPoint 0 0 6370].
Proof.
  unfold candidates. cbn [MainCpp.pair_intersections flat_map app].
  rewrite cpp_twin_no_intersection by lra.
  rewrite cpp_quarter_no_intersection. reflexivity.
Qed.

Lemma cpp_twin_and_pole_ordered :
  Compare_transitive_on
    [MainCpp.mkPoint 6370 0 0; MainCpp.mkPoint 6370 0 0;
     MainCpp.mkPoint 0 0 6370] /\
  cpp_equiv_transitive_on
    [MainCpp.mkPoint 6370 0 0; MainCpp.mkPoint 6370 0 0;
     MainCpp.mkPoint 0 0 6370].
Proof.
  destruct cpp_quarter_Compare as [H1 H2].
  pose proof (cpp_Compare_irrefl (MainCpp.mkPoint 6370 0 0)) as H3.
  pose proof (cpp_Compare_irrefl (MainCpp.mkPoint 0 0 6370)) as H4.
  split.
  - intros p q r Hp Hq Hr Hpq Hqr.
    destruct Hp as [<-|[<-|[<-|[]]]]; destruct Hq as [<-|[<-|[<-|[]]]];
      destruct Hr as [<-|[<-|[<-|[]]]]; congruence.
  - intros p q r Hp Hq Hr [Hpq Hqp] [Hqr Hrq].
    destruct Hp as [<-|[<-|[<-|[]]]]; destruct Hq as [<-|[<-|[<-|[]]]];
      destruct Hr as [<-|[<-|[<-|[]]]]; split; congruence.
Qed.

(** The set keeps one of the two equal positions. *)
Lemma cpp_twin_and_pole_vertices :
  MainCpp.vertices [MainCpp.mkPoint 6370 0 0; MainCpp.mkPoint 6370 0 0;
                    MainCpp.mkPoint 0 0 6370] 100
  = [MainCpp.mkPoint 0 0 6370; MainCpp.mkPoint 6370 0 0].
Proof.
  unfold MainCpp.vertices.
  cbn [MainCpp.pair_intersections flat_map app].
  rewrite cpp_twin_no_intersection by lra.
  rewrite cpp_quarter_no_intersection.
  cbn [app fold_left MainCpp.set_insert MainCpp.set_insert_opt].
  destruct cpp_quarter_Compare as [H1 H2].
  rewrite cpp_Compare_irrefl. cbn [MainCpp.set_insert].
  now rewrite H1.
Qed.

(** ** The claims on these scenarios *)


Lemma safe_distance_matrix_metric_witness :
  (MainC.D_final 10000 [(0, 0); (0, 90)] 0 1
   = MainC.D_final 10000 [(0, 0); (0, 90)] 1 0 /\
   MainC.D_final 10000 [(0, 0); (0, 90)] 0 0 = 0 /\
   MainC.D_final 10000 [(0, 0); (0, 90)] 0 1
   <= MainC.D_final 10000 [(0, 0); (0, 90)] 0 2
      + MainC.D_final 10000 [(0, 0); (0, 90)] 2 1) /\
  (MainCpp.adj_aux 6671 [(0, 0); (0, 90)] 3 0
   = MainCpp.adj_aux 6671 [(0, 0); (0, 90)] 0 3 /\
   MainCpp.adj_aux 6671 [(0, 0); (0, 90)] 3 3 = MainCpp.Fin 0 /\
   ele (MainCpp.adj_aux 6671 [(0, 0); (0, 90)] 3 0)
       (MainCpp.eadd (MainCpp.adj_aux 6671 [(0, 0); (0, 90)] 3 1)
                     (MainCpp.adj_aux 6671 [(0, 0); (0, 90)] 1 0))).
Proof.
  destruct safe_distance_matrix_metric as [Hc Hcpp]. split.
  - destruct c_far_nodes as [P1 [P2 HV]].
    apply (Hc 10000%Z [(0, 0); (0, 90)] 0%nat 1%nat 2%nat);
      rewrite HV; simpl; lia.
  - apply (Hcpp 6671 [(0, 0); (0, 90)] 3%nat 0%nat 1%nat);
      rewrite cpp_far_vertices; simpl; lia.
Defined.

Lemma query_monotone_in_capacity_witness :
  (exists d1 d2,
      MainC.run_query 10000 [(0, 0); (0, 90)] 1 2 10010 = Distance d1 /\
      MainC.run_query 10000 [(0, 0); (0, 90)] 1 2 20000 = Distance d2 /\
      d2 <= d1) /\
  (exists d1 d2,
      MainCpp.run_query 6671 [(0, 0); (0, 90)] 1 2 10010 = Distance d1 /\
      MainCpp.run_query 6671 [(0, 0); (0, 90)] 1 2 20000 = Distance d2 /\
      d2 <= d1).
Proof.
  destruct query_monotone_in_capacity as [Hc Hcpp]. split.
  - destruct (c_far_query 10010) as [d1 H1]; [lra|].
    destruct (Hc 10000%Z [(0, 0); (0, 90)] 1%Z 2%Z 10010 20000 d1)
      as [d2 [H2 Hle]]; [simpl; lia|simpl; lia|lra|exact H1|].
    exists d1, d2. repeat split; assumption.
  - destruct (cpp_far_query 10010) as [d1 H1]; [lra|].
    destruct (Hcpp 6671 [(0, 0); (0, 90)] 1%Z 2%Z 10010 20000 d1)
      as [d2 [H2 Hle]]; [simpl; lia|simpl; lia|lra|exact H1|].
    exists d1, d2. repeat split; assumption.
Defined.



Lemma vertex_set_deduplication_witness :
  (length (MainCpp.vertices [MainCpp.mkPoint 6370 0 0; MainCpp.mkPoint 6370 0 0;
                             MainCpp.mkPoint 0 0 6370] 100) = 2%nat /\
   apart (MainCpp.mkPoint 0 0 6370) (MainCpp.mkPoint 6370 0 0)) /\
  nth 1 (MainC.node_list 100 [(0, 0); (0, 0)]) MainC.zero_vec
  = MainC.sph2vec 0 0.
Proof.
  destruct vertex_set_deduplication as [Hcpp Hc].
  destruct cpp_twin_and_pole_ordered as [Htr _]. split.
  - pose proof (Hcpp [MainCpp.mkPoint 6370 0 0; MainCpp.mkPoint 6370 0 0;
                      MainCpp.mkPoint 0 0 6370] 100 0%nat 1%nat) as H.
    rewrite cpp_twin_and_pole_candidates, cpp_twin_and_pole_vertices in H.
    rewrite cpp_twin_and_pole_vertices.
    split; [reflexivity|]. apply H; [exact Htr|simpl; lia].
  - apply (Hc 100%Z [(0, 0); (0, 0)] 1%nat). simpl. lia.
Defined.

(** C4 as stated fails in both programs.  main.c, radius 100 and two
    airports entered at the same place: two nodes at one position.
    main.cpp, radius 100 and the three airports of [cpp_chain]: the set
    keeps three vertices, and the first of them is within [EPS] of the
    third in every coordinate. *)
Lemma close_vertices_survive :
  (length (MainC.node_list 100 [(0, 0); (0, 0)]) = 2%nat /\
   nth 0 (MainC.node_list 100 [(0, 0); (0, 0)]) MainC.zero_vec
   = nth 1 (MainC.node_list 100 [(0, 0); (0, 0)]) MainC.zero_vec) /\
  (length (MainCpp.vertices (MainCpp.airports_of cpp_chain) 100) = 3%nat /\
   ~ apart (nth 0 (MainCpp.vertices (MainCpp.airports_of cpp_chain) 100)
                (MainCpp.mkPoint 0 0 0))
           (nth 2 (MainCpp.vertices (MainCpp.airports_of cpp_chain) 100)
                (MainCpp.mkPoint 0 0 0))).
Proof.
  split.
  - rewrite c_twin_nodes. split; reflexivity.
  - destruct cpp_chain_vertices as [HV Hc]. rewrite HV.
    split; [reflexivity|exact Hc].
Qed.

(** * Further properties of the two programs *)

(** ** Airports as vectors *)

(** X1.  [sph2vec] (main.c) returns a unit vector for every longitude
    and latitude; [lat_lon_to_xyz] (main.cpp) returns a vector of length
    [R_earth] that points in the same direction. *)
Theorem airport_vectors_unit_and_aligned (lon lat : R) :
  MainC.dot (MainC.sph2vec lon lat) (MainC.sph2vec lon lat) = 1 /\
  MainCpp.magnitude (MainCpp.lat_lon_to_xyz lat lon) = MainCpp.R_earth /\
  MainCpp.normalize (MainCpp.lat_lon_to_xyz lat lon)
  = MainCpp.mkPoint (MainC.x (MainC.sph2vec lon lat))
                    (MainC.y (MainC.sph2vec lon lat))
                    (MainC.z (MainC.sph2vec lon lat)).
Proof.
  split; [apply c_sph2vec_unit|].
  split; [apply cpp_lat_lon_magnitude|apply cpp_lat_lon_direction].
Qed.

(** X3.  main.c's [normalize] leaves the zero vector unchanged (no
    division by zero), turns every other vector into a unit vector, and
    is idempotent. *)
Theorem c_normalize_unit_or_zero (v : MainC.Vec) :
  MainC.normalize MainC.zero_vec = MainC.zero_vec /\
  (v <> MainC.zero_vec ->
   MainC.dot (MainC.normalize v) (MainC.normalize v) = 1) /\
  MainC.normalize (MainC.normalize v) = MainC.normalize v.
Proof.
  split; [apply c_normalize_zero|]. split; [|apply c_normalize_idem].
  intros Hv. apply c_normalize_nonzero. intros E. apply Hv.
  now apply c_dot_self_zero.
Qed.

(** X4.  main.cpp's [normalize] returns the zero vector for a vector
    shorter than [EPS], a unit vector for any other, and is idempotent. *)
Theorem cpp_normalize_unit_or_zero (p : MainCpp.Point) :
  (MainCpp.magnitude p < MainCpp.EPS ->
   MainCpp.normalize p = MainCpp.mkPoint 0 0 0) /\
  (MainCpp.EPS <= MainCpp.magnitude p ->
   MainCpp.dot (MainCpp.normalize p) (MainCpp.normalize p) = 1) /\
  MainCpp.normalize (MainCpp.normalize p) = MainCpp.normalize p.
Proof.
  split; [apply cpp_normalize_small|].
  split; [apply cpp_normalize_unit|apply cpp_normalize_idem].
Qed.

(** ** Boundary points (main.c) *)

(** X5.  For unit vectors [u] and [v] the pair loop of main.c appends no
    boundary point exactly when one of its first two guards fires
    ([cuv < cos (2 alpha) - 1e-12] or [Delta < 1e-15]); the third guard
    ([nl < 1e-15], line 113) never fires once [Delta >= 1e-15], because
    [nl] is the square root of [Delta]. *)
Theorem c_boundary_points_empty_iff (cosA alpha : R) (u v : MainC.Vec) :
  MainC.dot u u = 1 -> MainC.dot v v = 1 ->
  (MainC.boundary_points cosA alpha u v = []
   <-> (MainC.dot u v < cos (2 * alpha) - 1e-12
        \/ 1 - MainC.dot u v * MainC.dot u v < 1e-15)) /\
  (1e-15 <= 1 - MainC.dot u v * MainC.dot u v ->
   1e-15 <= MainC.norm (MainC.cross u v)).
Proof.
  intros Hu Hv. split; [now apply c_boundary_points_guards|].
  intros HD. now apply c_cross_norm_unit.
Qed.

Lemma c_boundary_points_empty_iff_witness :
  (MainC.boundary_points 1 0 (MainC.mkVec 1 0 0) (MainC.mkVec 0 0 1) = []
   <-> (MainC.dot (MainC.mkVec 1 0 0) (MainC.mkVec 0 0 1)
        < cos (2 * 0) - 1e-12
        \/ 1 - MainC.dot (MainC.mkVec 1 0 0) (MainC.mkVec 0 0 1)
               * MainC.dot (MainC.mkVec 1 0 0) (MainC.mkVec 0 0 1)
           < 1e-15)) /\
  (1e-15 <= 1 - MainC.dot (MainC.mkVec 1 0 0) (MainC.mkVec 0 0 1)
                * MainC.dot (MainC.mkVec 1 0 0) (MainC.mkVec 0 0 1) ->
   1e-15 <= MainC.norm (MainC.cross (MainC.mkVec 1 0 0) (MainC.mkVec 0 0 1))).
Proof.
  apply (c_boundary_points_empty_iff 1 0 (MainC.mkVec 1 0 0)
                                     (MainC.mkVec 0 0 1));
    unfold MainC.dot; cbn [MainC.x MainC.y MainC.z]; lra.
Defined.

(** X6.  When the safety circles of two unit vectors [u] and [v] meet
    ([cos (2 alpha) <= u . v]) and the vectors are not parallel
    ([Delta >= 1e-15]), main.c appends exactly two points; each is a
    unit vector at angle [alpha] from both [u] and [v], that is, a
    common point of the two circles. *)
Theorem c_boundary_points_lie_on_both_circles (alpha : R) (u v : MainC.Vec) :
  MainC.dot u u = 1 -> MainC.dot v v = 1 ->
  1e-15 <= 1 - MainC.dot u v * MainC.dot u v ->
  cos (2 * alpha) <= MainC.dot u v ->
  exists i1 i2,
    MainC.boundary_points (cos alpha) alpha u v = [i1; i2] /\
    (MainC.dot i1 i1 = 1 /\ MainC.dot i1 u = cos alpha
     /\ MainC.dot i1 v = cos alpha) /\
    (MainC.dot i2 i2 = 1 /\ MainC.dot i2 u = cos alpha
     /\ MainC.dot i2 v = cos alpha).
Proof. apply c_boundary_points_on_circles. Qed.

Lemma c_boundary_points_lie_on_both_circles_witness :
  exists i1 i2,
    MainC.boundary_points (cos (PI / 2)) (PI / 2)
                          (MainC.mkVec 1 0 0) (MainC.mkVec 0 0 1) = [i1; i2] /\
    (MainC.dot i1 i1 = 1 /\ MainC.dot i1 (MainC.mkVec 1 0 0) = cos (PI / 2)
     /\ MainC.dot i1 (MainC.mkVec 0 0 1) = cos (PI / 2)) /\
    (MainC.dot i2 i2 = 1 /\ MainC.dot i2 (MainC.mkVec 1 0 0) = cos (PI / 2)
     /\ MainC.dot i2 (MainC.mkVec 0 0 1) = cos (PI / 2)).
Proof.
  apply (c_boundary_points_lie_on_both_circles (PI / 2) (MainC.mkVec 1 0 0)
                                               (MainC.mkVec 0 0 1)).
  - unfold MainC.dot; cbn [MainC.x MainC.y MainC.z]; lra.
  - unfold MainC.dot; cbn [MainC.x MainC.y MainC.z]; lra.
  - unfold MainC.dot; cbn [MainC.x MainC.y MainC.z]; lra.
  - replace (2 * (PI / 2)) with PI by field. rewrite cos_PI.
    unfold MainC.dot; cbn [MainC.x MainC.y MainC.z]; lra.
Defined.

(** ** The interval of one airport (main.c) *)

(** X7.  For an arc of length [theta >= 0] one airport contributes at
    most two intervals, and every interval [(lo, hi)] it contributes
    satisfies [0 <= lo <= hi <= theta]. *)
Theorem c_coverage_intervals_in_range
        (abU abW Ai : MainC.Vec) (cosA theta : R) :
  0 <= theta ->
  (length (MainC.coverage abU abW Ai cosA theta) <= 2)%nat /\
  forall iv, In iv (MainC.coverage abU abW Ai cosA theta) ->
             0 <= fst iv /\ fst iv <= snd iv /\ snd iv <= theta.
Proof. apply c_coverage_shape. Qed.

Lemma c_coverage_intervals_in_range_witness :
  (length (MainC.coverage (MainC.mkVec 1 0 0) (MainC.mkVec 0 0 1)
                          (MainC.mkVec 1 0 0) 1 1) <= 2)%nat /\
  forall iv, In iv (MainC.coverage (MainC.mkVec 1 0 0) (MainC.mkVec 0 0 1)
                                   (MainC.mkVec 1 0 0) 1 1) ->
             0 <= fst iv /\ fst iv <= snd iv /\ snd iv <= 1.
Proof.
  apply (c_coverage_intervals_in_range (MainC.mkVec 1 0 0) (MainC.mkVec 0 0 1)
                                       (MainC.mkVec 1 0 0) 1 1).
  lra.
Defined.

(** X8.  For [cosA >= 1e-15] and an arc of length [theta] in [[0, PI]],
    the intervals main.c computes for one airport are the solutions of
    the inequality of its comments, [du cos t + dw sin t >= cosA] with
    [du = U . Ai] and [dw = W . Ai]: a parameter inside an interval
    satisfies it, and a parameter [t] in [(0, theta]] that satisfies it
    lies inside an interval. *)
Theorem c_coverage_solves_inequality
        (abU abW Ai : MainC.Vec) (cosA theta t : R) :
  1e-15 <= cosA -> 0 <= theta <= PI -> 0 <= t <= theta ->
  ((exists iv, In iv (MainC.coverage abU abW Ai cosA theta)
               /\ fst iv <= t <= snd iv) ->
   cosA <= MainC.dot abU Ai * cos t + MainC.dot abW Ai * sin t) /\
  (cosA <= MainC.dot abU Ai * cos t + MainC.dot abW Ai * sin t -> 0 < t ->
   exists iv, In iv (MainC.coverage abU abW Ai cosA theta)
              /\ fst iv <= t <= snd iv).
Proof. apply c_coverage_solves. Qed.

Lemma c_coverage_solves_inequality_witness :
  ((exists iv, In iv (MainC.coverage (MainC.mkVec 1 0 0) (MainC.mkVec 0 0 1)
                                     (MainC.mkVec 1 0 0) (1 / 2) 1)
               /\ fst iv <= 1 / 2 <= snd iv) ->
   1 / 2 <= MainC.dot (MainC.mkVec 1 0 0) (MainC.mkVec 1 0 0) * cos (1 / 2)
            + MainC.dot (MainC.mkVec 0 0 1) (MainC.mkVec 1 0 0)
              * sin (1 / 2)) /\
  (1 / 2 <= MainC.dot (MainC.mkVec 1 0 0) (MainC.mkVec 1 0 0) * cos (1 / 2)
            + MainC.dot (MainC.mkVec 0 0 1) (MainC.mkVec 1 0 0) * sin (1 / 2)
   -> 0 < 1 / 2 ->
   exists iv, In iv (MainC.coverage (MainC.mkVec 1 0 0) (MainC.mkVec 0 0 1)
                                    (MainC.mkVec 1 0 0) (1 / 2) 1)
              /\ fst iv <= 1 / 2 <= snd iv).
Proof.
  pose proof PI_tight as HP.
  apply (c_coverage_solves_inequality (MainC.mkVec 1 0 0) (MainC.mkVec 0 0 1)
                                      (MainC.mkVec 1 0 0) (1 / 2) 1 (1 / 2));
    lra.
Defined.

(** X9.  For a safety radius of at most a quarter of the circumference
    ([cosA >= 0]) the quotient main.c passes to [acos] at line 160 lies
    in [[0, 1]], although it is not clamped. *)
Theorem c_acos_argument_safe_for_small_radius
        (abU abW Ai : MainC.Vec) (cosA : R) :
  0 <= cosA ->
  match MainC.coverage_acos_arg abU abW Ai cosA with
  | Some a => 0 <= a <= 1
  | None => True
  end.
Proof.
  intros HA. destruct (MainC.coverage_acos_arg abU abW Ai cosA) eqn:E;
    [|exact I].
  eapply c_coverage_acos_safe; eassumption.
Qed.

Lemma c_acos_argument_safe_for_small_radius_witness :
  match MainC.coverage_acos_arg (MainC.mkVec 1 0 0) (MainC.mkVec 0 0 1)
                                (MainC.mkVec 1 0 0) 1 with
  | Some a => 0 <= a <= 1
  | None => True
  end.
Proof.
  apply (c_acos_argument_safe_for_small_radius
           (MainC.mkVec 1 0 0) (MainC.mkVec 0 0 1) (MainC.mkVec 1 0 0) 1).
  lra.
Defined.

(** ** Direct edges and the swept curve (main.c) *)

Lemma c_quarter_curve_safe t :
  0 <= t <= PI / 2 ->
  c_curve_safe [MainC.mkVec 1 0 2] 1
               (MainC.mkVec 1 0 0) (MainC.mkVec 0 0 1) t.
Proof.
  intros Ht. pose proof PI_tight as HP.
  exists (MainC.mkVec 1 0 2). split; [now left|].
  rewrite c_curve_dot, c_quarter_theta, c_quarter_basis_W.
  unfold MainC.dot. cbn [MainC.x MainC.y MainC.z].
  assert (Hc : 0 <= cos t) by (apply cos_ge_0; lra).
  assert (Hs : 0 <= sin t) by (apply sin_ge_0; lra).
  pose proof (sin2_cos2 t) as Hsc. unfold Rsqr in Hsc. nra.
Qed.

Lemma c_quarter_direct :
  MainC.direct [MainC.mkVec 1 0 2] 1 (MainC.mkVec 1 0 0) (MainC.mkVec 0 0 1)
  = MainC.theta_of (MainC.mkVec 1 0 0) (MainC.mkVec 0 0 1) * MainC.EARTH_R.
Proof.
  pose proof PI_tight as HP.
  apply c_direct_complete; [lra|rewrite c_quarter_theta; lra|].
  rewrite c_quarter_theta. intros t Ht. apply c_quarter_curve_safe. lra.
Qed.

(** X10.  Completeness of main.c's edge test, for [cosA >= 1e-15] and
    two nodes at least [1e-12] apart: if at every parameter [t] in
    [(0, theta_ab]] the point [cos t * U + sin t * W] of the swept curve
    satisfies [dot (P, Ai) >= cosA] for some airport, the pair gets the
    direct edge [theta_ab * EARTH_R]. *)
Theorem c_direct_edge_when_curve_covered
        (airports : list MainC.Vec) (cosA : R) (a b : MainC.Vec) :
  1e-15 <= cosA -> 1e-12 <= MainC.theta_of a b ->
  (forall t, 0 < t <= MainC.theta_of a b -> c_curve_safe airports cosA a b t) ->
  MainC.direct airports cosA a b = MainC.theta_of a b * MainC.EARTH_R.
Proof. apply c_direct_complete. Qed.

Lemma c_direct_edge_when_curve_covered_witness :
  MainC.direct [MainC.mkVec 1 0 2] 1 (MainC.mkVec 1 0 0) (MainC.mkVec 0 0 1)
  = MainC.theta_of (MainC.mkVec 1 0 0) (MainC.mkVec 0 0 1) * MainC.EARTH_R.
Proof.
  pose proof PI_tight as HP.
  apply (c_direct_edge_when_curve_covered
           [MainC.mkVec 1 0 2] 1 (MainC.mkVec 1 0 0) (MainC.mkVec 0 0 1)).
  - lra.
  - rewrite c_quarter_theta. lra.
  - rewrite c_quarter_theta. intros t Ht. apply c_quarter_curve_safe. lra.
Defined.

(** X11.  Soundness of main.c's edge test, for [cosA >= 1e-15]: if the
    pair has a direct edge (its entry is below [INF]), then every
    parameter [t] in [[0, theta_ab]] is within [1e-12] of a parameter
    [t'] at which the point of the swept curve satisfies
    [dot (P, Ai) >= cosA] for some airport. *)
Theorem c_direct_edge_only_when_curve_covered
        (airports : list MainC.Vec) (cosA : R) (a b : MainC.Vec) (t : R) :
  1e-15 <= cosA ->
  MainC.direct airports cosA a b < MainC.INF ->
  0 <= t <= MainC.theta_of a b ->
  exists t', 0 <= t' <= MainC.theta_of a b /\ Rabs (t - t') <= 1e-12 /\
             c_curve_safe airports cosA a b t'.
Proof. apply c_direct_sound. Qed.

Lemma c_direct_edge_only_when_curve_covered_witness :
  exists t', 0 <= t' <= MainC.theta_of (MainC.mkVec 1 0 0) (MainC.mkVec 0 0 1)
             /\ Rabs (1 - t') <= 1e-12 /\
             c_curve_safe [MainC.mkVec 1 0 2] 1
                          (MainC.mkVec 1 0 0) (MainC.mkVec 0 0 1) t'.
Proof.
  pose proof PI_tight as HP.
  apply (c_direct_edge_only_when_curve_covered
           [MainC.mkVec 1 0 2] 1 (MainC.mkVec 1 0 0) (MainC.mkVec 0 0 1) 1).
  - lra.
  - rewrite c_quarter_direct, c_quarter_theta.
    unfold MainC.EARTH_R, MainC.INF. lra.
  - rewrite c_quarter_theta. lra.
Defined.

(** ** Array bounds and the loops of the search (main.c) *)

(** X12.  With at most [MAXN = 25] airports the arrays of main.c are
    large enough: the node list holds at most [N + N (N - 1)] nodes,
    which is at most 625 and below [MAXV = 700], and the intervals
    gathered for one arc number at most [2 N <= 2 MAXN]. *)
Theorem c_arrays_are_large_enough
        (R0 : Z) (lonlat : list (R * R)) (cosA : R) (a b : MainC.Vec) :
  (length lonlat <= c_MAXN)%nat ->
  (length (MainC.node_list R0 lonlat)
   <= length lonlat + length lonlat * (length lonlat - 1))%nat /\
  (length (MainC.node_list R0 lonlat) <= c_MAXV)%nat /\
  (length (MainC.gather (MainC.airports_of lonlat) cosA a b
                        (MainC.theta_of a b)) <= 2 * c_MAXN)%nat.
Proof.
  intros HN. pose proof (c_node_list_length R0 lonlat) as HV.
  pose proof (c_theta_bounds a b) as [Ht _].
  pose proof (c_gather_length (MainC.airports_of lonlat) cosA a b
                              (MainC.theta_of a b) Ht) as HG.
  unfold MainC.airports_of in HG at 2. rewrite length_map in HG.
  unfold c_MAXN, c_MAXV in *. split; [exact HV|]. split; [nia|lia].
Qed.

Lemma c_arrays_are_large_enough_witness :
  (length (MainC.node_list 100 [(0, 0); (0, 10)]%R)
   <= length [(0, 0); (0, 10)]%R
      + length [(0, 0); (0, 10)]%R
        * (length [(0, 0); (0, 10)]%R - 1))%nat /\
  (length (MainC.node_list 100 [(0, 0); (0, 10)]%R) <= c_MAXV)%nat /\
  (length (MainC.gather (MainC.airports_of [(0, 0); (0, 10)]%R) 1%R
                        (MainC.mkVec 1 0 0) (MainC.mkVec 0 0 1)
                        (MainC.theta_of (MainC.mkVec 1 0 0)
                                        (MainC.mkVec 0 0 1)))
   <= 2 * c_MAXN)%nat.
Proof.
  apply (c_arrays_are_large_enough 100 [(0, 0); (0, 10)] 1
                                   (MainC.mkVec 1 0 0) (MainC.mkVec 0 0 1)).
  unfold c_MAXN. simpl. lia.
Defined.

(** X13.  The selection loop of main.c's search (lines 245-248) returns
    an unused airport whose tentative distance is below [INF] and least
    among the unused ones, and returns none exactly when every unused
    airport is at [INF] or above. *)
Theorem c_select_picks_nearest_unused (N : nat) (st : MainC.dstate) :
  (forall u, fst (MainC.select N st) = Some u ->
             (u < N)%nat /\ snd st u = false /\ fst st u < MainC.INF /\
             forall i, (i < N)%nat -> snd st i = false ->
                       fst st u <= fst st i) /\
  (fst (MainC.select N st) = None <->
   forall i, (i < N)%nat -> snd st i = false -> MainC.INF <= fst st i).
Proof.
  split; [intros u; apply c_select_some|apply c_select_none].
Qed.

(** X14.  The relaxation loop from [u] (lines 251-256), for a matrix
    with entries in [[0, INF]]: afterwards [distN[v]], for [v < N], is
    [distN[u] + AtoA[u][v]] if that leg is within [c + 1e-9] and the sum
    is smaller than the old [distN[v]], and the old value otherwise;
    [distN[u]] itself is read unchanged throughout the loop. *)
Theorem c_relax_from_result (N : nat) (A : nat -> nat -> R) (c : R)
        (u : nat) (d : nat -> R) (v : nat) :
  bounded A ->
  MainC.relax_from N A c u d v
  = if (v <? N)%nat && Rleb (A u v) (c + 1e-9) && Rltb (d u + A u v) (d v)
    then d u + A u v else d v.
Proof. apply relax_from_spec. Qed.

Lemma c_relax_from_result_witness :
  MainC.relax_from 2 (fun _ _ => 0) 1 0 (fun _ => 0) 1
  = if (1 <? 2)%nat && Rleb 0 (1 + 1e-9) && Rltb (0 + 0) 0
    then 0 + 0 else 0.
Proof.
  apply (c_relax_from_result 2 (fun _ _ => 0) 1 0%nat (fun _ => 0) 1%nat).
  intros a b. unfold MainC.INF. lra.
Defined.

(** ** The vertex set of main.cpp *)

(** X19.  [Point::Compare] is irreflexive and asymmetric, and two points
    are equivalent for it (neither precedes the other) exactly when all
    three coordinates agree within [EPS]; this equivalence is not
    transitive, so the comparator is not a strict weak ordering. *)
Theorem cpp_Compare_is_not_a_strict_weak_order :
  (forall p, MainCpp.Compare p p = false) /\
  (forall p q, MainCpp.Compare p q = true -> MainCpp.Compare q p = false) /\
  (forall p q, cpp_equiv p q <-> ~ apart p q) /\
  (exists p q r, cpp_equiv p q /\ cpp_equiv q r /\ ~ cpp_equiv p r).
Proof.
  split; [apply cpp_Compare_irrefl|]. split; [apply cpp_Compare_asym|].
  split; [intros p q; apply cpp_Compare_equiv|].
  destruct cpp_Compare_equiv_not_transitive as [p [q [r [H1 [H2 H3]]]]].
  exists p, q, r. split; [now apply cpp_Compare_equiv|].
  split; [now apply cpp_Compare_equiv|].
  intros [H _]. congruence.
Qed.

(** X20.  When [Point::Compare] is a strict weak ordering on the airports
    and intersection points offered to the set (it is transitive, and so
    is its equivalence: what the library requires of a comparator),
    every airport finds its vertex: the lookup in the vertex map
    succeeds (the default index is never used), the index is in range,
    the vertex found agrees with the airport within [EPS] in every
    coordinate, and no other vertex does. *)
Theorem cpp_every_airport_has_a_vertex
        (airports_xyz : list MainCpp.Point) (R_sphere : R) (i : nat) :
  Compare_transitive_on (candidates airports_xyz R_sphere) ->
  cpp_equiv_transitive_on (candidates airports_xyz R_sphere) ->
  (i < length airports_xyz)%nat ->
  let vs := MainCpp.vertices airports_xyz R_sphere in
  let n := MainCpp.airport_to_vertex_idx airports_xyz vs i in
  let a := nth i airports_xyz (MainCpp.mkPoint 0 0 0) in
  MainCpp.find_vertex a vs = Some n
  /\ (n < length vs)%nat
  /\ ~ apart a (nth n vs (MainCpp.mkPoint 0 0 0))
  /\ forall m, (m < length vs)%nat ->
               ~ apart a (nth m vs (MainCpp.mkPoint 0 0 0)) -> m = n.
Proof.
  intros Htr Heq Hi vs n a.
  destruct (cpp_airport_vertex airports_xyz R_sphere i Hi) as [Hf [Hn Hc]].
  cbv zeta in Hf, Hn, Hc. fold vs in Hf, Hn, Hc. fold n in Hf, Hn, Hc.
  fold a in Hf, Hc.
  split; [exact Hf|]. split; [exact Hn|]. split; [exact Hc|].
  intros m Hm Hma.
  destruct (Nat.eq_dec m n) as [E|E]; [exact E|]. exfalso.
  destruct (cpp_vertices_sorted airports_xyz R_sphere Htr) as [_ Hincl].
  fold vs in Hincl.
  set (d := MainCpp.mkPoint 0 0 0) in *.
  assert (Ia : In a (candidates airports_xyz R_sphere)).
  { unfold candidates. apply in_or_app. left. apply nth_In. exact Hi. }
  assert (Im : In (nth m vs d) (candidates airports_xyz R_sphere))
    by (apply Hincl, nth_In; exact Hm).
  assert (In_ : In (nth n vs d) (candidates airports_xyz R_sphere))
    by (apply Hincl, nth_In; exact Hn).
  apply cpp_Compare_equiv in Hma. apply cpp_Compare_equiv in Hc.
  assert (E1 : cpp_equiv (nth m vs d) (nth n vs d)).
  { apply (Heq _ a _ Im Ia In_); [|exact Hc].
    destruct Hma as [H1 H2]. split; assumption. }
  assert (E2 : cpp_equiv (nth n vs d) (nth m vs d))
    by (destruct E1 as [H1 H2]; split; assumption).
  apply cpp_Compare_equiv in E1. apply cpp_Compare_equiv in E2.
  destruct (Nat.lt_ge_cases m n) as [L|L].
  - apply E1. apply (cpp_vertices_apart airports_xyz R_sphere m n Htr).
    fold vs. lia.
  - apply E2. apply (cpp_vertices_apart airports_xyz R_sphere n m Htr).
    fold vs. lia.
Qed.

Lemma cpp_every_airport_has_a_vertex_witness :
  let airports_xyz := [MainCpp.mkPoint 6370 0 0; MainCpp.mkPoint 6370 0 0;
                       MainCpp.mkPoint 0 0 6370] in
  let vs := MainCpp.vertices airports_xyz 100 in
  let n := MainCpp.airport_to_vertex_idx airports_xyz vs 1 in
  let a := nth 1 airports_xyz (MainCpp.mkPoint 0 0 0) in
  MainCpp.find_vertex a vs = Some n
  /\ (n < length vs)%nat
  /\ ~ apart a (nth n vs (MainCpp.mkPoint 0 0 0))
  /\ forall m, (m < length vs)%nat ->
               ~ apart a (nth m vs (MainCpp.mkPoint 0 0 0)) -> m = n.
Proof.
  destruct cpp_twin_and_pole_ordered as [Htr Heq].
  apply (cpp_every_airport_has_a_vertex
           [MainCpp.mkPoint 6370 0 0; MainCpp.mkPoint 6370 0 0;
            MainCpp.mkPoint 0 0 6370] 100 1).
  - rewrite cpp_twin_and_pole_candidates. exact Htr.
  - rewrite cpp_twin_and_pole_candidates. exact Heq.
  - simpl. lia.
Defined.

(** ** Intervals in main.cpp *)

(** X21.  [merge_intervals] returns an empty list only for an empty
    input; consecutive merged intervals are more than [EPS] apart; every
    input interval lies inside a merged one; and each merged interval
    starts where some input interval starts and ends where some input
    interval ends. *)
Theorem cpp_merge_intervals_result (ivs : list (R * R)) :
  (MainCpp.merge_intervals ivs = [] <-> ivs = []) /\
  Sorted cpp_gap (MainCpp.merge_intervals ivs) /\
  (forall iv, In iv ivs ->
              exists m, In m (MainCpp.merge_intervals ivs)
                        /\ fst m <= fst iv /\ snd iv <= snd m) /\
  (forall m, In m (MainCpp.merge_intervals ivs) ->
             (exists a, In a ivs /\ fst m = fst a) /\
             (exists b, In b ivs /\ snd m = snd b)).
Proof. apply cpp_merge_intervals_facts. Qed.

(** X22.  The merge and scan of [is_arc_safe] decide coverage of
    [[0, 1]], for intervals that end at or after 0 and start at or
    before 1: if the scan succeeds, every parameter in [[0, 1]] is
    within [EPS] of an interval; if every parameter in [(0, 1]] lies in
    an interval, the scan succeeds. *)
Theorem cpp_covers_decides_coverage (ivs : list (R * R)) :
  (forall iv, In iv ivs -> 0 <= snd iv /\ fst iv <= 1) ->
  (MainCpp.covers ivs = true ->
   forall t, 0 <= t <= 1 ->
             exists iv, In iv ivs /\
                        fst iv - MainCpp.EPS <= t <= snd iv + MainCpp.EPS) /\
  ((forall t, 0 < t <= 1 -> exists iv, In iv ivs /\ fst iv <= t <= snd iv) ->
   MainCpp.covers ivs = true).
Proof.
  intros H. split.
  - apply cpp_covers_sound. intros iv Hiv. now apply H.
  - apply cpp_covers_complete. intros iv Hiv. now apply H.
Qed.

Lemma cpp_covers_decides_coverage_witness :
  (MainCpp.covers [(0, 1)] = true ->
   forall t, 0 <= t <= 1 ->
             exists iv, In iv [(0, 1)] /\
                        fst iv - MainCpp.EPS <= t <= snd iv + MainCpp.EPS) /\
  ((forall t, 0 < t <= 1 ->
              exists iv, In iv [(0, 1)] /\ fst iv <= t <= snd iv) ->
   MainCpp.covers [(0, 1)] = true).
Proof.
  apply (cpp_covers_decides_coverage [(0, 1)]).
  intros iv [<-|[]]. simpl. lra.
Defined.

(** X23.  Every interval [get_covered_intervals] returns starts at or
    after 0 and is at least [EPS] long, and the intervals of one call
    follow one another without overlap. *)
Theorem cpp_covered_intervals_wellformed
        (u v k_center : MainCpp.Point) (R_sphere : R) :
  (forall iv, In iv (MainCpp.get_covered_intervals u v k_center R_sphere) ->
              0 <= fst iv /\ fst iv + MainCpp.EPS <= snd iv) /\
  StronglySorted (fun a b : R * R => snd a <= fst b)
                 (MainCpp.get_covered_intervals u v k_center R_sphere).
Proof. apply cpp_get_covered_intervals_shape. Qed.

(** X24.  An arc of length at least [EPS] that [is_arc_safe] accepts has
    every parameter in [[0, 1]] within [EPS] of an interval that
    [get_covered_intervals] returned for some airport. *)
Theorem cpp_safe_arc_is_covered
        (u v : MainCpp.Point) (airports : list MainCpp.Point)
        (R_sphere t : R) :
  MainCpp.EPS <= MainCpp.dist_xyz u v ->
  MainCpp.is_arc_safe u v airports R_sphere = true ->
  0 <= t <= 1 ->
  exists k iv, In k airports /\
               In iv (MainCpp.get_covered_intervals u v k R_sphere) /\
               fst iv - MainCpp.EPS <= t <= snd iv + MainCpp.EPS.
Proof. apply cpp_is_arc_safe_sound. Qed.

Lemma cpp_safe_arc_is_covered_witness :
  exists k iv,
    In k [MainCpp.mkPoint 6370 0 0; MainCpp.mkPoint 0 0 6370] /\
    In iv (MainCpp.get_covered_intervals
             (MainCpp.mkPoint 0 0 6370) (MainCpp.mkPoint 6370 0 0) k 6671) /\
    fst iv - MainCpp.EPS <= 1 / 2 <= snd iv + MainCpp.EPS.
Proof.
  destruct cpp_far_arc_safe as [Hd [_ Hs]].
  apply (cpp_safe_arc_is_covered
           (MainCpp.mkPoint 0 0 6370) (MainCpp.mkPoint 6370 0 0)
           [MainCpp.mkPoint 6370 0 0; MainCpp.mkPoint 0 0 6370] 6671 (1 / 2)
           Hd Hs).
  lra.
Defined.

(** ** Distances and great circles in main.cpp *)

(** X25.  [dist_xyz] is symmetric and lies between 0 and half the
    circumference; a point shorter than [EPS] is normalised to the zero
    vector and reported a quarter of the circumference away from every
    point. *)
Theorem cpp_dist_xyz_facts (p q : MainCpp.Point) :
  MainCpp.dist_xyz p q = MainCpp.dist_xyz q p /\
  0 <= MainCpp.dist_xyz p q <= PI * MainCpp.R_earth /\
  (MainCpp.magnitude p < MainCpp.EPS ->
   MainCpp.dist_xyz p q = PI / 2 * MainCpp.R_earth).
Proof.
  split; [apply cpp_dist_sym|]. split; [apply cpp_dist_xyz_bounds|].
  apply cpp_dist_degenerate.
Qed.

Lemma cpp_quarter_magnitudes :
  MainCpp.EPS <= MainCpp.magnitude (MainCpp.lat_lon_to_xyz 0 0) /\
  MainCpp.EPS <= MainCpp.magnitude (MainCpp.lat_lon_to_xyz 90 0).
Proof.
  rewrite !cpp_lat_lon_magnitude. unfold MainCpp.EPS, MainCpp.R_earth. lra.
Qed.

Lemma cpp_quarter_angle :
  acos (MainCpp.clamp
          (MainCpp.dot (MainCpp.normalize (MainCpp.lat_lon_to_xyz 0 0))
                       (MainCpp.normalize (MainCpp.lat_lon_to_xyz 90 0))))
  = PI / 2.
Proof.
  rewrite cpp_lat_lon_origin, cpp_lat_lon_pole.
  rewrite cpp_normalize_scaled, cpp_normalize_pole.
  replace (MainCpp.dot (MainCpp.mkPoint 1 0 0) (MainCpp.mkPoint 0 0 1)) with 0
    by (unfold MainCpp.dot; cbn [MainCpp.x MainCpp.y MainCpp.z]; ring).
  rewrite cpp_clamp_id by lra. apply acos_0.
Qed.

(** X27.  For two points of length at least [EPS] whose angle [theta]
    and its sine are at least [EPS], [point_at_angle_on_great_circle]
    walks the great circle from the first to the second: the point at
    angle 0 is the first direction, the point at angle [theta] is the
    second, and the point at angle [t] is a unit vector at angle [t]
    from the first direction and [theta - t] from the second. *)
Theorem cpp_point_at_angle_walks_the_arc (u v : MainCpp.Point) (t : R) :
  let theta := acos (MainCpp.clamp (MainCpp.dot (MainCpp.normalize u)
                                                (MainCpp.normalize v))) in
  MainCpp.EPS <= MainCpp.magnitude u -> MainCpp.EPS <= MainCpp.magnitude v ->
  MainCpp.EPS <= theta -> MainCpp.EPS <= sin theta ->
  let P := MainCpp.point_at_angle_on_great_circle u v t in
  MainCpp.point_at_angle_on_great_circle u v 0 = MainCpp.normalize u /\
  MainCpp.point_at_angle_on_great_circle u v theta = MainCpp.normalize v /\
  MainCpp.dot P P = 1 /\
  MainCpp.dot P (MainCpp.normalize u) = cos t /\
  MainCpp.dot P (MainCpp.normalize v) = cos (theta - t).
Proof.
  intros theta Hu Hv Hth Hsin P.
  split; [now apply gc_point_start|].
  split; [now apply gc_point_end|].
  now apply gc_point_facts.
Qed.

Lemma cpp_point_at_angle_walks_the_arc_witness :
  let u := MainCpp.lat_lon_to_xyz 0 0 in
  let v := MainCpp.lat_lon_to_xyz 90 0 in
  let theta := acos (MainCpp.clamp (MainCpp.dot (MainCpp.normalize u)
                                                (MainCpp.normalize v))) in
  let P := MainCpp.point_at_angle_on_great_circle u v 1 in
  MainCpp.point_at_angle_on_great_circle u v 0 = MainCpp.normalize u /\
  MainCpp.point_at_angle_on_great_circle u v theta = MainCpp.normalize v /\
  MainCpp.dot P P = 1 /\
  MainCpp.dot P (MainCpp.normalize u) = cos 1 /\
  MainCpp.dot P (MainCpp.normalize v) = cos (theta - 1).
Proof.
  intros u v theta P. destruct cpp_quarter_magnitudes as [Hu Hv].
  pose proof PI_tight as HP.
  apply (cpp_point_at_angle_walks_the_arc u v 1 Hu Hv).
  - unfold u, v. rewrite cpp_quarter_angle. unfold MainCpp.EPS. lra.
  - unfold u, v. rewrite cpp_quarter_angle, sin_PI2. unfold MainCpp.EPS. lra.
Defined.

(** X28.  Between a point and its antipode the orthogonal basis vector
    is lost: [point_at_angle_on_great_circle] returns [cos t] times the
    start direction, which is the zero vector half way and not a point
    of the sphere. *)
Theorem cpp_point_at_angle_antipodal (u : MainCpp.Point) (t : R) :
  MainCpp.EPS <= MainCpp.magnitude u ->
  MainCpp.point_at_angle_on_great_circle u (MainCpp.pmul u (-1)) t
  = MainCpp.pmul (MainCpp.normalize u) (cos t).
Proof. apply cpp_point_antipodal. Qed.

Lemma cpp_point_at_angle_antipodal_witness :
  MainCpp.point_at_angle_on_great_circle
    (MainCpp.lat_lon_to_xyz 0 0)
    (MainCpp.pmul (MainCpp.lat_lon_to_xyz 0 0) (-1)) (PI / 2)
  = MainCpp.pmul (MainCpp.normalize (MainCpp.lat_lon_to_xyz 0 0))
                 (cos (PI / 2)).
Proof.
  apply (cpp_point_at_angle_antipodal (MainCpp.lat_lon_to_xyz 0 0) (PI / 2)).
  apply cpp_quarter_magnitudes.
Defined.

(** X29.  When two centres of length at least [EPS] are at an angle
    [theta] with [theta >= EPS] and [sin theta >= EPS], the angular
    radius [r] lies in [[0, PI]] and [cos r / cos (theta / 2)] is in the
    domain of [acos], [get_small_circle_intersections] returns at least
    one point, and every point it returns is at great-circle distance
    [R_sphere] from both centres. *)
Theorem cpp_intersection_points_on_both_circles
        (c1 c2 : MainCpp.Point) (R_sphere : R) :
  let r := R_sphere / MainCpp.R_earth in
  let theta := acos (MainCpp.clamp (MainCpp.dot (MainCpp.normalize c1)
                                                (MainCpp.normalize c2))) in
  MainCpp.EPS <= MainCpp.magnitude c1 -> MainCpp.EPS <= MainCpp.magnitude c2 ->
  MainCpp.EPS <= theta -> MainCpp.EPS <= sin theta ->
  0 <= r <= PI ->
  acos_domain (cos r / cos (theta / 2)) ->
  MainCpp.get_small_circle_intersections c1 c2 R_sphere <> [] /\
  forall p, In p (MainCpp.get_small_circle_intersections c1 c2 R_sphere) ->
            exists P, p = Some P /\ MainCpp.dist_xyz P c1 = R_sphere
                      /\ MainCpp.dist_xyz P c2 = R_sphere.
Proof. apply cpp_intersections_on_circles. Qed.

Lemma cpp_intersection_points_on_both_circles_witness :
  let c1 := MainCpp.lat_lon_to_xyz 0 0 in
  let c2 := MainCpp.lat_lon_to_xyz 90 0 in
  let R_sphere := PI / 2 * 6370 in
  MainCpp.get_small_circle_intersections c1 c2 R_sphere <> [] /\
  forall p, In p (MainCpp.get_small_circle_intersections c1 c2 R_sphere) ->
            exists P, p = Some P /\ MainCpp.dist_xyz P c1 = R_sphere
                      /\ MainCpp.dist_xyz P c2 = R_sphere.
Proof.
  intros c1 c2 R_sphere. destruct cpp_quarter_magnitudes as [H1 H2].
  pose proof PI_tight as HP.
  assert (Er : R_sphere / MainCpp.R_earth = PI / 2)
    by (unfold R_sphere, MainCpp.R_earth; field).
  apply (cpp_intersection_points_on_both_circles c1 c2 R_sphere H1 H2).
  - unfold c1, c2. rewrite cpp_quarter_angle. unfold MainCpp.EPS. lra.
  - unfold c1, c2. rewrite cpp_quarter_angle, sin_PI2. unfold MainCpp.EPS. lra.
  - rewrite Er. lra.
  - rewrite Er, cos_PI2. unfold acos_domain, Rdiv. rewrite Rmult_0_l. lra.
Defined.
